(** * adelson-localization: key resolution, placeholder formatting, plural
    selection and document merging

    A shallow embedding of the extensions of [String.prototype]
    (src/stringHelpers.ts), of [deepMerge] and [strictDeepMerge]
    (src/objectHelpers.ts) and, from the hook [useLanguage]
    (useLanguage.ts), of the two lookup closures [ln] and [lnPlural], of
    [loadTranslations] and of the poll of the hot reload, followed by the
    properties of the specification that concern them and by further
    properties of the code.

    Modelling conventions.
    - A JavaScript value is a [value]: [undefined], [null], booleans,
      numbers, strings, arrays and objects, as [JSON.parse] and literals
      without methods give them; no value is a function.  An object is the
      list of its own enumerable properties, distinct keys in the order in
      which they were added, and its prototype is [Object.prototype];
      where the source runs [for ... in] over a result of its own, the
      order of the keys decides only the order of the keys of what it
      builds.
    - A method call is dispatched on its receiver: [x.hasOwnProperty(k)]
      calls the member [x] has under that name, which is the method of
      [Object.prototype] unless [x] owns a property ["hasOwnProperty"],
      and then the call is a [TypeError]; [ToString] of an object calls
      its [toString] in the same way.
    - A read of a name that is not an own property goes on in the
      prototypes.  Where the source converts what it has read to a string
      ([format]) the inherited members are a parameter, the class
      [Inherited]; where it calls it ([PLURAL_RULES]) or passes it on
      ([deepMerge]) the members of [Object.prototype] are spelled out.
    - An assignment makes or changes an own property, except
      [result["__proto__"] = v] on an object that does not own the name:
      that one goes to the accessor of [Object.prototype], which does
      nothing for a primitive [v] and replaces the prototype of [result]
      for an object or [null].  An object with another prototype is no
      [value]: [deepMerge] has no answer there, [None].
    - A number is a rational or one of [NaN], [+Infinity], [-Infinity];
      comparisons are exact.  The decimal rendering of a number
      ([Number::toString]) is a parameter, the class [NumberToString].
    - A string is a sequence of 8-bit code units.  White space is what
      [trim] and [\s] take for it among these units; the capitals of the two
      units whose capital is not an 8-bit unit are a parameter, the class
      [UpperCase].
    - Code that throws returns a [result].  The state of the hook
      ([data], [language], [loadingResource]) is what the closures [ln] and
      [lnPlural] hold of it when they are called, which for [ln],
      memoised on [data], need not be the state of the last render; an
      asynchronous function is the list of the calls it makes until its
      promise settles.
    - Code that mutates objects shared with its caller runs on an explicit
      [store] of cells with identity; recursion that is not on a part of an
      argument is counted with fuel, and shown to return with enough of
      it. *)

From Stdlib Require Import QArith Ascii.
From stdpp Require Import gmap strings list pretty.

Local Open Scope Z_scope.
Local Open Scope nat_scope.

(** ** Numbers *)

Inductive number :=
  | NFin (q : Q)
  | NNaN
  | NInf (negative : bool).

(** [a <= b] on numbers. *)
Definition number_le (a b : number) : bool :=
  match a, b with
  | NNaN, _ | _, NNaN => false
  | NFin p, NFin q => Qle_bool p q
  | NInf true, _ => true
  | _, NInf false => true
  | NInf false, _ => false
  | _, NInf true => false
  end.

(** [a === b] on numbers. *)
Definition number_eq (a b : number) : bool :=
  match a, b with
  | NFin p, NFin q => Qeq_bool p q
  | NInf s, NInf t => Bool.eqb s t
  | _, _ => false
  end.

Definition number_of_nat (n : nat) : number := NFin (inject_Z (Z.of_nat n)).
Definition number_of_Z (z : Z) : number := NFin (inject_Z z).

(** [Number::toString], left abstract. *)
Class NumberToString := number_to_string : number → string.

(** ** Values *)

Unset Elimination Schemes.
Inductive value :=
  | VUndefined
  | VNull
  | VBool (b : bool)
  | VNumber (n : number)
  | VString (s : string)
  | VArray (elems : list value)
  | VObject (props : list (string * value)).
Set Elimination Schemes.

Abbreviation props := (list (string * value)).

(** What a call can throw: a [TypeError] of the runtime, or the operand of a
    [throw] statement. *)
Inductive exn :=
  | TypeError
  | Thrown (v : value).

Inductive result (A : Type) :=
  | Ok (a : A)
  | Throw (e : exn).
Arguments Ok {A} a.
Arguments Throw {A} e.

Definition bind {A B} (r : result A) (k : A → result B) : result B :=
  match r with
  | Ok a => k a
  | Throw e => Throw e
  end.

(** [typeof v]. *)
Definition typeof (v : value) : string :=
  match v with
  | VUndefined => "undefined"
  | VNull | VArray _ | VObject _ => "object"
  | VBool _ => "boolean"
  | VNumber _ => "number"
  | VString _ => "string"
  end.

(** [ToBoolean]: what [!v], [v || w] and [v ? a : b] test. *)
Definition truthy (v : value) : bool :=
  match v with
  | VUndefined | VNull => false
  | VBool b => b
  | VNumber (NFin q) => negb (Qeq_bool q 0)
  | VNumber NNaN => false
  | VNumber (NInf _) => true
  | VString s => negb (String.eqb s "")
  | VArray _ | VObject _ => true
  end.

(** [v || w]. *)
Definition or_else (v w : value) : value := if truthy v then v else w.

(** The test both mergers write out:
    [typeof v === 'object' && v !== null && !Array.isArray(v)]. *)
Definition is_document (v : value) : bool :=
  match v with VObject _ => true | _ => false end.

Definition is_nullish (v : value) : bool :=
  match v with VUndefined | VNull => true | _ => false end.

(** [separator]-joined strings, as [Array.prototype.join] joins them. *)
Fixpoint join (sep : string) (parts : list string) : string :=
  match parts with
  | [] => ""
  | [p] => p
  | p :: ps => p +:+ sep +:+ join sep ps
  end.

(** ** Own properties *)

(** The index an array or string of length [len] owns under the name [k]:
    [k] is the canonical decimal numeral of an index below [len]. *)
Definition index_of_key (k : string) (len : nat) : option nat :=
  find (λ i, String.eqb (pretty i) k) (seq 0 len).

Definition index_keys (len : nat) : list string :=
  map pretty (seq 0 len).

Fixpoint lookup_prop (k : string) (ps : props) : option value :=
  match ps with
  | [] => None
  | (k', v) :: ps' => if String.eqb k' k then Some v else lookup_prop k ps'
  end.

Fixpoint string_nth (i : nat) (s : string) : option ascii :=
  match s, i with
  | EmptyString, _ => None
  | String c _, 0 => Some c
  | String _ s', S i' => string_nth i' s'
  end.

(** [Object.prototype.hasOwnProperty] with [this = v], for [v] other than
    [null] and [undefined]. *)
Definition has_own (v : value) (k : string) : bool :=
  match v with
  | VObject ps => bool_decide (is_Some (lookup_prop k ps))
  | VArray elems =>
      String.eqb k "length" || bool_decide (is_Some (index_of_key k (length elems)))
  | VString s =>
      String.eqb k "length" || bool_decide (is_Some (index_of_key k (String.length s)))
  | _ => false
  end.

(** [v[k]] where [v], other than [null] and [undefined], owns [k], and
    [undefined] where it does not. *)
Definition get (v : value) (k : string) : value :=
  match v with
  | VObject ps => default VUndefined (lookup_prop k ps)
  | VArray elems =>
      if String.eqb k "length" then VNumber (number_of_nat (length elems))
      else default VUndefined (i ← index_of_key k (length elems); elems !! i)
  | VString s =>
      if String.eqb k "length" then VNumber (number_of_nat (String.length s))
      else default VUndefined
             (i ← index_of_key k (String.length s);
              c ← string_nth i s; Some (VString (String c "")))
  | _ => VUndefined
  end.

(** An object owns a property of the name [name]; arrays and strings own
    their indices and ["length"] only. *)
Definition owns (v : value) (name : string) : bool :=
  match v with
  | VObject ps => bool_decide (is_Some (lookup_prop name ps))
  | _ => false
  end.

(** [v.hasOwnProperty(k)].  The member is read first: a [TypeError] on
    [null] and [undefined]; on an object that owns a property named
    ["hasOwnProperty"] it is that property, and since no value of the
    embedding is a function the call of it is a [TypeError]; every other
    value inherits the method of [Object.prototype]. *)
Definition hasOwnProperty (v : value) (k : string) : result bool :=
  if is_nullish v then Throw TypeError
  else if owns v "hasOwnProperty" then Throw TypeError
  else Ok (has_own v k).

(** [v?.hasOwnProperty(k)] in a boolean context: [undefined], hence false,
    on [null] and [undefined]. *)
Definition opt_hasOwnProperty (v : value) (k : string) : result bool :=
  if is_nullish v then Ok false else hasOwnProperty v k.

(** [v?.[k]]. *)
Definition opt_get (v : value) (k : string) : value :=
  if is_nullish v then VUndefined else get v k.

(** The names [for (const key in v)] visits, in order. *)
Definition enumerable_keys (v : value) : list string :=
  match v with
  | VObject ps => map fst ps
  | VArray elems => index_keys (length elems)
  | VString s => index_keys (String.length s)
  | _ => []
  end.

(** [o[k] = v] on the own properties of a plain object: an existing
    property keeps its place, a new one goes last. *)
Fixpoint set_prop (k : string) (v : value) (ps : props) : props :=
  match ps with
  | [] => [(k, v)]
  | (k', v') :: ps' =>
      if String.eqb k' k then (k, v) :: ps' else (k', v') :: set_prop k v ps'
  end.

(** ** Conversion to a string, and inherited members *)

Section ToString.
Context `{NumberToString}.

(** [ToString(v)], applied by template literals and by [String.replace]
    to what its callback returns.  An array is its elements joined by a
    comma, [null] and [undefined] elements giving the empty string.  An
    object is converted by its [toString]: the method of
    [Object.prototype], which answers ["[object Object]"], unless the
    object owns a property of that name; that one is no function, and then
    neither what the object has for [valueOf] gives a primitive: a
    [TypeError]. *)
Fixpoint to_string (v : value) : result string :=
  match v with
  | VUndefined => Ok "undefined"
  | VNull => Ok "null"
  | VBool true => Ok "true"
  | VBool false => Ok "false"
  | VNumber n => Ok (number_to_string n)
  | VString s => Ok s
  | VArray elems =>
      bind
        ((fix elements (es : list value) : result (list string) :=
            match es with
            | [] => Ok []
            | e :: es' =>
                bind (if is_nullish e then Ok "" else to_string e) (λ s,
                bind (elements es') (λ ss, Ok (s :: ss)))
            end) elems)
        (λ parts, Ok (join "," parts))
  | VObject ps =>
      if bool_decide (is_Some (lookup_prop "toString" ps)) then Throw TypeError
      else Ok "[object Object]"
  end.
End ToString.

(** What a value inherits.  A read [v[name]] of a name that [v] does not
    own goes on in the prototypes of [v]: [Object.prototype] for an
    object, before it [Array.prototype], [String.prototype] (to which
    [stringHelpExtensions] adds its own methods), [Number.prototype] or
    [Boolean.prototype] for an array, a string, a number or a boolean.
    For a name made of letters and digits what is found there, if
    anything, is a function.  [inherited_member v name] is the text that
    [ToString] gives for it, [None] when [v] inherits no member of that
    name.  Which names these are beyond those of the language standard,
    and the text of a built-in function, depend on the engine: a
    parameter. *)
Class Inherited := inherited_member : value → string → option string.

(** ** [String.prototype.format] (stringHelpers.ts) *)

Definition is_alnum (c : ascii) : bool :=
  let n := nat_of_ascii c in
  ((48 <=? n) && (n <=? 57)) || ((65 <=? n) && (n <=? 90))
  || ((97 <=? n) && (n <=? 122)).

(** The longest run of [[a-zA-Z0-9]] at the head of [s], and what follows. *)
Fixpoint take_alnum (s : string) : string * string :=
  match s with
  | String c s' =>
      if is_alnum c then let '(name, rest) := take_alnum s' in (String c name, rest)
      else ("", s)
  | EmptyString => ("", "")
  end.

(** A match of the pattern of [format] (two opening braces, a possibly
    empty run of letters and digits, two closing braces) anchored at the head
    of [s]: the captured name. *)
Definition match_placeholder (s : string) : option string :=
  match s with
  | String "{" (String "{" r) =>
      let '(name, rest) := take_alnum r in
      match rest with
      | String "}" (String "}" _) => Some name
      | _ => None
      end
  | _ => None
  end.

(** The template as the global regular expression cuts it: the characters
    outside every match, and the matches with their capture. *)
Inductive piece :=
  | Lit (c : ascii)
  | Placeholder (name : string).

(** Left-to-right scan; [skip] counts the characters still covered by the
    match found last. *)
Fixpoint scan (skip : nat) (s : string) : list piece :=
  match s with
  | EmptyString => []
  | String c s' =>
      match skip with
      | S k => scan k s'
      | 0 =>
          match match_placeholder s with
          | Some name => Placeholder name :: scan (String.length name + 3) s'
          | None => Lit c :: scan 0 s'
          end
      end
  end.

(** The text of a match, what the callback's [match] parameter holds. *)
Definition placeholder_text (name : string) : string :=
  "{{" +:+ name +:+ "}}".

Section Format.
Context `{NumberToString} `{Inherited}.

(** [typeof namedArgs[key] !== 'undefined' ? namedArgs[key] : match],
    converted to a string: the own property of [namedArgs] if it has one,
    else the member it inherits; [None] stands for [match]. *)
Definition named_replacement (namedArgs : value) (key : string)
    : result (option string) :=
  if has_own namedArgs key then
    let v := get namedArgs key in
    if String.eqb (typeof v) "undefined" then Ok None
    else bind (to_string v) (λ text, Ok (Some text))
  else Ok (inherited_member namedArgs key).

(** The callback of [replace], run over the pieces in order; [args] is
    the rest array it shifts.  What the callback returns is converted to a
    string before the next match is handled, and a conversion that throws
    ends the call. *)
Fixpoint replace_pieces (namedArgs : value) (ps : list piece)
    (args : list value) : result string :=
  match ps with
  | [] => Ok ""
  | Lit c :: ps' =>
      bind (replace_pieces namedArgs ps' args) (λ rest, Ok (String c rest))
  | Placeholder key :: ps' =>
      if String.eqb key "" then
        match args with
        | a :: shifted =>
            if String.eqb (typeof a) "undefined"
            then bind (replace_pieces namedArgs ps' args)
                   (λ rest, Ok (placeholder_text key +:+ rest))
            else bind (to_string a) (λ text,
                 bind (replace_pieces namedArgs ps' shifted)
                   (λ rest, Ok (text +:+ rest)))
        | [] => bind (replace_pieces namedArgs ps' args)
                  (λ rest, Ok (placeholder_text key +:+ rest))
        end
      else
        bind (named_replacement namedArgs key) (λ replacement,
        bind (replace_pieces namedArgs ps' args) (λ rest,
          Ok (default (placeholder_text key) replacement +:+ rest)))
  end.

(** [template.format(...args)]. *)
Definition format (template : string) (args : list value) : result string :=
  let namedArgs := or_else (List.last args VUndefined) (VObject []) in
  replace_pieces namedArgs (scan 0 template) args.

(** The substitution written by position, for comparison with [format]:
    the indexed token number [k] takes [positional !! k], a named token
    takes the member of [bag] of its name, and a token with neither
    stays as it is. *)
Fixpoint substitute (bag : value) (positional : list value) (k : nat)
    (ps : list piece) : result string :=
  match ps with
  | [] => Ok ""
  | Lit c :: ps' =>
      bind (substitute bag positional k ps') (λ rest, Ok (String c rest))
  | Placeholder name :: ps' =>
      if String.eqb name "" then
        bind (match positional !! k with
              | Some a => to_string a
              | None => Ok (placeholder_text name)
              end) (λ text,
        bind (substitute bag positional (S k) ps') (λ rest, Ok (text +:+ rest)))
      else
        bind (named_replacement bag name) (λ replacement,
        bind (substitute bag positional k ps') (λ rest,
          Ok (default (placeholder_text name) replacement +:+ rest)))
  end.
End Format.

(** The arguments before the first [undefined] one. *)
Fixpoint until_undefined (args : list value) : list value :=
  match args with
  | [] => []
  | a :: args' =>
      if String.eqb (typeof a) "undefined" then [] else a :: until_undefined args'
  end.
(** ** [ln] and [lnPlural] (useLanguage.ts) *)

(** [key.split(".")]. *)
Fixpoint split_dot (s : string) : list string :=
  match s with
  | EmptyString => [""]
  | String c s' =>
      if Ascii.eqb c "." then "" :: split_dot s'
      else match split_dot s' with
           | seg :: segs => String c seg :: segs
           | [] => [String c ""]
           end
  end.

(** White space and line terminators among the 8-bit code units. *)
Definition is_whitespace (c : ascii) : bool :=
  bool_decide (nat_of_ascii c ∈ [9; 10; 11; 12; 13; 32; 160]).

Fixpoint trimStart (s : string) : string :=
  match s with
  | String c s' => if is_whitespace c then trimStart s' else s
  | EmptyString => ""
  end.

Fixpoint trimEnd (s : string) : string :=
  match s with
  | EmptyString => ""
  | String c s' =>
      let t := trimEnd s' in
      if is_whitespace c && String.eqb t "" then "" else String c t
  end.

Definition one : number := NFin 1.

Definition default_rule (count : number) : string :=
  if number_eq count one then "singular" else "plural".

(** The module-level table of plural rules, in source order. *)
Definition PLURAL_RULES : list (string * (number → string)) :=
  [ ("fr", λ count, if number_le count one then "singular" else "plural");
    ("es", λ count, if number_eq count one then "singular" else "plural");
    ("en", λ count, if number_eq count one then "singular" else "plural");
    ("de", λ count, if number_eq count one then "singular" else "plural");
    ("it", λ count, if number_eq count one then "singular" else "plural");
    ("pt", λ count, if number_eq count one then "singular" else "plural");
    ("nl", λ count, if number_eq count one then "singular" else "plural");
    ("default", default_rule) ].

Fixpoint lookup_rule (name : string) (table : list (string * (number → string)))
    : option (number → string) :=
  match table with
  | [] => None
  | (k, r) :: table' => if String.eqb k name then Some r else lookup_rule name table'
  end.

(** [PLURAL_RULES] is an object literal, so that [PLURAL_RULES[name]] for
    a [name] that is not one of its entries reads [Object.prototype].  What
    it finds there: the function [Object] under ["constructor"], the
    methods [toString] and [isPrototypeOf], the other methods, all of which
    begin by converting [this] to an object, and [Object.prototype] itself
    under ["__proto__"]. *)
Inductive rule_member :=
  | TableRule (rule : number → string)
  | ObjectConstructor
  | ObjectToString
  | ObjectIsPrototypeOf
  | ObjectMethod
  | ObjectPrototype
  | NoMember.

(** The names of the members of [Object.prototype] other than
    [constructor], [toString], [isPrototypeOf] and [__proto__]. *)
Definition object_methods : list string :=
  [ "valueOf"; "hasOwnProperty"; "propertyIsEnumerable"; "toLocaleString";
    "__defineGetter__"; "__defineSetter__"; "__lookupGetter__";
    "__lookupSetter__" ].

(** The names under which an object inherits a member of
    [Object.prototype]. *)
Definition object_prototype_names : list string :=
  ["constructor"; "toString"; "isPrototypeOf"; "__proto__"] ++ object_methods.

(** [PLURAL_RULES[name]]. *)
Definition read_rule (name : string) : rule_member :=
  match lookup_rule name PLURAL_RULES with
  | Some rule => TableRule rule
  | None =>
      if String.eqb name "constructor" then ObjectConstructor
      else if String.eqb name "toString" then ObjectToString
      else if String.eqb name "isPrototypeOf" then ObjectIsPrototypeOf
      else if String.eqb name "__proto__" then ObjectPrototype
      else if bool_decide (name ∈ object_methods) then ObjectMethod
      else NoMember
  end.

Record language_state := { language_key : string }.

Section UseLanguage.
Context `{NumberToString} `{Inherited}.

(** The state of the hook as the two closures hold it. *)
Variable data : value.
Variable language : language_state.
Variable loadingResource : bool.

Definition emptyString : string := "".

(** The body of the [while] loop of [ln], over the segments after the
    first: the [throw] inside it ends the walk, and so does a [TypeError]
    of the call of [hasOwnProperty]. *)
Fixpoint descend (current : value) (segments : list string) : result value :=
  match segments with
  | [] => Ok current
  | keyPart :: segments' =>
      bind (opt_hasOwnProperty current keyPart) (λ own,
        if negb own
        then Throw (Thrown (VString (keyPart +:+ " should be a property of the value object")))
        else descend (opt_get current keyPart) segments')
  end.

(** [defaultTxt ? `${defaultTxt}`.format(...args) : key]. *)
Definition fallback (defaultTxt : value) (key : string) (args : list value)
    : result value :=
  if truthy defaultTxt
  then bind (to_string defaultTxt) (λ text,
       bind (format text args) (λ formatted, Ok (VString formatted)))
  else Ok (VString key).

Definition ln (key : string) (args : list value) : result value :=
  let splitKey := split_dot key in
  let lastArg := List.last args VUndefined in
  bind
    (if (0 <? length args) && String.eqb (typeof lastArg) "object"
     then hasOwnProperty lastArg "defaultTxt" else Ok false)
    (λ override,
      let defaultTxt := if override then get lastArg "defaultTxt" else VString emptyString in
      if override && (negb (truthy data) || loadingResource) then Ok (VString emptyString)
      else if negb (truthy data) && loadingResource then Ok (VString emptyString)
      else
        let keyPart := trimEnd (trimStart (hd "" splitKey)) in
        if String.eqb keyPart "" then Ok (VString "unknown")
        else
          bind (opt_hasOwnProperty data keyPart) (λ own,
            if negb own then fallback defaultTxt key args
            else
              bind
                (match descend (opt_get data keyPart) (tl splitKey) with
                 | Ok found => Ok found
                 | Throw _ => fallback defaultTxt key args
                 end)
                (λ found,
                  if String.eqb (typeof found) "string"
                  then bind (to_string found) (λ text,
                       bind (format text args) (λ formatted, Ok (VString formatted)))
                  else Ok found))).

(** [PLURAL_RULES[language.key] || PLURAL_RULES.default], called with
    [count], and the result as the template literal
    [`${key}.${form}`] converts it.  The call is a plain one: [this] is
    [undefined].  [Object(count)] is a number object, which converts like
    [count]; [Object.prototype.toString] answers for [undefined];
    [isPrototypeOf] answers [false] for what is no object; the other
    methods throw where they convert [this], and [Object.prototype] is no
    function. *)
Definition plural_form (name : string) (count : number) : result string :=
  match read_rule name with
  | TableRule rule => Ok (rule count)
  | NoMember => Ok (default_rule count)
  | ObjectConstructor => Ok (number_to_string count)
  | ObjectToString => Ok "[object Undefined]"
  | ObjectIsPrototypeOf => Ok "false"
  | ObjectMethod | ObjectPrototype => Throw TypeError
  end.

Definition lnPlural (key : string) (count : number) (args : list value)
    : result value :=
  bind (plural_form (language_key language) count) (λ form,
    let pluralKey := key +:+ "." +:+ form in
    ln pluralKey (VNumber count :: args)).
End UseLanguage.

(** ** The depth of a value

    The nested call [deepMerge(result[key] || {}, obj[key])] is not on a
    part of an argument: the embedding counts the nesting of calls with
    [fuel], and the depth of the arguments is enough of it
    ([deepMerge_fuel_answers]). *)

(** The nesting depth of a value: 0 for a primitive and for an empty array
    or object. *)
Fixpoint depth (v : value) : nat :=
  match v with
  | VArray elems =>
      (fix go (vs : list value) : nat :=
         match vs with
         | [] => 0
         | v :: vs' => Nat.max (S (depth v)) (go vs')
         end) elems
  | VObject ps =>
      (fix go (ps : props) : nat :=
         match ps with
         | [] => 0
         | (_, v) :: ps' => Nat.max (S (depth v)) (go ps')
         end) ps
  | _ => 0
  end.

#[global] Arguments depth : simpl never.

Definition max_depth (vs : list value) : nat :=
  foldr (λ v d, Nat.max (depth v) d) 0 vs.

(** ** The store: objects with identity

    [strictDeepMerge] writes into the object it is given, and [deepMerge]
    hands out the arrays of its arguments without copying them.  A [store]
    maps locations to cells; a property or variable holds a primitive or a
    reference. *)

Abbreviation loc := nat.

Inductive sval :=
  | SUndefined
  | SNull
  | SBool (b : bool)
  | SNumber (n : number)
  | SString (s : string)
  | SRef (l : loc).

Inductive cell :=
  | CObject (props : list (string * sval))
  | CArray (elems : list sval).

Abbreviation store := (gmap loc cell).

Definition s_typeof (v : sval) : string :=
  match v with
  | SUndefined => "undefined"
  | SNull | SRef _ => "object"
  | SBool _ => "boolean"
  | SNumber _ => "number"
  | SString _ => "string"
  end.

Definition s_truthy (v : sval) : bool :=
  match v with
  | SUndefined | SNull => false
  | SBool b => b
  | SNumber n => truthy (VNumber n)
  | SString s => truthy (VString s)
  | SRef _ => true
  end.

(** [typeof v === 'object' && v !== null && !Array.isArray(v)] in store [h]. *)
Definition s_is_document (h : store) (v : sval) : bool :=
  match v with
  | SRef l => match h !! l with Some (CObject _) => true | _ => false end
  | _ => false
  end.

Fixpoint s_lookup_prop (k : string) (ps : list (string * sval)) : option sval :=
  match ps with
  | [] => None
  | (k', v) :: ps' => if String.eqb k' k then Some v else s_lookup_prop k ps'
  end.

Fixpoint s_set_prop (k : string) (v : sval) (ps : list (string * sval))
    : list (string * sval) :=
  match ps with
  | [] => [(k, v)]
  | (k', v') :: ps' =>
      if String.eqb k' k then (k, v) :: ps' else (k', v') :: s_set_prop k v ps'
  end.

(** [hasOwnProperty], [c[k]], the names of [for ... in] and of
    [Object.keys], and [c[k] = v], on a cell. *)
Definition cell_has_own (c : cell) (k : string) : bool :=
  match c with
  | CObject ps => bool_decide (is_Some (s_lookup_prop k ps))
  | CArray elems =>
      String.eqb k "length" || bool_decide (is_Some (index_of_key k (length elems)))
  end.

Definition cell_get (c : cell) (k : string) : sval :=
  match c with
  | CObject ps => default SUndefined (s_lookup_prop k ps)
  | CArray elems =>
      if String.eqb k "length" then SNumber (number_of_nat (length elems))
      else default SUndefined (i ← index_of_key k (length elems); elems !! i)
  end.

Definition cell_keys (c : cell) : list string :=
  match c with
  | CObject ps => map fst ps
  | CArray elems => index_keys (length elems)
  end.

(** Assignment to an own property; the mergers assign to an array only at
    an index it owns. *)
Definition cell_set (c : cell) (k : string) (v : sval) : cell :=
  match c with
  | CObject ps => CObject (s_set_prop k v ps)
  | CArray elems =>
      match index_of_key k (length elems) with
      | Some i => CArray (<[i := v]> elems)
      | None => CArray elems
      end
  end.

(** [object[k] = v] for the object at [l]. *)
Definition store_set (h : store) (l : loc) (k : string) (v : sval) : option store :=
  c ← h !! l; Some (<[l := cell_set c k v]> h).

(** A new empty object [{}]. *)
Definition alloc_empty (h : store) : loc * store :=
  let l := fresh (dom h) in (l, <[l := CObject []]> h).

(** ** [deepMerge] (objectHelpers.ts) on values

    [deepMerge] only reads its arguments and writes the object it creates,
    so its result is a function of the values of its arguments.  The nested
    call [deepMerge(result[key] || {}, obj[key])] is not on a part of an
    argument: the embedding counts the nesting of calls with [fuel], and
    [deepMerge] supplies enough of it.

    Every object of the embedding has the prototype [Object.prototype].
    One call of the source leaves this frame: [result["__proto__"] = v]
    does not make a property, it calls the setter that [result] inherits,
    which makes [v] the prototype of [result] when [v] is an object or
    [null] and does nothing otherwise.  For the first case the functions
    have no answer, [None]; where no argument has a key ["__proto__"]
    [deepMerge] answers ([deepMerge_fuel_answers]). *)

(** The object [result] while it is built: its properties, or the
    exception that ended the call. *)
Definition merging : Type := option (result props).

Section DeepMergeBody.
(** The recursive call. *)
Variable recurse : list value → option (result value).

(** One turn of [for (const key in obj)].  [obj.hasOwnProperty] is the
    member [obj] has under that name.  In [result[key] || {}] a member that
    [result] inherits from [Object.prototype] under [key] is a function,
    which the nested call passes over as it finds nothing in [{}]; under
    ["__proto__"] it is [Object.prototype] itself, in which [for ... in]
    finds nothing, so that the nested call merges [obj[key]] alone. *)
Definition merge_key (obj : value) (result : merging) (key : string)
    : merging :=
  match result with
  | Some (Ok result) =>
      match hasOwnProperty obj key with
      | Throw e => Some (Throw e)
      | Ok false => Some (Ok result)
      | Ok true =>
          if is_document (get obj key) then
            if String.eqb key "__proto__" then
              match recurse [get obj key] with
              | Some (Throw e) => Some (Throw e)
              | _ => None
              end
            else
              match recurse [or_else (get (VObject result) key) (VObject []);
                             get obj key] with
              | Some (Ok merged) => Some (Ok (set_prop key merged result))
              | Some (Throw e) => Some (Throw e)
              | None => None
              end
          else if String.eqb key "__proto__" then
            if String.eqb (typeof (get obj key)) "object" then None
            else Some (Ok result)
          else Some (Ok (set_prop key (get obj key) result))
      end
  | _ => result
  end.

(** One turn of [for (const obj of objects)]. *)
Definition merge_object (result : merging) (obj : value) : merging :=
  if negb (truthy obj) || negb (String.eqb (typeof obj) "object") then result
  else fold_left (merge_key obj) (enumerable_keys obj) result.
End DeepMergeBody.

Fixpoint deepMerge_fuel (fuel : nat) (objects : list value)
    : option (result value) :=
  match fuel with
  | 0 => None
  | S fuel' =>
      match fold_left (merge_object (deepMerge_fuel fuel')) objects (Some (Ok [])) with
      | Some (Ok result) => Some (Ok (VObject result))
      | Some (Throw e) => Some (Throw e)
      | None => None
      end
  end.

(** [deepMerge(...objects)]. *)
Definition deepMerge (objects : list value) : option (result value) :=
  deepMerge_fuel (S (max_depth objects)) objects.

(** ** The mergers on the store

    A run of a merger on the store goes on, or has been ended by an
    exception; what was written before that stays written. *)
Inductive run :=
  | Going (h : store)
  | Halted (e : exn) (h : store).

(** The object in a cell owns a property of the name [name]. *)
Definition cell_owns (c : cell) (name : string) : bool :=
  match c with
  | CObject ps => bool_decide (is_Some (s_lookup_prop name ps))
  | CArray _ => false
  end.

(** *** [deepMerge] on the store

    In [result[key] || {}] the empty object is made only when [result[key]]
    is falsy.  Where [result] has no property [key] of its own and
    inherits a member under that name, the first argument of the nested
    call is that member, a function, which the nested call passes over:
    it is left out here. *)

Section DeepMergeStore.
Variable recurse : list sval → store → option (result loc * store).
(** The object created by [const result: any = {}]. *)
Variable result : loc.

Definition s_merge_key (obj : loc) (st : option run) (key : string)
    : option run :=
  match st with
  | Some (Going h) =>
      c ← h !! obj;
      if cell_owns c "hasOwnProperty" then Some (Halted TypeError h)
      else if negb (cell_has_own c key) then Some (Going h)
      else
        let incoming := cell_get c key in
        if s_is_document h incoming then
          if String.eqb key "__proto__" then
            match recurse [incoming] h with
            | Some (Throw e, h1) => Some (Halted e h1)
            | _ => None
            end
          else
            rc ← h !! result;
            let accumulated := cell_get rc key in
            let '(first, h1) :=
              if s_truthy accumulated then ([accumulated], h)
              else if negb (cell_has_own rc key)
                      && bool_decide (key ∈ object_prototype_names)
              then ([], h)
              else let '(e, h1) := alloc_empty h in ([SRef e], h1) in
            match recurse (first ++ [incoming]) h1 with
            | Some (Ok merged, h2) => Going <$> store_set h2 result key (SRef merged)
            | Some (Throw e, h2) => Some (Halted e h2)
            | None => None
            end
        else if String.eqb key "__proto__" then
          if String.eqb (s_typeof incoming) "object" then None
          else Some (Going h)
        else Going <$> store_set h result key incoming
  | _ => st
  end.

Definition s_merge_object (st : option run) (obj : sval) : option run :=
  if negb (s_truthy obj) || negb (String.eqb (s_typeof obj) "object") then st
  else
    match obj, st with
    | SRef l, Some (Going h) =>
        c ← h !! l;
        fold_left (s_merge_key l) (cell_keys c) st
    | _, _ => st
    end.
End DeepMergeStore.

Fixpoint deepMerge_st (fuel : nat) (objects : list sval) (h : store)
    : option (result loc * store) :=
  match fuel with
  | 0 => None
  | S fuel' =>
      let '(result, h0) := alloc_empty h in
      match fold_left (s_merge_object (deepMerge_st fuel') result) objects
              (Some (Going h0)) with
      | Some (Going h') => Some (Ok result, h')
      | Some (Halted e h') => Some (Throw e, h')
      | None => None
      end
  end.

(** *** [strictDeepMerge] on the store

    The type parameter [T extends Record<string, any>] makes the target an
    object: a location.  Here every assignment is to a property that the
    target owns. *)

Section StrictDeepMergeStore.
Variable recurse : loc → list sval → store → option (result sval * store).
Variable target : loc.

(** One turn of [for (const key in target)]; [source.hasOwnProperty] is
    called when [target.hasOwnProperty(key)] has answered true. *)
Definition strict_key (source : loc) (st : option run) (key : string)
    : option run :=
  match st with
  | Some (Going h) =>
      tc ← h !! target;
      sc ← h !! source;
      if cell_owns tc "hasOwnProperty" then Some (Halted TypeError h)
      else if negb (cell_has_own tc key) then Some (Going h)
      else if cell_owns sc "hasOwnProperty" then Some (Halted TypeError h)
      else if negb (cell_has_own sc key) then Some (Going h)
      else
        let tv := cell_get tc key in
        let sv := cell_get sc key in
        if s_is_document h tv && s_is_document h sv then
          match tv with
          | SRef nested =>
              match recurse nested [sv] h with
              | Some (Ok _, h') => Some (Going h')
              | Some (Throw e, h') => Some (Halted e h')
              | None => None
              end
          | _ => None
          end
        else Going <$> store_set h target key sv
  | _ => st
  end.

(** One turn of [for (const source of sources)]. *)
Definition strict_source (st : option run) (source : sval) : option run :=
  if negb (s_truthy source) || negb (String.eqb (s_typeof source) "object") then st
  else
    match source, st with
    | SRef l, Some (Going h) =>
        tc ← h !! target;
        fold_left (strict_key l) (cell_keys tc) st
    | _, _ => st
    end.
End StrictDeepMergeStore.

Fixpoint strictDeepMerge_st (fuel : nat) (target : loc) (sources : list sval)
    (h : store) : option (result sval * store) :=
  match fuel with
  | 0 => None
  | S fuel' =>
      tc ← h !! target;
      if negb (s_truthy (SRef target)) || (length (cell_keys tc) =? 0)
      then Some (Ok (SRef target), h)
      else
        match fold_left (strict_source (strictDeepMerge_st fuel') target) sources
                (Some (Going h)) with
        | Some (Going h') => Some (Ok (SRef target), h')
        | Some (Halted e h') => Some (Throw e, h')
        | None => None
        end
  end.

(** ** The other extensions of [String.prototype] (stringHelpers.ts) *)

(** [s.trim()]. *)
Definition trim (s : string) : string := trimEnd (trimStart s).

Definition isNonEmpty (s : string) : bool := 0 <? String.length (trim s).

Definition isNullOrWhiteSpace (s : string) : bool := String.length (trim s) =? 0.

(** [toUpperCase] works code unit by code unit.  Among the 8-bit code units
    the letters [a] to [z] and those from 224 to 254, the division sign 247
    apart, have their capital 32 below; the capital of 223, the sharp s, is
    the two units ["SS"]; every other unit is its own capital, but for 181
    and 255, whose capitals (U+039C and U+0178) lie beyond the 8-bit units
    and are a parameter. *)
Class UpperCase := upper_beyond : ascii → string.

Section Capitals.
Context `{UpperCase}.

Definition upper_code_unit (c : ascii) : string :=
  let n := nat_of_ascii c in
  if ((97 <=? n) && (n <=? 122))
     || ((224 <=? n) && (n <=? 254) && negb (n =? 247))
  then String (ascii_of_nat (n - 32)) ""
  else if n =? 223 then "SS"
  else if (n =? 181) || (n =? 255) then upper_beyond c
  else String c "".

Fixpoint toUpperCase (s : string) : string :=
  match s with
  | EmptyString => ""
  | String c s' => upper_code_unit c +:+ toUpperCase s'
  end.

(** [s.charAt(0)] and [s.slice(1)]. *)
Definition charAt0 (s : string) : string :=
  match s with
  | String c _ => String c ""
  | EmptyString => ""
  end.

Definition slice1 (s : string) : string :=
  match s with
  | String _ s' => s'
  | EmptyString => ""
  end.

Definition capitalizeFirstLetter (s : string) : string :=
  toUpperCase (charAt0 s) +:+ slice1 s.

(** [s.replace(/(?:^|\s)\S/g, a => a.toUpperCase())], scanned from left to
    right.  A match is one unit that is not white space at the start of the
    string, or a white-space unit and the unit after it when that one is not
    white space; [start] tells that the position is the start of the
    string.  The scan goes on after the match. *)
Fixpoint capitalize_matches (start : bool) (s : string) : string :=
  match s with
  | EmptyString => ""
  | String c s' =>
      if start && negb (is_whitespace c)
      then toUpperCase (String c "") +:+ capitalize_matches false s'
      else
        match s' with
        | String d s'' =>
            if is_whitespace c && negb (is_whitespace d)
            then toUpperCase (String c (String d "")) +:+ capitalize_matches false s''
            else String c (capitalize_matches false s')
        | EmptyString => String c ""
        end
  end.

Definition capitalizeWords (s : string) : string := capitalize_matches true s.

(** [s.split(',')]. *)
Fixpoint split_comma (s : string) : list string :=
  match s with
  | EmptyString => [""]
  | String c s' =>
      if Ascii.eqb c "," then "" :: split_comma s'
      else match split_comma s' with
           | seg :: segs => String c seg :: segs
           | [] => [String c ""]
           end
  end.

(** [s[0]]: the first code unit, [None] standing for [undefined]. *)
Definition first_unit (s : string) : option ascii :=
  match s with
  | String c _ => Some c
  | EmptyString => None
  end.

Definition unit_value (u : option ascii) : value :=
  match u with
  | Some c => VString (String c "")
  | None => VUndefined
  end.

(** [a + b] for two operands [s[0]]: the concatenation as soon as one of
    them is a string, the other reading ["undefined"] if it is [undefined];
    [undefined + undefined] is [NaN]. *)
Definition add_units (a b : option ascii) : value :=
  match a, b with
  | None, None => VNumber NNaN
  | _, _ =>
      VString (match a with Some c => String c "" | None => "undefined" end
               +:+ match b with Some c => String c "" | None => "undefined" end)
  end.

(** [v.toUpperCase()] for [v] a string, [undefined] or a number: the method
    of strings, and a [TypeError] where there is none to call. *)
Definition call_toUpperCase (v : value) : result string :=
  match v with
  | VString s => Ok (toUpperCase s)
  | _ => Throw TypeError
  end.

Definition getInitial (s : string) : result string :=
  if isNullOrWhiteSpace s then Ok "--"
  else
    match split_comma s with
    | [only] =>
        bind (call_toUpperCase (unit_value (first_unit (trim only))))
          (λ initial, Ok (initial +:+ "-"))
    | family :: given :: _ =>
        call_toUpperCase (add_units (first_unit (trim family)) (first_unit (trim given)))
    | [] => Ok ""
    end.
End Capitals.

(** *** [removeUnnecessarySpaces]

    The source puts the placeholder U+240D where the line breaks are, and
    takes it out at the end.  No 8-bit string holds it: between the two, the
    string is a list of code units and marks. *)
Inductive marked :=
  | Unit (c : ascii)
  | Mark.

Definition is_break (c : ascii) : bool :=
  bool_decide (nat_of_ascii c ∈ [10; 13]).

(** [.replace(/[\r\n]/g, mark)]. *)
Fixpoint mark_breaks (s : string) : list marked :=
  match s with
  | EmptyString => []
  | String c s' => (if is_break c then Mark else Unit c) :: mark_breaks s'
  end.

(** What [\s] matches; the mark is a symbol, not white space. *)
Definition marked_whitespace (u : marked) : bool :=
  match u with
  | Unit c => is_whitespace c
  | Mark => false
  end.

(** The rest of a match of [/\s+mark$/] after its first unit: white space,
    the mark, and the end of the string. *)
Fixpoint spaces_then_final_mark (l : list marked) : bool :=
  match l with
  | [] => false
  | [Mark] => true
  | u :: l' => marked_whitespace u && spaces_then_final_mark l'
  end.

(** [.replace(/\s+mark$/, mark)]: the leftmost match, if there is one, is
    replaced. *)
Fixpoint strip_before_final_mark (l : list marked) : list marked :=
  match l with
  | [] => []
  | u :: l' =>
      if marked_whitespace u && spaces_then_final_mark l' then [Mark]
      else u :: strip_before_final_mark l'
  end.

(** [.replace(/\s+/g, ' ')]; [in_run] tells that the unit before belongs to
    the match being replaced. *)
Fixpoint collapse_spaces (in_run : bool) (l : list marked) : list marked :=
  match l with
  | [] => []
  | u :: l' =>
      if marked_whitespace u
      then if in_run then collapse_spaces true l'
           else Unit " " :: collapse_spaces true l'
      else u :: collapse_spaces false l'
  end.

(** [.trim()] of a marked string. *)
Fixpoint marked_trimStart (l : list marked) : list marked :=
  match l with
  | u :: l' => if marked_whitespace u then marked_trimStart l' else l
  | [] => []
  end.

Fixpoint marked_trimEnd (l : list marked) : list marked :=
  match l with
  | [] => []
  | u :: l' =>
      let t := marked_trimEnd l' in
      if marked_whitespace u && bool_decide (t = []) then [] else u :: t
  end.

(** [.replace(/mark/g, '\n')]. *)
Fixpoint restore_breaks (l : list marked) : string :=
  match l with
  | [] => ""
  | Unit c :: l' => String c (restore_breaks l')
  | Mark :: l' => String "010" (restore_breaks l')
  end.

Definition removeUnnecessarySpaces (s : string) : string :=
  let preservedCarriageReturnAndLineFeeds :=
    strip_before_final_mark (mark_breaks s) in
  let cleanedString :=
    marked_trimEnd (marked_trimStart
      (collapse_spaces false preservedCarriageReturnAndLineFeeds)) in
  restore_breaks cleanedString.

(** The same function on a string that holds the placeholder already,
    given by its units below 256 and a mark wherever the placeholder is:
    the first [replace] leaves these marks where they are, and the last
    one cannot tell them from its own. *)
Definition mark_breaks_marked (l : list marked) : list marked :=
  map (λ u, match u with
            | Unit c => if is_break c then Mark else Unit c
            | Mark => Mark
            end) l.

Definition removeUnnecessarySpaces_marked (l : list marked) : string :=
  let preservedCarriageReturnAndLineFeeds :=
    strip_before_final_mark (mark_breaks_marked l) in
  let cleanedString :=
    marked_trimEnd (marked_trimStart
      (collapse_spaces false preservedCarriageReturnAndLineFeeds)) in
  restore_breaks cleanedString.

(** ** Loading the translations (useLanguage.ts)

    [loadTranslations] is an asynchronous function: it is given here by the
    calls it makes, in order, from its start to the settling of its promise,
    as a function of what the calls of [fetch] settle to.  The texts written
    to the console are left out. *)

(** What a call of [fetch] settles to: the promise rejects, or it resolves
    to a response with its [ok] flag, what [response.json()] resolves to
    ([None] when that one rejects) and its [Last-Modified] header. *)
Inductive fetched :=
  | Rejected
  | Responded (ok : bool) (json : option value) (lastModified : option string).

Inductive effect :=
  | SetLoadingResource (b : bool)
  | Fetch (url : string)
  | SetData (v : value)
  | ConsoleWarn
  | ConsoleError.

(** The two pieces of state the calls set. *)
Record hook_state := {
  state_data : value;
  state_loadingResource : bool
}.

Definition apply_effect (st : hook_state) (e : effect) : hook_state :=
  match e with
  | SetLoadingResource b =>
      {| state_data := state_data st; state_loadingResource := b |}
  | SetData v =>
      {| state_data := v; state_loadingResource := state_loadingResource st |}
  | Fetch _ | ConsoleWarn | ConsoleError => st
  end.

Definition apply_effects (st : hook_state) (effects : list effect) : hook_state :=
  fold_left apply_effect effects st.

Section LoadTranslations.
Variable translationsUrl : string.
Variable managedLanguages : list string.
Variable resourceFiles : list string.
Variable language : language_state.
Variable fetch : string → fetched.

Definition resource_url (file : string) : string :=
  translationsUrl +:+ "/" +:+ language_key language +:+ "/" +:+ file.

(** One of [filePromises]: what it resolves to, [None] when it rejects. *)
Definition file_promise (file : string) : option value :=
  match fetch (resource_url file) with
  | Rejected => None
  | Responded ok json _ => if negb ok then None else json
  end.

(** The calls of [fetch] that [stableResourceFiles.map] makes. *)
Definition requests : list effect :=
  map (λ file, Fetch (resource_url file)) resourceFiles.

(** What the [catch] clause and the [finally] clause do. *)
Definition caught : list effect :=
  [ConsoleError; SetData (VObject []); SetLoadingResource false].

(** [None] where [deepMerge] has no answer in the embedding. *)
Definition loadTranslations : option (list effect) :=
  if negb (bool_decide (language_key language ∈ managedLanguages))
  then Some [SetLoadingResource true; ConsoleWarn; SetLoadingResource false]
  else
    match mapM file_promise resourceFiles with
    | Some results =>
        match deepMerge (VObject [] :: results) with
        | Some (Ok mergedData) =>
            Some (SetLoadingResource true :: requests
                  ++ [SetData mergedData; SetLoadingResource false])
        | Some (Throw _) => Some (SetLoadingResource true :: requests ++ caught)
        | None => None
        end
    | None => Some (SetLoadingResource true :: requests ++ caught)
    end.
End LoadTranslations.

(** ** The closures across renders

    [ln] is [useCallback(..., [data])]: a render keeps the closure of the
    render before it unless [data] has changed, and a closure holds the
    [data] and the [loadingResource] of the render that made it.  Every
    [setData] of [loadTranslations] is given a new object, so that the
    render that follows one makes a new closure.  An [engine] is what a
    render leaves: the state, and the [loadingResource] that [ln] holds. *)
Record engine := {
  engine_state : hook_state;
  ln_loadingResource : bool
}.

(** The first render: [useState<any>()] and [useState(true)]. *)
Definition first_render : engine :=
  {| engine_state := {| state_data := VUndefined; state_loadingResource := true |};
     ln_loadingResource := true |}.

Definition sets_data (e : effect) : bool :=
  match e with SetData _ => true | _ => false end.

(** The render that follows the calls [effects]. *)
Definition render (e : engine) (effects : list effect) : engine :=
  let st := apply_effects (engine_state e) effects in
  {| engine_state := st;
     ln_loadingResource :=
       if existsb sets_data effects then state_loadingResource st
       else ln_loadingResource e |}.

(** [ln] as a component has it after a render. *)
Definition engine_ln `{NumberToString} `{Inherited} (e : engine)
    (key : string) (args : list value) : result value :=
  ln (state_data (engine_state e)) (ln_loadingResource e) key args.

(** *** The poll of the hot reload

    One run of [checkForUpdates], given the [lastModified] it finds and
    what its [HEAD] request settles to: whether it calls
    [loadTranslations], and the [lastModified] it leaves. *)
Definition header_truthy (header : option string) : bool :=
  match header with
  | Some text => negb (String.eqb text "")
  | None => false
  end.

Definition checkForUpdates (lastModified : option string) (answer : fetched)
    : bool * option string :=
  match answer with
  | Rejected => (false, lastModified)
  | Responded ok _ currentModified =>
      if ok then
        (header_truthy lastModified && header_truthy currentModified
         && negb (bool_decide (lastModified = currentModified)),
         currentModified)
      else (false, lastModified)
  end.

(** The runs of the interval, each begun after the one before has ended:
    which of them reload. *)
Fixpoint poll_runs (lastModified : option string) (answers : list fetched)
    : list bool :=
  match answers with
  | [] => []
  | answer :: answers' =>
      let '(reload, lastModified') := checkForUpdates lastModified answer in
      reload :: poll_runs lastModified' answers'
  end.

(** ** The mergers on plain data

    The loops of [deepMerge] and [strictDeepMerge] as they run when no
    object has a property named ["hasOwnProperty"] or ["__proto__"]: every
    call of [hasOwnProperty] is then one of the method of
    [Object.prototype], which does not throw, and every assignment makes
    or changes an own property.  On such data the mergers are these
    functions ([deepMerge_plain], [deepMerge_st_plain],
    [strictDeepMerge_st_plain]), and what the mergers do there is proved
    on them. *)

Section PlainDeepMergeBody.
(** The recursive call. *)
Variable recurse : list value → option value.

(** One turn of [for (const key in obj)]. *)
Definition plain_merge_key (obj : value) (result : option props) (key : string)
    : option props :=
  result ← result;
  if negb (has_own obj key) then Some result
  else if is_document (get obj key) then
    merged ← recurse [or_else (get (VObject result) key) (VObject []); get obj key];
    Some (set_prop key merged result)
  else Some (set_prop key (get obj key) result).

(** One turn of [for (const obj of objects)]. *)
Definition plain_merge_object (result : option props) (obj : value) : option props :=
  if negb (truthy obj) || negb (String.eqb (typeof obj) "object") then result
  else fold_left (plain_merge_key obj) (enumerable_keys obj) result.
End PlainDeepMergeBody.

Fixpoint plain_deepMerge_fuel (fuel : nat) (objects : list value) : option value :=
  match fuel with
  | 0 => None
  | S fuel' =>
      VObject <$> fold_left (plain_merge_object (plain_deepMerge_fuel fuel')) objects (Some [])
  end.

Definition plain_deepMerge (objects : list value) : option value :=
  plain_deepMerge_fuel (S (max_depth objects)) objects.

(** *** On the store *)

Section PlainDeepMergeStore.
Variable recurse : list sval → store → option (loc * store).
(** The object created by [const result: any = {}]. *)
Variable result : loc.

Definition plain_s_merge_key (obj : loc) (h : option store) (key : string)
    : option store :=
  h ← h;
  c ← h !! obj;
  if negb (cell_has_own c key) then Some h
  else
    let incoming := cell_get c key in
    if s_is_document h incoming then
      rc ← h !! result;
      let accumulated := cell_get rc key in
      let '(first, h1) :=
        if s_truthy accumulated then (accumulated, h)
        else let '(e, h1) := alloc_empty h in (SRef e, h1) in
      '(merged, h2) ← recurse [first; incoming] h1;
      store_set h2 result key (SRef merged)
    else store_set h result key incoming.

Definition plain_s_merge_object (h : option store) (obj : sval) : option store :=
  if negb (s_truthy obj) || negb (String.eqb (s_typeof obj) "object") then h
  else
    match obj with
    | SRef l =>
        h ← h;
        c ← h !! l;
        fold_left (plain_s_merge_key l) (cell_keys c) (Some h)
    | _ => h
    end.
End PlainDeepMergeStore.

Fixpoint plain_deepMerge_st (fuel : nat) (objects : list sval) (h : store)
    : option (loc * store) :=
  match fuel with
  | 0 => None
  | S fuel' =>
      let '(result, h0) := alloc_empty h in
      h' ← fold_left (plain_s_merge_object (plain_deepMerge_st fuel') result) objects (Some h0);
      Some (result, h')
  end.

Section PlainStrictDeepMergeStore.
Variable recurse : loc → list sval → store → option (sval * store).
Variable target : loc.

(** One turn of [for (const key in target)]. *)
Definition plain_strict_key (source : loc) (h : option store) (key : string)
    : option store :=
  h ← h;
  tc ← h !! target;
  sc ← h !! source;
  if negb (cell_has_own tc key) || negb (cell_has_own sc key) then Some h
  else
    let tv := cell_get tc key in
    let sv := cell_get sc key in
    if s_is_document h tv && s_is_document h sv then
      match tv with
      | SRef nested => snd <$> recurse nested [sv] h
      | _ => None
      end
    else store_set h target key sv.

(** One turn of [for (const source of sources)]. *)
Definition plain_strict_source (h : option store) (source : sval) : option store :=
  if negb (s_truthy source) || negb (String.eqb (s_typeof source) "object") then h
  else
    match source with
    | SRef l =>
        h ← h;
        tc ← h !! target;
        fold_left (plain_strict_key l) (cell_keys tc) (Some h)
    | _ => h
    end.
End PlainStrictDeepMergeStore.

Fixpoint plain_strictDeepMerge_st (fuel : nat) (target : loc) (sources : list sval)
    (h : store) : option (sval * store) :=
  match fuel with
  | 0 => None
  | S fuel' =>
      tc ← h !! target;
      if negb (s_truthy (SRef target)) || (length (cell_keys tc) =? 0)
      then Some (SRef target, h)
      else
        h' ← fold_left (plain_strict_source (plain_strictDeepMerge_st fuel') target) sources (Some h);
        Some (SRef target, h')
  end.

(** ** Notions the properties of [format], [ln] and [lnPlural] are stated with *)

(** A rendering of numbers for the closed instances: it agrees with
    [Number::toString] on [NaN], the infinities and the integers of magnitude
    below 10^21, the only numbers these instances print. *)
Definition integral_number_to_string (n : number) : string :=
  match n with
  | NNaN => "NaN"
  | NInf false => "Infinity"
  | NInf true => "-Infinity"
  | NFin q =>
      let r := Qred q in
      if Pos.eqb (Qden r) 1 then pretty (Qnum r)
      else pretty (Qnum r) +:+ "/" +:+ pretty (Zpos (Qden r))
  end.

#[local] Instance example_number_to_string : NumberToString :=
  integral_number_to_string.

(** An engine for the closed instances, which read inherited members of
    objects only: the members of [Object.prototype] whose name is made of
    letters, with the text V8 gives them. *)
Definition v8_object_member (v : value) (name : string) : option string :=
  match v with
  | VObject _ =>
      if String.eqb name "constructor"
      then Some "function Object() { [native code] }"
      else if bool_decide (name ∈ ["hasOwnProperty"; "isPrototypeOf";
                                    "propertyIsEnumerable"; "toLocaleString";
                                    "toString"; "valueOf"])
      then Some ("function " +:+ name +:+ "() { [native code] }")
      else None
  | _ => None
  end.

#[local] Instance example_inherited : Inherited := v8_object_member.

(** No object in [v], at any depth, owns a property with one of the
    [names]. *)
Fixpoint free_of (names : list string) (v : value) : bool :=
  match v with
  | VArray elems => forallb (free_of names) elems
  | VObject ps =>
      forallb (λ name, negb (bool_decide (is_Some (lookup_prop name ps)))) names
      && forallb (λ p, free_of names p.2) ps
  | _ => true
  end.

(** Keys are unique at every level of a document. *)
Fixpoint unique_keys (v : value) : Prop :=
  match v with
  | VObject ps =>
      NoDup (map fst ps) ∧
      (fix go (ps : props) : Prop :=
         match ps with
         | [] => True
         | (_, v) :: ps' => unique_keys v ∧ go ps'
         end) ps
  | _ => True
  end.

(** A name the pattern of [format] captures. *)
Fixpoint alnum_name (name : string) : Prop :=
  match name with
  | EmptyString => True
  | String c name' => is_alnum c = true ∧ alnum_name name'
  end.

(** The test [ln] makes of its last argument returns: the argument is not
    [null], and it is no object with a property named ["hasOwnProperty"]. *)
Definition last_argument_tested (args : list value) : Prop :=
  List.last args VUndefined ≠ VNull
  ∧ owns (List.last args VUndefined) "hasOwnProperty" = false.

(** What the test answers then: the last argument is an object that owns
    [defaultTxt]. *)
Definition carries_defaultTxt (args : list value) : bool :=
  (0 <? length args)
  && String.eqb (typeof (List.last args VUndefined)) "object"
  && has_own (List.last args VUndefined) "defaultTxt".

(** The default text of a call: the override, or the empty string. *)
Definition default_text (args : list value) : value :=
  if carries_defaultTxt args then get (List.last args VUndefined) "defaultTxt"
  else VString "".

(** The two conditions under which [ln] answers the empty string at once. *)
Definition suppressed (data : value) (loadingResource : bool)
    (args : list value) : bool :=
  (carries_defaultTxt args && (negb (truthy data) || loadingResource))
  || (negb (truthy data) && loadingResource).

(** What [ln] does with the value it has found or fallen back to:
    a string is formatted with the arguments. *)
Definition format_found `{NumberToString} `{Inherited}
    (found : value) (args : list value) : result value :=
  if String.eqb (typeof found) "string"
  then bind (to_string found) (λ text,
       bind (format text args) (λ formatted, Ok (VString formatted)))
  else Ok found.

(** A template of [n] indexed tokens and nothing else. *)
Fixpoint indexed_tokens (n : nat) : string :=
  match n with
  | 0 => ""
  | S n' => "{{}}" +:+ indexed_tokens n'
  end.

(** A string that is empty or begins with a decimal digit. *)
Definition digit_headed (s : string) : Prop :=
  match s with
  | EmptyString => True
  | String c _ => (48 <=? nat_of_ascii c) && (nat_of_ascii c <=? 57) = true
  end.

(** Numbers of the closed instances. *)
Definition n_ (z : Z) : value := VNumber (number_of_Z z).

(** The translation document of the plural scenario of the specification. *)
Definition messages_document : value :=
  VObject [("messages", VObject [("notification",
    VObject [("singular", VString "You have {{}} new message");
             ("plural", VString "You have {{}} new messages")])])].

(** The names under which [PLURAL_RULES] has an entry. *)
Definition listed_languages : list string :=
  ["fr"; "es"; "en"; "de"; "it"; "pt"; "nl"; "default"].

(** ** Notions the properties of the mergers are stated with *)

(** *** Values in the store *)

(** [reifies g s v]: in the store [g], [s] is (a reference to) the finite
    tree [v]. *)
Unset Elimination Schemes.
Inductive reifies (g : store) : sval → value → Prop :=
  | reifies_undefined : reifies g SUndefined VUndefined
  | reifies_null : reifies g SNull VNull
  | reifies_bool b : reifies g (SBool b) (VBool b)
  | reifies_number n : reifies g (SNumber n) (VNumber n)
  | reifies_string s : reifies g (SString s) (VString s)
  | reifies_array l ss vs :
      g !! l = Some (CArray ss) →
      Forall2 (reifies g) ss vs →
      reifies g (SRef l) (VArray vs)
  | reifies_object l sps ps :
      g !! l = Some (CObject sps) →
      Forall2 (λ sp p, sp.1 = p.1 ∧ reifies g sp.2 p.2) sps ps →
      reifies g (SRef l) (VObject ps).
Set Elimination Schemes.

(** A store in which every reference leads one level down: the cells at
    level [n] refer to cells at level [n + 1] only, and no level exceeds
    [top]. *)
Definition cell_values (c : cell) : list sval :=
  match c with
  | CObject ps => map snd ps
  | CArray elems => elems
  end.

Definition graded (level : loc → nat) (top : nat) (h : store) : Prop :=
  ∀ l c, h !! l = Some c →
    level l ≤ top ∧ ∀ l', SRef l' ∈ cell_values c → level l' = S (level l).

(** Values laid out in fresh cells one after the other, children before
    parents: the store in which each value is a tree of its own. *)
Fixpoint store_list {A B : Type} (f : A → store → B * store) (xs : list A)
    (h : store) : list B * store :=
  match xs with
  | [] => ([], h)
  | x :: xs' =>
      let '(y, h1) := f x h in
      let '(ys, h2) := store_list f xs' h1 in (y :: ys, h2)
  end.

Fixpoint store_value (v : value) (h : store) : sval * store :=
  match v with
  | VUndefined => (SUndefined, h)
  | VNull => (SNull, h)
  | VBool b => (SBool b, h)
  | VNumber n => (SNumber n, h)
  | VString s => (SString s, h)
  | VArray elems =>
      let '(ss, h1) := store_list store_value elems h in
      let l := fresh (dom h1) in (SRef l, <[l := CArray ss]> h1)
  | VObject ps =>
      let '(sps, h1) :=
        store_list (λ p h, let '(s, h1) := store_value p.2 h in ((p.1, s), h1)) ps h in
      let l := fresh (dom h1) in (SRef l, <[l := CObject sps]> h1)
  end.

Definition store_values (vs : list value) (h : store) : list sval * store :=
  store_list store_value vs h.

(** Every reference held in the store leads to a cell of the store. *)
Definition closed (h : store) : Prop :=
  ∀ l c l', h !! l = Some c → SRef l' ∈ cell_values c → is_Some (h !! l').

(** The value a store holds at [s], read to depth [fuel]. *)
Fixpoint read_value (fuel : nat) (h : store) (s : sval) : option value :=
  match s with
  | SUndefined => Some VUndefined
  | SNull => Some VNull
  | SBool b => Some (VBool b)
  | SNumber n => Some (VNumber n)
  | SString s => Some (VString s)
  | SRef l =>
      match fuel with
      | 0 => None
      | S fuel' =>
          c ← h !! l;
          match c with
          | CArray ss => VArray <$> mapM (read_value fuel' h) ss
          | CObject sps =>
              VObject <$> mapM (λ sp, v ← read_value fuel' h sp.2; Some (sp.1, v)) sps
          end
      end
  end.
(** [recurse] returns on arguments of depth below [D], and its result is no
    deeper than they are. *)
Definition good_recurse (D : nat) (recurse : list value → option value) : Prop :=
  ∀ objects, max_depth objects < D →
    ∃ r, recurse objects = Some (VObject r) ∧ depth (VObject r) ≤ max_depth objects.

(** What a cell and the value it holds have in common. *)
Definition cell_reifies (g : store) (c : cell) (v : value) : Prop :=
  match c, v with
  | CObject sps, VObject ps =>
      Forall2 (λ sp p, sp.1 = p.1 ∧ reifies g sp.2 p.2) sps ps
  | CArray ss, VArray vs => Forall2 (reifies g) ss vs
  | _, _ => False
  end.

(** [recurse_s] does on the store what [recurse] does on values: run on
    references to the trees [vs] held in the part [g] of the store, it
    returns a new location, leaves what was there as it was, and what it
    returns holds [recurse vs]. *)
Definition refines (recurse_s : list sval → store → option (loc * store))
    (recurse : list value → option value) : Prop :=
  ∀ ss vs g h v,
    g ⊆ h → Forall2 (reifies g) ss vs → recurse vs = Some v →
    ∃ r h' g',
      recurse_s ss h = Some (r, h') ∧ h ⊆ h' ∧ g ⊆ g' ∧ g' ⊆ h' ∧
      (∀ l, l ∈ dom g' → l ∈ dom g ∨ l ∉ dom h) ∧
      h !! r = None ∧ reifies g' (SRef r) v.

(** While [deepMerge] runs: the object [result] under construction holds
    the properties [R], whose values live in the part [g] of the store, and
    [result] is not in that part. *)
Definition merge_inv (g h : store) (result : loc) (R : props) : Prop :=
  g ⊆ h ∧ g !! result = None ∧
  ∃ SR, h !! result = Some (CObject SR) ∧
        Forall2 (λ sp p, sp.1 = p.1 ∧ reifies g sp.2 p.2) SR R.

(** From [(g, h)] to [(g', h')] only [result] was written and only new
    cells were added. *)
Definition merge_step (result : loc) (g h g' h' : store) : Prop :=
  g ⊆ g' ∧
  (∀ l c, l ≠ result → h !! l = Some c → h' !! l = Some c) ∧
  dom h ⊆ dom h' ∧
  (∀ l, l ∈ dom g' → l ∈ dom g ∨ l ∉ dom h).

(** The shape of a cell: its kind and the names it owns. *)
Definition shape (c : cell) : bool * list string :=
  (match c with CArray _ => true | CObject _ => false end, cell_keys c).

(** No cell was added, removed or reshaped. *)
Definition same_shape (h h' : store) : Prop :=
  ∀ l, shape <$> h' !! l = shape <$> h !! l.

(** The sources a call of [strictDeepMerge] can be given next to [target]:
    the objects among them are in the store, at the level of [target]. *)
Definition sources_at (level : loc → nat) (h : store) (target : loc)
    (sources : list sval) : Prop :=
  Forall (λ s, ∀ l, s = SRef l → is_Some (h !! l) ∧ level l = level target) sources.

(** An array seen as the document of its index keys. *)
Definition array_as_document (elems : list value) : value :=
  VObject (zip (index_keys (length elems)) elems).
(** The store of the closed instances of the strict merge: the target
    [{a: 1, n: {x: 1}}] at 1 and the source
    [{a: 2, n: {x: 5, y: 6}, c: 3}] at 3. *)
Definition strict_store : store :=
  <[0 := CObject [("x", SNumber (number_of_Z 1))]]>
  (<[1 := CObject [("a", SNumber (number_of_Z 1)); ("n", SRef 0)]]>
  (<[2 := CObject [("x", SNumber (number_of_Z 5)); ("y", SNumber (number_of_Z 6))]]>
  (<[3 := CObject [("a", SNumber (number_of_Z 2)); ("n", SRef 2);
                   ("c", SNumber (number_of_Z 3))]]> ∅))).

Definition strict_level (l : loc) : nat :=
  match l with 0 | 2 => 1 | _ => 0 end.

(** The store of the instance against C5: the target [{a: 1}] at 0 and the
    source [{a: {b: 2}}] at 2. *)
Definition adoption_store : store :=
  <[0 := CObject [("a", SNumber (number_of_Z 1))]]>
  (<[1 := CObject [("b", SNumber (number_of_Z 2))]]>
  (<[2 := CObject [("a", SRef 1)]]> ∅)).

(** An object that is its own property [c]. *)
Definition cyclic_store : store := <[0 := CObject [("c", SRef 0)]]> ∅.
(** What laying out [v] at level [d] keeps and gives: the store stays graded
    and closed, what was there is there at its level, and the reference
    returned, if any, is a cell at level [d]. *)
Definition laid_out (level : loc → nat) (top : nat) (d : nat)
    (h : store) (s : sval) (h' : store) : Prop :=
  ∃ level',
    graded level' top h' ∧ closed h' ∧ h ⊆ h' ∧
    (∀ l, is_Some (h !! l) → level' l = level l) ∧
    (∀ l, s = SRef l → is_Some (h' !! l) ∧ level' l = d).
(** From [h] to [h'] no cell at the level of [target] or above it was
    written, [target] apart. *)
Definition kept_above (level : loc → nat) (target : loc) (h h' : store) : Prop :=
  ∀ l, l ≠ target → level l ≤ level target → h' !! l = h !! l.

(** What a strict merge of one source leaves at the key [k] of the target:
    where the key is one of the target, the source has it, and the two
    values are not both documents, the value of the source; the value of
    the target otherwise. *)
Definition strict_value (h : store) (tc sc : cell) (k : string) : sval :=
  if bool_decide (k ∈ cell_keys tc) && cell_has_own sc k
     && negb (s_is_document h (cell_get tc k) && s_is_document h (cell_get sc k))
  then cell_get sc k
  else cell_get tc k.

(** A value that is a primitive or a reference to an array of the store,
    [result] apart: not a document, in [h] and in whatever [h] becomes when
    cells are added. *)
Definition held_as_is (h : store) (result : loc) (v : sval) : Prop :=
  ∀ l, v = SRef l → l ≠ result ∧ ∃ elems, h !! l = Some (CArray elems).

(** The value found in nested documents along a list of keys. *)
Fixpoint lookup_path (v : value) (path : list string) : option value :=
  match path with
  | [] => Some v
  | k :: path' =>
      match v with
      | VObject ps => w ← lookup_prop k ps; lookup_path w path'
      | _ => None
      end
  end.

(** The arguments [deepMerge] and [strictDeepMerge] do not skip:
    [!(!obj || typeof obj !== 'object')]. *)
Definition mergeable (obj : value) : bool :=
  truthy obj && String.eqb (typeof obj) "object".

(** The merge of the values some arguments hold at a key: nothing when no
    argument has the key. *)
Definition plain_merge_nested (nested : list value) : option value :=
  match nested with
  | [] => None
  | _ :: _ => plain_deepMerge nested
  end.

(** A store with three documents, two of which hold an array under
    ["tags"], and the trees these documents stand for. *)
Definition tags_store : store :=
  <[0 := CArray [SNumber (number_of_Z 1)]]>
  (<[1 := CObject [("tags", SRef 0)]]>
  (<[2 := CArray [SNumber (number_of_Z 2); SNumber (number_of_Z 3)]]>
  (<[3 := CObject [("tags", SRef 2)]]>
  (<[4 := CObject [("title", SString "x")]]> ∅)))).

Definition tags_values : list value :=
  [VObject [("tags", VArray [VNumber (number_of_Z 1)])];
   VObject [("tags", VArray [VNumber (number_of_Z 2); VNumber (number_of_Z 3)])];
   VObject [("title", VString "x")]].

(** ** Plain data

    A value is plain when no object in it has a property named
    ["hasOwnProperty"] or ["__proto__"]: there every call of
    [hasOwnProperty] is one of the method of [Object.prototype], and every
    assignment of the mergers makes or changes a property.  A store is
    plain when no object in it has a property named like a member of
    [Object.prototype]: there, in addition, [result[key]] is a property
    of [result] or [undefined]. *)
Definition plain (v : value) : bool := free_of ["hasOwnProperty"; "__proto__"] v.

Definition store_free_of (names : list string) (h : store) : Prop :=
  ∀ l c name, h !! l = Some c → name ∈ names → cell_owns c name = false.

Definition plain_store (h : store) : Prop :=
  store_free_of object_prototype_names h.

(** What the plain mergers return, as results of the mergers. *)
Definition returned {A} (r : option A) : option (result A) := Ok <$> r.

Definition returned_at {A} (r : option (A * store)) : option (result A * store) :=
  (λ '(a, h), (Ok a, h)) <$> r.

(** [deepMerge] of the documents found under one key: none when no
    argument has the key. *)
Definition merge_nested (nested : list value) : option (result value) :=
  match nested with
  | [] => None
  | _ :: _ => deepMerge nested
  end.

(** A translation file as [JSON.parse] gives it, with a key ["__proto__"],
    and one with a key ["hasOwnProperty"]. *)
Definition proto_document : value :=
  VObject [("__proto__", VString "x"); ("a", n_ 2)].

Definition shadowing_document : value :=
  VObject [("a", n_ 1); ("hasOwnProperty", n_ 2)].
(** [recurse] answers on arguments of depth below [D] without a key
    ["__proto__"]: it returns an object as they are, no deeper, or throws
    a [TypeError]. *)
Definition answering (D : nat) (recurse : list value → option (result value))
    : Prop :=
  ∀ objects, max_depth objects < D →
    Forall (λ v, free_of ["__proto__"] v = true) objects →
    recurse objects = Some (Throw TypeError) ∨
    ∃ r, recurse objects = Some (Ok (VObject r)) ∧
         depth (VObject r) ≤ max_depth objects ∧
         free_of ["__proto__"] (VObject r) = true.

(** The same of the object being built. *)
Definition settled (D : nat) (acc : merging) : Prop :=
  acc = Some (Throw TypeError) ∨
  ∃ r, acc = Some (Ok r) ∧ depth (VObject r) ≤ D ∧
       free_of ["__proto__"] (VObject r) = true.

(** ** Notions the properties of the extensions are stated with *)

(** The code units of a string. *)
Fixpoint units (s : string) : list ascii :=
  match s with
  | EmptyString => []
  | String c s' => c :: units s'
  end.

(** Nowhere in the string is a unit [a] followed at once by a unit [b]. *)
Fixpoint adjacent_free (a b : ascii) (s : string) : Prop :=
  match s with
  | EmptyString => True
  | String c s' =>
      match s' with
      | String d _ => ¬ (c = a ∧ d = b)
      | EmptyString => True
      end ∧ adjacent_free a b s'
  end.

(** No two opening braces in a row: nothing [format] could match. *)
Definition opening_free (s : string) : Prop := adjacent_free "{" "{" s.

(** The last code unit. *)
Fixpoint last_unit (s : string) : option ascii :=
  match s with
  | EmptyString => None
  | String c EmptyString => Some c
  | String _ s' => last_unit s'
  end.

(** [capitalizeWords] said by position: a unit that is not white space is
    replaced by its capital when it is the first of the string or comes
    after white space; [after_white] tells that it does. *)
Fixpoint capitalize_after `{UpperCase} (after_white : bool) (s : string) : string :=
  match s with
  | EmptyString => ""
  | String c s' =>
      (if after_white && negb (is_whitespace c)
       then upper_code_unit c else String c "")
      +:+ capitalize_after (is_whitespace c) s'
  end.

(** What [removeUnnecessarySpaces] does between marking the line breaks and
    restoring them. *)
Definition clean (l : list marked) : list marked :=
  marked_trimEnd (marked_trimStart
    (collapse_spaces false (strip_before_final_mark l))).

(** No unit is a line break: they are all marks. *)
Definition break_free (l : list marked) : Prop :=
  Forall (λ u, match u with Unit c => is_break c = false | Mark => True end) l.

(** The list ends with a white-space unit and a mark: the one place where
    [strip_before_final_mark] finds a match. *)
Fixpoint ends_space_mark (l : list marked) : bool :=
  match l with
  | [] => false
  | u :: l' =>
      match l' with
      | [Mark] => marked_whitespace u
      | _ => ends_space_mark l'
      end
  end.

(** The list ends with a white-space unit. *)
Fixpoint ends_white (l : list marked) : bool :=
  match l with
  | [] => false
  | u :: l' =>
      match l' with
      | [] => marked_whitespace u
      | _ => ends_white l'
      end
  end.

(** The list does not begin with a white-space unit. *)
Definition begins_solid (l : list marked) : bool :=
  match l with
  | [] => true
  | u :: _ => negb (marked_whitespace u)
  end.

(** Every white-space unit is a space, and none comes after another;
    [after_white] tells that the list comes after one. *)
Fixpoint spaced (after_white : bool) (l : list marked) : Prop :=
  match l with
  | [] => True
  | u :: l' =>
      if marked_whitespace u
      then u = Unit " " ∧ after_white = false ∧ spaced true l'
      else spaced false l'
  end.

(** A marked string without its white space. *)
Definition essence (l : list marked) : list marked :=
  List.filter (λ u, negb (marked_whitespace u)) l.

(** Capitals for the closed examples below, which hold neither of the two
    units concerned. *)
#[local] Instance example_upper_beyond : UpperCase := λ c, String c "".

(** ** Notions the further properties of the lookup are stated with *)

(** The answers of a server that has two resource files for ["en"]. *)
Definition example_fetch (url : string) : fetched :=
  if String.eqb url "/locales/en/common.json"
  then Responded true
         (Some (VObject [("app", VObject [("title", VString "App")]);
                         ("login", VString "Sign in")])) None
  else if String.eqb url "/locales/en/auth.json"
  then Responded true
         (Some (VObject [("app", VObject [("version", VString "2")]);
                         ("login", VString "Log in, {{}}")])) None
  else Rejected.

(** * Properties *)

(** ** Strings and the scan of a template *)

Lemma append_cons (c : ascii) (s t : string) :
  String c s +:+ t = String c (s +:+ t).
Proof. reflexivity. Qed.

Lemma append_empty_r (s : string) : s +:+ "" = s.
Proof. induction s as [|c s IH]; [done | by rewrite append_cons, IH]. Qed.

Lemma append_assoc (a b c : string) : (a +:+ b) +:+ c = a +:+ (b +:+ c).
Proof. induction a as [|x a IH]; [done | by rewrite !append_cons, IH]. Qed.

Lemma length_append (a b : string) :
  String.length (a +:+ b) = String.length a + String.length b.
Proof. induction a as [|x a IH]; [done | rewrite append_cons; cbn; by rewrite IH]. Qed.

(** The characters of a match are skipped whole. *)
Lemma scan_skip (a b : string) : scan (String.length a) (a +:+ b) = scan 0 b.
Proof. induction a as [|x a IH]; [done | rewrite append_cons; apply IH]. Qed.

Lemma take_alnum_name (name rest : string) :
  alnum_name name →
  take_alnum (name +:+ String "}" rest) = (name, String "}" rest).
Proof.
  induction name as [|c name IH]; intros Hn.
  - done.
  - destruct Hn as [Hc Hn]. rewrite append_cons. cbn. by rewrite Hc, (IH Hn).
Qed.

(** A placeholder at the head of a template is one piece. *)
Lemma scan_placeholder (name rest : string) :
  alnum_name name →
  scan 0 (placeholder_text name +:+ rest) = Placeholder name :: scan 0 rest.
Proof.
  intros Hn. unfold placeholder_text.
  change (scan 0 (String "{" (String "{" ((name +:+ "}}") +:+ rest))) = Placeholder name :: scan 0 rest).
  rewrite append_assoc. cbn [scan match_placeholder].
  change ("}}" +:+ rest) with (String "}" (String "}" rest)).
  rewrite (take_alnum_name name (String "}" rest) Hn).
  f_equal.
  replace (String.length name + 3) with (S (String.length (name +:+ "}}"))).
  2:{ rewrite length_append. simpl. lia. }
  cbn [scan]. change (String "}" (String "}" rest)) with ("}}" +:+ rest).
  rewrite <- append_assoc. apply scan_skip.
Qed.

Lemma scan_indexed_tokens (n : nat) :
  scan 0 (indexed_tokens n) = replicate n (Placeholder "").
Proof.
  induction n as [|n IH]; [done|].
  cbn [indexed_tokens replicate]. rewrite <- IH.
  exact (scan_placeholder "" (indexed_tokens n) I).
Qed.

(** ** The [result] of a call *)

Lemma bind_Ok {A B} (r : result A) (k : A → result B) (a : A) :
  r = Ok a → bind r k = k a.
Proof. by intros ->. Qed.

Lemma bind_Throw {A B} (r : result A) (k : A → result B) (e : exn) :
  r = Throw e → bind r k = Throw e.
Proof. by intros ->. Qed.

Lemma bind_assoc {A B C} (r : result A) (k : A → result B) (k' : B → result C) :
  bind (bind r k) k' = bind r (λ a, bind (k a) k').
Proof. by destruct r. Qed.

Lemma bind_ext {A B} (r : result A) (k k' : A → result B) :
  (∀ a, k a = k' a) → bind r k = bind r k'.
Proof. intros Hk. destruct r; cbn; auto. Qed.

(** ** [format] *)

Section FormatProperties.
Context `{NumberToString} `{Inherited}.

Lemma typeof_undefined (v : value) :
  String.eqb (typeof v) "undefined" = true ↔ v = VUndefined.
Proof. destruct v; cbn; split; intros; by simplify_eq. Qed.

Lemma until_undefined_defined (args : list value) :
  Forall (λ a, a ≠ VUndefined) args → until_undefined args = args.
Proof.
  induction 1 as [|a args Ha _ IH]; [done|]. cbn.
  destruct (String.eqb (typeof a) "undefined") eqn:E.
  - by apply typeof_undefined in E.
  - by rewrite IH.
Qed.

Lemma substitute_shift bag a positional k ps :
  substitute bag (a :: positional) (S k) ps = substitute bag positional k ps.
Proof.
  revert k. induction ps as [|[c|name] ps IH]; intros k; cbn; [done|by rewrite IH|].
  destruct (String.eqb name ""); by rewrite IH.
Qed.

Lemma substitute_exhausted bag positional k k' ps :
  length positional ≤ k → length positional ≤ k' →
  substitute bag positional k ps = substitute bag positional k' ps.
Proof.
  revert k k'. induction ps as [|[c|name] ps IH]; intros k k' Hk Hk'; cbn.
  - done.
  - by rewrite (IH k k').
  - destruct (String.eqb name "").
    + rewrite !lookup_ge_None_2 by done. by rewrite (IH (S k) (S k')) by lia.
    + by rewrite (IH k k').
Qed.

(** The callback with its shifting array does what [substitute] says by
    position. *)
Lemma replace_pieces_substitute bag ps args :
  replace_pieces bag ps args = substitute bag (until_undefined args) 0 ps.
Proof.
  revert args. induction ps as [|[c|name] ps IH]; intros args; cbn.
  - done.
  - by rewrite IH.
  - destruct (String.eqb name "") eqn:Hname.
    + destruct args as [|a rest]; cbn.
      * rewrite IH. cbn. f_equal. by apply substitute_exhausted; cbn; lia.
      * destruct (String.eqb (typeof a) "undefined") eqn:Ha; cbn.
        -- rewrite IH. cbn. rewrite Ha. f_equal.
           by apply substitute_exhausted; cbn; lia.
        -- apply bind_ext. intros text. by rewrite IH, substitute_shift.
    + apply bind_ext. intros replacement. by rewrite IH.
Qed.

Lemma format_substitute template args :
  format template args =
  substitute (or_else (List.last args VUndefined) (VObject []))
    (until_undefined args) 0 (scan 0 template).
Proof. apply replace_pieces_substitute. Qed.

(** Indexed tokens, one for each of the arguments and for one more. *)
Lemma substitute_all_tokens bag pre args texts final :
  Forall2 (λ a text, to_string a = Ok text) args texts →
  substitute bag (pre ++ args ++ [final]) (length pre)
    (replicate (S (length args)) (Placeholder "")) =
  bind (to_string final)
    (λ text, Ok (foldr String.append "" texts +:+ text)).
Proof.
  intros Hall. revert pre.
  induction Hall as [|a text args texts Ha _ IH]; intros pre.
  - cbn. rewrite list_lookup_middle by done.
    destruct (to_string final); cbn; [|done]. by rewrite append_empty_r.
  - cbn [length]. rewrite replicate_S. cbn [substitute]. cbn [String.eqb].
    change ((a :: args) ++ [final]) with (a :: args ++ [final]).
    rewrite list_lookup_middle by done. rewrite Ha. cbn [bind].
    replace (pre ++ a :: args ++ [final]) with ((pre ++ [a]) ++ args ++ [final])
      by by rewrite <- app_assoc.
    replace (S (length pre)) with (length (pre ++ [a])) by (rewrite length_app; cbn; lia).
    rewrite IH. destruct (to_string final); cbn; [|done].
    by rewrite append_assoc.
Qed.

Lemma last_snoc (pos : list value) (a d : value) : List.last (pos ++ [a]) d = a.
Proof. apply List.last_last. Qed.

(** C6 (the code, the failing input included).  Indexed substitution
    order: the indexed tokens of a template take, in order of appearance,
    the arguments in argument-list order, each at most once, the token
    number [k] taking the argument number [k], and a token is left as it
    is, braces included, when the arguments are exhausted:
    [format("{{}} {{}} {{}}", ["a","b"])] is ["a b {{}}"].  But the test of
    exhaustion is [typeof args[0] !== 'undefined']: the arguments that can
    be taken are those before the first [undefined] one, and
    [format("{{}} {{}}", [undefined, "b"])] leaves both tokens as they are
    although ["b"] is unused. *)
Theorem format_indexed_order :
  (∀ template args,
     format template args =
     substitute (or_else (List.last args VUndefined) (VObject []))
       (until_undefined args) 0 (scan 0 template)) ∧
  (∀ args, Forall (λ a, a ≠ VUndefined) args → until_undefined args = args) ∧
  format "{{}} {{}} {{}}" [VString "a"; VString "b"] = Ok "a b {{}}" ∧
  format "{{}} {{}}" [VUndefined; VString "b"] = Ok "{{}} {{}}" ∧
  format "{{}} {{}}" [VString "a"; VUndefined; VString "c"] = Ok "a {{}}".
Proof.
  split; [exact format_substitute|].
  split; [exact until_undefined_defined|]. by repeat split.
Qed.

(** C2 (as amended).  When the last element of [args] is a mapping it is
    the named-argument bag, and it stays in the positional sequence:
    indexed substitution runs over the whole argument list, so the
    indexed token that comes after those taking the earlier arguments is
    substituted with the mapping itself, which converts to
    ["[object Object]"], or to nothing but a [TypeError] if it owns a
    property [toString].  A named token whose name the bag does not own is
    replaced by the member the bag inherits under that name, and stays as
    it is when there is none. *)
Theorem format_bag_stays_positional template (pos : list value) (b : props) :
  Forall (λ a, a ≠ VUndefined) pos →
  format template (pos ++ [VObject b]) =
    substitute (VObject b) (pos ++ [VObject b]) 0 (scan 0 template) ∧
  (∀ texts, Forall2 (λ a text, to_string a = Ok text) pos texts →
     format (indexed_tokens (S (length pos))) (pos ++ [VObject b]) =
       if owns (VObject b) "toString" then Throw TypeError
       else Ok (foldr String.append "" texts +:+ "[object Object]")) ∧
  (∀ name, alnum_name name → name ≠ "" → lookup_prop name b = None →
     format (placeholder_text name) (pos ++ [VObject b]) =
       Ok (default (placeholder_text name) (inherited_member (VObject b) name))).
Proof.
  intros Hpos.
  assert (Hall : Forall (λ a, a ≠ VUndefined) (pos ++ [VObject b])).
  { apply Forall_app. split; [done|]. by repeat constructor. }
  assert (Hform : ∀ t, format t (pos ++ [VObject b]) =
    substitute (VObject b) (pos ++ [VObject b]) 0 (scan 0 t)).
  { intros t. rewrite format_substitute, last_snoc.
    by rewrite (until_undefined_defined _ Hall). }
  split; [apply Hform|]. split.
  - intros texts Htexts. rewrite Hform, scan_indexed_tokens.
    pose proof (substitute_all_tokens (VObject b) [] pos texts (VObject b) Htexts)
      as Htokens.
    cbn [app length] in Htokens. rewrite Htokens.
    cbn [to_string owns]. by destruct (bool_decide _).
  - intros name Hal Hne Hnone. rewrite Hform.
    rewrite <- (append_empty_r (placeholder_text name)) at 1.
    rewrite (scan_placeholder name "" Hal). cbn.
    apply String.eqb_neq in Hne. rewrite Hne. unfold named_replacement.
    cbn [has_own]. rewrite Hnone.
    rewrite bool_decide_eq_false_2 by (by intros [? ?]). cbn.
    by rewrite append_empty_r.
Qed.
End FormatProperties.
(** ** Index keys *)

Lemma pretty_N_go_digit_headed (x : N) (s : string) :
  digit_headed s → digit_headed (pretty_N_go x s).
Proof.
  revert s. induction (N.lt_wf_0 x) as [x _ IH]; intros s Hs.
  destruct (decide (x = 0)%N) as [->|Hx]; [by rewrite pretty_N_go_0|].
  rewrite pretty_N_go_step by lia. apply IH; [apply N.div_lt; lia|].
  unfold pretty_N_char. by repeat case_match.
Qed.

Lemma pretty_nat_not_length (i : nat) : String.eqb (pretty i) "length" = false.
Proof.
  apply String.eqb_neq. intros Heq.
  assert (Hd : digit_headed (pretty i)).
  { unfold pretty, pretty_nat, pretty, pretty_N. case_decide; [done|].
    by apply pretty_N_go_digit_headed. }
  by rewrite Heq in Hd.
Qed.

Lemma index_of_key_pretty (i len : nat) :
  i < len → index_of_key (pretty i) len = Some i.
Proof.
  intros Hi. unfold index_of_key.
  destruct (find _ _) as [j|] eqn:Hfind.
  - apply find_some in Hfind as [_ Hj]. apply String.eqb_eq in Hj.
    by apply (inj pretty) in Hj as ->.
  - eapply find_none in Hfind; [|apply in_seq; split; [lia|exact Hi]].
    by rewrite String.eqb_refl in Hfind.
Qed.

Lemma index_of_key_Some (k : string) (len i : nat) :
  index_of_key k len = Some i → k = pretty i ∧ i < len.
Proof.
  unfold index_of_key. intros Hfind. apply find_some in Hfind as [Hin Hk].
  apply String.eqb_eq in Hk. apply in_seq in Hin. split; [done|lia].
Qed.

Lemma has_own_index_string (s : string) (i : nat) :
  i < String.length s → opt_hasOwnProperty (VString s) (pretty i) = Ok true.
Proof.
  intros Hi. cbn. rewrite (index_of_key_pretty _ _ Hi).
  by rewrite orb_true_r.
Qed.

Lemma has_own_index_array (elems : list value) (i : nat) :
  i < length elems → opt_hasOwnProperty (VArray elems) (pretty i) = Ok true.
Proof.
  intros Hi. cbn. rewrite (index_of_key_pretty _ _ Hi).
  by rewrite orb_true_r.
Qed.

(** ** Values free of a name *)

Lemma value_ind (P : value → Prop) :
  P VUndefined → P VNull → (∀ b, P (VBool b)) → (∀ n, P (VNumber n)) →
  (∀ s, P (VString s)) →
  (∀ elems, Forall P elems → P (VArray elems)) →
  (∀ ps, Forall (λ p, P p.2) ps → P (VObject ps)) →
  ∀ v, P v.
Proof.
  intros Hu Hn Hb Hnum Hs Ha Ho. fix IH 1.
  intros [| |b|n|s|elems|ps];
    [exact Hu|exact Hn|apply Hb|apply Hnum|apply Hs|..].
  - apply Ha. induction elems as [|e elems IHe]; constructor; [apply IH|apply IHe].
  - apply Ho. induction ps as [|[k v] ps IHp]; constructor; [apply IH|apply IHp].
Qed.

Lemma free_of_get (names : list string) (v : value) (k : string) :
  free_of names v = true → free_of names (get v k) = true.
Proof.
  destruct v as [| | | |s|elems|ps]; try done; cbn [get free_of].
  - intros _. destruct (String.eqb k "length"); [done|].
    destruct (index_of_key k (String.length s)) as [i|]; cbn; [|done].
    by destruct (string_nth i s).
  - intros Hall. destruct (String.eqb k "length"); [done|].
    destruct (index_of_key k (length elems)) as [i|]; cbn; [|done].
    destruct (elems !! i) as [e|] eqn:He; cbn; [|done].
    rewrite forallb_forall in Hall. apply Hall.
    apply list_elem_of_In. by eapply list_elem_of_lookup_2.
  - intros [_ Hall]%andb_true_iff. clear -Hall.
    induction ps as [|[k' v'] ps IH]; cbn in *; [done|].
    apply andb_true_iff in Hall as [Hv Hall].
    destruct (String.eqb k' k); cbn; auto.
Qed.

Lemma free_of_owns (names : list string) (v : value) (name : string) :
  name ∈ names → free_of names v = true → owns v name = false.
Proof.
  intros Hin. destruct v as [| | | | | |ps]; try done. cbn [free_of owns].
  intros [Hnames _]%andb_true_iff. rewrite forallb_forall in Hnames.
  apply list_elem_of_In, Hnames, negb_true_iff in Hin. done.
Qed.

Lemma free_of_or_else (names : list string) (v w : value) :
  free_of names v = true → free_of names w = true →
  free_of names (or_else v w) = true.
Proof. unfold or_else. by destruct (truthy v). Qed.

Section ConversionProperties.
Context `{NumberToString} `{Inherited}.

(** A value in which no object owns [toString] converts to a string. *)
Lemma to_string_free (v : value) :
  free_of ["toString"] v = true → ∃ text, to_string v = Ok text.
Proof.
  induction v as [| |[]|n|s|elems IH|ps _] using value_ind; intros Hfree;
    try (by eexists).
  - cbn [to_string]. cbn [free_of] in Hfree.
    assert (Hparts : ∃ parts,
      (fix elements (es : list value) : result (list string) :=
         match es with
         | [] => Ok []
         | e :: es' =>
             bind (if is_nullish e then Ok "" else to_string e) (λ s,
             bind (elements es') (λ ss, Ok (s :: ss)))
         end) elems = Ok parts).
    { induction IH as [|e elems He _ IHelems]; [by eexists|].
      cbn [forallb] in Hfree. apply andb_true_iff in Hfree as [Hfe Hfree].
      destruct (IHelems Hfree) as [parts ->].
      destruct (is_nullish e); [by eexists|].
      destruct (He Hfe) as [text ->]. by eexists. }
    destruct Hparts as [parts ->]. by eexists.
  - cbn [to_string]. cbn [free_of forallb] in Hfree.
    apply andb_true_iff in Hfree as [Hown _]. rewrite andb_true_r in Hown.
    apply negb_true_iff in Hown as ->. by eexists.
Qed.

Lemma named_replacement_free (bag : value) (name : string) :
  free_of ["toString"] bag = true →
  ∃ replacement, named_replacement bag name = Ok replacement.
Proof.
  intros Hfree. unfold named_replacement.
  destruct (has_own bag name); [|by eexists].
  destruct (String.eqb (typeof (get bag name)) "undefined"); [by eexists|].
  destruct (to_string_free (get bag name)) as [text ->]; [|by eexists].
  by apply free_of_get.
Qed.

Lemma replace_pieces_free (bag : value) (ps : list piece) (args : list value) :
  free_of ["toString"] bag = true →
  Forall (λ a, free_of ["toString"] a = true) args →
  ∃ text, replace_pieces bag ps args = Ok text.
Proof.
  intros Hbag. revert args.
  induction ps as [|[c|name] ps IH]; intros args Hargs; cbn [replace_pieces].
  - by eexists.
  - destruct (IH args Hargs) as [rest ->]. by eexists.
  - destruct (String.eqb name "").
    + destruct args as [|a shifted].
      * destruct (IH [] Hargs) as [rest ->]. by eexists.
      * destruct (String.eqb (typeof a) "undefined").
        -- destruct (IH _ Hargs) as [rest ->]. by eexists.
        -- apply Forall_cons in Hargs as [Ha Hargs].
           destruct (to_string_free a Ha) as [text ->].
           destruct (IH _ Hargs) as [rest ->]. by eexists.
    + destruct (named_replacement_free bag name Hbag) as [replacement ->].
      destruct (IH args Hargs) as [rest ->]. by eexists.
Qed.

Lemma last_Forall (P : value → Prop) (args : list value) (d : value) :
  Forall P args → P d → P (List.last args d).
Proof.
  intros Hall Hd. induction Hall as [|a args Ha Hall IH]; [done|].
  destruct args; [done|]. exact IH.
Qed.

(** [format] returns when no object among the arguments owns [toString]. *)
Lemma format_free (template : string) (args : list value) :
  Forall (λ a, free_of ["toString"] a = true) args →
  ∃ text, format template args = Ok text.
Proof.
  intros Hargs. apply replace_pieces_free; [|done].
  apply free_of_or_else; [|done].
  by apply (last_Forall (λ a, free_of ["toString"] a = true)).
Qed.
End ConversionProperties.

(** ** Plural rules, [ln] and [lnPlural] *)

Lemma number_le_one (q : Q) : number_le (NFin q) one = true ↔ (q <= 1)%Q.
Proof. unfold number_le, one. apply Qle_bool_iff. Qed.

Lemma number_eq_one (q : Q) : number_eq (NFin q) one = true ↔ (q == 1)%Q.
Proof. unfold number_eq, one. apply Qeq_bool_iff. Qed.

(** A name that [PLURAL_RULES] neither has as an entry nor inherits reads
    [undefined]. *)
Lemma read_rule_absent (name : string) :
  name ∉ listed_languages → name ∉ object_prototype_names →
  read_rule name = NoMember.
Proof.
  intros Hlisted Hproto. unfold read_rule, PLURAL_RULES. cbn [lookup_rule].
  repeat match goal with
  | |- context [String.eqb ?k name] =>
      destruct (String.eqb_spec k name) as [<-|_];
        [exfalso; first [apply Hlisted; by apply (bool_decide_unpack _)
                        |apply Hproto; by apply (bool_decide_unpack _)]|]
  | |- context [String.eqb name ?k] =>
      destruct (String.eqb_spec name k) as [->|_];
        [exfalso; first [apply Hlisted; by apply (bool_decide_unpack _)
                        |apply Hproto; by apply (bool_decide_unpack _)]|]
  end.
  rewrite bool_decide_eq_false_2; [done|].
  intros Hin. apply Hproto. unfold object_prototype_names.
  apply elem_of_app. by right.
Qed.

Section LookupProperties.
Context `{NumberToString} `{Inherited}.

(** C8 (the code, the failing input included).  Plural rule selection: the
    rule of ["fr"] answers ["singular"] when [count <= 1] and ["plural"]
    otherwise; the rules of the other listed languages and the default
    rule answer ["singular"] exactly when [count == 1] and ["plural"]
    otherwise, and the default rule is used for a language identifier that
    is absent from the table unless it names a member of
    [Object.prototype]: for ["constructor"] the form is the count itself,
    for ["toString"] and ["isPrototypeOf"] the texts ["[object Undefined]"]
    and ["false"], and for the others the selection throws. *)
Theorem plural_rule_selection :
  (∀ count,
     plural_form "fr" count =
       Ok (if number_le count one then "singular" else "plural")) ∧
  (∀ name count, name ∈ ["es"; "en"; "de"; "it"; "pt"; "nl"; "default"] →
     plural_form name count =
       Ok (if number_eq count one then "singular" else "plural")) ∧
  (∀ name count, name ∉ listed_languages → name ∉ object_prototype_names →
     plural_form name count =
       Ok (if number_eq count one then "singular" else "plural")) ∧
  (∀ count, plural_form "constructor" count = Ok (number_to_string count)) ∧
  (∀ count, plural_form "toString" count = Ok "[object Undefined]") ∧
  (∀ count, plural_form "isPrototypeOf" count = Ok "false") ∧
  (∀ name count, name ∈ "__proto__" :: object_methods →
     plural_form name count = Throw TypeError) ∧
  (∀ q, number_le (NFin q) one = true ↔ (q <= 1)%Q) ∧
  (∀ q, number_eq (NFin q) one = true ↔ (q == 1)%Q) ∧
  (∀ count, count = NNaN ∨ count = NInf false →
     number_le count one = false ∧ number_eq count one = false) ∧
  (number_le (NInf true) one = true ∧ number_eq (NInf true) one = false).
Proof.
  split; [done|]. split.
  { intros name count Hin. repeat (apply elem_of_cons in Hin as [->|Hin]; [done|]).
    by apply elem_of_nil in Hin. }
  split.
  { intros name count Hlisted Hproto. unfold plural_form.
    by rewrite (read_rule_absent name Hlisted Hproto). }
  do 3 (split; [done|]). split.
  { intros name count Hin. repeat (apply elem_of_cons in Hin as [->|Hin]; [done|]).
    by apply elem_of_nil in Hin. }
  split; [exact number_le_one|]. split; [exact number_eq_one|].
  split; [|done]. by intros count [-> | ->].
Qed.

Lemma plural_form_listed (name : string) (count : number) :
  name ∉ object_prototype_names →
  plural_form name count =
    Ok (if String.eqb name "fr"
        then if number_le count one then "singular" else "plural"
        else if number_eq count one then "singular" else "plural").
Proof.
  intros Hproto. destruct (decide (name ∈ listed_languages)) as [Hin|Hnin].
  - repeat (apply elem_of_cons in Hin as [->|Hin]; [done|]).
    by apply elem_of_nil in Hin.
  - unfold plural_form. rewrite (read_rule_absent name Hnin Hproto).
    destruct (String.eqb_spec name "fr") as [->|_]; [|done].
    exfalso. apply Hnin. by apply (bool_decide_unpack _).
Qed.

(** C7 (the code, the failing input included).  Plural lookup
    composition: [lnPlural(key, count, ...args)] is
    [ln(key + "." + form, count, ...args)], [form] being ["singular"] or
    ["plural"] as the rule of the current language, the default rule when
    the language is not listed, answers for [count]; [count] is the first
    positional argument of that lookup, so that in the scenario of the
    specification the indexed placeholder of the selected form shows the
    count.  This holds for every language whose identifier does not name a
    member of [Object.prototype].  For the language ["constructor"] the
    lookup is that of [key + "." + count], and for ["__proto__"] there is
    none: the call throws. *)
Theorem lnPlural_composition :
  (∀ data language loadingResource key count args,
     language_key language ∉ object_prototype_names →
     lnPlural data language loadingResource key count args =
     ln data loadingResource
       (key +:+ "." +:+
        (if String.eqb (language_key language) "fr"
         then if number_le count one then "singular" else "plural"
         else if number_eq count one then "singular" else "plural"))
       (VNumber count :: args)) ∧
  (∀ name count, name ∉ object_prototype_names →
     lnPlural messages_document {| language_key := name |} false
       "messages.notification" count [] =
     Ok (VString ("You have " +:+ number_to_string count +:+
                  (if (if String.eqb name "fr" then number_le count one
                       else number_eq count one)
                   then " new message" else " new messages")))) ∧
  (∀ data loadingResource key count args,
     lnPlural data {| language_key := "constructor" |} loadingResource key count args =
     ln data loadingResource (key +:+ "." +:+ number_to_string count)
       (VNumber count :: args)) ∧
  (∀ data loadingResource key count args,
     lnPlural data {| language_key := "__proto__" |} loadingResource key count args
     = Throw TypeError).
Proof.
  split; [|split; [|by split]].
  - intros data language loadingResource key count args Hproto.
    unfold lnPlural. by rewrite (plural_form_listed _ count Hproto).
  - intros name count Hproto. unfold lnPlural. cbn [language_key].
    rewrite (plural_form_listed _ count Hproto). cbn [bind].
    destruct (String.eqb name "fr");
      [destruct (number_le count one)|destruct (number_eq count one)];
      reflexivity.
Qed.

Lemma length_snoc_pos (pre : list value) (a : value) :
  (0 <? length (pre ++ [a])) = true.
Proof. by destruct pre. Qed.

Lemma override_check (args : list value) :
  last_argument_tested args →
  (if (0 <? length args) && String.eqb (typeof (List.last args VUndefined)) "object"
   then hasOwnProperty (List.last args VUndefined) "defaultTxt"
   else Ok false) = Ok (carries_defaultTxt args).
Proof.
  intros [Hlast Hshadow]. unfold carries_defaultTxt, hasOwnProperty.
  destruct (0 <? length args); [|done]. cbn [andb]. rewrite Hshadow.
  destruct (List.last args VUndefined); cbn; done.
Qed.

(** [ln] once the test of its last argument has returned. *)
Lemma ln_unfold data loadingResource key args :
  last_argument_tested args →
  ln data loadingResource key args =
  if suppressed data loadingResource args then Ok (VString "")
  else
    let keyPart := trimEnd (trimStart (hd "" (split_dot key))) in
    if String.eqb keyPart "" then Ok (VString "unknown")
    else
      bind (opt_hasOwnProperty data keyPart) (λ own,
        if negb own then fallback (default_text args) key args
        else
          bind
            (match descend (opt_get data keyPart) (tl (split_dot key)) with
             | Ok found => Ok found
             | Throw _ => fallback (default_text args) key args
             end)
            (λ found, format_found found args)).
Proof.
  intros Hlast. unfold ln. rewrite (override_check args Hlast). cbn [bind].
  unfold suppressed, default_text, emptyString, format_found.
  destruct (carries_defaultTxt args); cbn [andb orb];
    destruct (negb (truthy data)); cbn [andb orb];
    destruct loadingResource; cbn [andb orb]; done.
Qed.

(** Without a property [hasOwnProperty] of its own a value answers the
    call with what it owns. *)
Lemma opt_hasOwnProperty_inherited (v : value) (k : string) :
  owns v "hasOwnProperty" = false →
  opt_hasOwnProperty v k = Ok (negb (is_nullish v) && has_own v k).
Proof.
  intros Hv. unfold opt_hasOwnProperty, hasOwnProperty. rewrite Hv.
  by destruct (is_nullish v).
Qed.

Lemma fallback_free (key : string) (args : list value) :
  Forall (λ a, free_of ["toString"] a = true) args →
  ∃ text, fallback (default_text args) key args = Ok (VString text).
Proof.
  intros Hargs. unfold fallback.
  destruct (truthy (default_text args)); [|by eexists].
  destruct (to_string_free (default_text args)) as [text ->].
  { unfold default_text. destruct (carries_defaultTxt args); [|done].
    apply free_of_get.
    by apply (last_Forall (λ a, free_of ["toString"] a = true)). }
  cbn [bind]. destruct (format_free text args Hargs) as [formatted ->].
  by eexists.
Qed.

Lemma format_found_free (found : value) (args : list value) :
  Forall (λ a, free_of ["toString"] a = true) args →
  ∃ v, format_found found args = Ok v.
Proof.
  intros Hargs. unfold format_found.
  destruct (String.eqb (typeof found) "string") eqn:Hs; [|by eexists].
  destruct found; try done. cbn [to_string bind].
  destruct (format_free s args Hargs) as [formatted ->]. by eexists.
Qed.

(** C1 (the failing input, evaluated).  A [null] last argument makes
    [ln], and [lnPlural] through it, throw a [TypeError]: [typeof null]
    is ["object"], and the call [null.hasOwnProperty("defaultTxt")]
    follows.  The same call throws when the last argument is an object
    with a property [hasOwnProperty] of its own.  [ln] returns a value
    when its last argument is neither, the document has no property
    [hasOwnProperty] and no object among the arguments has a property
    [toString]. *)
Theorem ln_null_argument_throws :
  (∀ data language loadingResource key count pre,
     ln data loadingResource key (pre ++ [VNull]) = Throw TypeError ∧
     lnPlural data language loadingResource key count (pre ++ [VNull])
       = Throw TypeError) ∧
  (∀ data loadingResource key pre bag,
     owns bag "hasOwnProperty" = true →
     ln data loadingResource key (pre ++ [bag]) = Throw TypeError) ∧
  (∀ data loadingResource key args,
     last_argument_tested args →
     owns data "hasOwnProperty" = false →
     Forall (λ a, free_of ["toString"] a = true) args →
     ∃ v, ln data loadingResource key args = Ok v).
Proof.
  split; [|split].
  - intros data language loadingResource key count pre.
    assert (Hln : ∀ k pre', ln data loadingResource k (pre' ++ [VNull]) = Throw TypeError).
    { intros k pre'. unfold ln. by rewrite length_snoc_pos, last_snoc. }
    split; [apply Hln|]. unfold lnPlural.
    destruct (plural_form (language_key language) count) as [form|e] eqn:Hform.
    + apply (Hln _ (VNumber count :: pre)).
    + cbn. unfold plural_form in Hform. by destruct (read_rule _); simplify_eq.
  - intros data loadingResource key pre bag Hbag. unfold ln.
    rewrite length_snoc_pos, last_snoc. destruct bag; try done.
    cbn [typeof String.eqb andb]. unfold hasOwnProperty. cbn [is_nullish].
    by rewrite Hbag.
  - intros data loadingResource key args Hlast Hdata Hargs.
    rewrite (ln_unfold _ _ _ _ Hlast). cbv zeta.
    destruct (suppressed data loadingResource args); [by eexists|].
    destruct (String.eqb _ ""); [by eexists|].
    rewrite (opt_hasOwnProperty_inherited data _ Hdata). cbn [bind].
    destruct (fallback_free key args Hargs) as [text Hfallback].
    destruct (negb _); [by eexists|].
    destruct (descend _ _) as [found|e]; cbn [bind].
    + apply (format_found_free found args Hargs).
    + rewrite Hfallback. cbn [bind]. apply (format_found_free _ args Hargs).
Qed.

Lemma descend_fails current before seg after cur :
  descend current before = Ok cur →
  opt_hasOwnProperty cur seg ≠ Ok true →
  ∃ e, descend current (before ++ seg :: after) = Throw e.
Proof.
  revert current. induction before as [|k before IH]; intros current Hd Hown; cbn in *.
  - simplify_eq. destruct (opt_hasOwnProperty cur seg) as [[]|e]; cbn; eauto; done.
  - destruct (opt_hasOwnProperty current k) as [[]|e]; cbn in *; [|done..].
    by apply IH.
Qed.

End LookupProperties.

(** ** Own properties of objects, arrays and strings *)

Lemma lookup_prop_None (k : string) (ps : props) :
  lookup_prop k ps = None ↔ k ∉ map fst ps.
Proof.
  induction ps as [|[k' v] ps IH]; cbn.
  - split; [intros _; apply not_elem_of_nil | done].
  - rewrite not_elem_of_cons, <- IH.
    destruct (String.eqb_spec k' k) as [->|Hne]; split.
    + done.
    + by intros [? _].
    + intros Hn. split; [congruence|done].
    + by intros [_ ?].
Qed.

Lemma lookup_prop_app (k : string) (ps qs : props) :
  lookup_prop k (ps ++ qs) =
  match lookup_prop k ps with Some v => Some v | None => lookup_prop k qs end.
Proof.
  induction ps as [|[k' v] ps IH]; cbn; [done|]. by destruct (String.eqb k' k).
Qed.

Lemma set_prop_fresh (k : string) (v : value) (ps : props) :
  lookup_prop k ps = None → set_prop k v ps = ps ++ [(k, v)].
Proof.
  induction ps as [|[k' v'] ps IH]; cbn; [done|].
  destruct (String.eqb k' k); [done|]. intros Hn. by rewrite IH.
Qed.

Lemma lookup_set_prop (k k' : string) (v : value) (ps : props) :
  lookup_prop k' (set_prop k v ps) =
  if String.eqb k k' then Some v else lookup_prop k' ps.
Proof.
  induction ps as [|[k0 v0] ps IH]; cbn; [done|].
  destruct (String.eqb_spec k0 k) as [->|Hne]; cbn.
  - by destruct (String.eqb k k').
  - rewrite IH. destruct (String.eqb_spec k k') as [->|]; [|done].
    by apply String.eqb_neq in Hne as ->.
Qed.

Lemma prefix_keys_lookup (k : string) (v : value) (done todo : props) :
  NoDup (map fst (done ++ (k, v) :: todo)) →
  lookup_prop k done = None ∧ lookup_prop k (done ++ (k, v) :: todo) = Some v.
Proof.
  rewrite map_app. cbn. intros Hnd.
  apply NoDup_app in Hnd as (_ & Hdisj & _).
  assert (Hnone : lookup_prop k done = None).
  { apply lookup_prop_None. intros Hin. apply (Hdisj _ Hin). left. }
  split; [done|]. rewrite lookup_prop_app, Hnone. cbn. by rewrite String.eqb_refl.
Qed.

(** ** Depth *)

Lemma depth_object_cons (k : string) (v : value) (ps : props) :
  depth (VObject ((k, v) :: ps)) = Nat.max (S (depth v)) (depth (VObject ps)).
Proof. reflexivity. Qed.

Lemma depth_array_cons (e : value) (elems : list value) :
  depth (VArray (e :: elems)) = Nat.max (S (depth e)) (depth (VArray elems)).
Proof. reflexivity. Qed.

Lemma depth_empty : depth (VObject []) = 0.
Proof. reflexivity. Qed.

Lemma depth_lookup (k : string) (ps : props) (v : value) :
  lookup_prop k ps = Some v → depth v < depth (VObject ps).
Proof.
  induction ps as [|[k' v'] ps IH]; [done|].
  rewrite depth_object_cons.
  cbn [lookup_prop]. destruct (String.eqb k' k).
  - intros [= ->]. lia.
  - intros Hl. specialize (IH Hl). lia.
Qed.

Lemma depth_elem (elems : list value) (i : nat) (v : value) :
  elems !! i = Some v → depth v < depth (VArray elems).
Proof.
  revert i. induction elems as [|e elems IH]; intros i; [done|].
  rewrite depth_array_cons.
  destruct i as [|i]; cbn [lookup list_lookup].
  - intros [= ->]. lia.
  - intros Hl. specialize (IH _ Hl). lia.
Qed.

Lemma depth_get_document (obj : value) (k : string) :
  is_document (get obj k) = true → depth (get obj k) < depth obj.
Proof.
  destruct obj as [| | | | s|elems|ps]; cbn [get]; try done.
  - destruct (String.eqb k "length"); [done|].
    destruct (index_of_key k (String.length s)) as [i|]; cbn; [|done].
    by destruct (string_nth i s).
  - destruct (String.eqb k "length"); [done|].
    destruct (index_of_key k (length elems)) as [i|]; cbn; [|done].
    destruct (elems !! i) as [v|] eqn:Hi; cbn; [|done].
    intros _. by apply (depth_elem _ i).
  - destruct (lookup_prop k ps) as [v|] eqn:Hl; cbn; [|done].
    intros _. by apply (depth_lookup k).
Qed.

Lemma depth_set_prop (k : string) (v : value) (ps : props) :
  depth (VObject (set_prop k v ps)) ≤ Nat.max (S (depth v)) (depth (VObject ps)).
Proof.
  induction ps as [|[k' v'] ps IH].
  - cbn [set_prop]. rewrite depth_object_cons. lia.
  - cbn [set_prop]. destruct (String.eqb k' k); rewrite !depth_object_cons; lia.
Qed.

Lemma depth_accumulated (result : props) (k : string) (D : nat) :
  depth (VObject result) ≤ D → 0 < D →
  depth (or_else (get (VObject result) k) (VObject [])) < D.
Proof.
  intros Hr HD. cbn [get]. destruct (lookup_prop k result) as [v|] eqn:Hl; cbn.
  - pose proof (depth_lookup _ _ _ Hl). unfold or_else.
    destruct (truthy v); rewrite ?depth_empty; lia.
  - by rewrite depth_empty.
Qed.

(** ** [plain_deepMerge] on values: enough fuel, and the equation of the source *)

Lemma max_depth_pair (a b : value) : max_depth [a; b] = Nat.max (depth a) (depth b).
Proof. unfold max_depth. cbn [foldr]. lia. Qed.

Lemma enumerable_keys_depth (obj : value) :
  String.eqb (typeof obj) "object" = true →
  enumerable_keys obj = [] ∨ 0 < depth obj.
Proof.
  destruct obj as [| | | | |[|e elems]|[|[k v] ps]]; cbn; intros Hty;
    try done; auto; right.
  - rewrite depth_array_cons. lia.
  - rewrite depth_object_cons. lia.
Qed.

Lemma plain_merge_key_good recurse D obj result key :
  good_recurse D recurse → 0 < depth obj → depth obj ≤ D →
  depth (VObject result) ≤ D →
  ∃ result', plain_merge_key recurse obj (Some result) key = Some result'
             ∧ depth (VObject result') ≤ D.
Proof.
  intros Hrec Hpos Hobj Hres. unfold plain_merge_key. cbn [mbind option_bind].
  destruct (has_own obj key); cbn [negb]; [|eauto].
  destruct (is_document (get obj key)) eqn:Hdoc.
  - pose proof (depth_get_document _ _ Hdoc) as Hlt.
    pose proof (depth_accumulated result key D Hres ltac:(lia)) as Hacc.
    destruct (Hrec [or_else (get (VObject result) key) (VObject []); get obj key])
      as (r & -> & Hr).
    { rewrite max_depth_pair. lia. }
    cbn [mbind option_bind]. eexists; split; [done|].
    rewrite max_depth_pair in Hr. pose proof (depth_set_prop key (VObject r) result). lia.
  - eexists; split; [done|].
    pose proof (depth_set_prop key (get obj key) result).
    assert (depth (get obj key) < depth obj ∨ depth (get obj key) = 0) as [|]; [|lia..].
    destruct obj as [| | | | s|elems|ps]; cbn [get]; auto.
    + destruct (String.eqb key "length"); [auto|].
      destruct (index_of_key key (String.length s)) as [i|]; cbn; [|auto].
      destruct (string_nth i s); cbn; auto.
    + destruct (String.eqb key "length"); [auto|].
      destruct (index_of_key key (length elems)) as [i|]; cbn; [|auto].
      destruct (elems !! i) as [v|] eqn:Hi; cbn; [|auto].
      left. by apply (depth_elem _ i).
    + destruct (lookup_prop key ps) as [v|] eqn:Hl; cbn; [|auto].
      left. by apply (depth_lookup key).
Qed.

Lemma plain_merge_key_agree recurse1 recurse2 D obj result key :
  (∀ objects, max_depth objects < D → recurse1 objects = recurse2 objects) →
  depth obj ≤ D → depth (VObject result) ≤ D →
  plain_merge_key recurse1 obj (Some result) key = plain_merge_key recurse2 obj (Some result) key.
Proof.
  intros Hag Hobj Hres. unfold plain_merge_key. cbn [mbind option_bind].
  destruct (has_own obj key); cbn [negb]; [|done].
  destruct (is_document (get obj key)) eqn:Hdoc; [|done].
  pose proof (depth_get_document _ _ Hdoc) as Hlt.
  pose proof (depth_accumulated result key D Hres ltac:(lia)) as Hacc.
  rewrite Hag; [done|]. rewrite max_depth_pair. lia.
Qed.

Lemma plain_merge_keys_good recurse D obj keys result :
  good_recurse D recurse → keys = [] ∨ 0 < depth obj → depth obj ≤ D →
  depth (VObject result) ≤ D →
  ∃ result', fold_left (plain_merge_key recurse obj) keys (Some result) = Some result'
             ∧ depth (VObject result') ≤ D.
Proof.
  intros Hrec [->|Hpos] Hobj; [eauto|]. revert result.
  induction keys as [|key keys IH]; intros result Hres; cbn [fold_left]; [eauto|].
  destruct (plain_merge_key_good recurse D obj result key) as (r1 & -> & Hr1); auto.
Qed.

Lemma plain_merge_keys_agree recurse1 recurse2 D obj keys result :
  good_recurse D recurse1 →
  (∀ objects, max_depth objects < D → recurse1 objects = recurse2 objects) →
  keys = [] ∨ 0 < depth obj → depth obj ≤ D → depth (VObject result) ≤ D →
  fold_left (plain_merge_key recurse1 obj) keys (Some result)
  = fold_left (plain_merge_key recurse2 obj) keys (Some result).
Proof.
  intros Hrec Hag [->|Hpos] Hobj; [done|]. revert result.
  induction keys as [|key keys IH]; intros result Hres; cbn [fold_left]; [done|].
  rewrite <- (plain_merge_key_agree recurse1 recurse2 D) by done.
  destruct (plain_merge_key_good recurse1 D obj result key) as (r1 & -> & Hr1); auto.
Qed.

Lemma plain_merge_object_good recurse D obj result :
  good_recurse D recurse → depth obj ≤ D → depth (VObject result) ≤ D →
  ∃ result', plain_merge_object recurse (Some result) obj = Some result'
             ∧ depth (VObject result') ≤ D.
Proof.
  intros Hrec Hobj Hres. unfold plain_merge_object.
  destruct (String.eqb (typeof obj) "object") eqn:Hty;
    [|rewrite orb_true_r; eauto].
  destruct (negb (truthy obj)); cbn [orb negb]; [eauto|].
  apply plain_merge_keys_good; auto using enumerable_keys_depth.
Qed.

Lemma plain_merge_object_agree recurse1 recurse2 D obj result :
  good_recurse D recurse1 →
  (∀ objects, max_depth objects < D → recurse1 objects = recurse2 objects) →
  depth obj ≤ D → depth (VObject result) ≤ D →
  plain_merge_object recurse1 (Some result) obj = plain_merge_object recurse2 (Some result) obj.
Proof.
  intros Hrec Hag Hobj Hres. unfold plain_merge_object.
  destruct (String.eqb (typeof obj) "object") eqn:Hty;
    [|by rewrite orb_true_r].
  destruct (negb (truthy obj)); cbn [orb negb]; [done|].
  apply (plain_merge_keys_agree _ _ D); auto using enumerable_keys_depth.
Qed.

Lemma max_depth_cons (obj : value) (objects : list value) :
  max_depth (obj :: objects) = Nat.max (depth obj) (max_depth objects).
Proof. reflexivity. Qed.

Lemma plain_merge_objects_good recurse D objects result :
  good_recurse D recurse → max_depth objects ≤ D → depth (VObject result) ≤ D →
  ∃ result', fold_left (plain_merge_object recurse) objects (Some result) = Some result'
             ∧ depth (VObject result') ≤ D.
Proof.
  intros Hrec. revert result.
  induction objects as [|obj objects IH]; intros result Hobjs Hres; cbn [fold_left]; [eauto|].
  rewrite max_depth_cons in Hobjs.
  destruct (plain_merge_object_good recurse D obj result) as (r1 & -> & Hr1); auto; [lia|].
  apply IH; [lia|done].
Qed.

Lemma plain_merge_objects_agree recurse1 recurse2 D objects result :
  good_recurse D recurse1 →
  (∀ objects, max_depth objects < D → recurse1 objects = recurse2 objects) →
  max_depth objects ≤ D → depth (VObject result) ≤ D →
  fold_left (plain_merge_object recurse1) objects (Some result)
  = fold_left (plain_merge_object recurse2) objects (Some result).
Proof.
  intros Hrec Hag. revert result.
  induction objects as [|obj objects IH]; intros result Hobjs Hres; cbn [fold_left]; [done|].
  rewrite max_depth_cons in Hobjs.
  rewrite <- (plain_merge_object_agree recurse1 recurse2 D) by (done || lia).
  destruct (plain_merge_object_good recurse1 D obj result) as (r1 & -> & Hr1); auto; [lia|].
  apply IH; [lia|done].
Qed.

(** With fuel above the depth of its arguments [plain_deepMerge_fuel] returns, and
    more fuel changes nothing. *)
Lemma plain_deepMerge_fuel_enough (n : nat) (objects : list value) :
  max_depth objects < n →
  ∃ r, plain_deepMerge_fuel n objects = Some (VObject r)
       ∧ depth (VObject r) ≤ max_depth objects
       ∧ ∀ m, max_depth objects < m → plain_deepMerge_fuel m objects = Some (VObject r).
Proof.
  revert objects. induction n as [|n IH]; intros objects Hn; [lia|].
  assert (Hgood : good_recurse (max_depth objects) (plain_deepMerge_fuel n)).
  { intros A HA. destruct (IH A ltac:(lia)) as (r & Hr & Hd & _). eauto. }
  destruct (plain_merge_objects_good (plain_deepMerge_fuel n) (max_depth objects) objects [])
    as (r & Hr & Hd); [done|done|rewrite depth_empty; lia|].
  exists r. cbn [plain_deepMerge_fuel]. rewrite Hr. split; [done|]. split; [done|].
  intros [|m] Hm; [lia|]. cbn [plain_deepMerge_fuel].
  rewrite <- (plain_merge_objects_agree (plain_deepMerge_fuel n) (plain_deepMerge_fuel m)
                (max_depth objects)); [by rewrite Hr|done| |done|rewrite depth_empty; lia].
  intros A HA. destruct (IH A ltac:(lia)) as (r' & Hr' & _ & Hall).
  rewrite Hr'. symmetry. apply Hall. lia.
Qed.

(** [plain_deepMerge] is total. *)
Lemma plain_deepMerge_total (objects : list value) :
  ∃ r, plain_deepMerge objects = Some (VObject r)
       ∧ depth (VObject r) ≤ max_depth objects.
Proof.
  destruct (plain_deepMerge_fuel_enough (S (max_depth objects)) objects) as (r & ? & ? & _);
    [lia|eauto].
Qed.

Lemma plain_deepMerge_fuel_deepMerge (n : nat) (objects : list value) :
  max_depth objects < n → plain_deepMerge_fuel n objects = plain_deepMerge objects.
Proof.
  intros Hn. unfold plain_deepMerge.
  destruct (plain_deepMerge_fuel_enough n objects Hn) as (r & -> & _ & Hall).
  symmetry. apply Hall. lia.
Qed.

(** The equation of the source: [plain_deepMerge] is the two loops, the nested
    call being [plain_deepMerge] itself. *)
Lemma plain_deepMerge_unfold (objects : list value) :
  plain_deepMerge objects =
  VObject <$> fold_left (plain_merge_object plain_deepMerge) objects (Some []).
Proof.
  unfold plain_deepMerge at 1. cbn [plain_deepMerge_fuel]. f_equal.
  apply (plain_merge_objects_agree _ _ (max_depth objects));
    [| |done|rewrite depth_empty; lia].
  - intros A HA.
    destruct (plain_deepMerge_fuel_enough _ A HA) as (r & ? & ? & _). eauto.
  - intros A HA. by apply plain_deepMerge_fuel_deepMerge.
Qed.

(** ** [plain_deepMerge] on one document *)

Lemma unique_keys_object (ps : props) :
  unique_keys (VObject ps) ↔
  NoDup (map fst ps) ∧ Forall (λ p, unique_keys p.2) ps.
Proof.
  cbn [unique_keys]. apply and_iff_compat_l.
  induction ps as [|[k v] ps IH]; [by split|].
  rewrite Forall_cons, <- IH. done.
Qed.

Lemma plain_merge_object_empty recurse (result : option props) :
  plain_merge_object recurse result (VObject []) = result.
Proof. reflexivity. Qed.

(** A document merged into the empty accumulator, key after key, is built
    again as it is. *)
Lemma plain_merge_keys_copy (d : nat) (ps todo done : props) :
  (∀ v, depth v < d → is_document v = true → unique_keys v →
        plain_deepMerge [VObject []; v] = Some v) →
  depth (VObject ps) ≤ d → unique_keys (VObject ps) →
  ps = done ++ todo →
  fold_left (plain_merge_key plain_deepMerge (VObject ps)) (map fst todo) (Some done) = Some ps.
Proof.
  intros IH Hd Hu. revert done.
  induction todo as [|[k v] todo IHtodo]; intros done Hps; cbn [map fold_left fst].
  - by rewrite app_nil_r in Hps; subst.
  - apply unique_keys_object in Hu as Hu'. destruct Hu' as [Hnd Hall].
    rewrite Hps in Hnd. apply prefix_keys_lookup in Hnd as [Hnone Hsome].
    rewrite <- Hps in Hsome.
    assert (Hstep : plain_merge_key plain_deepMerge (VObject ps) (Some done) k
                    = Some (done ++ [(k, v)])).
    { unfold plain_merge_key. cbn [mbind option_bind has_own get].
      rewrite Hsome. cbn [from_option id negb].
      rewrite bool_decide_eq_true_2 by eauto.
      cbn [negb]. rewrite Hnone. cbn [from_option id].
      destruct (is_document v) eqn:Hdoc.
      - change (or_else VUndefined (VObject [])) with (VObject []).
        rewrite IH; [by cbn; rewrite set_prop_fresh| |done|].
        + pose proof (depth_lookup _ _ _ Hsome). lia.
        + rewrite Forall_forall in Hall. apply (Hall (k, v)).
          rewrite Hps. apply elem_of_app. right. left.
      - by rewrite set_prop_fresh. }
    rewrite Hstep. apply IHtodo. by rewrite <- app_assoc.
Qed.

Lemma plain_deepMerge_copy (d : nat) (doc : value) :
  depth doc < d → is_document doc = true → unique_keys doc →
  plain_deepMerge [VObject []; doc] = Some doc.
Proof.
  revert doc. induction d as [|d IH]; intros doc Hd Hdoc Hu; [lia|].
  destruct doc as [| | | | | |ps]; try done.
  rewrite plain_deepMerge_unfold. cbn [fold_left]. rewrite plain_merge_object_empty.
  unfold plain_merge_object. cbn [truthy typeof negb orb enumerable_keys].
  change (negb (String.eqb "object" "object")) with false. cbv iota.
  rewrite (plain_merge_keys_copy d ps ps []); [done| |lia|done|done].
  intros v Hv. by apply IH.
Qed.

(** On plain data the empty document is a left identity: a document [d]
    whose keys are unique at every level, merged alone or after [{}],
    comes back as it is. *)
Lemma plain_deepMerge_left_identity (d : value) :
  is_document d = true → unique_keys d →
  plain_deepMerge [d] = Some d ∧
  plain_deepMerge [VObject []; d] = Some d ∧
  plain_deepMerge [] = Some (VObject []).
Proof.
  intros Hdoc Hu. split; [|split; [|done]].
  - rewrite <- (plain_deepMerge_copy (S (depth d)) d) by (done || lia).
    rewrite !plain_deepMerge_unfold. cbn [fold_left]. by rewrite plain_merge_object_empty.
  - apply (plain_deepMerge_copy (S (depth d))); (done || lia).
Qed.

(** ** Values in the store *)


Lemma reifies_mono (g g' : store) (s : sval) (v : value) :
  g ⊆ g' → reifies g s v → reifies g' s v.
Proof.
  intros Hsub. revert s.
  induction v as [| |b|n|t|elems IH|ps IH] using value_ind; intros s Hr;
    inversion Hr as [| | | | |l ss vs Hl HF|l sps ps' Hl HF]; subst;
    try constructor.
  - econstructor; [by eapply lookup_weaken|]. clear Hr Hl.
    induction HF as [|x e ss elems Hx _ IHF]; [constructor|].
    inversion IH; subst. constructor; auto.
  - econstructor; [by eapply lookup_weaken|]. clear Hr Hl.
    induction HF as [|x p sps ps [Hk Hx] _ IHF]; [constructor|].
    inversion IH; subst. constructor; auto.
Qed.

Lemma reifies_truthy (g : store) (s : sval) (v : value) :
  reifies g s v → s_truthy s = truthy v.
Proof. by destruct 1. Qed.

Lemma reifies_typeof (g : store) (s : sval) (v : value) :
  reifies g s v → s_typeof s = typeof v.
Proof. by destruct 1. Qed.

Lemma reifies_is_document (g h : store) (s : sval) (v : value) :
  g ⊆ h → reifies g s v → s_is_document h s = is_document v.
Proof.
  intros Hsub Hr. destruct Hr as [| | | | |l ss vs Hl HF|l sps ps Hl HF]; cbn;
    try done; by rewrite (lookup_weaken _ _ _ _ Hl Hsub).
Qed.

Lemma reifies_cell (g : store) (l : loc) (v : value) :
  reifies g (SRef l) v → ∃ c, g !! l = Some c ∧ cell_reifies g c v.
Proof. inversion 1; subst; eexists; split; eauto; done. Qed.

Lemma reifies_ref (g : store) (s : sval) (v : value) :
  reifies g s v → truthy v = true → String.eqb (typeof v) "object" = true →
  ∃ l, s = SRef l.
Proof. destruct 1; cbn; intros; try done; eauto. Qed.

Lemma props_reify_keys (g : store) (sps : list (string * sval)) (ps : props) :
  Forall2 (λ sp p, sp.1 = p.1 ∧ reifies g sp.2 p.2) sps ps →
  map fst sps = map fst ps.
Proof. induction 1 as [|sp p sps ps [Hk _] _ IH]; cbn; [done|]. by rewrite Hk, IH. Qed.

Lemma props_reify_lookup (g : store) (k : string)
    (sps : list (string * sval)) (ps : props) :
  Forall2 (λ sp p, sp.1 = p.1 ∧ reifies g sp.2 p.2) sps ps →
  (s_lookup_prop k sps = None ∧ lookup_prop k ps = None) ∨
  (∃ s v, s_lookup_prop k sps = Some s ∧ lookup_prop k ps = Some v ∧ reifies g s v).
Proof.
  induction 1 as [|[k1 s] [k2 v] sps ps [Hk Hr] _ IH]; cbn in *; [by left|].
  subst k2. destruct (String.eqb k1 k); [right; eauto|done].
Qed.

Lemma props_reify_set (g : store) (k : string) (s : sval) (v : value)
    (sps : list (string * sval)) (ps : props) :
  reifies g s v →
  Forall2 (λ sp p, sp.1 = p.1 ∧ reifies g sp.2 p.2) sps ps →
  Forall2 (λ sp p, sp.1 = p.1 ∧ reifies g sp.2 p.2)
    (s_set_prop k s sps) (set_prop k v ps).
Proof.
  intros Hsv. induction 1 as [|[k1 s1] [k2 v1] sps ps [Hk Hr] HF IH]; cbn in *.
  - by repeat constructor.
  - subst k2. destruct (String.eqb k1 k); constructor; auto.
Qed.

Lemma cell_reifies_keys (g : store) (c : cell) (v : value) :
  cell_reifies g c v → cell_keys c = enumerable_keys v.
Proof.
  destruct c as [sps|ss], v as [| | | | |vs|ps]; try done; cbn.
  - apply props_reify_keys.
  - intros HF. by rewrite (Forall2_length _ _ _ HF).
Qed.

Lemma cell_reifies_has_own (g : store) (c : cell) (v : value) (k : string) :
  cell_reifies g c v → cell_has_own c k = has_own v k.
Proof.
  destruct c as [sps|ss], v as [| | | | |vs|ps]; try done; cbn.
  - intros HF. destruct (props_reify_lookup g k _ _ HF) as [[-> ->]|(s & v & -> & -> & _)];
      [done|]. by rewrite !bool_decide_eq_true_2 by eauto.
  - intros HF. by rewrite (Forall2_length _ _ _ HF).
Qed.

Lemma cell_reifies_get (g : store) (c : cell) (v : value) (k : string) :
  cell_reifies g c v → reifies g (cell_get c k) (get v k).
Proof.
  destruct c as [sps|ss], v as [| | | | |vs|ps]; try done; cbn.
  - intros HF. destruct (props_reify_lookup g k _ _ HF) as [[-> ->]|(s & v & -> & -> & ?)];
      [constructor|done].
  - intros HF. rewrite (Forall2_length _ _ _ HF).
    destruct (String.eqb k "length"); [constructor|].
    destruct (index_of_key k (length vs)) as [i|]; cbn; [|constructor].
    destruct (ss !! i) as [s|] eqn:Hs.
    + destruct (Forall2_lookup_l _ _ _ _ _ HF Hs) as (v & -> & ?). done.
    + apply lookup_ge_None in Hs. rewrite (Forall2_length _ _ _ HF) in Hs.
      rewrite (lookup_ge_None_2 vs i) by done. constructor.
Qed.

Lemma alloc_empty_spec (h : store) :
  h !! (alloc_empty h).1 = None ∧
  (alloc_empty h).2 = <[(alloc_empty h).1 := CObject []]> h.
Proof.
  unfold alloc_empty. cbn. split; [|done].
  apply not_elem_of_dom. apply is_fresh.
Qed.

Lemma plain_merge_step_refl (result : loc) (g h : store) : merge_step result g h g h.
Proof. unfold merge_step. naive_solver. Qed.

Lemma plain_merge_step_trans (result : loc) (g1 h1 g2 h2 g3 h3 : store) :
  merge_step result g1 h1 g2 h2 → merge_step result g2 h2 g3 h3 →
  merge_step result g1 h1 g3 h3.
Proof.
  intros (Hg & Hp & Hd & Hn) (Hg' & Hp' & Hd' & Hn').
  split; [by trans g2|]. split; [naive_solver|]. split; [set_solver|].
  intros l Hl. destruct (Hn' l Hl) as [Hl2|Hl2]; [auto|]. right. set_solver.
Qed.

Lemma props_reify_mono (g g' : store) (sps : list (string * sval)) (ps : props) :
  g ⊆ g' →
  Forall2 (λ sp p, sp.1 = p.1 ∧ reifies g sp.2 p.2) sps ps →
  Forall2 (λ sp p, sp.1 = p.1 ∧ reifies g' sp.2 p.2) sps ps.
Proof.
  intros Hsub HF. eapply Forall2_impl; [exact HF|].
  intros sp p [? ?]. eauto using reifies_mono.
Qed.

Lemma store_set_spec (h : store) (l : loc) (k : string) (v : sval) (c : cell) :
  h !! l = Some c → store_set h l k v = Some (<[l := cell_set c k v]> h).
Proof. intros Hl. unfold store_set. by rewrite Hl. Qed.

(** Writing [result[key]]: the invariant after the assignment. *)
Lemma plain_merge_inv_write (g g' h h' : store) (result : loc) (R : props)
    (SR : list (string * sval)) (key : string) (s : sval) (v : value) :
  g ⊆ g' → g' ⊆ h' → g' !! result = None →
  h' !! result = Some (CObject SR) →
  Forall2 (λ sp p, sp.1 = p.1 ∧ reifies g sp.2 p.2) SR R →
  reifies g' s v →
  merge_inv g' (<[result := cell_set (CObject SR) key s]> h') result
    (set_prop key v R).
Proof.
  intros Hgg Hgh Hgr Hhr HSR Hsv. split; [by apply insert_subseteq_r|].
  split; [done|]. eexists. split; [apply lookup_insert_eq|].
  apply props_reify_set; [done|]. by apply (props_reify_mono g).
Qed.

Lemma plain_s_merge_key_refines recurse_s recurse g h result R obj o key R' :
  refines recurse_s recurse → merge_inv g h result R →
  reifies g (SRef obj) o →
  plain_merge_key recurse o (Some R) key = Some R' →
  ∃ h' g', plain_s_merge_key recurse_s result obj (Some h) key = Some h'
           ∧ merge_inv g' h' result R' ∧ merge_step result g h g' h'.
Proof.
  intros Hrec (Hgh & Hgr & SR & Hhr & HSR) Hobj Hpure.
  destruct (reifies_cell _ _ _ Hobj) as (c & Hc & Hcv).
  pose proof (lookup_weaken _ _ _ _ Hc Hgh) as Hhc.
  unfold plain_s_merge_key. cbn [mbind option_bind]. rewrite Hhc. cbn [mbind option_bind].
  unfold plain_merge_key in Hpure. cbn [mbind option_bind] in Hpure.
  rewrite (cell_reifies_has_own g c o key Hcv).
  destruct (has_own o key); cbn [negb] in *.
  2:{ simplify_eq. exists h, g. split; [done|].
      split; [unfold merge_inv; eauto 10|apply plain_merge_step_refl]. }
  pose proof (cell_reifies_get g c o key Hcv) as Hinc.
  rewrite (reifies_is_document g h _ _ Hgh Hinc).
  destruct (is_document (get o key)) eqn:Hdoc.
  - rewrite Hhr. cbn [mbind option_bind].
    assert (Hacc : reifies g (cell_get (CObject SR) key) (get (VObject R) key)).
    { by apply (cell_reifies_get g (CObject SR) (VObject R)). }
    rewrite (reifies_truthy _ _ _ Hacc).
    unfold or_else in Hpure.
    destruct (truthy (get (VObject R) key)) eqn:Htr.
    + destruct (recurse [get (VObject R) key; get o key]) as [merged|] eqn:Hrp;
        [|done].
      cbn [mbind option_bind] in Hpure. simplify_eq.
      destruct (Hrec [cell_get (CObject SR) key; cell_get c key]
                  [get (VObject R) key; get o key] g h merged Hgh)
        as (m & h2 & g2 & Hrs & Hh2 & Hg2 & Hg2h2 & Hdom & Hfresh & Hm);
        [by repeat constructor|done|].
      rewrite Hrs. cbn [mbind option_bind].
      pose proof (lookup_weaken _ _ _ _ Hhr Hh2) as Hh2r.
      rewrite (store_set_spec _ _ _ _ _ Hh2r).
      assert (Hg2r : g2 !! result = None).
      { apply not_elem_of_dom. intros Hin. destruct (Hdom _ Hin) as [Hd|Hd].
        - by apply not_elem_of_dom in Hgr.
        - apply Hd. apply elem_of_dom. eauto. }
      eexists _, g2. split; [done|]. split.
      * by apply (plain_merge_inv_write g).
      * split; [done|]. split.
        { intros l c' Hne Hl. rewrite lookup_insert_ne by done.
          by apply (lookup_weaken _ _ _ _ Hl Hh2). }
        split; [|done]. rewrite dom_insert. apply subseteq_dom in Hh2. set_solver.
    + destruct (alloc_empty_spec h) as [He Hh1].
      destruct (alloc_empty h) as [e h1] eqn:Halloc. cbn [fst snd] in He, Hh1. subst h1.
      destruct (recurse [VObject []; get o key]) as [merged|] eqn:Hrp; [|done].
      cbn [mbind option_bind] in Hpure. simplify_eq.
      assert (Hge : g !! e = None).
      { destruct (g !! e) eqn:E; [|done]. by rewrite (lookup_weaken _ _ _ _ E Hgh) in He. }
      assert (Hg1 : g ⊆ <[e := CObject []]> g) by by apply insert_subseteq.
      destruct (Hrec [SRef e; cell_get c key] [VObject []; get o key]
                  (<[e := CObject []]> g) (<[e := CObject []]> h) merged)
        as (m & h2 & g2 & Hrs & Hh2 & Hg2 & Hg2h2 & Hdom & Hfresh & Hm).
      { by apply insert_mono. }
      { constructor; [|constructor; [|constructor]].
        - econstructor; [apply lookup_insert_eq|constructor].
        - by apply (reifies_mono g). }
      { done. }
      rewrite Hrs. cbn [mbind option_bind].
      assert (Hre : result ≠ e) by (intros ->; congruence).
      assert (Hh1r : (<[e := CObject []]> h) !! result = Some (CObject SR)).
      { by rewrite lookup_insert_ne. }
      pose proof (lookup_weaken _ _ _ _ Hh1r Hh2) as Hh2r.
      rewrite (store_set_spec _ _ _ _ _ Hh2r).
      assert (Hg2r : g2 !! result = None).
      { apply not_elem_of_dom. intros Hin. destruct (Hdom _ Hin) as [Hd|Hd].
        - rewrite dom_insert in Hd. apply elem_of_union in Hd as [Hd|Hd].
          + apply elem_of_singleton in Hd. congruence.
          + by apply not_elem_of_dom in Hgr.
        - apply Hd. apply elem_of_dom. eauto. }
      eexists _, g2. split; [done|]. split.
      * apply (plain_merge_inv_write g); try done. by trans (<[e := CObject []]> g).
      * split; [by trans (<[e := CObject []]> g)|]. split.
        { intros l c' Hne Hl. rewrite lookup_insert_ne by done.
          apply (lookup_weaken _ _ _ _ Hl). trans (<[e := CObject []]> h); [|done].
          by apply insert_subseteq. }
        split.
        { rewrite dom_insert. apply subseteq_dom in Hh2.
          rewrite dom_insert in Hh2. set_solver. }
        intros l Hl. destruct (Hdom _ Hl) as [Hd|Hd].
        -- rewrite dom_insert in Hd. apply elem_of_union in Hd as [Hd|Hd]; [|by left].
           apply elem_of_singleton in Hd as ->. right. by apply not_elem_of_dom.
        -- right. rewrite dom_insert in Hd. set_solver.
  - simplify_eq. rewrite (store_set_spec _ _ _ _ _ Hhr).
    eexists _, g. split; [done|]. split.
    + by apply (plain_merge_inv_write g).
    + split; [done|]. split.
      { intros l c' Hne Hl. by rewrite lookup_insert_ne. }
      split; [rewrite dom_insert; set_solver|auto].
Qed.

Lemma plain_merge_keys_None recurse (o : value) (keys : list string) :
  fold_left (plain_merge_key recurse o) keys None = None.
Proof. by induction keys. Qed.

Lemma plain_merge_objects_None recurse (objects : list value) :
  fold_left (plain_merge_object recurse) objects None = None.
Proof.
  induction objects as [|o objects IH]; [done|]. cbn [fold_left].
  replace (plain_merge_object recurse None o) with (@None props); [done|].
  unfold plain_merge_object. destruct (_ || _); [done|]. by rewrite plain_merge_keys_None.
Qed.

Lemma plain_s_merge_keys_refines recurse_s recurse result obj o keys :
  refines recurse_s recurse →
  ∀ g h R R',
    merge_inv g h result R → reifies g (SRef obj) o →
    fold_left (plain_merge_key recurse o) keys (Some R) = Some R' →
    ∃ h' g', fold_left (plain_s_merge_key recurse_s result obj) keys (Some h) = Some h'
             ∧ merge_inv g' h' result R' ∧ merge_step result g h g' h'.
Proof.
  intros Hrec. induction keys as [|key keys IH]; intros g h R R' Hinv Hobj Hpure;
    cbn [fold_left] in *.
  - simplify_eq. exists h, g. eauto using plain_merge_step_refl.
  - destruct (plain_merge_key recurse o (Some R) key) as [R1|] eqn:Hkey;
      [|by rewrite plain_merge_keys_None in Hpure].
    destruct (plain_s_merge_key_refines _ _ _ _ _ _ _ _ _ _ Hrec Hinv Hobj Hkey)
      as (h1 & g1 & -> & Hinv1 & Hstep1).
    destruct (IH g1 h1 R1 R' Hinv1) as (h2 & g2 & ? & ? & Hstep2); [|done|].
    { apply (reifies_mono g); [apply Hstep1|done]. }
    exists h2, g2. eauto using plain_merge_step_trans.
Qed.

Lemma plain_s_merge_object_refines recurse_s recurse result g h R R' s o :
  refines recurse_s recurse →
  merge_inv g h result R → reifies g s o →
  plain_merge_object recurse (Some R) o = Some R' →
  ∃ h' g', plain_s_merge_object recurse_s result (Some h) s = Some h'
           ∧ merge_inv g' h' result R' ∧ merge_step result g h g' h'.
Proof.
  intros Hrec Hinv Hso Hpure. unfold plain_s_merge_object, plain_merge_object in *.
  rewrite (reifies_truthy _ _ _ Hso), (reifies_typeof _ _ _ Hso).
  destruct (truthy o) eqn:Htr; cbn [negb orb] in *.
  2:{ simplify_eq. exists h, g. eauto using plain_merge_step_refl. }
  destruct (String.eqb (typeof o) "object") eqn:Hty; cbn [negb] in *.
  2:{ simplify_eq. exists h, g. eauto using plain_merge_step_refl. }
  destruct (reifies_ref _ _ _ Hso Htr Hty) as [l ->].
  destruct (reifies_cell _ _ _ Hso) as (c & Hc & Hcv).
  cbn [mbind option_bind].
  rewrite (lookup_weaken _ _ _ _ Hc (proj1 Hinv)). cbn [mbind option_bind].
  rewrite (cell_reifies_keys _ _ _ Hcv).
  by apply (plain_s_merge_keys_refines recurse_s recurse result l o _ Hrec g h R R').
Qed.

Lemma plain_s_merge_objects_refines recurse_s recurse result ss :
  refines recurse_s recurse →
  ∀ vs g h R R',
    merge_inv g h result R → Forall2 (reifies g) ss vs →
    fold_left (plain_merge_object recurse) vs (Some R) = Some R' →
    ∃ h' g', fold_left (plain_s_merge_object recurse_s result) ss (Some h) = Some h'
             ∧ merge_inv g' h' result R' ∧ merge_step result g h g' h'.
Proof.
  intros Hrec. induction ss as [|s ss IH]; intros vs g h R R' Hinv HF Hpure;
    inversion HF as [|? o ? vs' Hso HF']; subst; cbn [fold_left] in *.
  - simplify_eq. exists h, g. eauto using plain_merge_step_refl.
  - destruct (plain_merge_object recurse (Some R) o) as [R1|] eqn:Hobj;
      [|by rewrite plain_merge_objects_None in Hpure].
    destruct (plain_s_merge_object_refines _ _ _ _ _ _ _ _ _ Hrec Hinv Hso Hobj)
      as (h1 & g1 & -> & Hinv1 & Hstep1).
    destruct (IH vs' g1 h1 R1 R' Hinv1) as (h2 & g2 & ? & ? & Hstep2); [|done|].
    { eapply Forall2_impl; [exact HF'|]. intros ? ?.
      apply reifies_mono, Hstep1. }
    exists h2, g2. eauto using plain_merge_step_trans.
Qed.

(** [plain_deepMerge] on the store does what [plain_deepMerge] on values does, and
    writes to new cells only. *)
Lemma plain_deepMerge_st_refines (n : nat) : refines (plain_deepMerge_st n) (plain_deepMerge_fuel n).
Proof.
  induction n as [|n IH]; intros ss vs g h v Hgh HF Hpure; [done|].
  cbn [plain_deepMerge_fuel] in Hpure.
  destruct (fold_left (plain_merge_object (plain_deepMerge_fuel n)) vs (Some [])) as [R'|] eqn:Hfold;
    [|done].
  cbn in Hpure. simplify_eq.
  destruct (alloc_empty_spec h) as [Hr Hh1].
  cbn [plain_deepMerge_st].
  destruct (alloc_empty h) as [result h1] eqn:Halloc. cbn [fst snd] in Hr, Hh1. subst h1.
  assert (Hgr : g !! result = None).
  { destruct (g !! result) eqn:E; [|done]. by rewrite (lookup_weaken _ _ _ _ E Hgh) in Hr. }
  assert (Hinv : merge_inv g (<[result := CObject []]> h) result []).
  { split; [by apply insert_subseteq_r|]. split; [done|].
    exists []. split; [apply lookup_insert_eq|constructor]. }
  destruct (plain_s_merge_objects_refines _ _ result ss IH vs g _ [] R' Hinv HF Hfold)
    as (h' & g' & -> & (Hg'h' & Hg'r & SR & Hh'r & HSR) & (Hgg' & Hpres & Hdom & Hnew)).
  cbn [mbind option_bind].
  exists result, h', (<[result := CObject SR]> g').
  split; [done|]. split.
  { apply map_subseteq_spec. intros l c Hl. apply Hpres; [congruence|].
    rewrite lookup_insert_ne; [done|congruence]. }
  split; [trans g'; [done|by apply insert_subseteq]|].
  split; [by apply insert_subseteq_l|].
  split.
  { intros l Hl. rewrite dom_insert in Hl. apply elem_of_union in Hl as [Hl|Hl].
    - apply elem_of_singleton in Hl as ->. right. by apply not_elem_of_dom.
    - destruct (Hnew l Hl) as [?|Hn]; [by left|]. right.
      rewrite dom_insert in Hn. set_solver. }
  split; [done|].
  econstructor; [apply lookup_insert_eq|].
  apply (props_reify_mono g'); [by apply insert_subseteq|done].
Qed.

(** ** [strictDeepMerge] on the store *)

Lemma same_shape_refl (h : store) : same_shape h h.
Proof. done. Qed.

Lemma same_shape_trans (h1 h2 h3 : store) :
  same_shape h1 h2 → same_shape h2 h3 → same_shape h1 h3.
Proof. intros H12 H23 l. by rewrite H23, H12. Qed.

Lemma same_shape_is_Some (h h' : store) (l : loc) :
  same_shape h h' → is_Some (h !! l) → is_Some (h' !! l).
Proof.
  intros Hs [c Hc]. specialize (Hs l). rewrite Hc in Hs.
  destruct (h' !! l); [eauto|done].
Qed.

Lemma same_shape_dom (h h' : store) : same_shape h h' → dom h' = dom h.
Proof.
  intros Hs. apply set_eq. intros l. rewrite !elem_of_dom.
  specialize (Hs l). destruct (h !! l), (h' !! l); cbn in Hs; try done;
    split; intros [? ?]; done || eauto.
Qed.

Lemma s_set_prop_keys (k : string) (v : sval) (ps : list (string * sval)) :
  is_Some (s_lookup_prop k ps) → map fst (s_set_prop k v ps) = map fst ps.
Proof.
  induction ps as [|[k' v'] ps IH]; cbn; [by intros [? ?]|].
  destruct (String.eqb_spec k' k) as [->|Hne]; cbn; [done|].
  intros Hs. by rewrite IH.
Qed.

Lemma cell_set_shape (c : cell) (k : string) (v : sval) :
  cell_has_own c k = true → shape (cell_set c k v) = shape c.
Proof.
  destruct c as [ps|elems]; cbn; intros Hown.
  - apply bool_decide_eq_true_1 in Hown. unfold shape. cbn.
    by rewrite s_set_prop_keys.
  - destruct (index_of_key k (length elems)); unfold shape; cbn; [|done].
    by rewrite length_insert.
Qed.

Lemma s_lookup_prop_values (k : string) (ps : list (string * sval)) (v : sval) :
  s_lookup_prop k ps = Some v → v ∈ map snd ps.
Proof.
  induction ps as [|[k' v'] ps IH]; cbn; [done|].
  destruct (String.eqb k' k).
  - intros [= ->]. left.
  - intros Hl. right. auto.
Qed.

Lemma cell_get_ref (c : cell) (k : string) (l : loc) :
  cell_get c k = SRef l → SRef l ∈ cell_values c.
Proof.
  destruct c as [ps|elems]; cbn.
  - destruct (s_lookup_prop k ps) as [v|] eqn:Hl; cbn; [|done].
    intros ->. by apply (s_lookup_prop_values k).
  - destruct (String.eqb k "length"); [done|].
    destruct (index_of_key k (length elems)) as [i|]; cbn; [|done].
    destruct (elems !! i) as [v|] eqn:Hi; cbn; [|done].
    intros ->. by apply (list_elem_of_lookup_2 _ i).
Qed.

Lemma s_set_prop_values (k : string) (v x : sval) (ps : list (string * sval)) :
  x ∈ map snd (s_set_prop k v ps) → x = v ∨ x ∈ map snd ps.
Proof.
  induction ps as [|[k' v'] ps IH]; cbn.
  - intros Hx. apply list_elem_of_singleton in Hx. auto.
  - destruct (String.eqb k' k); cbn; rewrite !elem_of_cons.
    + intros [->|Hx]; auto.
    + intros [->|Hx]; [auto|]. destruct (IH Hx); auto.
Qed.

Lemma cell_set_values (c : cell) (k : string) (v x : sval) :
  x ∈ cell_values (cell_set c k v) → x = v ∨ x ∈ cell_values c.
Proof.
  destruct c as [ps|elems]; cbn.
  - apply s_set_prop_values.
  - destruct (index_of_key k (length elems)) as [i|]; cbn; [|auto].
    intros Hx. apply list_elem_of_lookup in Hx as [j Hj].
    destruct (decide (i = j)) as [->|Hne].
    + destruct (decide (j < length elems)).
      * rewrite list_lookup_insert_eq in Hj by done. left. congruence.
      * rewrite list_insert_ge in Hj by lia. right. by apply (list_elem_of_lookup_2 _ j).
    + rewrite list_lookup_insert_ne in Hj by done. right.
      by apply (list_elem_of_lookup_2 _ j).
Qed.

(** Assigning to [target[key]] a value of a cell at the level of [target]
    keeps the store graded and every shape. *)
Lemma graded_write level top (h : store) (target source : loc) (tc sc : cell)
    (key : string) :
  graded level top h →
  h !! target = Some tc → h !! source = Some sc →
  level source = level target → cell_has_own tc key = true →
  same_shape h (<[target := cell_set tc key (cell_get sc key)]> h)
  ∧ graded level top (<[target := cell_set tc key (cell_get sc key)]> h).
Proof.
  intros Hg Ht Hs Hlev Hown. split.
  - intros l. destruct (decide (l = target)) as [->|Hne].
    + by rewrite lookup_insert_eq, Ht; cbn; rewrite cell_set_shape.
    + by rewrite lookup_insert_ne.
  - intros l c Hl. destruct (decide (l = target)) as [->|Hne].
    + rewrite lookup_insert_eq in Hl. simplify_eq.
      destruct (Hg _ _ Ht) as [Htop Hrefs]. split; [done|].
      intros l' Hl'. apply cell_set_values in Hl' as [Hl'|Hl']; [|auto].
      symmetry in Hl'. apply cell_get_ref in Hl'.
      destruct (Hg _ _ Hs) as [_ Hsrefs]. rewrite <- Hlev. auto.
    + rewrite lookup_insert_ne in Hl by done. by apply Hg.
Qed.

Section StrictDeepMergeProperties.
Variable level : loc → nat.
Variable top : nat.
Variable recurse : loc → list sval → store → option (sval * store).
Variable target : loc.

(** What the nested call is known to do, one level below [target]. *)
Hypothesis recurse_ok :
  ∀ h nested sources,
    graded level top h → is_Some (h !! nested) →
    sources_at level h nested sources → level nested = S (level target) →
    ∃ h', recurse nested sources h = Some (SRef nested, h')
          ∧ same_shape h h' ∧ graded level top h'.

Lemma plain_strict_key_ok (h : store) (source : loc) (key : string) :
  graded level top h → is_Some (h !! target) → is_Some (h !! source) →
  level source = level target →
  ∃ h', plain_strict_key recurse target source (Some h) key = Some h'
        ∧ same_shape h h' ∧ graded level top h'.
Proof.
  intros Hg [tc Ht] [sc Hs] Hlev. unfold plain_strict_key.
  cbn [mbind option_bind]. rewrite Ht. cbn [mbind option_bind].
  rewrite Hs. cbn [mbind option_bind].
  destruct (cell_has_own tc key) eqn:Htown; cbn [negb orb];
    [|eauto using same_shape_refl].
  destruct (cell_has_own sc key) eqn:Hsown; cbn [negb];
    [|eauto using same_shape_refl].
  destruct (s_is_document h (cell_get tc key) && s_is_document h (cell_get sc key))
    eqn:Hdocs.
  - apply andb_true_iff in Hdocs as [Htd Hsd].
    destruct (cell_get tc key) as [| | | | |nested] eqn:Htv; try done.
    destruct (cell_get sc key) as [| | | | |sl] eqn:Hsv; try done.
    pose proof (cell_get_ref _ _ _ Htv) as Hnin.
    pose proof (cell_get_ref _ _ _ Hsv) as Hsin.
    destruct (Hg _ _ Ht) as [_ Htrefs]. destruct (Hg _ _ Hs) as [_ Hsrefs].
    destruct (recurse_ok h nested [SRef sl]) as (h' & -> & ? & ?); eauto.
    + cbn in Htd. destruct (h !! nested); [eauto|done].
    + constructor; [|constructor]. intros l [= <-]. split.
      * cbn in Hsd. destruct (h !! sl); [eauto|done].
      * rewrite (Hsrefs _ Hsin), (Htrefs _ Hnin). congruence.
  - rewrite (store_set_spec _ _ _ _ _ Ht).
    destruct (graded_write level top h target source tc sc key) as [? ?]; eauto.
Qed.

Lemma plain_strict_keys_ok (keys : list string) (h : store) (source : loc) :
  graded level top h → is_Some (h !! target) → is_Some (h !! source) →
  level source = level target →
  ∃ h', fold_left (plain_strict_key recurse target source) keys (Some h) = Some h'
        ∧ same_shape h h' ∧ graded level top h'.
Proof.
  revert h. induction keys as [|key keys IH]; intros h Hg Ht Hs Hlev;
    cbn [fold_left]; [eauto using same_shape_refl|].
  destruct (plain_strict_key_ok h source key) as (h1 & -> & Hsh1 & Hg1); auto.
  destruct (IH h1) as (h2 & ? & ? & ?); eauto using same_shape_is_Some.
  eauto using same_shape_trans.
Qed.

Lemma plain_strict_source_ok (h : store) (source : sval) :
  graded level top h → is_Some (h !! target) →
  (∀ l, source = SRef l → is_Some (h !! l) ∧ level l = level target) →
  ∃ h', plain_strict_source recurse target (Some h) source = Some h'
        ∧ same_shape h h' ∧ graded level top h'.
Proof.
  intros Hg Ht Hsrc. unfold plain_strict_source.
  destruct (negb (s_truthy source) || negb (String.eqb (s_typeof source) "object"));
    [eauto using same_shape_refl|].
  destruct source as [| | | | |l]; eauto using same_shape_refl.
  destruct (Hsrc l eq_refl) as [Hl Hlev]. destruct Ht as [tc Ht].
  cbn [mbind option_bind]. rewrite Ht. cbn [mbind option_bind].
  apply plain_strict_keys_ok; eauto.
Qed.

Lemma plain_strict_sources_ok (sources : list sval) (h : store) :
  graded level top h → is_Some (h !! target) →
  sources_at level h target sources →
  ∃ h', fold_left (plain_strict_source recurse target) sources (Some h) = Some h'
        ∧ same_shape h h' ∧ graded level top h'.
Proof.
  revert h. induction sources as [|source sources IH]; intros h Hg Ht Hsrcs;
    cbn [fold_left]; [eauto using same_shape_refl|].
  apply Forall_cons in Hsrcs as [Hsrc Hsrcs].
  destruct (plain_strict_source_ok h source) as (h1 & -> & Hsh1 & Hg1); auto.
  destruct (IH h1) as (h2 & ? & ? & ?); eauto using same_shape_is_Some.
  - eapply Forall_impl; [exact Hsrcs|]. intros s Hs l ->.
    destruct (Hs l eq_refl). eauto using same_shape_is_Some.
  - eauto using same_shape_trans.
Qed.
End StrictDeepMergeProperties.

(** With fuel above the number of levels below [target], [strictDeepMerge]
    returns [target] and reshapes nothing. *)
Lemma plain_strictDeepMerge_st_ok level top (fuel : nat) :
  ∀ h target sources,
    graded level top h → is_Some (h !! target) →
    sources_at level h target sources →
    top - level target < fuel →
    ∃ h', plain_strictDeepMerge_st fuel target sources h = Some (SRef target, h')
          ∧ same_shape h h' ∧ graded level top h'.
Proof.
  induction fuel as [|fuel IH]; intros h target sources Hg Ht Hsrcs Hfuel; [lia|].
  cbn [plain_strictDeepMerge_st]. destruct Ht as [tc Ht]. rewrite Ht.
  cbn [mbind option_bind s_truthy negb orb].
  destruct (length (cell_keys tc) =? 0); [eauto using same_shape_refl|].
  destruct (plain_strict_sources_ok level top (plain_strictDeepMerge_st fuel) target)
    with (sources := sources) (h := h) as (h' & -> & ? & ?); eauto.
  intros h1 nested srcs Hg1 [nc Hn] Hs1 Hlev. apply IH; eauto.
  destruct (Hg1 _ _ Hn) as [Hle _]. lia.
Qed.

(** ** Arrays as merge arguments *)

Lemma get_index_array (elems : list value) (i : nat) (v : value) :
  elems !! i = Some v → get (VArray elems) (pretty i) = v.
Proof.
  intros Hi. cbn. rewrite pretty_nat_not_length.
  rewrite (index_of_key_pretty i (length elems)) by by eapply lookup_lt_Some.
  cbn. by rewrite Hi.
Qed.

Lemma lookup_prop_zip_indices (a : nat) (elems : list value) (i : nat) (v : value) :
  elems !! i = Some v →
  lookup_prop (pretty (a + i)) (zip (map pretty (seq a (length elems))) elems) = Some v.
Proof.
  revert a i. induction elems as [|e elems IH]; intros a i; [done|].
  cbn [length seq map zip zip_with lookup_prop].
  destruct i as [|i]; cbn [lookup list_lookup].
  - intros [= ->]. rewrite Nat.add_0_r. by rewrite String.eqb_refl.
  - intros Hi. destruct (String.eqb_spec (pretty a) (pretty (a + S i))) as [Heq|_].
    + apply (inj pretty) in Heq. lia.
    + replace (a + S i) with (S a + i) by lia. by apply IH.
Qed.

Lemma index_keys_lookup (len : nat) (k : string) :
  k ∈ index_keys len → ∃ i, k = pretty i ∧ i < len.
Proof.
  unfold index_keys. intros Hk. apply list_elem_of_fmap in Hk as (i & -> & Hi).
  exists i. split; [done|]. apply list_elem_of_In, in_seq in Hi. lia.
Qed.

(** On its index keys an array owns and holds what the document of its
    index keys does. *)
Lemma array_as_document_agrees (elems : list value) (k : string) :
  k ∈ index_keys (length elems) →
  has_own (VArray elems) k = has_own (array_as_document elems) k ∧
  get (VArray elems) k = get (array_as_document elems) k.
Proof.
  intros Hk. apply index_keys_lookup in Hk as (i & -> & Hi).
  destruct (lookup_lt_is_Some_2 elems i Hi) as [v Hv].
  pose proof (lookup_prop_zip_indices 0 elems i v Hv) as Hz. cbn [Nat.add] in Hz.
  split.
  - trans true.
    + cbn [has_own]. rewrite (index_of_key_pretty _ _ Hi).
      rewrite bool_decide_eq_true_2 by eauto. apply orb_true_r.
    + unfold array_as_document, index_keys. cbn [has_own]. rewrite Hz.
      by rewrite bool_decide_eq_true_2 by eauto.
  - rewrite (get_index_array _ _ _ Hv).
    unfold array_as_document, index_keys. cbn [get]. by rewrite Hz.
Qed.

Lemma array_as_document_keys (elems : list value) :
  enumerable_keys (array_as_document elems) = enumerable_keys (VArray elems).
Proof.
  unfold array_as_document. cbn [enumerable_keys].
  apply fst_zip. unfold index_keys. by rewrite length_map, length_seq.
Qed.

Lemma plain_merge_keys_same_object recurse (o1 o2 : value) (keys : list string)
    (result : option props) :
  (∀ k, k ∈ keys → has_own o1 k = has_own o2 k ∧ get o1 k = get o2 k) →
  fold_left (plain_merge_key recurse o1) keys result
  = fold_left (plain_merge_key recurse o2) keys result.
Proof.
  revert result. induction keys as [|k keys IH]; intros result Hag; [done|].
  cbn [fold_left].
  replace (plain_merge_key recurse o1 result k) with (plain_merge_key recurse o2 result k).
  - apply IH. intros k' Hk'. apply Hag. by right.
  - unfold plain_merge_key. destruct (Hag k) as [-> ->]; [left|done].
Qed.

(** An accumulated array is merged as the document of its index keys. *)
Lemma plain_deepMerge_array_as_document (elems : list value) (v : value) :
  plain_deepMerge [VArray elems; v] = plain_deepMerge [array_as_document elems; v].
Proof.
  rewrite !plain_deepMerge_unfold. cbn [fold_left]. do 2 f_equal.
  unfold plain_merge_object. rewrite array_as_document_keys.
  change (truthy (array_as_document elems)) with true.
  change (typeof (array_as_document elems)) with "object".
  cbn [truthy typeof negb orb].
  change (negb (String.eqb "object" "object")) with false. cbn [orb].
  apply plain_merge_keys_same_object. intros k Hk. by apply array_as_document_agrees.
Qed.

(** ** Values laid out in the store *)

Lemma store_list_reifies {A B : Type} (f : A → store → B * store)
    (R : store → B → A → Prop) (xs : list A) :
  (∀ g g' y x, g ⊆ g' → R g y x → R g' y x) →
  Forall (λ x, ∀ h, h ⊆ (f x h).2 ∧ R (f x h).2 (f x h).1 x) xs →
  ∀ h, h ⊆ (store_list f xs h).2
       ∧ Forall2 (R (store_list f xs h).2) (store_list f xs h).1 xs.
Proof.
  intros Hmono. induction 1 as [|x xs Hx _ IH]; intros h; cbn [store_list].
  - split; [done|constructor].
  - destruct (Hx h) as [Hh1 Hy]. destruct (f x h) as [y h1]. cbn [fst snd] in *.
    destruct (IH h1) as [Hh2 Hys]. destruct (store_list f xs h1) as [ys h2].
    cbn [fst snd] in *. split; [by trans h1|].
    constructor; [by apply (Hmono h1)|done].
Qed.

Lemma fresh_lookup (h : store) : h !! fresh (dom h) = None.
Proof. apply not_elem_of_dom, is_fresh. Qed.

(** A value laid out in the store is held there. *)
Lemma store_value_reifies (v : value) (h : store) :
  h ⊆ (store_value v h).2 ∧ reifies (store_value v h).2 (store_value v h).1 v.
Proof.
  revert h. induction v as [| |b|n|s|elems IH|ps IH] using value_ind; intros h;
    try (split; [done|constructor]).
  - cbn [store_value].
    destruct (store_list_reifies store_value reifies elems
                (λ g g' y x Hg, reifies_mono g g' y x Hg) IH h) as [Hh1 HF].
    destruct (store_list store_value elems h) as [ss h1]. cbn [fst snd] in *.
    pose proof (fresh_lookup h1) as Hl. split.
    + trans h1; [done|by apply insert_subseteq].
    + econstructor; [apply lookup_insert_eq|].
      eapply Forall2_impl; [exact HF|]. intros ? ?.
      by apply reifies_mono, insert_subseteq.
  - cbn [store_value].
    set (f := λ (p : string * value) (h : store),
                let '(s, h1) := store_value p.2 h in ((p.1, s), h1)).
    destruct (store_list_reifies f
                (λ g (sp : string * sval) (p : string * value),
                   sp.1 = p.1 ∧ reifies g sp.2 p.2) ps) with (h := h) as [Hh1 HF].
    { intros g g' y x Hg [? ?]. eauto using reifies_mono. }
    { eapply Forall_impl; [exact IH|]. intros p Hp h0. unfold f.
      destruct (Hp h0) as [? ?]. by destruct (store_value p.2 h0). }
    destruct (store_list f ps h) as [sps h1]. cbn [fst snd] in *.
    pose proof (fresh_lookup h1) as Hl. split.
    + trans h1; [done|by apply insert_subseteq].
    + econstructor; [apply lookup_insert_eq|].
      apply (props_reify_mono h1); [by apply insert_subseteq|done].
Qed.

(** Values laid out one after the other are all held in the final store. *)
Lemma store_values_reify (vs : list value) (h : store) :
  Forall2 (reifies (store_values vs h).2) (store_values vs h).1 vs.
Proof.
  apply (store_list_reifies store_value reifies vs).
  - intros g g' y x Hg. by apply reifies_mono.
  - apply Forall_forall. intros v _ h0. apply store_value_reifies.
Qed.

Lemma graded_top level (top top' : nat) (h : store) :
  top ≤ top' → graded level top h → graded level top' h.
Proof. intros Hle Hg l c Hl. destruct (Hg l c Hl). split; [lia|done]. Qed.

Lemma laid_out_primitive level top d (h : store) (s : sval) :
  graded level top h → closed h → (∀ l, s ≠ SRef l) → laid_out level top d h s h.
Proof.
  intros Hg Hc Hs. exists level. do 4 (split; [done|]).
  intros l Hl. by destruct (Hs l).
Qed.

(** The elements of a list laid out at level [d]. *)
Lemma store_list_laid_out {A B : Type} (f : A → store → B * store)
    (root : B → sval) (top d : nat) (xs : list A) :
  Forall (λ x, ∀ h level, graded level top h → closed h →
               laid_out level top d h (root (f x h).1) (f x h).2) xs →
  ∀ h level, graded level top h → closed h →
    ∃ level',
      graded level' top (store_list f xs h).2 ∧ closed (store_list f xs h).2 ∧
      h ⊆ (store_list f xs h).2 ∧
      (∀ l, is_Some (h !! l) → level' l = level l) ∧
      Forall (λ y, ∀ l, root y = SRef l →
                is_Some ((store_list f xs h).2 !! l) ∧ level' l = d)
        (store_list f xs h).1.
Proof.
  induction 1 as [|x xs Hx _ IH]; intros h level Hg Hc; cbn [store_list].
  - exists level. do 4 (split; [done|]). constructor.
  - destruct (Hx h level Hg Hc) as (level1 & Hg1 & Hc1 & Hh1 & Hag1 & Hroot1).
    destruct (f x h) as [y h1]. cbn [fst snd] in *.
    destruct (IH h1 level1 Hg1 Hc1) as (level2 & Hg2 & Hc2 & Hh2 & Hag2 & Hroots).
    destruct (store_list f xs h1) as [ys h2]. cbn [fst snd] in *.
    exists level2. split; [done|]. split; [done|]. split; [by trans h1|].
    split.
    + intros l [c Hl]. rewrite Hag2 by (eexists; by eapply lookup_weaken).
      apply Hag1. eauto.
    + constructor; [|done]. intros l Hl. destruct (Hroot1 l Hl) as [[c Hc'] Hlev].
      split; [eexists; by eapply lookup_weaken|].
      rewrite Hag2 by eauto. done.
Qed.

(** The parent cell laid out at level [d] over children at level [d + 1]. *)
Lemma laid_out_parent level level1 top d (h h1 : store) (c : cell) :
  d ≤ top → graded level1 top h1 → closed h1 → h ⊆ h1 →
  (∀ l, is_Some (h !! l) → level1 l = level l) →
  (∀ l, SRef l ∈ cell_values c → is_Some (h1 !! l) ∧ level1 l = S d) →
  laid_out level top d h (SRef (fresh (dom h1))) (<[fresh (dom h1) := c]> h1).
Proof.
  intros Hd Hg1 Hc1 Hh1 Hag Hkids.
  pose proof (fresh_lookup h1) as Hfresh. set (l0 := fresh (dom h1)) in *.
  assert (Hne : ∀ l, is_Some (h1 !! l) → l ≠ l0).
  { intros l [c' Hl] ->. congruence. }
  exists (λ l, if decide (l = l0) then d else level1 l).
  split; [|split; [|split; [|split]]].
  - intros l c' Hl. destruct (decide (l = l0)) as [->|Hl0].
    + rewrite lookup_insert_eq in Hl. simplify_eq. split; [done|].
      intros l' Hl'. destruct (Hkids l' Hl') as [Hs Hlev].
      by rewrite decide_False by by apply Hne.
    + rewrite lookup_insert_ne in Hl by done.
      destruct (Hg1 l c' Hl) as [Htop Hrefs]. split; [done|].
      intros l' Hl'. rewrite decide_False by (apply Hne; by eapply Hc1).
      by apply Hrefs.
  - intros l c' l' Hl Hl'. destruct (decide (l = l0)) as [->|Hl0].
    + rewrite lookup_insert_eq in Hl. simplify_eq.
      destruct (Hkids l' Hl') as [[c'' Hs] _].
      exists c''. rewrite lookup_insert_ne; [done|]. intros <-. congruence.
    + rewrite lookup_insert_ne in Hl by done.
      destruct (Hc1 l c' l' Hl Hl') as [c'' Hs].
      exists c''. rewrite lookup_insert_ne; [done|]. intros <-. congruence.
  - trans h1; [done|by apply insert_subseteq].
  - intros l [c' Hl]. rewrite decide_False.
    + apply Hag. eauto.
    + apply Hne. eexists. by eapply lookup_weaken.
  - intros l [= <-]. split; [rewrite lookup_insert_eq; eauto|].
    by rewrite decide_True.
Qed.

Lemma depth_array_elem (elems : list value) (e : value) :
  e ∈ elems → depth e < depth (VArray elems).
Proof.
  intros He. apply list_elem_of_lookup in He as [i Hi]. by apply (depth_elem _ i).
Qed.

Lemma depth_object_elem (ps : props) (p : string * value) :
  p ∈ ps → depth p.2 < depth (VObject ps).
Proof.
  induction 1 as [[k v] ps|[k v] [k' v'] ps _ IH]; rewrite depth_object_cons;
    cbn [snd] in *; lia.
Qed.

(** A value laid out at level [d] of a graded, closed store. *)
Lemma store_value_laid_out (v : value) :
  ∀ d top h level,
    d + depth v ≤ top → graded level top h → closed h →
    laid_out level top d h (store_value v h).1 (store_value v h).2.
Proof.
  induction v as [| |b|n|s|elems IH|ps IH] using value_ind;
    intros d top h level Hd Hg Hc;
    try (by apply laid_out_primitive).
  - cbn [store_value].
    destruct (store_list_laid_out store_value id top (S d) elems) with (h := h) (level := level)
      as (level1 & Hg1 & Hc1 & Hh1 & Hag1 & Hroots); [|done|done|].
    { apply Forall_forall. intros e He h0 level0 Hg0 Hc0.
      rewrite Forall_forall in IH. apply IH; [done| |done|done].
      pose proof (depth_array_elem _ _ He). lia. }
    destruct (store_list store_value elems h) as [ss h1]. cbn [fst snd] in *.
    apply (laid_out_parent level level1); try done; [lia|].
    intros l Hl. cbn [cell_values] in Hl. rewrite Forall_forall in Hroots.
    by apply (Hroots (SRef l)).
  - cbn [store_value].
    set (f := λ (p : string * value) (h : store),
                let '(s, h1) := store_value p.2 h in ((p.1, s), h1)).
    destruct (store_list_laid_out f snd top (S d) ps) with (h := h) (level := level)
      as (level1 & Hg1 & Hc1 & Hh1 & Hag1 & Hroots); [|done|done|].
    { apply Forall_forall. intros p Hp h0 level0 Hg0 Hc0.
      rewrite Forall_forall in IH.
      specialize (IH p Hp (S d) top h0 level0).
      unfold f. destruct (store_value p.2 h0) as [s0 h0']. cbn [fst snd] in *.
      apply IH; [|done|done]. pose proof (depth_object_elem _ _ Hp). lia. }
    destruct (store_list f ps h) as [sps h1]. cbn [fst snd] in *.
    apply (laid_out_parent level level1); try done; [lia|].
    intros l Hl. cbn [cell_values] in Hl.
    apply list_elem_of_fmap in Hl as (sp & Hsp & Hin).
    rewrite Forall_forall in Hroots. by apply (Hroots sp).
Qed.

Lemma graded_empty level top : graded level top ∅ ∧ closed ∅.
Proof. split; intros l c; by rewrite lookup_empty. Qed.

(** Values laid out one after the other in the empty store: a graded store
    with every value at level 0. *)
Lemma store_values_graded (vs : list value) :
  ∃ level,
    graded level (max_depth vs) (store_values vs ∅).2 ∧
    Forall (λ s, ∀ l, s = SRef l →
              is_Some ((store_values vs ∅).2 !! l) ∧ level l = 0)
      (store_values vs ∅).1.
Proof.
  destruct (graded_empty (λ _, 0) (max_depth vs)) as [Hg Hc].
  destruct (store_list_laid_out store_value id (max_depth vs) 0 vs)
    with (h := (∅ : store)) (level := λ _ : loc, 0)
    as (level1 & Hg1 & _ & _ & _ & Hroots); [|done|done|by exists level1].
  apply Forall_forall. intros v Hv h0 level0 Hg0 Hc0.
  apply store_value_laid_out; [|done|done].
  clear -Hv. induction Hv as [v vs|v v' vs _ IH]; rewrite max_depth_cons; cbn; lia.
Qed.

(** ** The permissive and the strict merge *)

(** The permissive merge on plain data: the two loops with the merge
    itself as the nested call; what an incoming value does at a key; an
    accumulated array taken for the document of its index keys; and, on a
    store that holds the inputs, a new object for the result and no cell
    that existed changed. *)
Lemma plain_deepMerge_permissive :
  (∀ objects,
     plain_deepMerge objects =
     VObject <$> fold_left (plain_merge_object plain_deepMerge) objects (Some [])) ∧
  (∀ obj result key, has_own obj key = true →
     plain_merge_key plain_deepMerge obj (Some result) key =
     if is_document (get obj key)
     then merged ← plain_deepMerge [or_else (get (VObject result) key) (VObject []);
                              get obj key];
          Some (set_prop key merged result)
     else Some (set_prop key (get obj key) result)) ∧
  (∀ accumulated incoming,
     is_document incoming = true → unique_keys incoming →
     truthy accumulated = false ∨ typeof accumulated ≠ "object" →
     plain_deepMerge [or_else accumulated (VObject []); incoming] = Some incoming) ∧
  (∀ elems incoming,
     plain_deepMerge [VArray elems; incoming]
     = plain_deepMerge [array_as_document elems; incoming]) ∧
  (∀ (h : store) ss vs,
     Forall2 (reifies h) ss vs →
     ∃ r h' v,
       plain_deepMerge_st (S (max_depth vs)) ss h = Some (r, h') ∧
       h !! r = None ∧ h ⊆ h' ∧
       plain_deepMerge vs = Some v ∧ reifies h' (SRef r) v) ∧
  (∀ vs, Forall2 (reifies (store_values vs ∅).2) (store_values vs ∅).1 vs) ∧
  plain_deepMerge [VObject [("a", VArray [n_ 1; n_ 2])];
             VObject [("a", VObject [("x", n_ 1)])]]
  = Some (VObject [("a", VObject [("0", n_ 1); ("1", n_ 2); ("x", n_ 1)])]).
Proof.
  split; [exact plain_deepMerge_unfold|]. split.
  { intros obj result key Hown. unfold plain_merge_key. cbn [mbind option_bind].
    by rewrite Hown. }
  split.
  { intros acc v Hdoc Hu Hacc.
    assert (Hcopy : plain_deepMerge [VObject []; v] = Some v).
    { apply (plain_deepMerge_copy (S (depth v))); (done || lia). }
    unfold or_else. destruct (truthy acc) eqn:Htr; [|done].
    destruct Hacc as [|Hty]; [done|].
    rewrite <- Hcopy, !plain_deepMerge_unfold. cbn [fold_left].
    rewrite plain_merge_object_empty. do 2 f_equal.
    unfold plain_merge_object. apply String.eqb_neq in Hty. rewrite Hty.
    by rewrite orb_true_r. }
  split; [exact plain_deepMerge_array_as_document|].
  split; [|split; [intros vs; apply store_values_reify|reflexivity]].
  intros h ss vs HF.
  destruct (plain_deepMerge_total vs) as (R & Hv & _).
  destruct (plain_deepMerge_st_refines (S (max_depth vs)) ss vs h h (VObject R))
    as (r & h' & g' & Hrun & Hsub & _ & Hg' & _ & Hfresh & Hr); [done|done|done|].
  exists r, h', (VObject R). eauto 10 using reifies_mono.
Qed.

Lemma plain_strictDeepMerge_st_frame level top (fuel : nat) (h : store)
    (target : loc) (sources : list sval) :
  graded level top h → is_Some (h !! target) →
  sources_at level h target sources → top - level target < fuel →
  ∃ h', plain_strictDeepMerge_st fuel target sources h = Some (SRef target, h') ∧
        dom h' = dom h ∧
        (∀ l, shape <$> h' !! l = shape <$> h !! l) ∧
        (cell_keys <$> h !! target = Some [] → h' = h).
Proof.
  intros Hg Ht Hsrcs Hfuel.
  destruct (plain_strictDeepMerge_st_ok level top fuel h target sources)
    as (h' & Hrun & Hshape & _); try done.
  exists h'. split; [done|]. split; [by apply same_shape_dom|]. split; [done|].
  intros Hkeys. destruct fuel as [|fuel]; [lia|].
  cbn [plain_strictDeepMerge_st] in Hrun. destruct (h !! target) as [tc|]; [|done].
  cbn [fmap option_fmap option_map] in Hkeys. cbn [mbind option_bind] in Hrun.
  injection Hkeys as Hkeys. rewrite Hkeys in Hrun. cbn in Hrun. by simplify_eq.
Qed.

Lemma plain_strictDeepMerge_st_step (fuel : nat) (target : loc) (sources : list sval)
    (h : store) :
  plain_strictDeepMerge_st (S fuel) target sources h =
  tc ← h !! target;
  if negb (s_truthy (SRef target)) || (length (cell_keys tc) =? 0)
  then Some (SRef target, h)
  else
    h' ← fold_left (plain_strict_source (plain_strictDeepMerge_st fuel) target) sources (Some h);
    Some (SRef target, h').
Proof. reflexivity. Qed.

(** Without the levels the call need not return: merging an object that is
    its own property into itself recurses for ever (a stack overflow in the
    source), whatever the fuel. *)
Lemma plain_strictDeepMerge_cyclic_store (fuel : nat) :
  plain_strictDeepMerge_st fuel 0 [SRef 0] cyclic_store = None.
Proof.
  assert (Hl : cyclic_store !! 0 = Some (CObject [("c", SRef 0)])) by reflexivity.
  induction fuel as [|fuel IH]; [done|].
  rewrite plain_strictDeepMerge_st_step, Hl.
  cbn [mbind option_bind s_truthy negb orb cell_keys map fst length Nat.eqb
       fold_left].
  unfold plain_strict_source.
  cbn [s_truthy s_typeof negb orb String.eqb Ascii.eqb Bool.eqb andb].
  cbn [mbind option_bind]. rewrite Hl.
  cbn [mbind option_bind cell_keys map fst fold_left].
  unfold plain_strict_key. cbn [mbind option_bind]. rewrite Hl.
  cbn [mbind option_bind]. 
  change (cell_has_own (CObject [("c", SRef 0)]) "c") with true.
  change (cell_get (CObject [("c", SRef 0)]) "c") with (SRef 0).
  cbn [negb orb]. unfold s_is_document. rewrite Hl. cbn [andb].
  by rewrite IH.
Qed.

(** The strict merge on plain data, in a store where the target and its
    sources lie level by level: the same target reference is returned, no
    object is created, and no object of the store gains or loses an own
    key; a target with zero own keys is returned at once. *)
Lemma plain_strictDeepMerge_frame :
  (∀ level top fuel (h : store) target sources,
     graded level top h → is_Some (h !! target) →
     sources_at level h target sources → top - level target < fuel →
     ∃ h', plain_strictDeepMerge_st fuel target sources h = Some (SRef target, h') ∧
           dom h' = dom h ∧
           (∀ l, shape <$> h' !! l = shape <$> h !! l) ∧
           (cell_keys <$> h !! target = Some [] → h' = h)) ∧
  (∀ target sources t rest (h : store),
     store_values (target :: sources) ∅ = (SRef t :: rest, h) →
     ∃ h', plain_strictDeepMerge_st (S (max_depth (target :: sources))) t rest h
             = Some (SRef t, h') ∧
           dom h' = dom h ∧
           (∀ l, shape <$> h' !! l = shape <$> h !! l) ∧
           (cell_keys <$> h !! t = Some [] → h' = h)).
Proof.
  split; [exact plain_strictDeepMerge_st_frame|].
  intros target sources t rest h Hlay.
  destruct (store_values_graded (target :: sources)) as (level & Hg & Hroots).
  rewrite Hlay in Hg, Hroots. cbn [fst snd] in Hg, Hroots.
  apply Forall_cons in Hroots as [Ht Hrest].
  destruct (Ht t eq_refl) as [Hts Htl].
  apply (plain_strictDeepMerge_st_frame level (max_depth (target :: sources))); try done.
  - eapply Forall_impl; [exact Hrest|]. intros s Hs l Hl.
    destruct (Hs l Hl) as [? ->]. by rewrite Htl.
  - lia.
Qed.


(** ** [plain_deepMerge]: what the result holds *)

Lemma plain_merge_object_skip recurse (result : option props) (obj : value) :
  mergeable obj = false → plain_merge_object recurse result obj = result.
Proof.
  unfold mergeable, plain_merge_object. intros Hm.
  by rewrite <- negb_andb, Hm.
Qed.

Lemma plain_merge_object_keys recurse (result : option props) (obj : value) :
  mergeable obj = true →
  plain_merge_object recurse result obj =
  fold_left (plain_merge_key recurse obj) (enumerable_keys obj) result.
Proof.
  unfold mergeable, plain_merge_object. intros Hm.
  by rewrite <- negb_andb, Hm.
Qed.

(** [null], [undefined] and the arguments that are not objects are passed
    over: the result is that of the call without them. *)
Lemma plain_deepMerge_skips_non_objects (objects : list value) :
  plain_deepMerge objects = plain_deepMerge (List.filter mergeable objects).
Proof.
  rewrite !plain_deepMerge_unfold. f_equal. generalize (Some ([] : props)) as acc.
  induction objects as [|obj objects IH]; intros acc; [done|].
  cbn [List.filter fold_left]. destruct (mergeable obj) eqn:Hm.
  - cbn [fold_left]. apply IH.
  - rewrite (plain_merge_object_skip _ _ _ Hm). apply IH.
Qed.

Lemma enumerable_keys_own (obj : value) (k : string) :
  k ∈ enumerable_keys obj → has_own obj k = true.
Proof.
  destruct obj as [| | | |s|elems|ps]; cbn; try (by intros ?%elem_of_nil).
  - unfold index_keys. intros (i & -> & Hi%elem_of_seq)%list_elem_of_fmap.
    rewrite (index_of_key_pretty i (String.length s)) by lia.
    by rewrite orb_true_r.
  - unfold index_keys. intros (i & -> & Hi%elem_of_seq)%list_elem_of_fmap.
    rewrite (index_of_key_pretty i (length elems)) by lia.
    by rewrite orb_true_r.
  - intros Hin. apply bool_decide_eq_true_2.
    destruct (lookup_prop k ps) eqn:Hl; [eauto|].
    by apply lookup_prop_None in Hl.
Qed.

Lemma set_prop_keys (k : string) (v : value) (ps : props) (k' : string) :
  k' ∈ map fst (set_prop k v ps) ↔ k' = k ∨ k' ∈ map fst ps.
Proof.
  induction ps as [|[k0 v0] ps IH]; cbn.
  - rewrite list_elem_of_singleton. split; [auto|].
    intros [?|?%elem_of_nil]; done.
  - destruct (String.eqb_spec k0 k) as [->|Hne]; cbn; rewrite !elem_of_cons.
    + tauto.
    + rewrite IH. tauto.
Qed.

Lemma set_prop_NoDup (k : string) (v : value) (ps : props) :
  NoDup (map fst ps) → NoDup (map fst (set_prop k v ps)).
Proof.
  induction ps as [|[k0 v0] ps IH]; cbn.
  - intros _. apply NoDup_singleton.
  - rewrite NoDup_cons. intros [Hk0 Hnd].
    destruct (String.eqb_spec k0 k) as [->|Hne]; cbn; apply NoDup_cons.
    + done.
    + split; [|auto]. rewrite set_prop_keys. by intros [?|?].
Qed.

Lemma set_prop_Forall (P : string * value → Prop) (k : string) (v : value)
    (ps : props) :
  P (k, v) → Forall P ps → Forall P (set_prop k v ps).
Proof.
  intros Hv. induction 1 as [|[k0 v0] ps Hp Hps IH]; cbn.
  - by repeat constructor.
  - destruct (String.eqb k0 k); constructor; auto.
Qed.

(** One turn of the inner loop of [plain_deepMerge] writes the key or nothing. *)
Lemma plain_merge_key_deepMerge (obj : value) (result : props) (key : string) :
  ∃ v, plain_merge_key plain_deepMerge obj (Some result) key =
       Some (if has_own obj key then set_prop key v result else result)
       ∧ (is_document (get obj key) = false → v = get obj key)
       ∧ (is_document (get obj key) = true →
          plain_deepMerge [or_else (get (VObject result) key) (VObject []); get obj key]
          = Some v).
Proof.
  destruct (is_document (get obj key)) eqn:Hdoc.
  - destruct (plain_deepMerge_total
                [or_else (get (VObject result) key) (VObject []); get obj key])
      as (r & Hr & _).
    exists (VObject r). unfold plain_merge_key. cbn [mbind option_bind].
    destruct (has_own obj key); cbn [negb]; rewrite ?Hdoc, ?Hr; done.
  - exists (get obj key). unfold plain_merge_key. cbn [mbind option_bind].
    destruct (has_own obj key); cbn [negb]; rewrite ?Hdoc; done.
Qed.

(** ... and the loops return. *)
Lemma plain_merge_keys_deepMerge (obj : value) (keys : list string) (result : props) :
  ∃ result', fold_left (plain_merge_key plain_deepMerge obj) keys (Some result) = Some result'.
Proof.
  revert result. induction keys as [|key keys IH]; intros result; cbn [fold_left]; [eauto|].
  destruct (plain_merge_key_deepMerge obj result key) as (v & -> & _). apply IH.
Qed.

Lemma plain_merge_object_deepMerge (obj : value) (result : props) :
  ∃ result', plain_merge_object plain_deepMerge (Some result) obj = Some result'.
Proof.
  destruct (mergeable obj) eqn:Hm.
  - rewrite plain_merge_object_keys by done. apply plain_merge_keys_deepMerge.
  - rewrite plain_merge_object_skip by done. eauto.
Qed.

Lemma plain_merge_objects_deepMerge (objects : list value) (result : props) :
  ∃ result', fold_left (plain_merge_object plain_deepMerge) objects (Some result) = Some result'.
Proof.
  revert result. induction objects as [|obj objects IH]; intros result; cbn [fold_left]; [eauto|].
  destruct (plain_merge_object_deepMerge obj result) as (r & ->). apply IH.
Qed.

Lemma plain_merge_keys_names (obj : value) (keys : list string) (result result' : props) :
  keys ⊆ enumerable_keys obj → NoDup (map fst result) →
  fold_left (plain_merge_key plain_deepMerge obj) keys (Some result) = Some result' →
  NoDup (map fst result') ∧
  ∀ k, k ∈ map fst result' ↔ k ∈ map fst result ∨ k ∈ keys.
Proof.
  revert result. induction keys as [|key keys IH]; intros result Hsub Hnd; cbn [fold_left].
  - intros [= <-]. split; [done|]. intros k. rewrite elem_of_nil. tauto.
  - destruct (plain_merge_key_deepMerge obj result key) as (v & -> & _).
    rewrite (enumerable_keys_own obj key) by (apply Hsub; left).
    intros Hfold. apply IH in Hfold as [Hnd' Hkeys].
    + split; [done|]. intros k. rewrite Hkeys, set_prop_keys, elem_of_cons. tauto.
    + intros k Hk. apply Hsub. by right.
    + by apply set_prop_NoDup.
Qed.

Lemma plain_merge_objects_names (objects : list value) (result result' : props) :
  NoDup (map fst result) →
  fold_left (plain_merge_object plain_deepMerge) objects (Some result) = Some result' →
  NoDup (map fst result') ∧
  ∀ k, k ∈ map fst result' ↔
       k ∈ map fst result ∨
       ∃ obj, obj ∈ objects ∧ mergeable obj = true ∧ k ∈ enumerable_keys obj.
Proof.
  revert result. induction objects as [|obj objects IH]; intros result Hnd; cbn [fold_left].
  - intros [= <-]. split; [done|]. intros k. split; [auto|].
    intros [?|(obj & ?%elem_of_nil & _)]; done.
  - destruct (plain_merge_object_deepMerge obj result) as (r & Hr). rewrite Hr.
    intros Hfold. destruct (mergeable obj) eqn:Hm.
    + rewrite plain_merge_object_keys in Hr by done.
      apply plain_merge_keys_names in Hr as [Hnd1 Hkeys1]; [|done|done].
      apply IH in Hfold as [Hnd' Hkeys]; [|done].
      split; [done|]. intros k. rewrite Hkeys, Hkeys1. split.
      * intros [[?|?]|(o & ? & ? & ?)]; [auto|right..].
        -- exists obj. split; [left|done].
        -- exists o. split; [by right|done].
      * intros [?|(o & [->|?]%elem_of_cons & ? & ?)]; [auto|auto|].
        right. by exists o.
    + rewrite plain_merge_object_skip in Hr by done. simplify_eq.
      apply IH in Hfold as [Hnd' Hkeys]; [|done].
      split; [done|]. intros k. rewrite Hkeys. split.
      * intros [?|(o & ? & ? & ?)]; [auto|]. right. exists o. split; [by right|done].
      * intros [?|(o & [->|?]%elem_of_cons & ? & ?)]; [auto|congruence|].
        right. by exists o.
Qed.

(** The result owns the keys of its arguments and no other: a key is a key
    of the result exactly when it is an enumerable own key of an argument
    that is an object; and [plain_deepMerge] returns. *)
Lemma plain_deepMerge_keys (objects : list value) :
  ∃ result,
    plain_deepMerge objects = Some (VObject result) ∧
    NoDup (map fst result) ∧
    ∀ k, has_own (VObject result) k = true ↔
         ∃ obj, obj ∈ objects ∧ mergeable obj = true ∧ k ∈ enumerable_keys obj.
Proof.
  destruct (plain_merge_objects_deepMerge objects []) as (result & Hfold).
  exists result. rewrite plain_deepMerge_unfold, Hfold. split; [done|].
  apply plain_merge_objects_names in Hfold as [Hnd Hkeys]; [|constructor].
  split; [done|]. intros k. cbn [has_own]. rewrite bool_decide_eq_true.
  assert (Hin : is_Some (lookup_prop k result) ↔ k ∈ map fst result).
  { rewrite <- not_eq_None_Some, lookup_prop_None.
    split; [apply dec_stable|auto]. }
  rewrite Hin, Hkeys. split; [|auto]. by intros [?%elem_of_nil|?].
Qed.

Lemma plain_merge_key_other (obj : value) (result result' : props) (key k : string) :
  key ≠ k →
  plain_merge_key plain_deepMerge obj (Some result) key = Some result' →
  lookup_prop k result' = lookup_prop k result.
Proof.
  intros Hne. destruct (plain_merge_key_deepMerge obj result key) as (v & -> & _).
  intros [= <-]. destruct (has_own obj key); [|done].
  rewrite lookup_set_prop. by apply String.eqb_neq in Hne as ->.
Qed.

Lemma plain_merge_keys_other (obj : value) (keys : list string)
    (result result' : props) (k : string) :
  k ∉ keys →
  fold_left (plain_merge_key plain_deepMerge obj) keys (Some result) = Some result' →
  lookup_prop k result' = lookup_prop k result.
Proof.
  revert result. induction keys as [|key keys IH]; intros result Hk;
    cbn [fold_left]; [by intros [= <-]|].
  apply not_elem_of_cons in Hk as [Hne Hk].
  destruct (plain_merge_keys_deepMerge obj [key] result) as (r & Hr).
  cbn [fold_left] in Hr. rewrite Hr. intros Hfold.
  rewrite (IH _ Hk Hfold). by apply (plain_merge_key_other obj _ _ key).
Qed.

Lemma plain_merge_object_other (obj : value) (result result' : props) (k : string) :
  (mergeable obj = true → k ∉ enumerable_keys obj) →
  plain_merge_object plain_deepMerge (Some result) obj = Some result' →
  lookup_prop k result' = lookup_prop k result.
Proof.
  intros Hk. destruct (mergeable obj) eqn:Hm.
  - rewrite plain_merge_object_keys by done. apply plain_merge_keys_other. auto.
  - rewrite plain_merge_object_skip by done. by intros [= <-].
Qed.

Lemma plain_merge_objects_other (objects : list value) (result result' : props)
    (k : string) :
  Forall (λ obj, mergeable obj = true → k ∉ enumerable_keys obj) objects →
  fold_left (plain_merge_object plain_deepMerge) objects (Some result) = Some result' →
  lookup_prop k result' = lookup_prop k result.
Proof.
  intros Hall. revert result.
  induction Hall as [|obj objects Hobj _ IH]; intros result; cbn [fold_left];
    [by intros [= <-]|].
  destruct (plain_merge_object_deepMerge obj result) as (r & Hr). rewrite Hr.
  intros Hfold. rewrite (IH _ Hfold). by apply (plain_merge_object_other obj).
Qed.

Lemma plain_merge_keys_writes (obj : value) (keys : list string)
    (result result' : props) (k : string) :
  keys ⊆ enumerable_keys obj → is_document (get obj k) = false →
  k ∈ keys ∨ lookup_prop k result = Some (get obj k) →
  fold_left (plain_merge_key plain_deepMerge obj) keys (Some result) = Some result' →
  lookup_prop k result' = Some (get obj k).
Proof.
  intros Hsub Hdoc. revert result.
  induction keys as [|key keys IH]; intros result Hk; cbn [fold_left].
  - intros [= <-]. by destruct Hk as [?%elem_of_nil|?].
  - destruct (plain_merge_key_deepMerge obj result key) as (v & Hstep & Hv & _).
    rewrite Hstep. rewrite (enumerable_keys_own obj key) by (apply Hsub; left).
    apply IH; [intros x Hx; apply Hsub; by right|].
    rewrite lookup_set_prop.
    destruct (String.eqb_spec key k) as [->|Hne].
    + right. by rewrite (Hv Hdoc).
    + destruct Hk as [[?|?]%elem_of_cons|?]; [congruence|auto..].
Qed.

(** Later values overwrite earlier ones: when the last argument that has
    the key [k] holds there an array or a primitive, the result holds that
    very value at [k], whatever the arguments before it held. *)
Lemma plain_deepMerge_last_wins (before after : list value) (obj : value)
    (k : string) :
  mergeable obj = true → k ∈ enumerable_keys obj →
  is_document (get obj k) = false →
  Forall (λ later, mergeable later = true → k ∉ enumerable_keys later) after →
  ∃ result,
    plain_deepMerge (before ++ obj :: after) = Some (VObject result) ∧
    get (VObject result) k = get obj k.
Proof.
  intros Hm Hk Hdoc Hafter.
  destruct (plain_merge_objects_deepMerge before []) as (r0 & Hr0).
  destruct (plain_merge_object_deepMerge obj r0) as (r1 & Hr1).
  destruct (plain_merge_objects_deepMerge after r1) as (r2 & Hr2).
  exists r2. rewrite plain_deepMerge_unfold, fold_left_app, Hr0. cbn [fold_left].
  rewrite Hr1, Hr2. split; [done|]. cbn [get].
  rewrite (plain_merge_objects_other _ _ _ _ Hafter Hr2).
  rewrite plain_merge_object_keys in Hr1 by done.
  by rewrite (plain_merge_keys_writes obj _ r0 r1 k) by auto.
Qed.

(** *** Merging what was merged *)

Section UniqueKeys.
Variable recurse : list value → option value.
Hypothesis recurse_unique : ∀ objects r, recurse objects = Some r → unique_keys r.

Lemma set_prop_unique (k : string) (v : value) (ps : props) :
  unique_keys v → unique_keys (VObject ps) → unique_keys (VObject (set_prop k v ps)).
Proof.
  rewrite !unique_keys_object. intros Hv [Hnd Hall].
  split; [by apply set_prop_NoDup|]. by apply set_prop_Forall.
Qed.

Lemma plain_merge_key_unique (obj : value) (result result' : props) (key : string) :
  unique_keys (VObject result) →
  plain_merge_key recurse obj (Some result) key = Some result' →
  unique_keys (VObject result').
Proof.
  intros Hu. unfold plain_merge_key. cbn [mbind option_bind].
  destruct (has_own obj key); cbn [negb]; [|by intros [= <-]].
  destruct (is_document (get obj key)) eqn:Hdoc.
  - destruct (recurse _) as [merged|] eqn:Hrec; cbn; [|done].
    intros [= <-]. apply set_prop_unique; eauto.
  - intros [= <-]. apply set_prop_unique; [|done].
    by destruct (get obj key).
Qed.

Lemma plain_merge_keys_unique (obj : value) (keys : list string) (result result' : props) :
  unique_keys (VObject result) →
  fold_left (plain_merge_key recurse obj) keys (Some result) = Some result' →
  unique_keys (VObject result').
Proof.
  revert result. induction keys as [|key keys IH]; intros result Hu;
    cbn [fold_left]; [by intros [= <-]|].
  destruct (plain_merge_key recurse obj (Some result) key) as [r|] eqn:Hr.
  - apply IH. by apply (plain_merge_key_unique obj result r key).
  - by rewrite plain_merge_keys_None.
Qed.

Lemma plain_merge_objects_unique (objects : list value) (result result' : props) :
  unique_keys (VObject result) →
  fold_left (plain_merge_object recurse) objects (Some result) = Some result' →
  unique_keys (VObject result').
Proof.
  revert result. induction objects as [|obj objects IH]; intros result Hu;
    cbn [fold_left]; [by intros [= <-]|].
  destruct (plain_merge_object recurse (Some result) obj) as [r|] eqn:Hr.
  - apply IH. destruct (mergeable obj) eqn:Hm.
    + rewrite plain_merge_object_keys in Hr by done. by apply (plain_merge_keys_unique obj (enumerable_keys obj) result).
    + rewrite plain_merge_object_skip in Hr by done. by simplify_eq.
  - by rewrite plain_merge_objects_None.
Qed.
End UniqueKeys.

Lemma plain_deepMerge_fuel_unique_keys (n : nat) (objects : list value) (r : value) :
  plain_deepMerge_fuel n objects = Some r → unique_keys r.
Proof.
  revert objects r. induction n as [|n IH]; intros objects r; [done|].
  cbn [plain_deepMerge_fuel].
  destruct (fold_left _ objects (Some [])) as [result|] eqn:Hfold; [|done].
  intros [= <-]. apply (plain_merge_objects_unique (plain_deepMerge_fuel n) IH objects []); [|done].
  cbn. split; [constructor|done].
Qed.

(** What one document merged into the empty accumulator leaves there. *)
Lemma plain_merge_object_copy (result : props) :
  unique_keys (VObject result) →
  plain_merge_object plain_deepMerge (Some []) (VObject result) = Some result.
Proof.
  intros Hu.
  pose proof (plain_deepMerge_copy (S (depth (VObject result))) (VObject result)
                ltac:(lia) eq_refl Hu) as Hcopy.
  rewrite plain_deepMerge_unfold in Hcopy. cbn [fold_left] in Hcopy.
  rewrite plain_merge_object_empty in Hcopy.
  destruct (plain_merge_object plain_deepMerge (Some []) (VObject result)); by simplify_eq/=.
Qed.

Lemma plain_deepMerge_continue (first more : list value) :
  ∃ result,
    plain_deepMerge first = Some (VObject result) ∧
    plain_deepMerge (VObject result :: more) = plain_deepMerge (first ++ more) ∧
    plain_deepMerge [VObject result] = Some (VObject result).
Proof.
  destruct (plain_merge_objects_deepMerge first []) as (result & Hfold).
  assert (Hr : plain_deepMerge first = Some (VObject result))
    by by rewrite plain_deepMerge_unfold, Hfold.
  assert (Hcopy : plain_merge_object plain_deepMerge (Some []) (VObject result) = Some result).
  { apply plain_merge_object_copy. by apply (plain_deepMerge_fuel_unique_keys _ _ _ Hr). }
  exists result. split; [done|]. split.
  - rewrite !plain_deepMerge_unfold, fold_left_app, Hfold. cbn [fold_left].
    by rewrite Hcopy.
  - rewrite plain_deepMerge_unfold. cbn [fold_left]. by rewrite Hcopy.
Qed.

(** Merging step by step is merging at once: the result of a call, passed
    first to a second call, stands for the arguments it was merged from.
    In particular [plain_deepMerge(plain_deepMerge(a, b), c)] is [plain_deepMerge(a, b, c)],
    and merging a result alone gives it back. *)
Lemma plain_deepMerge_incremental (first more : list value) :
  ∃ r, plain_deepMerge first = Some r ∧
       plain_deepMerge (r :: more) = plain_deepMerge (first ++ more) ∧
       plain_deepMerge [r] = Some r.
Proof.
  destruct (plain_deepMerge_continue first more) as (result & ? & ? & ?).
  by exists (VObject result).
Qed.

Lemma set_prop_same (k : string) (v : value) (ps : props) :
  lookup_prop k ps = Some v → set_prop k v ps = ps.
Proof.
  induction ps as [|[k0 v0] ps IH]; cbn; [done|].
  destruct (String.eqb_spec k0 k) as [->|Hne].
  - by intros [= ->].
  - intros Hl. by rewrite IH.
Qed.

Lemma lookup_prop_Forall (P : value → Prop) (k : string) (ps : props) (v : value) :
  Forall (λ p, P p.2) ps → lookup_prop k ps = Some v → P v.
Proof.
  induction 1 as [|[k0 v0] ps Hp _ IH]; cbn; [done|].
  destruct (String.eqb k0 k); [by intros [= <-]|done].
Qed.

Lemma plain_merge_keys_again (d : nat) (ps : props) (keys : list string) :
  (∀ v, depth v < d → is_document v = true → unique_keys v →
        plain_deepMerge [v; v] = Some v) →
  depth (VObject ps) ≤ d → unique_keys (VObject ps) →
  keys ⊆ map fst ps →
  fold_left (plain_merge_key plain_deepMerge (VObject ps)) keys (Some ps) = Some ps.
Proof.
  intros IH Hd Hu. induction keys as [|k keys IHkeys]; intros Hsub; [done|].
  cbn [fold_left].
  replace (plain_merge_key plain_deepMerge (VObject ps) (Some ps) k) with (Some ps);
    [apply IHkeys; intros x Hx; apply Hsub; by right|].
  assert (Hin : k ∈ map fst ps) by (apply Hsub; left).
  destruct (lookup_prop k ps) as [v|] eqn:Hk;
    [|by apply lookup_prop_None in Hk].
  unfold plain_merge_key. cbn [mbind option_bind has_own get]. rewrite Hk.
  rewrite bool_decide_eq_true_2 by eauto. cbn [negb from_option id].
  destruct (is_document v) eqn:Hdoc.
  - assert (Hv : or_else v (VObject []) = v) by by destruct v.
    rewrite Hv, IH; [by cbn; rewrite set_prop_same| |done|].
    + pose proof (depth_lookup _ _ _ Hk). lia.
    + apply unique_keys_object in Hu as [_ Hall].
      by apply (lookup_prop_Forall unique_keys k ps).
  - by rewrite set_prop_same.
Qed.

(** Merging a document twice is merging it once: for a document with
    unique keys, [plain_deepMerge(a, a)] is [a]. *)
Lemma plain_deepMerge_idempotent (a : value) :
  is_document a = true → unique_keys a → plain_deepMerge [a; a] = Some a.
Proof.
  remember (S (depth a)) as d eqn:Hd. assert (Hlt : depth a < d) by lia.
  clear Hd. revert a Hlt. induction d as [|d IH]; intros a Hlt Hdoc Hu; [lia|].
  destruct a as [| | | | | |ps]; try done.
  rewrite plain_deepMerge_unfold. cbn [fold_left].
  rewrite (plain_merge_object_copy ps Hu), plain_merge_object_keys by done.
  cbn [enumerable_keys]. rewrite (plain_merge_keys_again d ps); [done| |lia|done|done].
  intros v Hv. by apply IH.
Qed.

(** *** Merging key by key *)

Lemma plain_merge_keys_nested (obj : value) (before after : list string)
    (result result' : props) (k : string) :
  NoDup (before ++ k :: after) →
  before ++ k :: after ⊆ enumerable_keys obj →
  is_document (get obj k) = true →
  fold_left (plain_merge_key plain_deepMerge obj) (before ++ k :: after) (Some result)
    = Some result' →
  ∃ v, lookup_prop k result' = Some v ∧
       plain_deepMerge [or_else (default VUndefined (lookup_prop k result)) (VObject []);
                  get obj k] = Some v.
Proof.
  intros Hnd Hsub Hdoc. rewrite fold_left_app. cbn [fold_left].
  apply NoDup_app in Hnd as (_ & Hbefore & Hnd).
  apply NoDup_cons in Hnd as [Hafter _].
  destruct (plain_merge_keys_deepMerge obj before result) as (r0 & Hr0). rewrite Hr0.
  destruct (plain_merge_key_deepMerge obj r0 k) as (v & Hstep & _ & Hv).
  rewrite Hstep.
  rewrite (enumerable_keys_own obj k) by (apply Hsub, elem_of_app; right; left).
  intros Hfold. exists v. rewrite (plain_merge_keys_other _ _ _ _ _ Hafter Hfold).
  rewrite lookup_set_prop, String.eqb_refl. split; [done|].
  rewrite <- (Hv Hdoc). cbn [get]. do 4 f_equal.
  symmetry. apply (plain_merge_keys_other obj before); [|done].
  intros Hin. apply (Hbefore _ Hin). left.
Qed.

Lemma plain_merge_nested_snoc (nested : list value) (v : value) :
  plain_merge_nested (nested ++ [v]) = plain_deepMerge (nested ++ [v]).
Proof. by destruct nested. Qed.

Lemma plain_merge_objects_nested (k : string) (objects : list value)
    (nested : list value) (result result' : props) :
  Forall (λ obj, is_document obj = true ∧ NoDup (enumerable_keys obj) ∧
                 (has_own obj k = true → is_document (get obj k) = true))
    objects →
  lookup_prop k result = plain_merge_nested nested →
  fold_left (plain_merge_object plain_deepMerge) objects (Some result) = Some result' →
  lookup_prop k result' =
    plain_merge_nested (nested ++ map (λ obj, get obj k)
                              (List.filter (λ obj, has_own obj k) objects)).
Proof.
  intros Hall. revert nested result.
  induction Hall as [|obj objects (Hobj & Hnd & Hdoc) _ IH];
    intros nested result Hres; cbn [fold_left List.filter map].
  - intros [= <-]. by rewrite app_nil_r.
  - destruct (plain_merge_object_deepMerge obj result) as (r1 & Hr1). rewrite Hr1.
    intros Hfold. destruct (has_own obj k) eqn:Hown.
    + cbn [map].
      replace (nested ++ get obj k :: map (λ o, get o k)
                          (List.filter (λ o, has_own o k) objects))
        with ((nested ++ [get obj k]) ++ map (λ o, get o k)
                          (List.filter (λ o, has_own o k) objects))
        by by rewrite <- app_assoc.
      apply (IH _ r1); [|done].
      assert (Hm : mergeable obj = true) by by destruct obj.
      rewrite plain_merge_object_keys in Hr1 by done.
      assert (Hk : k ∈ enumerable_keys obj).
      { destruct obj as [| | | | | |ps]; try done. cbn in *.
        apply bool_decide_eq_true_1 in Hown.
        apply dec_stable. intros Hn. apply lookup_prop_None in Hn.
        rewrite Hn in Hown. by destruct Hown. }
      apply list_elem_of_split in Hk as (before & after & Hkeys).
      rewrite Hkeys in Hr1, Hnd.
      destruct (plain_merge_keys_nested obj before after result r1 k) as (v & -> & Hv);
        [done|by rewrite <- Hkeys|auto|done|].
      rewrite plain_merge_nested_snoc, <- Hv, Hres. destruct nested as [|n0 nested'].
      * cbn [plain_merge_nested from_option app].
        change (or_else VUndefined (VObject [])) with (VObject []).
        rewrite !plain_deepMerge_unfold. cbn [fold_left]. by rewrite plain_merge_object_empty.
      * cbn [plain_merge_nested].
        destruct (plain_deepMerge_continue (n0 :: nested') [get obj k])
          as (r & -> & Hcont & _).
        cbn [from_option]. by rewrite <- Hcont.
    + apply (IH _ r1); [|done]. rewrite <- Hres.
      apply (plain_merge_object_other obj); [|done].
      intros _ Hin. apply enumerable_keys_own in Hin. congruence.
Qed.

(** Merging goes key by key: when the arguments are documents, and those
    that have the key [k] hold a document there, the result holds at [k]
    the merge of these documents, in the order of the arguments; it has no
    key [k] when no argument has one. *)
Lemma plain_deepMerge_key_by_key (objects : list value) (k : string) :
  Forall (λ obj, is_document obj = true ∧ NoDup (enumerable_keys obj) ∧
                 (has_own obj k = true → is_document (get obj k) = true))
    objects →
  ∃ result,
    plain_deepMerge objects = Some (VObject result) ∧
    lookup_prop k result =
      plain_merge_nested (map (λ obj, get obj k)
                      (List.filter (λ obj, has_own obj k) objects)).
Proof.
  intros Hall. destruct (plain_merge_objects_deepMerge objects []) as (result & Hfold).
  exists result. rewrite plain_deepMerge_unfold, Hfold. split; [done|].
  by apply (plain_merge_objects_nested k objects [] [] result).
Qed.


(** ** [strictDeepMerge]: what the target holds *)

Lemma kept_above_refl level (target : loc) (h : store) : kept_above level target h h.
Proof. by intros l. Qed.

Lemma kept_above_trans level (target : loc) (h1 h2 h3 : store) :
  kept_above level target h1 h2 → kept_above level target h2 h3 →
  kept_above level target h1 h3.
Proof. intros H12 H23 l Hne Hl. by rewrite H23, H12. Qed.

Lemma kept_above_nested level (target nested : loc) (h h' : store) :
  level nested = S (level target) → kept_above level nested h h' →
  kept_above level target h h' ∧ h' !! target = h !! target.
Proof.
  intros Hlev Hk. split.
  - intros l Hne Hl. apply Hk; [|lia]. intros ->. lia.
  - apply Hk; [|lia]. intros Heq. rewrite Heq in Hlev. lia.
Qed.

Lemma kept_above_write level (target : loc) (h : store) (c : cell) :
  kept_above level target h (<[target := c]> h).
Proof. intros l Hne _. by rewrite lookup_insert_ne. Qed.

Lemma same_shape_is_document (h h' : store) (v : sval) :
  same_shape h h' → s_is_document h' v = s_is_document h v.
Proof.
  intros Hs. destruct v as [| | | | |l]; try done. cbn.
  specialize (Hs l). destruct (h !! l) as [[?|?]|], (h' !! l) as [[?|?]|];
    cbn in Hs; by simplify_eq.
Qed.

Lemma s_lookup_set_prop (k k' : string) (v : sval) (ps : list (string * sval)) :
  s_lookup_prop k' (s_set_prop k v ps) =
  if String.eqb k k' then Some v else s_lookup_prop k' ps.
Proof.
  induction ps as [|[k0 v0] ps IH]; cbn; [done|].
  destruct (String.eqb_spec k0 k) as [->|Hne]; cbn.
  - by destruct (String.eqb k k').
  - rewrite IH. destruct (String.eqb_spec k k') as [->|]; [|done].
    by apply String.eqb_neq in Hne as ->.
Qed.

(** Reading after writing, at a key the cell enumerates. *)
Lemma cell_get_set (c : cell) (k k' : string) (v : sval) :
  k ∈ cell_keys c →
  cell_get (cell_set c k v) k' = if String.eqb k k' then v else cell_get c k'.
Proof.
  destruct c as [ps|elems]; cbn [cell_keys cell_set cell_get].
  - intros _. rewrite s_lookup_set_prop. by destruct (String.eqb k k').
  - unfold index_keys. intros (i & -> & Hi%elem_of_seq)%list_elem_of_fmap.
    rewrite (index_of_key_pretty i (length elems)) by lia.
    cbn [cell_get]. rewrite length_insert.
    destruct (String.eqb_spec (pretty i) k') as [<-|Hne].
    + rewrite pretty_nat_not_length.
      rewrite (index_of_key_pretty i (length elems)) by lia. cbn.
      by rewrite list_lookup_insert_eq by lia.
    + destruct (String.eqb k' "length"); [done|].
      destruct (index_of_key k' (length elems)) as [j|] eqn:Hj; cbn; [|done].
      apply index_of_key_Some in Hj as [-> Hj].
      rewrite list_lookup_insert_ne; [done|]. congruence.
Qed.

Lemma cell_keys_own (c : cell) (k : string) :
  k ∈ cell_keys c → cell_has_own c k = true.
Proof.
  destruct c as [ps|elems]; cbn.
  - intros Hin. apply bool_decide_eq_true_2.
    induction ps as [|[k0 v0] ps IH]; cbn in *; [by apply elem_of_nil in Hin|].
    destruct (String.eqb_spec k0 k) as [->|Hne]; [eauto|].
    apply elem_of_cons in Hin as [?|Hin]; [congruence|auto].
  - unfold index_keys. intros (i & -> & Hi%elem_of_seq)%list_elem_of_fmap.
    rewrite (index_of_key_pretty i (length elems)) by lia.
    by rewrite orb_true_r.
Qed.

Lemma same_shape_keys (h h' : store) (l : loc) (c c' : cell) :
  same_shape h h' → h !! l = Some c → h' !! l = Some c' →
  cell_keys c' = cell_keys c.
Proof.
  intros Hs Hc Hc'. specialize (Hs l). rewrite Hc, Hc' in Hs.
  cbn in Hs. unfold shape in Hs. by simplify_eq.
Qed.

Section StrictDeepMergeValues.
Variable level : loc → nat.
Variable top : nat.
Variable recurse : loc → list sval → store → option (sval * store).
Variable target : loc.

(** What the nested call is known to do, one level below [target]. *)
Hypothesis recurse_kept :
  ∀ h nested sources,
    graded level top h → is_Some (h !! nested) →
    sources_at level h nested sources → level nested = S (level target) →
    ∃ h', recurse nested sources h = Some (SRef nested, h')
          ∧ same_shape h h' ∧ graded level top h'
          ∧ kept_above level nested h h'.

Lemma plain_strict_key_kept (h : store) (source : loc) (key : string) (tc sc : cell) :
  graded level top h → h !! target = Some tc → h !! source = Some sc →
  level source = level target →
  ∃ h', plain_strict_key recurse target source (Some h) key = Some h'
        ∧ same_shape h h' ∧ graded level top h'
        ∧ kept_above level target h h'
        ∧ h' !! target =
          Some (if cell_has_own tc key && cell_has_own sc key
                   && negb (s_is_document h (cell_get tc key)
                            && s_is_document h (cell_get sc key))
                then cell_set tc key (cell_get sc key) else tc).
Proof.
  intros Hg Ht Hs Hlev. unfold plain_strict_key.
  cbn [mbind option_bind]. rewrite Ht. cbn [mbind option_bind].
  rewrite Hs. cbn [mbind option_bind].
  destruct (cell_has_own tc key) eqn:Htown; cbn [negb orb andb];
    [|eauto 10 using same_shape_refl, kept_above_refl].
  destruct (cell_has_own sc key) eqn:Hsown; cbn [negb andb];
    [|eauto 10 using same_shape_refl, kept_above_refl].
  destruct (s_is_document h (cell_get tc key) && s_is_document h (cell_get sc key))
    eqn:Hdocs; cbn [negb].
  - apply andb_true_iff in Hdocs as [Htd Hsd].
    destruct (cell_get tc key) as [| | | | |nested] eqn:Htv; try done.
    destruct (cell_get sc key) as [| | | | |sl] eqn:Hsv; try done.
    pose proof (cell_get_ref _ _ _ Htv) as Hnin.
    pose proof (cell_get_ref _ _ _ Hsv) as Hsin.
    destruct (Hg _ _ Ht) as [_ Htrefs]. destruct (Hg _ _ Hs) as [_ Hsrefs].
    destruct (recurse_kept h nested [SRef sl]) as (h' & -> & ? & ? & Hk); eauto.
    + cbn in Htd. destruct (h !! nested); [eauto|done].
    + constructor; [|constructor]. intros l [= <-]. split.
      * cbn in Hsd. destruct (h !! sl); [eauto|done].
      * rewrite (Hsrefs _ Hsin), (Htrefs _ Hnin). congruence.
    + apply (kept_above_nested level target nested h h' (Htrefs _ Hnin)) in Hk
        as [Hk Hcell].
      cbn. exists h'. rewrite Hcell. eauto 10.
  - rewrite (store_set_spec _ _ _ _ _ Ht).
    destruct (graded_write level top h target source tc sc key) as [? ?]; eauto.
    eexists. split; [done|]. split; [done|]. split; [done|].
    split; [apply kept_above_write|]. by rewrite lookup_insert_eq.
Qed.

Lemma plain_strict_keys_kept (keys : list string) (h : store) (source : loc) :
  graded level top h → is_Some (h !! target) → is_Some (h !! source) →
  level source = level target →
  ∃ h', fold_left (plain_strict_key recurse target source) keys (Some h) = Some h'
        ∧ same_shape h h' ∧ graded level top h'
        ∧ kept_above level target h h'.
Proof.
  revert h. induction keys as [|key keys IH]; intros h Hg [tc Ht] [sc Hs] Hlev;
    cbn [fold_left]; [eauto using same_shape_refl, kept_above_refl|].
  destruct (plain_strict_key_kept h source key tc sc) as (h1 & -> & Hsh1 & Hg1 & Hk1 & _);
    auto.
  destruct (IH h1) as (h2 & ? & ? & ? & ?); eauto using same_shape_is_Some.
  eauto 10 using same_shape_trans, kept_above_trans.
Qed.

(** With a source that is not the target and keys without repetition, the
    target holds at each key what [strict_value] says. *)
Lemma plain_strict_keys_values (keys : list string) (h0 h : store) (source : loc)
    (tc0 tc sc : cell) :
  graded level top h → h !! target = Some tc → h !! source = Some sc →
  level source = level target → source ≠ target →
  same_shape h0 h → cell_keys tc = cell_keys tc0 →
  NoDup keys → keys ⊆ cell_keys tc0 →
  ∃ h' tc',
    fold_left (plain_strict_key recurse target source) keys (Some h) = Some h'
    ∧ same_shape h h' ∧ graded level top h' ∧ kept_above level target h h'
    ∧ h' !! target = Some tc' ∧ h' !! source = Some sc
    ∧ ∀ k, cell_get tc' k =
           if bool_decide (k ∈ keys)
           then (if cell_has_own sc k
                    && negb (s_is_document h0 (cell_get tc k)
                             && s_is_document h0 (cell_get sc k))
                 then cell_get sc k else cell_get tc k)
           else cell_get tc k.
Proof.
  revert h tc. induction keys as [|key keys IH];
    intros h tc Hg Ht Hs Hlev Hne Hsh Hkeys Hnd Hsub; cbn [fold_left].
  { exists h, tc. eauto 10 using same_shape_refl, kept_above_refl. }
  apply NoDup_cons in Hnd as [Hkey Hnd].
  assert (Hin : key ∈ cell_keys tc) by (rewrite Hkeys; apply Hsub; left).
  destruct (plain_strict_key_kept h source key tc sc)
    as (h1 & -> & Hsh1 & Hg1 & Hk1 & Ht1); auto.
  rewrite (cell_keys_own tc key Hin) in Ht1. cbn [andb] in Ht1.
  set (tc1 := if cell_has_own sc key
                 && negb (s_is_document h (cell_get tc key)
                          && s_is_document h (cell_get sc key))
              then cell_set tc key (cell_get sc key) else tc) in Ht1.
  assert (Hs1 : h1 !! source = Some sc).
  { rewrite Hk1; [done|done|lia]. }
  assert (Hkeys1 : cell_keys tc1 = cell_keys tc0).
  { rewrite <- Hkeys. by apply (same_shape_keys h h1 target). }
  destruct (IH h1 tc1) as (h2 & tc2 & -> & Hsh2 & Hg2 & Hk2 & Ht2 & Hs2 & Hval);
    auto.
  { by apply (same_shape_trans h0 h). }
  { intros k Hk. apply Hsub. by right. }
  exists h2, tc2. split; [done|].
  split; [by apply (same_shape_trans h h1)|]. split; [done|].
  split; [by apply (kept_above_trans level target h h1)|].
  split; [done|]. split; [done|].
  intros k. rewrite Hval.
  assert (Hget : ∀ k', k' ≠ key → cell_get tc1 k' = cell_get tc k').
  { intros k' Hk'. subst tc1. destruct (_ && _); [|done].
    rewrite (cell_get_set tc key k' _ Hin).
    by apply not_eq_sym, String.eqb_neq in Hk' as ->. }
  destruct (decide (k = key)) as [->|Hk].
  - rewrite bool_decide_eq_false_2 by done.
    rewrite bool_decide_eq_true_2 by left.
    rewrite <- !(same_shape_is_document h0 h) by done.
    subst tc1. destruct (_ && _); [|done].
    by rewrite (cell_get_set tc key key _ Hin), String.eqb_refl.
  - rewrite (Hget k Hk).
    destruct (decide (k ∈ keys)) as [Hkin|Hkin].
    + rewrite !bool_decide_eq_true_2; [done|by right|done].
    + rewrite !bool_decide_eq_false_2; [done| |done].
      by intros [?|?]%elem_of_cons.
Qed.

Lemma plain_strict_source_kept (h : store) (source : sval) :
  graded level top h → is_Some (h !! target) →
  (∀ l, source = SRef l → is_Some (h !! l) ∧ level l = level target) →
  ∃ h', plain_strict_source recurse target (Some h) source = Some h'
        ∧ same_shape h h' ∧ graded level top h'
        ∧ kept_above level target h h'.
Proof.
  intros Hg Ht Hsrc. unfold plain_strict_source.
  destruct (negb (s_truthy source) || negb (String.eqb (s_typeof source) "object"));
    [eauto using same_shape_refl, kept_above_refl|].
  destruct source as [| | | | |l]; eauto using same_shape_refl, kept_above_refl.
  destruct (Hsrc l eq_refl) as [Hl Hlev]. destruct Ht as [tc Ht].
  cbn [mbind option_bind]. rewrite Ht. cbn [mbind option_bind].
  apply plain_strict_keys_kept; eauto.
Qed.

Lemma plain_strict_sources_kept (sources : list sval) (h : store) :
  graded level top h → is_Some (h !! target) →
  sources_at level h target sources →
  ∃ h', fold_left (plain_strict_source recurse target) sources (Some h) = Some h'
        ∧ same_shape h h' ∧ graded level top h'
        ∧ kept_above level target h h'.
Proof.
  revert h. induction sources as [|source sources IH]; intros h Hg Ht Hsrcs;
    cbn [fold_left]; [eauto using same_shape_refl, kept_above_refl|].
  apply Forall_cons in Hsrcs as [Hsrc Hsrcs].
  destruct (plain_strict_source_kept h source) as (h1 & -> & Hsh1 & Hg1 & Hk1); auto.
  destruct (IH h1) as (h2 & ? & ? & ? & ?); eauto using same_shape_is_Some.
  - eapply Forall_impl; [exact Hsrcs|]. intros s Hs l ->.
    destruct (Hs l eq_refl). eauto using same_shape_is_Some.
  - eauto 10 using same_shape_trans, kept_above_trans.
Qed.
End StrictDeepMergeValues.

(** A call writes the target and cells below its level, and no other. *)
Lemma plain_strictDeepMerge_st_kept level top (fuel : nat) :
  ∀ h target sources,
    graded level top h → is_Some (h !! target) →
    sources_at level h target sources →
    top - level target < fuel →
    ∃ h', plain_strictDeepMerge_st fuel target sources h = Some (SRef target, h')
          ∧ same_shape h h' ∧ graded level top h'
          ∧ kept_above level target h h'.
Proof.
  induction fuel as [|fuel IH]; intros h target sources Hg Ht Hsrcs Hfuel; [lia|].
  cbn [plain_strictDeepMerge_st]. destruct Ht as [tc Ht]. rewrite Ht.
  cbn [mbind option_bind s_truthy negb orb].
  destruct (length (cell_keys tc) =? 0);
    [eauto 10 using same_shape_refl, kept_above_refl|].
  destruct (plain_strict_sources_kept level top (plain_strictDeepMerge_st fuel) target)
    with (sources := sources) (h := h) as (h' & -> & ? & ? & ?); eauto 10.
  intros h1 nested srcs Hg1 [nc Hn] Hs1 Hlev. apply IH; eauto.
  destruct (Hg1 _ _ Hn) as [Hle _]. lia.
Qed.

(** The strict merge of one source, key by key.  In a store laid out by
    levels, with a source that is another object than the target, the call
    returns and leaves the source object as it was; the target then holds,
    at each of its keys that the source has too, the very value the source
    holds there (for an array or a document the same reference, not a
    copy), unless both held a document, in which case the target keeps its
    own, merged in place; every other key of the target holds what it
    held. *)
Lemma plain_strictDeepMerge_key_by_key level top (fuel : nat) (h : store)
    (target source : loc) (tc sc : cell) :
  graded level top h → h !! target = Some tc → h !! source = Some sc →
  level source = level target → source ≠ target →
  NoDup (cell_keys tc) → top - level target < fuel →
  ∃ h' tc',
    plain_strictDeepMerge_st fuel target [SRef source] h = Some (SRef target, h') ∧
    h' !! target = Some tc' ∧ h' !! source = Some sc ∧
    ∀ k, cell_get tc' k = strict_value h tc sc k.
Proof.
  intros Hg Ht Hs Hlev Hne Hnd Hfuel. destruct fuel as [|fuel]; [lia|].
  cbn [plain_strictDeepMerge_st]. rewrite Ht.
  cbn [mbind option_bind s_truthy negb orb].
  destruct (length (cell_keys tc) =? 0) eqn:Hlen.
  { exists h, tc. split; [done|]. split; [done|]. split; [done|].
    intros k. unfold strict_value.
    apply Nat.eqb_eq, nil_length_inv in Hlen. rewrite Hlen.
    by rewrite bool_decide_eq_false_2 by apply not_elem_of_nil. }
  cbn [fold_left]. unfold plain_strict_source.
  cbn [s_truthy s_typeof negb orb]. change (String.eqb "object" "object") with true.
  cbn [negb mbind option_bind]. rewrite Ht. cbn [mbind option_bind].
  destruct (plain_strict_keys_values level top (plain_strictDeepMerge_st fuel) target)
    with (keys := cell_keys tc) (h0 := h) (h := h) (source := source)
         (tc0 := tc) (tc := tc) (sc := sc)
    as (h' & tc' & -> & _ & _ & _ & Ht' & Hs' & Hval);
    auto using same_shape_refl.
  { intros h1 nested srcs Hg1 [nc Hn] Hs1 Hlev1.
    apply (plain_strictDeepMerge_st_kept level top); eauto.
    destruct (Hg1 _ _ Hn) as [Hle _]. lia. }
  exists h', tc'. split; [done|]. split; [done|]. split; [done|].
  intros k. rewrite Hval. unfold strict_value.
  by destruct (bool_decide (k ∈ cell_keys tc)).
Qed.

(** ** [strictDeepMerge]: sources that bring nothing *)

Lemma plain_strict_keys_skip recurse (target source : loc) (h : store) (tc sc : cell)
    (keys : list string) :
  h !! target = Some tc → h !! source = Some sc →
  (∀ k, k ∈ keys → cell_has_own sc k = false) →
  fold_left (plain_strict_key recurse target source) keys (Some h) = Some h.
Proof.
  intros Ht Hs. induction keys as [|key keys IH]; intros Hkeys; [done|].
  cbn [fold_left]. replace (plain_strict_key recurse target source (Some h) key)
    with (Some h); [apply IH; intros k Hk; apply Hkeys; by right|].
  unfold plain_strict_key. cbn [mbind option_bind]. rewrite Ht. cbn [mbind option_bind].
  rewrite Hs. cbn [mbind option_bind].
  rewrite (Hkeys key) by left. by rewrite orb_true_r.
Qed.

(** A source changes nothing when it is not an object ([null], [undefined],
    a number, a string, a boolean) or has none of the keys of the target:
    a call with such sources only returns the target and leaves every
    object as it was. *)
Lemma plain_strictDeepMerge_nothing_shared (fuel : nat) (h : store) (target : loc)
    (tc : cell) (sources : list sval) :
  h !! target = Some tc →
  Forall (λ source, ∀ l, source = SRef l →
            ∃ sc, h !! l = Some sc ∧
                  ∀ k, k ∈ cell_keys tc → cell_has_own sc k = false) sources →
  plain_strictDeepMerge_st (S fuel) target sources h = Some (SRef target, h).
Proof.
  intros Ht Hall. cbn [plain_strictDeepMerge_st]. rewrite Ht.
  cbn [mbind option_bind s_truthy negb orb].
  destruct (length (cell_keys tc) =? 0); [done|].
  replace (fold_left (plain_strict_source (plain_strictDeepMerge_st fuel) target) sources (Some h))
    with (Some h); [done|].
  induction Hall as [|source sources Hsource _ IH]; [done|]. cbn [fold_left].
  replace (plain_strict_source (plain_strictDeepMerge_st fuel) target (Some h) source)
    with (Some h); [done|].
  unfold plain_strict_source.
  destruct (negb (s_truthy source) || negb (String.eqb (s_typeof source) "object"));
    [done|].
  destruct source as [| | | | |l]; try done.
  destruct (Hsource l eq_refl) as (sc & Hs & Hkeys).
  cbn [mbind option_bind]. rewrite Ht. cbn [mbind option_bind].
  symmetry. by apply (plain_strict_keys_skip _ _ _ _ tc sc).
Qed.



(** ** [plain_deepMerge] on the store: what is shared *)

Lemma plain_s_merge_keys_None recurse (result obj : loc) (keys : list string) :
  fold_left (plain_s_merge_key recurse result obj) keys None = None.
Proof. by induction keys. Qed.

Lemma plain_s_merge_objects_None recurse (result : loc) (objects : list sval) :
  fold_left (plain_s_merge_object recurse result) objects None = None.
Proof.
  induction objects as [|obj objects IH]; [done|]. cbn [fold_left].
  replace (plain_s_merge_object recurse result None obj) with (@None store); [done|].
  unfold plain_s_merge_object. destruct (_ || _); [done|]. by destruct obj.
Qed.

Lemma held_as_is_document (h : store) (result : loc) (v : sval) :
  held_as_is h result v → s_is_document h v = false.
Proof.
  intros Hv. destruct v as [| | | | |l]; try done. cbn.
  destruct (Hv l eq_refl) as (_ & elems & ->). done.
Qed.

Lemma held_as_is_frame (h h' : store) (result : loc) (v : sval) :
  (∀ l c, l ≠ result → h !! l = Some c → h' !! l = Some c) →
  held_as_is h result v → held_as_is h' result v.
Proof.
  intros Hframe Hv l Hl. destruct (Hv l Hl) as (Hne & elems & Hc). eauto.
Qed.

Section DeepMergeStoreFrame.
Variable recurse : list sval → store → option (loc * store).
Variable result : loc.

(** The nested call adds cells and changes none. *)
Hypothesis recurse_extends :
  ∀ ss h r h', recurse ss h = Some (r, h') → h ⊆ h'.

(** One turn of the inner loop writes [result[key]] and no cell that was
    there; it writes the value of the argument itself when that is not a
    document. *)
Lemma plain_s_merge_key_frame (obj : loc) (h h' : store) (key : string)
    (SR : list (string * sval)) :
  h !! result = Some (CObject SR) →
  plain_s_merge_key recurse result obj (Some h) key = Some h' →
  (∀ l c, l ≠ result → h !! l = Some c → h' !! l = Some c) ∧
  ∃ SR', h' !! result = Some (CObject SR') ∧
         (∀ k, k ≠ key → s_lookup_prop k SR' = s_lookup_prop k SR) ∧
         (∀ c, h !! obj = Some c → cell_has_own c key = true →
               s_is_document h (cell_get c key) = false →
               s_lookup_prop key SR' = Some (cell_get c key)).
Proof.
  intros Hr. unfold plain_s_merge_key. cbn [mbind option_bind].
  destruct (h !! obj) as [c|] eqn:Hc; cbn [mbind option_bind]; [|done].
  destruct (cell_has_own c key) eqn:Hown; cbn [negb].
  2:{ intros [= <-]. split; [done|]. exists SR. split; [done|].
      split; [done|]. intros c' [= <-]. congruence. }
  assert (Hwrite : ∀ (h2 : store) v,
    h ⊆ h2 → store_set h2 result key v = Some h' →
    (∀ l c0, l ≠ result → h !! l = Some c0 → h' !! l = Some c0) ∧
    ∃ SR', h' !! result = Some (CObject SR') ∧
           (∀ k, k ≠ key → s_lookup_prop k SR' = s_lookup_prop k SR) ∧
           s_lookup_prop key SR' = Some v).
  { intros h2 v Hsub Hset.
    pose proof (lookup_weaken _ _ _ _ Hr Hsub) as Hr2.
    rewrite (store_set_spec _ _ _ _ _ Hr2) in Hset. injection Hset as <-.
    split.
    - intros l c0 Hl Hl0. rewrite lookup_insert_ne by done.
      by apply (lookup_weaken _ _ _ _ Hl0 Hsub).
    - eexists. split; [apply lookup_insert_eq|]. split.
      + intros k Hk. cbn [cell_set]. rewrite s_lookup_set_prop.
        by apply not_eq_sym, String.eqb_neq in Hk as ->.
      + cbn [cell_set]. by rewrite s_lookup_set_prop, String.eqb_refl. }
  destruct (s_is_document h (cell_get c key)) eqn:Hdoc.
  - rewrite Hr. cbn [mbind option_bind].
    destruct (s_truthy (cell_get (CObject SR) key)).
    + destruct (recurse _ h) as [[merged h2]|] eqn:Hrec; cbn [mbind option_bind];
        [|done].
      intros Hset. destruct (Hwrite h2 (SRef merged)) as (Hframe & SR' & ? & ? & _);
        [by apply (recurse_extends _ _ _ _ Hrec)|done|].
      split; [done|]. exists SR'. split; [done|]. split; [done|].
      intros c' [= <-]. congruence.
    + destruct (alloc_empty_spec h) as [He Hh1].
      destruct (alloc_empty h) as [e h1]. cbn [fst snd] in He, Hh1. subst h1.
      destruct (recurse _ _) as [[merged h2]|] eqn:Hrec; cbn [mbind option_bind];
        [|done].
      intros Hset. destruct (Hwrite h2 (SRef merged)) as (Hframe & SR' & ? & ? & _);
        [|done|].
      { trans (<[e := CObject []]> h); [by apply insert_subseteq|].
        by apply (recurse_extends _ _ _ _ Hrec). }
      split; [done|]. exists SR'. split; [done|]. split; [done|].
      intros c' [= <-]. congruence.
  - intros Hset. destruct (Hwrite h (cell_get c key)) as (Hframe & SR' & ? & ? & ?);
      [done|done|].
    split; [done|]. exists SR'. split; [done|]. split; [done|].
    by intros c' [= <-].
Qed.

Lemma plain_s_merge_keys_frame (obj : loc) (keys : list string) (h h' : store)
    (SR : list (string * sval)) :
  h !! result = Some (CObject SR) →
  fold_left (plain_s_merge_key recurse result obj) keys (Some h) = Some h' →
  (∀ l c, l ≠ result → h !! l = Some c → h' !! l = Some c) ∧
  ∃ SR', h' !! result = Some (CObject SR') ∧
         (∀ k, k ∉ keys → s_lookup_prop k SR' = s_lookup_prop k SR) ∧
         (∀ k c, obj ≠ result → h !! obj = Some c → k ∈ keys →
                 cell_has_own c k = true →
                 held_as_is h result (cell_get c k) →
                 s_lookup_prop k SR' = Some (cell_get c k)).
Proof.
  revert h SR. induction keys as [|key keys IH]; intros h SR Hr; cbn [fold_left].
  { intros [= <-]. split; [done|]. exists SR. split; [done|]. split; [done|].
    by intros k c _ _ ?%elem_of_nil. }
  destruct (plain_s_merge_key recurse result obj (Some h) key) as [h1|] eqn:Hstep;
    [|by rewrite plain_s_merge_keys_None].
  destruct (plain_s_merge_key_frame obj h h1 key SR Hr Hstep)
    as (Hframe1 & SR1 & Hr1 & Hother1 & Hsame1).
  intros Hfold. destruct (IH h1 SR1 Hr1 Hfold) as (Hframe & SR' & Hr' & Hother & Hsame).
  split; [auto|]. exists SR'. split; [done|]. split.
  - intros k [Hk Hkeys]%not_elem_of_cons. rewrite (Hother k Hkeys). auto.
  - intros k c Hobj Hc Hk Hown Hheld.
    destruct (decide (k ∈ keys)) as [Hin|Hnin].
    + apply Hsame; auto. by apply (held_as_is_frame h).
    + apply elem_of_cons in Hk as [->|?]; [|done].
      rewrite (Hother key Hnin). apply Hsame1; [done|done|].
      by apply (held_as_is_document h result).
Qed.

Lemma plain_s_merge_object_frame (obj : sval) (h h' : store)
    (SR : list (string * sval)) :
  h !! result = Some (CObject SR) →
  plain_s_merge_object recurse result (Some h) obj = Some h' →
  (∀ l c, l ≠ result → h !! l = Some c → h' !! l = Some c) ∧
  ∃ SR', h' !! result = Some (CObject SR') ∧
         (∀ k, (∀ l c, obj = SRef l → h !! l = Some c → k ∉ cell_keys c) →
               s_lookup_prop k SR' = s_lookup_prop k SR) ∧
         (∀ k l c, obj = SRef l → l ≠ result → h !! l = Some c →
                   k ∈ cell_keys c → held_as_is h result (cell_get c k) →
                   s_lookup_prop k SR' = Some (cell_get c k)).
Proof.
  intros Hr. destruct obj as [| | | | |l].
  1-5: unfold plain_s_merge_object; destruct (_ || _); intros [= <-];
       (split; [done|]); exists SR; (split; [done|]); (split; [done|]);
       by intros k l c.
  unfold plain_s_merge_object. cbn [s_truthy s_typeof negb orb].
  change (String.eqb "object" "object") with true. cbn [negb mbind option_bind].
  destruct (h !! l) as [c|] eqn:Hc; cbn [mbind option_bind]; [|done].
  intros Hfold.
  destruct (plain_s_merge_keys_frame l (cell_keys c) h h' SR Hr Hfold)
    as (Hframe & SR' & Hr' & Hother & Hsame).
  split; [done|]. exists SR'. split; [done|]. split.
  - intros k Hk. apply Hother. by apply (Hk l c).
  - intros k l0 c0 [= <-] Hne Hc0 Hin Hheld. simplify_eq.
    apply Hsame; auto using cell_keys_own.
Qed.

Lemma plain_s_merge_objects_frame (objects : list sval) (h h' : store)
    (SR : list (string * sval)) :
  h !! result = Some (CObject SR) →
  fold_left (plain_s_merge_object recurse result) objects (Some h) = Some h' →
  (∀ l c, l ≠ result → h !! l = Some c → h' !! l = Some c) ∧
  ∃ SR', h' !! result = Some (CObject SR') ∧
         (∀ k, Forall (λ obj, ∀ l, obj = SRef l →
                          l ≠ result ∧
                          ∃ c, h !! l = Some c ∧ k ∉ cell_keys c) objects →
               s_lookup_prop k SR' = s_lookup_prop k SR).
Proof.
  revert h SR. induction objects as [|obj objects IH]; intros h SR Hr;
    cbn [fold_left].
  { intros [= <-]. split; [done|]. exists SR. by split. }
  destruct (plain_s_merge_object recurse result (Some h) obj) as [h1|] eqn:Hstep;
    [|by rewrite plain_s_merge_objects_None].
  destruct (plain_s_merge_object_frame obj h h1 SR Hr Hstep)
    as (Hframe1 & SR1 & Hr1 & Hother1 & _).
  intros Hfold. destruct (IH h1 SR1 Hr1 Hfold) as (Hframe & SR' & Hr' & Hother).
  split; [auto|]. exists SR'. split; [done|].
  intros k [Hobj Hall]%Forall_cons. rewrite Hother.
  - apply Hother1. intros l c -> Hc.
    destruct (Hobj l eq_refl) as (_ & c' & Hc' & Hk). by simplify_eq.
  - eapply Forall_impl; [exact Hall|]. intros o Ho l ->.
    destruct (Ho l eq_refl) as (Hl & c & Hc & Hk). eauto.
Qed.
End DeepMergeStoreFrame.

(** A call of [plain_deepMerge] adds cells to the store and changes none. *)
Lemma plain_deepMerge_st_extends (n : nat) (ss : list sval) (h : store)
    (r : loc) (h' : store) :
  plain_deepMerge_st n ss h = Some (r, h') → h ⊆ h'.
Proof.
  revert ss h r h'. induction n as [|n IH]; intros ss h r h'; [done|].
  cbn [plain_deepMerge_st]. destruct (alloc_empty_spec h) as [Hfresh Hh1].
  destruct (alloc_empty h) as [result h1]. cbn [fst snd] in Hfresh, Hh1. subst h1.
  destruct (fold_left _ ss _) as [h2|] eqn:Hfold; cbn [mbind option_bind]; [|done].
  intros [= <- <-].
  destruct (plain_s_merge_objects_frame (plain_deepMerge_st n) result IH ss _ h2 []
              (lookup_insert_eq _ _ _) Hfold) as (Hframe & _).
  apply map_subseteq_spec. intros l c Hl. apply Hframe; [congruence|].
  rewrite lookup_insert_ne; [done|congruence].
Qed.

(** In the store the result of [plain_deepMerge] is a new object, and it shares
    with its arguments what it does not merge: when the last argument that
    has the key [k] holds there an array or a primitive, the result holds
    at [k] that very value, for an array the same reference and not a
    copy, so that the array of the result is the array of the argument. *)
Lemma plain_deepMerge_st_shares (h : store) (before after : list sval)
    (o : loc) (oc : cell) (vs : list value) (k : string) :
  Forall2 (reifies h) (before ++ SRef o :: after) vs →
  h !! o = Some oc → k ∈ cell_keys oc →
  s_is_document h (cell_get oc k) = false →
  Forall (λ later, ∀ l c, later = SRef l → h !! l = Some c → k ∉ cell_keys c)
    after →
  ∃ r h' rc,
    plain_deepMerge_st (S (max_depth vs)) (before ++ SRef o :: after) h = Some (r, h') ∧
    h !! r = None ∧ h ⊆ h' ∧
    h' !! r = Some rc ∧ cell_get rc k = cell_get oc k.
Proof.
  intros Hreify Ho Hk Hdoc Hafter.
  destruct (plain_deepMerge_total vs) as (R & Hv & _).
  destruct (plain_deepMerge_st_refines (S (max_depth vs)) (before ++ SRef o :: after)
              vs h h (VObject R))
    as (r & h' & g' & Hrun & Hsub & _ & _ & _ & Hfresh & _); [done|done|done|].
  exists r, h'. rewrite Hrun. cbn [plain_deepMerge_st] in Hrun.
  destruct (alloc_empty_spec h) as [Hfresh1 Hh1].
  destruct (alloc_empty h) as [result h1]. cbn [fst snd] in Hfresh1, Hh1. subst h1.
  destruct (fold_left _ _ _) as [h2|] eqn:Hfold; cbn [mbind option_bind] in Hrun;
    [|done].
  injection Hrun as <- <-. rewrite fold_left_app in Hfold. cbn [fold_left] in Hfold.
  pose proof (plain_deepMerge_st_extends (max_depth vs)) as Hext.
  destruct (fold_left _ before _) as [hb|] eqn:Hbefore.
  2:{ replace (plain_s_merge_object (plain_deepMerge_st (max_depth vs)) result None (SRef o))
        with (@None store) in Hfold by done.
      by rewrite plain_s_merge_objects_None in Hfold. }
  destruct (plain_s_merge_objects_frame _ result Hext before _ hb []
              (lookup_insert_eq _ _ _) Hbefore) as (Hframe0 & SR0 & Hr0 & _).
  assert (Hin : ∀ l c, h !! l = Some c → l ≠ result ∧ hb !! l = Some c).
  { intros l c Hl. assert (l ≠ result) by congruence. split; [done|].
    apply Hframe0; [done|]. by rewrite lookup_insert_ne. }
  destruct (plain_s_merge_object _ result (Some hb) (SRef o)) as [ho|] eqn:Hobj;
    [|by rewrite plain_s_merge_objects_None in Hfold].
  destruct (plain_s_merge_object_frame _ result Hext (SRef o) hb ho SR0 Hr0 Hobj)
    as (Hframe1 & SR1 & Hr1 & _ & Hsame).
  destruct (plain_s_merge_objects_frame _ result Hext after ho h2 SR1 Hr1 Hfold)
    as (_ & SR2 & Hr2 & Hother).
  apply Forall2_app_inv_l in Hreify as (vb & vr & _ & Hro & _).
  inversion Hro as [|? vo ? va Hrov Hra]; subst.
  exists (CObject SR2). split; [done|]. split; [done|]. split; [done|].
  split; [done|]. cbn [cell_get]. rewrite Hother.
  - rewrite (Hsame k o oc eq_refl); [done|apply (Hin o oc Ho)..|done|].
    intros l Hl.
    destruct (reifies_cell _ _ _ Hrov) as (c & Hc & Hcv).
    assert (c = oc) as -> by congruence.
    pose proof (cell_reifies_get h oc vo k Hcv) as Hget. rewrite Hl in Hget.
    destruct (reifies_cell _ _ _ Hget) as (cl & Hcl & _).
    destruct (Hin l cl Hcl) as [Hne Hcb]. split; [done|].
    rewrite Hl in Hdoc. cbn in Hdoc. rewrite Hcl in Hdoc.
    destruct cl as [?|elems]; [done|]. eauto.
  - clear -Hra Hafter Hin Hframe1.
    induction Hra as [|s v after va Hs _ IH]; [constructor|].
    apply Forall_cons in Hafter as [Hlater Hafter].
    constructor; [|by apply IH]. intros l ->.
    destruct (reifies_cell _ _ _ Hs) as (c & Hc & _).
    destruct (Hin l c Hc) as [Hne Hcb]. split; [done|].
    exists c. split; [by apply Hframe1|]. by apply (Hlater l c).
Qed.

(** ** The mergers on plain data *)

Lemma pretty_digit_headed (i : nat) : digit_headed (pretty i).
Proof.
  unfold pretty, pretty_nat, pretty, pretty_N. case_decide; [done|].
  by apply pretty_N_go_digit_headed.
Qed.

(** A name that an array or a string owns is ["length"] or the numeral of
    an index. *)
Lemma index_key_name (k : string) (len : nat) :
  String.eqb k "length" || bool_decide (is_Some (index_of_key k len)) = true →
  k = "length" ∨ digit_headed k.
Proof.
  intros [Hk|Hk]%orb_true_iff; [left; by apply String.eqb_eq|right].
  apply bool_decide_eq_true in Hk as [i Hi].
  apply index_of_key_Some in Hi as [-> _]. apply pretty_digit_headed.
Qed.

(** What a plain value owns is not named ["hasOwnProperty"] or
    ["__proto__"]. *)
Lemma plain_own_key (obj : value) (key : string) :
  plain obj = true → has_own obj key = true →
  key ≠ "hasOwnProperty" ∧ key ≠ "__proto__".
Proof.
  intros Hplain Hown. destruct obj as [| | | |s|elems|ps]; try done.
  - destruct (index_key_name key _ Hown) as [->|Hd]; [done|].
    split; intros ->; done.
  - destruct (index_key_name key _ Hown) as [->|Hd]; [done|].
    split; intros ->; done.
  - change (owns (VObject ps) key = true) in Hown. split; intros ->.
    + rewrite (free_of_owns ["hasOwnProperty"; "__proto__"] (VObject ps)
                 "hasOwnProperty") in Hown;
        [done|by apply (bool_decide_unpack _)|done].
    + rewrite (free_of_owns ["hasOwnProperty"; "__proto__"] (VObject ps)
                 "__proto__") in Hown;
        [done|by apply (bool_decide_unpack _)|done].
Qed.

Lemma plain_hasOwnProperty (obj : value) (key : string) :
  plain obj = true → is_nullish obj = false →
  hasOwnProperty obj key = Ok (has_own obj key).
Proof.
  intros Hplain Hobj. unfold hasOwnProperty. rewrite Hobj.
  rewrite (free_of_owns ["hasOwnProperty"; "__proto__"] obj "hasOwnProperty");
    [done|by apply (bool_decide_unpack _)|done].
Qed.

Lemma free_of_set_prop (names : list string) (key : string) (v : value)
    (ps : props) :
  key ∉ names → free_of names v = true → free_of names (VObject ps) = true →
  free_of names (VObject (set_prop key v ps)) = true.
Proof.
  intros Hkey Hv. cbn [free_of]. intros [Hnames Hps]%andb_true_iff.
  apply andb_true_iff. split.
  - rewrite forallb_forall in Hnames |- *. intros name Hin.
    specialize (Hnames name Hin). rewrite lookup_set_prop.
    destruct (String.eqb_spec key name) as [->|_]; [|done].
    by apply list_elem_of_In in Hin.
  - clear Hnames. induction ps as [|[k' v'] ps IH]; cbn in *.
    + by rewrite Hv.
    + apply andb_true_iff in Hps as [Hv' Hps].
      destruct (String.eqb k' key); cbn; rewrite ?Hv, ?Hv', ?Hps; auto.
Qed.

Lemma plain_set_prop (key : string) (v : value) (ps : props) :
  key ≠ "hasOwnProperty" → key ≠ "__proto__" →
  plain v = true → plain (VObject ps) = true →
  plain (VObject (set_prop key v ps)) = true.
Proof.
  intros H1 H2. apply free_of_set_prop.
  intros [->|[->|[]%elem_of_nil]%elem_of_cons]%elem_of_cons; done.
Qed.

Lemma merge_keys_halt recurse (obj : value) (keys : list string) (r : merging) :
  (∀ result, r ≠ Some (Ok result)) →
  fold_left (merge_key recurse obj) keys r = r.
Proof.
  intros Hr. induction keys as [|key keys IH]; [done|]. cbn [fold_left].
  replace (merge_key recurse obj r key) with r; [done|].
  destruct r as [[result|e]|]; [by destruct (Hr result)|done..].
Qed.

Lemma merge_objects_halt recurse (objects : list value) (r : merging) :
  (∀ result, r ≠ Some (Ok result)) →
  fold_left (merge_object recurse) objects r = r.
Proof.
  intros Hr. induction objects as [|obj objects IH]; [done|]. cbn [fold_left].
  replace (merge_object recurse r obj) with r; [done|].
  unfold merge_object. destruct (_ || _); [done|]. by rewrite merge_keys_halt.
Qed.

Section PlainMerge.
Variable recurse : list value → option (result value).
Variable plain_recurse : list value → option value.

Hypothesis recurse_plain :
  ∀ objects, Forall (λ v, plain v = true) objects →
    recurse objects = returned (plain_recurse objects).
Hypothesis plain_recurse_plain :
  ∀ objects r, Forall (λ v, plain v = true) objects →
    plain_recurse objects = Some r → plain r = true.

Lemma merge_key_plain (obj : value) (result : props) (key : string) :
  plain obj = true → is_nullish obj = false → plain (VObject result) = true →
  merge_key recurse obj (Some (Ok result)) key
    = returned (plain_merge_key plain_recurse obj (Some result) key) ∧
  ∀ result', plain_merge_key plain_recurse obj (Some result) key = Some result' →
             plain (VObject result') = true.
Proof.
  intros Hobj Hnull Hresult. unfold merge_key, plain_merge_key.
  rewrite (plain_hasOwnProperty obj key Hobj Hnull). cbn [mbind option_bind].
  destruct (has_own obj key) eqn:Hown; cbn [negb].
  2:{ split; [done|]. by intros ? [= <-]. }
  destruct (plain_own_key obj key Hobj Hown) as [Hk1 Hk2].
  apply String.eqb_neq in Hk2 as Hk2'. rewrite Hk2'.
  assert (Hin : plain (get obj key) = true) by by apply free_of_get.
  destruct (is_document (get obj key)).
  - assert (Hargs : Forall (λ v, plain v = true)
      [or_else (get (VObject result) key) (VObject []); get obj key]).
    { repeat constructor; [|done]. apply free_of_or_else; [|done].
      by apply free_of_get. }
    rewrite (recurse_plain _ Hargs).
    destruct (plain_recurse _) as [merged|] eqn:Hmerged; cbn; [|done].
    split; [done|]. intros ? [= <-].
    apply plain_set_prop; try done. by apply (plain_recurse_plain _ _ Hargs).
  - split; [done|]. intros ? [= <-]. by apply plain_set_prop.
Qed.

Lemma merge_keys_plain (obj : value) (keys : list string) (result : props) :
  plain obj = true → is_nullish obj = false → plain (VObject result) = true →
  fold_left (merge_key recurse obj) keys (Some (Ok result))
    = returned (fold_left (plain_merge_key plain_recurse obj) keys (Some result)) ∧
  ∀ result', fold_left (plain_merge_key plain_recurse obj) keys (Some result)
             = Some result' → plain (VObject result') = true.
Proof.
  intros Hobj Hnull. revert result.
  induction keys as [|key keys IH]; intros result Hresult; cbn [fold_left].
  { split; [done|]. by intros ? [= <-]. }
  destruct (merge_key_plain obj result key Hobj Hnull Hresult) as [-> Hnext].
  destruct (plain_merge_key plain_recurse obj (Some result) key) as [next|]; cbn.
  - apply IH. by apply Hnext.
  - rewrite merge_keys_halt by done. by rewrite plain_merge_keys_None.
Qed.

Lemma merge_object_plain (obj : value) (result : props) :
  plain obj = true → plain (VObject result) = true →
  merge_object recurse (Some (Ok result)) obj
    = returned (plain_merge_object plain_recurse (Some result) obj) ∧
  ∀ result', plain_merge_object plain_recurse (Some result) obj = Some result' →
             plain (VObject result') = true.
Proof.
  intros Hobj Hresult. unfold merge_object, plain_merge_object.
  destruct (negb (truthy obj) || _) eqn:Hskip.
  { split; [done|]. by intros ? [= <-]. }
  apply merge_keys_plain; try done. by destruct obj.
Qed.

Lemma merge_objects_plain (objects : list value) (result : props) :
  Forall (λ v, plain v = true) objects → plain (VObject result) = true →
  fold_left (merge_object recurse) objects (Some (Ok result))
    = returned (fold_left (plain_merge_object plain_recurse) objects (Some result)) ∧
  ∀ result', fold_left (plain_merge_object plain_recurse) objects (Some result)
             = Some result' → plain (VObject result') = true.
Proof.
  intros Hobjects. revert result.
  induction Hobjects as [|obj objects Hobj _ IH]; intros result Hresult;
    cbn [fold_left].
  { split; [done|]. by intros ? [= <-]. }
  destruct (merge_object_plain obj result Hobj Hresult) as [-> Hnext].
  destruct (plain_merge_object plain_recurse (Some result) obj) as [next|]; cbn.
  - apply IH. by apply Hnext.
  - rewrite merge_objects_halt by done. by rewrite plain_merge_objects_None.
Qed.
End PlainMerge.

(** On plain arguments [deepMerge] is the merge of own properties, and
    what it returns is plain. *)
Lemma deepMerge_fuel_plain (fuel : nat) (objects : list value) :
  Forall (λ v, plain v = true) objects →
  deepMerge_fuel fuel objects = returned (plain_deepMerge_fuel fuel objects) ∧
  ∀ r, plain_deepMerge_fuel fuel objects = Some r → plain r = true.
Proof.
  revert objects. induction fuel as [|fuel IH]; intros objects Hobjects; [done|].
  cbn [deepMerge_fuel plain_deepMerge_fuel].
  destruct (merge_objects_plain (deepMerge_fuel fuel) (plain_deepMerge_fuel fuel)
              (λ os Hos, proj1 (IH os Hos)) (λ os r Hos, proj2 (IH os Hos) r)
              objects [] Hobjects eq_refl) as [-> Hplain].
  destruct (fold_left _ objects (Some [])) as [result|]; cbn; [|done].
  split; [done|]. intros ? [= <-]. by apply Hplain.
Qed.

Lemma deepMerge_plain (objects : list value) :
  Forall (λ v, plain v = true) objects →
  deepMerge objects = returned (plain_deepMerge objects).
Proof. intros Hobjects. by apply deepMerge_fuel_plain. Qed.
(** ** The mergers on a plain store *)

Lemma store_free_of_alloc (names : list string) (h : store) :
  store_free_of names h → store_free_of names (alloc_empty h).2.
Proof.
  intros Hh l c name Hl Hname. cbn in Hl.
  destruct (decide (l = fresh (dom h))) as [->|Hne].
  - rewrite lookup_insert_eq in Hl. by simplify_eq.
  - rewrite lookup_insert_ne in Hl by done. by apply (Hh l).
Qed.

Lemma cell_owns_set (c : cell) (key name : string) (v : sval) :
  cell_owns (cell_set c key v) name
  = match c with
    | CObject _ => String.eqb key name || cell_owns c name
    | CArray _ => false
    end.
Proof.
  destruct c as [ps|elems]; cbn; [|by destruct (index_of_key _ _)].
  rewrite s_lookup_set_prop. destruct (String.eqb key name); cbn [orb]; [|done].
  apply bool_decide_eq_true_2. eauto.
Qed.

Lemma store_free_of_set (names : list string) (h h' : store) (l : loc)
    (key : string) (v : sval) :
  store_free_of names h → key ∉ names →
  store_set h l key v = Some h' → store_free_of names h'.
Proof.
  intros Hh Hkey. unfold store_set.
  destruct (h !! l) as [c|] eqn:Hc; cbn; [|done]. intros [= <-] l' c' name Hl' Hname.
  destruct (decide (l' = l)) as [->|Hne].
  - rewrite lookup_insert_eq in Hl'. simplify_eq. rewrite cell_owns_set.
    destruct c; [|done]. rewrite (Hh l _ name Hc Hname), orb_false_r.
    apply String.eqb_neq. by intros ->.
  - rewrite lookup_insert_ne in Hl' by done. by apply (Hh l').
Qed.

(** Writing a property that the object has leaves its names as they
    are. *)
Lemma store_free_of_overwrite (names : list string) (h h' : store) (l : loc)
    (c : cell) (key : string) (v : sval) :
  store_free_of names h → h !! l = Some c → cell_has_own c key = true →
  store_set h l key v = Some h' → store_free_of names h'.
Proof.
  intros Hh Hc Hown. rewrite (store_set_spec _ _ _ _ _ Hc).
  intros [= <-] l' c' name Hl' Hname.
  destruct (decide (l' = l)) as [->|Hne].
  - rewrite lookup_insert_eq in Hl'. simplify_eq. rewrite cell_owns_set.
    pose proof (Hh l c name Hc Hname) as Hfree.
    destruct c as [ps|]; [|done]. rewrite Hfree, orb_false_r.
    apply String.eqb_neq. intros ->. cbn in Hown, Hfree. congruence.
  - rewrite lookup_insert_ne in Hl' by done. by apply (Hh l').
Qed.

(** What a cell of a plain store owns is not named like a member of
    [Object.prototype]. *)
Lemma plain_cell_own_key (h : store) (l : loc) (c : cell) (key : string) :
  plain_store h → h !! l = Some c → cell_has_own c key = true →
  key ∉ object_prototype_names.
Proof.
  intros Hh Hc Hown Hkey. destruct c as [ps|elems].
  - pose proof (Hh l _ key Hc Hkey) as Hfree. cbn in Hown, Hfree. congruence.
  - unfold object_prototype_names, object_methods in Hkey. cbn [app] in Hkey.
    destruct (index_key_name key _ Hown) as [->|Hd]; [|revert Hd];
      repeat (apply elem_of_cons in Hkey as [Hkey|Hkey];
              [first [discriminate Hkey | by rewrite Hkey]|]);
      by apply elem_of_nil in Hkey.
Qed.

Lemma plain_store_names (h : store) (l : loc) (c : cell) :
  plain_store h → h !! l = Some c →
  cell_owns c "hasOwnProperty" = false ∧ cell_owns c "__proto__" = false.
Proof.
  intros Hh Hc. split; apply (Hh l c _ Hc); by apply (bool_decide_unpack _).
Qed.

Lemma s_merge_keys_halt recurse (result obj : loc) (keys : list string)
    (st : option run) :
  (∀ h, st ≠ Some (Going h)) →
  fold_left (s_merge_key recurse result obj) keys st = st.
Proof.
  intros Hst. induction keys as [|key keys IH]; [done|]. cbn [fold_left].
  replace (s_merge_key recurse result obj st key) with st; [done|].
  destruct st as [[h|e h]|]; [by destruct (Hst h)|done..].
Qed.

Lemma s_merge_objects_halt recurse (result : loc) (objects : list sval)
    (st : option run) :
  (∀ h, st ≠ Some (Going h)) →
  fold_left (s_merge_object recurse result) objects st = st.
Proof.
  intros Hst. induction objects as [|obj objects IH]; [done|]. cbn [fold_left].
  replace (s_merge_object recurse result st obj) with st; [done|].
  unfold s_merge_object. destruct (_ || _); [done|].
  destruct obj; try done. destruct st as [[h|e h]|]; [by destruct (Hst h)|done..].
Qed.

Section PlainStoreMerge.
Variable recurse : list sval → store → option (result loc * store).
Variable plain_recurse : list sval → store → option (loc * store).
Variable result : loc.

Hypothesis recurse_plain :
  ∀ ss h, plain_store h → recurse ss h = returned_at (plain_recurse ss h).
Hypothesis plain_recurse_plain :
  ∀ ss h r h', plain_store h → plain_recurse ss h = Some (r, h') → plain_store h'.

Lemma s_merge_key_plain (obj : loc) (h : store) (key : string) :
  plain_store h →
  s_merge_key recurse result obj (Some (Going h)) key
    = Going <$> plain_s_merge_key plain_recurse result obj (Some h) key ∧
  ∀ h', plain_s_merge_key plain_recurse result obj (Some h) key = Some h' →
        plain_store h'.
Proof.
  intros Hh. unfold s_merge_key, plain_s_merge_key. cbn [mbind option_bind].
  destruct (h !! obj) as [c|] eqn:Hc; cbn [mbind option_bind]; [|done].
  destruct (plain_store_names h obj c Hh Hc) as [Hc1 Hc2]. rewrite Hc1.
  destruct (cell_has_own c key) eqn:Hown; cbn [negb].
  2:{ split; [done|]. by intros ? [= <-]. }
  pose proof (plain_cell_own_key h obj c key Hh Hc Hown) as Hkey.
  assert (Hk2 : key ≠ "__proto__").
  { intros ->. apply Hkey. by apply (bool_decide_unpack _). }
  apply String.eqb_neq in Hk2 as Hk2'. rewrite Hk2'.
  destruct (s_is_document h (cell_get c key)).
  - destruct (h !! result) as [rc|] eqn:Hrc; cbn [mbind option_bind]; [|done].
    rewrite (bool_decide_eq_false_2 _ Hkey), andb_false_r.
    assert (Hfirst : ∀ first h1,
      (if s_truthy (cell_get rc key) then (cell_get rc key, h)
       else let '(e, h1) := alloc_empty h in (SRef e, h1)) = (first, h1) →
      plain_store h1 ∧
      (if s_truthy (cell_get rc key) then ([cell_get rc key], h)
       else let '(e, h1) := alloc_empty h in ([SRef e], h1)) = ([first], h1)).
    { intros first h1. destruct (s_truthy _); [by intros [= <- <-]|].
      pose proof (store_free_of_alloc _ h Hh) as Halloc.
      destruct (alloc_empty h) as [e h0]. by intros [= <- <-]. }
    destruct (if s_truthy (cell_get rc key) then (cell_get rc key, h) else _)
      as [first h1].
    destruct (Hfirst first h1 eq_refl) as [Hh1 ->]. clear Hfirst.
    rename Hh1 into Hfirst. cbn [app].
    rewrite (recurse_plain _ _ Hfirst).
    destruct (plain_recurse _ h1) as [[merged h2]|] eqn:Hrec; cbn; [|done].
    split; [done|]. intros h' Hset.
    apply (store_free_of_set _ h2 h' result key (SRef merged)); try done.
    by apply (plain_recurse_plain _ _ _ _ Hfirst Hrec).
  - split; [done|]. intros h' Hset.
    by apply (store_free_of_set _ h h' result key (cell_get c key)).
Qed.

Lemma s_merge_keys_plain (obj : loc) (keys : list string) (h : store) :
  plain_store h →
  fold_left (s_merge_key recurse result obj) keys (Some (Going h))
    = Going <$> fold_left (plain_s_merge_key plain_recurse result obj) keys (Some h) ∧
  ∀ h', fold_left (plain_s_merge_key plain_recurse result obj) keys (Some h) = Some h' →
        plain_store h'.
Proof.
  revert h. induction keys as [|key keys IH]; intros h Hh; cbn [fold_left].
  { split; [done|]. by intros ? [= <-]. }
  destruct (s_merge_key_plain obj h key Hh) as [-> Hnext].
  destruct (plain_s_merge_key plain_recurse result obj (Some h) key) as [h1|]; cbn.
  - apply IH. by apply Hnext.
  - rewrite s_merge_keys_halt by done. by rewrite plain_s_merge_keys_None.
Qed.

Lemma s_merge_object_plain (obj : sval) (h : store) :
  plain_store h →
  s_merge_object recurse result (Some (Going h)) obj
    = Going <$> plain_s_merge_object plain_recurse result (Some h) obj ∧
  ∀ h', plain_s_merge_object plain_recurse result (Some h) obj = Some h' →
        plain_store h'.
Proof.
  intros Hh. unfold s_merge_object, plain_s_merge_object.
  destruct (negb (s_truthy obj) || _).
  { split; [done|]. by intros ? [= <-]. }
  destruct obj as [| | | | |l]; try (split; [done|]; by intros ? [= <-]).
  cbn [mbind option_bind]. destruct (h !! l) as [c|]; cbn [mbind option_bind]; [|done].
  by apply s_merge_keys_plain.
Qed.

Lemma s_merge_objects_plain (objects : list sval) (h : store) :
  plain_store h →
  fold_left (s_merge_object recurse result) objects (Some (Going h))
    = Going <$> fold_left (plain_s_merge_object plain_recurse result) objects (Some h) ∧
  ∀ h', fold_left (plain_s_merge_object plain_recurse result) objects (Some h) = Some h' →
        plain_store h'.
Proof.
  revert h. induction objects as [|obj objects IH]; intros h Hh; cbn [fold_left].
  { split; [done|]. by intros ? [= <-]. }
  destruct (s_merge_object_plain obj h Hh) as [-> Hnext].
  destruct (plain_s_merge_object plain_recurse result (Some h) obj) as [h1|]; cbn.
  - apply IH. by apply Hnext.
  - rewrite s_merge_objects_halt by done. by rewrite plain_s_merge_objects_None.
Qed.
End PlainStoreMerge.

(** On a plain store [deepMerge] does what the merge of own properties
    does, and leaves the store plain. *)
Lemma deepMerge_st_plain (fuel : nat) (objects : list sval) (h : store) :
  plain_store h →
  deepMerge_st fuel objects h = returned_at (plain_deepMerge_st fuel objects h) ∧
  ∀ r h', plain_deepMerge_st fuel objects h = Some (r, h') → plain_store h'.
Proof.
  revert objects h. induction fuel as [|fuel IH]; intros objects h Hh; [done|].
  cbn [deepMerge_st plain_deepMerge_st].
  pose proof (store_free_of_alloc _ h Hh) as Halloc.
  destruct (alloc_empty h) as [result h0]. cbn [snd] in Halloc.
  destruct (s_merge_objects_plain (deepMerge_st fuel) (plain_deepMerge_st fuel) result
              (λ ss g Hg, proj1 (IH ss g Hg)) (λ ss g r g' Hg, proj2 (IH ss g Hg) r g')
              objects h0 Halloc) as [-> Hplain].
  destruct (fold_left _ objects (Some h0)) as [h'|]; cbn; [|done].
  split; [done|]. intros ? ? [= <- <-]. by apply Hplain.
Qed.
Lemma strict_keys_halt recurse (target source : loc) (keys : list string)
    (st : option run) :
  (∀ h, st ≠ Some (Going h)) →
  fold_left (strict_key recurse target source) keys st = st.
Proof.
  intros Hst. induction keys as [|key keys IH]; [done|]. cbn [fold_left].
  replace (strict_key recurse target source st key) with st; [done|].
  destruct st as [[h|e h]|]; [by destruct (Hst h)|done..].
Qed.

Lemma strict_sources_halt recurse (target : loc) (sources : list sval)
    (st : option run) :
  (∀ h, st ≠ Some (Going h)) →
  fold_left (strict_source recurse target) sources st = st.
Proof.
  intros Hst. induction sources as [|source sources IH]; [done|]. cbn [fold_left].
  replace (strict_source recurse target st source) with st; [done|].
  unfold strict_source. destruct (_ || _); [done|].
  destruct source; try done. destruct st as [[h|e h]|]; [by destruct (Hst h)|done..].
Qed.

Lemma plain_strict_keys_None recurse (target source : loc) (keys : list string) :
  fold_left (plain_strict_key recurse target source) keys None = None.
Proof. by induction keys. Qed.

Lemma plain_strict_sources_None recurse (target : loc) (sources : list sval) :
  fold_left (plain_strict_source recurse target) sources None = None.
Proof.
  induction sources as [|source sources IH]; [done|]. cbn [fold_left].
  replace (plain_strict_source recurse target None source) with (@None store); [done|].
  unfold plain_strict_source. destruct (_ || _); [done|]. by destruct source.
Qed.

Section PlainStrictMerge.
Variable recurse : loc → list sval → store → option (result sval * store).
Variable plain_recurse : loc → list sval → store → option (sval * store).
Variable target : loc.

Hypothesis recurse_plain :
  ∀ t ss h, store_free_of ["hasOwnProperty"] h →
    recurse t ss h = returned_at (plain_recurse t ss h).
Hypothesis plain_recurse_plain :
  ∀ t ss h r h', store_free_of ["hasOwnProperty"] h →
    plain_recurse t ss h = Some (r, h') → store_free_of ["hasOwnProperty"] h'.

Lemma strict_key_plain (source : loc) (h : store) (key : string) :
  store_free_of ["hasOwnProperty"] h →
  strict_key recurse target source (Some (Going h)) key
    = Going <$> plain_strict_key plain_recurse target source (Some h) key ∧
  ∀ h', plain_strict_key plain_recurse target source (Some h) key = Some h' →
        store_free_of ["hasOwnProperty"] h'.
Proof.
  intros Hh. unfold strict_key, plain_strict_key. cbn [mbind option_bind].
  destruct (h !! target) as [tc|] eqn:Htc; cbn [mbind option_bind]; [|done].
  destruct (h !! source) as [sc|] eqn:Hsc; cbn [mbind option_bind]; [|done].
  rewrite (Hh target tc "hasOwnProperty" Htc) by by apply (bool_decide_unpack _).
  rewrite (Hh source sc "hasOwnProperty" Hsc) by by apply (bool_decide_unpack _).
  destruct (cell_has_own tc key) eqn:Htown; cbn [negb orb].
  2:{ split; [done|]. by intros ? [= <-]. }
  destruct (cell_has_own sc key) eqn:Hsown; cbn [negb orb].
  2:{ split; [done|]. by intros ? [= <-]. }
  destruct (s_is_document h (cell_get tc key) && s_is_document h (cell_get sc key)).
  - destruct (cell_get tc key) as [| | | | |nested]; try done.
    rewrite (recurse_plain _ _ _ Hh).
    destruct (plain_recurse nested _ h) as [[r h']|] eqn:Hrec; cbn; [|done].
    split; [done|]. intros ? [= <-]. by apply (plain_recurse_plain _ _ _ _ _ Hh Hrec).
  - split; [done|]. intros h' Hset.
    by apply (store_free_of_overwrite _ h h' target tc key (cell_get sc key)).
Qed.

Lemma strict_keys_plain (source : loc) (keys : list string) (h : store) :
  store_free_of ["hasOwnProperty"] h →
  fold_left (strict_key recurse target source) keys (Some (Going h))
    = Going <$> fold_left (plain_strict_key plain_recurse target source) keys (Some h) ∧
  ∀ h', fold_left (plain_strict_key plain_recurse target source) keys (Some h) = Some h' →
        store_free_of ["hasOwnProperty"] h'.
Proof.
  revert h. induction keys as [|key keys IH]; intros h Hh; cbn [fold_left].
  { split; [done|]. by intros ? [= <-]. }
  destruct (strict_key_plain source h key Hh) as [-> Hnext].
  destruct (plain_strict_key plain_recurse target source (Some h) key) as [h1|]; cbn.
  - apply IH. by apply Hnext.
  - rewrite strict_keys_halt by done. by rewrite plain_strict_keys_None.
Qed.

Lemma strict_source_plain (source : sval) (h : store) :
  store_free_of ["hasOwnProperty"] h →
  strict_source recurse target (Some (Going h)) source
    = Going <$> plain_strict_source plain_recurse target (Some h) source ∧
  ∀ h', plain_strict_source plain_recurse target (Some h) source = Some h' →
        store_free_of ["hasOwnProperty"] h'.
Proof.
  intros Hh. unfold strict_source, plain_strict_source.
  destruct (negb (s_truthy source) || _).
  { split; [done|]. by intros ? [= <-]. }
  destruct source as [| | | | |l]; try (split; [done|]; by intros ? [= <-]).
  cbn [mbind option_bind].
  destruct (h !! target) as [tc|]; cbn [mbind option_bind]; [|done].
  by apply strict_keys_plain.
Qed.

Lemma strict_sources_plain (sources : list sval) (h : store) :
  store_free_of ["hasOwnProperty"] h →
  fold_left (strict_source recurse target) sources (Some (Going h))
    = Going <$> fold_left (plain_strict_source plain_recurse target) sources (Some h) ∧
  ∀ h', fold_left (plain_strict_source plain_recurse target) sources (Some h) = Some h' →
        store_free_of ["hasOwnProperty"] h'.
Proof.
  revert h. induction sources as [|source sources IH]; intros h Hh; cbn [fold_left].
  { split; [done|]. by intros ? [= <-]. }
  destruct (strict_source_plain source h Hh) as [-> Hnext].
  destruct (plain_strict_source plain_recurse target (Some h) source) as [h1|]; cbn.
  - apply IH. by apply Hnext.
  - rewrite strict_sources_halt by done. by rewrite plain_strict_sources_None.
Qed.
End PlainStrictMerge.

(** On a store in which no object has a property [hasOwnProperty],
    [strictDeepMerge] does what the merge of own properties does, and
    leaves such a store. *)
Lemma strictDeepMerge_st_plain (fuel : nat) (target : loc) (sources : list sval)
    (h : store) :
  store_free_of ["hasOwnProperty"] h →
  strictDeepMerge_st fuel target sources h
    = returned_at (plain_strictDeepMerge_st fuel target sources h) ∧
  ∀ r h', plain_strictDeepMerge_st fuel target sources h = Some (r, h') →
          store_free_of ["hasOwnProperty"] h'.
Proof.
  revert target sources h.
  induction fuel as [|fuel IH]; intros target sources h Hh; [done|].
  cbn [strictDeepMerge_st plain_strictDeepMerge_st].
  destruct (h !! target) as [tc|]; cbn [mbind option_bind]; [|done].
  destruct (negb (s_truthy (SRef target)) || _).
  { split; [done|]. by intros ? ? [= <- <-]. }
  destruct (strict_sources_plain (strictDeepMerge_st fuel)
              (plain_strictDeepMerge_st fuel) target
              (λ t ss g Hg, proj1 (IH t ss g Hg))
              (λ t ss g r g' Hg, proj2 (IH t ss g Hg) r g')
              sources h Hh) as [-> Hplain].
  destruct (fold_left _ sources (Some h)) as [h'|]; cbn; [|done].
  split; [done|]. intros ? ? [= <- <-]. by apply Hplain.
Qed.

Lemma plain_store_dispatches (h : store) :
  plain_store h → store_free_of ["hasOwnProperty"] h.
Proof.
  intros Hh l c name Hc [->|[]%elem_of_nil]%elem_of_cons.
  apply (Hh l c _ Hc). by apply (bool_decide_unpack _).
Qed.

(** ** [deepMerge] on values *)

Lemma plain_cons (v : value) (vs : list value) :
  plain v = true → Forall (λ v, plain v = true) vs →
  Forall (λ v, plain v = true) (v :: vs).
Proof. by constructor. Qed.

(** What [deepMerge] returns on plain arguments is plain. *)
Lemma deepMerge_plain_result (objects : list value) (r : value) :
  Forall (λ v, plain v = true) objects →
  plain_deepMerge objects = Some r → plain r = true.
Proof. intros Hobjects. by apply deepMerge_fuel_plain. Qed.

(** The equation of the source on plain arguments: [deepMerge] is the two
    loops, the nested call being [deepMerge] itself. *)
Lemma deepMerge_unfold (objects : list value) :
  Forall (λ v, plain v = true) objects →
  deepMerge objects =
  match fold_left (merge_object deepMerge) objects (Some (Ok [])) with
  | Some (Ok result) => Some (Ok (VObject result))
  | Some (Throw e) => Some (Throw e)
  | None => None
  end.
Proof.
  intros Hobjects. rewrite (deepMerge_plain objects Hobjects), plain_deepMerge_unfold.
  destruct (merge_objects_plain deepMerge plain_deepMerge deepMerge_plain
              deepMerge_plain_result objects [] Hobjects eq_refl) as [-> _].
  by destruct (fold_left _ objects (Some [])).
Qed.

Lemma merge_object_skip recurse (result : merging) (obj : value) :
  mergeable obj = false → merge_object recurse result obj = result.
Proof.
  unfold mergeable, merge_object. intros Hm.
  by rewrite <- negb_andb, Hm.
Qed.

Lemma depth_not_mergeable (obj : value) : mergeable obj = false → depth obj = 0.
Proof. by destruct obj. Qed.

Lemma max_depth_filter_mergeable (objects : list value) :
  max_depth (List.filter mergeable objects) = max_depth objects.
Proof.
  induction objects as [|obj objects IH]; [done|]. cbn [List.filter].
  destruct (mergeable obj) eqn:Hm; cbn [max_depth foldr].
  - fold (max_depth (List.filter mergeable objects)). fold (max_depth objects).
    by rewrite IH.
  - fold (max_depth objects). rewrite (depth_not_mergeable obj Hm). by rewrite IH.
Qed.

(** [null], [undefined] and the arguments that are not objects are passed
    over: the result is that of the call without them. *)
Theorem deepMerge_skips_non_objects (objects : list value) :
  deepMerge objects = deepMerge (List.filter mergeable objects).
Proof.
  unfold deepMerge. rewrite max_depth_filter_mergeable.
  cbn [deepMerge_fuel]. generalize (deepMerge_fuel (max_depth objects)) as recurse.
  intros recurse.
  replace (fold_left (merge_object recurse) (List.filter mergeable objects) (Some (Ok [])))
    with (fold_left (merge_object recurse) objects (Some (Ok []))); [done|].
  generalize (Some (Ok ([] : props))) as acc.
  induction objects as [|obj objects IH]; intros acc; [done|].
  cbn [List.filter fold_left]. destruct (mergeable obj) eqn:Hm.
  - cbn [fold_left]. apply IH.
  - rewrite (merge_object_skip _ _ _ Hm). apply IH.
Qed.

(** C10 (the code, the failing inputs included).  The empty document is
    a left identity of the permissive merge on plain documents: for a
    document [d] whose keys are unique at every level, none of them
    ["hasOwnProperty"] or ["__proto__"], [deepMerge(d)] and
    [deepMerge({}, d)] are structurally equal to [d]; and [deepMerge()] is
    the empty document.  A document with a key ["hasOwnProperty"] makes
    the call throw, and one with a key ["__proto__"] comes back without
    it. *)
Theorem deepMerge_left_identity :
  (∀ d, is_document d = true → unique_keys d → plain d = true →
     deepMerge [d] = Some (Ok d) ∧
     deepMerge [VObject []; d] = Some (Ok d)) ∧
  deepMerge [] = Some (Ok (VObject [])) ∧
  deepMerge [shadowing_document] = Some (Throw TypeError) ∧
  deepMerge [VObject []; shadowing_document] = Some (Throw TypeError) ∧
  deepMerge [proto_document] = Some (Ok (VObject [("a", n_ 2)])) ∧
  deepMerge [VObject []; proto_document] = Some (Ok (VObject [("a", n_ 2)])).
Proof.
  split; [|by repeat split].
  intros d Hdoc Hu Hplain.
  destruct (plain_deepMerge_left_identity d Hdoc Hu) as (H1 & H2 & _).
  rewrite !deepMerge_plain by (by repeat constructor). by rewrite H1, H2.
Qed.

(** The result owns the keys of its arguments and no other: on plain
    arguments [deepMerge] returns, and a key is a key of the result
    exactly when it is an enumerable own key of an argument that is an
    object. *)
Theorem deepMerge_keys (objects : list value) :
  Forall (λ v, plain v = true) objects →
  ∃ result,
    deepMerge objects = Some (Ok (VObject result)) ∧
    NoDup (map fst result) ∧
    ∀ k, has_own (VObject result) k = true ↔
         ∃ obj, obj ∈ objects ∧ mergeable obj = true ∧ k ∈ enumerable_keys obj.
Proof.
  intros Hobjects. destruct (plain_deepMerge_keys objects) as (result & Hr & Hrest).
  exists result. by rewrite (deepMerge_plain objects Hobjects), Hr.
Qed.

(** Later values overwrite earlier ones: when the last of the plain
    arguments that has the key [k] holds there an array or a primitive, the
    result holds that very value at [k], whatever the arguments before it
    held. *)
Theorem deepMerge_last_wins (before after : list value) (obj : value)
    (k : string) :
  Forall (λ v, plain v = true) (before ++ obj :: after) →
  mergeable obj = true → k ∈ enumerable_keys obj →
  is_document (get obj k) = false →
  Forall (λ later, mergeable later = true → k ∉ enumerable_keys later) after →
  ∃ result,
    deepMerge (before ++ obj :: after) = Some (Ok (VObject result)) ∧
    get (VObject result) k = get obj k.
Proof.
  intros Hplain Hm Hk Hdoc Hafter.
  destruct (plain_deepMerge_last_wins before after obj k Hm Hk Hdoc Hafter)
    as (result & Hr & Hget).
  exists result. by rewrite (deepMerge_plain _ Hplain), Hr.
Qed.

(** Merging step by step is merging at once: the result of a call on
    plain arguments, passed first to a second call, stands for the
    arguments it was merged from.  In particular
    [deepMerge(deepMerge(a, b), c)] is [deepMerge(a, b, c)], and merging a
    result alone gives it back. *)
Theorem deepMerge_incremental (first more : list value) :
  Forall (λ v, plain v = true) (first ++ more) →
  ∃ r, deepMerge first = Some (Ok r) ∧
       deepMerge (r :: more) = deepMerge (first ++ more) ∧
       deepMerge [r] = Some (Ok r).
Proof.
  intros [Hfirst Hmore]%Forall_app.
  destruct (plain_deepMerge_continue first more) as (result & Hr & Hmerge & Hself).
  pose proof (deepMerge_plain_result first _ Hfirst Hr) as Hplain.
  exists (VObject result).
  rewrite !deepMerge_plain;
    [|by repeat constructor|by apply Forall_app|by constructor|done].
  by rewrite Hr, Hmerge, Hself.
Qed.

(** Merging a document twice is merging it once: for a plain document
    with unique keys, [deepMerge(a, a)] is [a]. *)
Theorem deepMerge_idempotent (a : value) :
  is_document a = true → unique_keys a → plain a = true →
  deepMerge [a; a] = Some (Ok a).
Proof.
  intros Hdoc Hu Hplain. rewrite deepMerge_plain by (by repeat constructor).
  by rewrite (plain_deepMerge_idempotent a Hdoc Hu).
Qed.

Lemma nested_plain (objects : list value) (k : string) :
  Forall (λ v, plain v = true) objects →
  Forall (λ v, plain v = true)
    (map (λ obj, get obj k) (List.filter (λ obj, has_own obj k) objects)).
Proof.
  induction 1 as [|obj objects Hobj _ IH]; [constructor|]. cbn [List.filter].
  destruct (has_own obj k); [|done]. constructor; [|done]. by apply free_of_get.
Qed.

(** Merging goes key by key: when the arguments are plain documents, and
    those that have the key [k] hold a document there, the result holds at
    [k] the merge of these documents, in the order of the arguments; it has
    no key [k] when no argument has one. *)
Theorem deepMerge_key_by_key (objects : list value) (k : string) :
  Forall (λ v, plain v = true) objects →
  Forall (λ obj, is_document obj = true ∧ NoDup (enumerable_keys obj) ∧
                 (has_own obj k = true → is_document (get obj k) = true))
    objects →
  ∃ result,
    deepMerge objects = Some (Ok (VObject result)) ∧
    Ok <$> lookup_prop k result =
      merge_nested (map (λ obj, get obj k)
                      (List.filter (λ obj, has_own obj k) objects)).
Proof.
  intros Hplain Hall.
  destruct (plain_deepMerge_key_by_key objects k Hall) as (result & Hr & Hk).
  exists result. rewrite (deepMerge_plain _ Hplain), Hr. split; [done|].
  rewrite Hk. unfold merge_nested, plain_merge_nested.
  pose proof (nested_plain objects k Hplain) as Hnested.
  destruct (map _ _) as [|v vs]; [done|]. by rewrite (deepMerge_plain _ Hnested).
Qed.
(** ** Plain values and plain stores *)

(** A cell owns the names of the value it holds. *)
Lemma reifies_owns (g : store) (l : loc) (c : cell) (v : value) (name : string) :
  g !! l = Some c → reifies g (SRef l) v → cell_owns c name = owns v name.
Proof.
  intros Hc Hr. inversion Hr as [| | | | |? ss vs Hl HF|? sps ps Hl HF]; simplify_eq;
    [done|]. cbn.
  by destruct (props_reify_lookup g name sps ps HF)
    as [[-> ->]|(s & v & -> & -> & _)].
Qed.

Lemma store_list_free {A B : Type} (f : A → store → B * store)
    (names : list string) (xs : list A) :
  Forall (λ x, ∀ h, store_free_of names h → store_free_of names (f x h).2) xs →
  ∀ h, store_free_of names h → store_free_of names (store_list f xs h).2.
Proof.
  induction 1 as [|x xs Hx _ IH]; intros h Hh; cbn [store_list]; [done|].
  specialize (Hx h Hh). destruct (f x h) as [y h1]. cbn [snd] in Hx.
  specialize (IH h1 Hx). by destruct (store_list f xs h1) as [ys h2].
Qed.

(** Laying out a value in which no object has one of the [names] leaves a
    store in which none has. *)
Lemma store_value_free (names : list string) (v : value) (h : store) :
  free_of names v = true → store_free_of names h →
  store_free_of names (store_value v h).2.
Proof.
  revert h. induction v as [| |b|n|s|elems IH|ps IH] using value_ind;
    intros h Hv Hh; try done.
  - pose proof (store_value_reifies (VArray elems) h) as [_ Hr].
    cbn [store_value] in *. cbn [free_of] in Hv.
    assert (Hh1 : store_free_of names (store_list store_value elems h).2).
    { apply store_list_free; [|done]. rewrite forallb_forall in Hv.
      rewrite Forall_forall in IH |- *. intros e He h0. apply IH; [done|].
      by apply Hv, list_elem_of_In. }
    destruct (store_list store_value elems h) as [ss h1]. cbn [fst snd] in *.
    intros l c name Hl Hname. destruct (decide (l = fresh (dom h1))) as [->|Hne].
    + rewrite lookup_insert_eq in Hl. by simplify_eq.
    + rewrite lookup_insert_ne in Hl by done. by apply (Hh1 l).
  - pose proof (store_value_reifies (VObject ps) h) as [_ Hr].
    cbn [store_value] in *.
    set (f := λ (p : string * value) (h : store),
                let '(s, h1) := store_value p.2 h in ((p.1, s), h1)) in *.
    assert (Hh1 : store_free_of names (store_list f ps h).2).
    { apply store_list_free; [|done]. cbn [free_of] in Hv.
      apply andb_true_iff in Hv as [_ Hv]. rewrite forallb_forall in Hv.
      rewrite Forall_forall in IH |- *. intros p Hp h0 Hh0. unfold f.
      specialize (IH p Hp h0 (Hv p (proj1 (list_elem_of_In _ _) Hp)) Hh0).
      by destruct (store_value p.2 h0). }
    destruct (store_list f ps h) as [sps h1]. cbn [fst snd] in *.
    intros l c name Hl Hname. destruct (decide (l = fresh (dom h1))) as [->|Hne].
    + rewrite (reifies_owns _ _ c (VObject ps) name Hl Hr).
      by apply (free_of_owns names).
    + rewrite lookup_insert_ne in Hl by done. by apply (Hh1 l).
Qed.

Lemma store_values_free (names : list string) (vs : list value) (h : store) :
  Forall (λ v, free_of names v = true) vs → store_free_of names h →
  store_free_of names (store_values vs h).2.
Proof.
  intros Hvs. apply store_list_free.
  eapply Forall_impl; [exact Hvs|]. intros v Hv h0. by apply store_value_free.
Qed.

Lemma store_free_of_empty (names : list string) : store_free_of names ∅.
Proof. intros l c name Hl. by rewrite lookup_empty in Hl. Qed.

(** What a plain store holds is plain. *)
Lemma reifies_free (names : list string) (g : store) (s : sval) (v : value) :
  store_free_of names g → reifies g s v → free_of names v = true.
Proof.
  intros Hg. revert s.
  induction v as [| |b|n|t|elems IH|ps IH] using value_ind; intros s Hr; try done.
  - inversion Hr as [| | | | |l ss vs Hl HF|]; subst. cbn [free_of]. clear Hr Hl.
    induction HF as [|x e ss elems Hx _ IHF]; [done|].
    inversion IH; subst. cbn [forallb]. apply andb_true_iff. split; eauto.
  - pose proof Hr as Hr'.
    inversion Hr as [| | | | | |l sps ps' Hl HF]; subst. cbn [free_of].
    apply andb_true_iff. split.
    + apply forallb_forall. intros name Hname%list_elem_of_In.
      pose proof (reifies_owns g l _ (VObject ps) name Hl Hr') as Howns.
      rewrite (Hg l _ name Hl Hname) in Howns. cbn [owns] in Howns.
      by rewrite <- Howns.
    + clear Hr Hr' Hl. induction HF as [|x p sps ps [Hk Hx] _ IHF]; [done|].
      inversion IH; subst. cbn [forallb]. apply andb_true_iff. split; eauto.
Qed.

Lemma store_free_of_fewer (names names' : list string) (h : store) :
  names' ⊆ names → store_free_of names h → store_free_of names' h.
Proof. intros Hsub Hh l c name Hl Hname. apply (Hh l c name Hl). by apply Hsub. Qed.

Lemma plain_store_values (h : store) :
  plain_store h → store_free_of ["hasOwnProperty"; "__proto__"] h.
Proof.
  apply store_free_of_fewer. intros name Hname.
  repeat (apply elem_of_cons in Hname as [->|Hname];
          [by apply (bool_decide_unpack _)|]).
  by apply elem_of_nil in Hname.
Qed.

Lemma reifies_plain (g : store) (ss : list sval) (vs : list value) :
  plain_store g → Forall2 (reifies g) ss vs → Forall (λ v, plain v = true) vs.
Proof.
  intros Hg%plain_store_values HF.
  induction HF as [|s v ss vs Hr _ IH]; constructor; [|done].
  by apply (reifies_free _ g s v).
Qed.
Lemma array_as_document_plain (elems : list value) :
  plain (VArray elems) = true → plain (array_as_document elems) = true.
Proof.
  unfold plain, array_as_document. cbn [free_of]. intros Helems.
  apply andb_true_iff. split.
  - apply forallb_forall. intros name Hname%list_elem_of_In.
    apply negb_true_iff, bool_decide_eq_false_2. intros [v Hv].
    assert (Hin : name ∈ map fst (zip (index_keys (length elems)) elems)).
    { apply dec_stable. intros Hnin. apply lookup_prop_None in Hnin. congruence. }
    rewrite fst_zip in Hin by (unfold index_keys; by rewrite length_map, length_seq).
    apply index_keys_lookup in Hin as (i & -> & _).
    pose proof (pretty_digit_headed i) as Hd.
    repeat (apply elem_of_cons in Hname as [Hname|Hname];
            [by rewrite Hname in Hd|]).
    by apply elem_of_nil in Hname.
  - rewrite forallb_forall in Helems |- *. intros [k v] Hin%list_elem_of_In.
    apply elem_of_zip_r in Hin. by apply Helems, list_elem_of_In.
Qed.

(** ** The permissive and the strict merge *)

(** C3 (the code, the failing input included).  Permissive merge on
    plain documents: [deepMerge] is its two loops with itself as the
    nested call; at a key of an input an incoming array or primitive
    replaces the accumulated value wholesale, and an incoming non-array
    document is merged by the nested call over [result[key] || {}].  When
    the accumulated value is absent, falsy or a primitive the incoming
    document replaces it, as the claim says.  When the accumulated value
    is an array the nested call takes it for the document of its index
    keys, and its elements stay in the result:
    [deepMerge({a: [1, 2]}, {a: {x: 1}})] is [{a: {0: 1, 1: 2, x: 1}}], where
    the claim says [{a: {x: 1}}].  On a plain store that holds the inputs,
    as the store is in which inputs without a key named like a member of
    [Object.prototype] are laid out, the call returns a new object holding
    the merged value and changes no cell that existed: no input is
    mutated. *)
Theorem deepMerge_permissive :
  (∀ objects, Forall (λ v, plain v = true) objects →
     deepMerge objects =
     match fold_left (merge_object deepMerge) objects (Some (Ok [])) with
     | Some (Ok result) => Some (Ok (VObject result))
     | Some (Throw e) => Some (Throw e)
     | None => None
     end) ∧
  (∀ obj result key, hasOwnProperty obj key = Ok true → key ≠ "__proto__" →
     merge_key deepMerge obj (Some (Ok result)) key =
     if is_document (get obj key)
     then match deepMerge [or_else (get (VObject result) key) (VObject []);
                           get obj key] with
          | Some (Ok merged) => Some (Ok (set_prop key merged result))
          | Some (Throw e) => Some (Throw e)
          | None => None
          end
     else Some (Ok (set_prop key (get obj key) result))) ∧
  (∀ accumulated incoming,
     is_document incoming = true → unique_keys incoming → plain incoming = true →
     truthy accumulated = false ∨ typeof accumulated ≠ "object" →
     deepMerge [or_else accumulated (VObject []); incoming] = Some (Ok incoming)) ∧
  (∀ elems incoming,
     plain (VArray elems) = true → plain incoming = true →
     deepMerge [VArray elems; incoming]
     = deepMerge [array_as_document elems; incoming]) ∧
  (∀ (h : store) ss vs,
     plain_store h → Forall2 (reifies h) ss vs →
     ∃ r h' v,
       deepMerge_st (S (max_depth vs)) ss h = Some (Ok r, h') ∧
       h !! r = None ∧ h ⊆ h' ∧
       deepMerge vs = Some (Ok v) ∧ reifies h' (SRef r) v) ∧
  (∀ vs, Forall (λ v, free_of object_prototype_names v = true) vs →
     plain_store (store_values vs ∅).2 ∧
     Forall2 (reifies (store_values vs ∅).2) (store_values vs ∅).1 vs) ∧
  deepMerge [VObject [("a", VArray [n_ 1; n_ 2])];
             VObject [("a", VObject [("x", n_ 1)])]]
  = Some (Ok (VObject [("a", VObject [("0", n_ 1); ("1", n_ 2); ("x", n_ 1)])])).
Proof.
  destruct plain_deepMerge_permissive as (_ & _ & Hreplace & Harray & Hstore & _ & _).
  split; [exact deepMerge_unfold|]. split.
  { intros obj result key Hown Hkey. unfold merge_key. rewrite Hown.
    apply String.eqb_neq in Hkey. by rewrite Hkey. }
  split.
  { intros accumulated incoming Hdoc Hu Hplain Hacc.
    rewrite deepMerge_plain.
    - by rewrite (Hreplace accumulated incoming Hdoc Hu Hacc).
    - repeat constructor; [|done]. unfold or_else.
      destruct (truthy accumulated); [|done].
      destruct Hacc as [|Hty]; [done|]. by destruct accumulated. }
  split.
  { intros elems incoming Helems Hincoming.
    rewrite !deepMerge_plain; [by rewrite Harray| |by repeat constructor].
    repeat constructor; [|done]. by apply array_as_document_plain. }
  split.
  { intros h ss vs Hh HF.
    destruct (Hstore h ss vs HF) as (r & h' & v & Hrun & Hfresh & Hsub & Hv & Hr).
    exists r, h', v. destruct (deepMerge_st_plain (S (max_depth vs)) ss h Hh) as [-> _].
    rewrite Hrun. rewrite (deepMerge_plain vs (reifies_plain h ss vs Hh HF)), Hv.
    done. }
  split; [|reflexivity].
  intros vs Hvs. split; [|apply store_values_reify].
  apply store_values_free; [done|apply store_free_of_empty].
Qed.



(** A source changes nothing when it is not an object ([null], [undefined],
    a number, a string, a boolean) or has none of the keys of the target:
    where no object has a property [hasOwnProperty], a call with such
    sources only returns the target and leaves every object as it was. *)
Theorem strictDeepMerge_nothing_shared (fuel : nat) (h : store) (target : loc)
    (tc : cell) (sources : list sval) :
  store_free_of ["hasOwnProperty"] h →
  h !! target = Some tc →
  Forall (λ source, ∀ l, source = SRef l →
            ∃ sc, h !! l = Some sc ∧
                  ∀ k, k ∈ cell_keys tc → cell_has_own sc k = false) sources →
  strictDeepMerge_st (S fuel) target sources h = Some (Ok (SRef target), h).
Proof.
  intros Hfree Ht Hsources.
  destruct (strictDeepMerge_st_plain (S fuel) target sources h Hfree) as [-> _].
  by rewrite (plain_strictDeepMerge_nothing_shared fuel h target tc sources Ht Hsources).
Qed.

(** In a plain store the result of [deepMerge] is a new object, and it
    shares with its arguments what it does not merge: when the last
    argument that has the key [k] holds there an array or a primitive, the
    result holds at [k] that very value, for an array the same reference
    and not a copy, so that the array of the result is the array of the
    argument. *)
Theorem deepMerge_st_shares (h : store) (before after : list sval)
    (o : loc) (oc : cell) (vs : list value) (k : string) :
  plain_store h →
  Forall2 (reifies h) (before ++ SRef o :: after) vs →
  h !! o = Some oc → k ∈ cell_keys oc →
  s_is_document h (cell_get oc k) = false →
  Forall (λ later, ∀ l c, later = SRef l → h !! l = Some c → k ∉ cell_keys c)
    after →
  ∃ r h' rc,
    deepMerge_st (S (max_depth vs)) (before ++ SRef o :: after) h
      = Some (Ok r, h') ∧
    h !! r = None ∧ h ⊆ h' ∧
    h' !! r = Some rc ∧ cell_get rc k = cell_get oc k.
Proof.
  intros Hplain HF Ho Hk Hdoc Hafter.
  destruct (plain_deepMerge_st_shares h before after o oc vs k HF Ho Hk Hdoc Hafter)
    as (r & h' & rc & Hrun & Hrest).
  exists r, h', rc.
  destruct (deepMerge_st_plain (S (max_depth vs)) (before ++ SRef o :: after) h Hplain)
    as [-> _]. by rewrite Hrun.
Qed.
(** ** [deepMerge] answers

    The fuel is enough, and the prototype of [result] is out of reach,
    when no argument has a key ["__proto__"] at any level: [deepMerge]
    then returns an object or throws a [TypeError]. *)

Lemma free_of_app (names names' : list string) (v : value) :
  free_of names v = true → free_of names' v = true →
  free_of (names ++ names') v = true.
Proof.
  induction v as [| | | | |elems IH|ps IH] using value_ind; try done;
    cbn [free_of].
  - rewrite !forallb_forall. rewrite Forall_forall in IH.
    intros H1 H2 e He. apply list_elem_of_In in He as He'. auto.
  - intros [Hn1 Hp1]%andb_true_iff [Hn2 Hp2]%andb_true_iff.
    apply andb_true_iff. split.
    + rewrite forallb_app. by rewrite Hn1, Hn2.
    + rewrite forallb_forall in Hp1, Hp2 |- *. rewrite Forall_forall in IH.
      intros p Hp. apply list_elem_of_In in Hp as Hp'. auto.
Qed.

Lemma hasOwnProperty_answer (obj : value) (key : string) :
  hasOwnProperty obj key = Throw TypeError ∨
  hasOwnProperty obj key = Ok (has_own obj key).
Proof.
  unfold hasOwnProperty. destruct (is_nullish obj); [by left|].
  destruct (owns obj "hasOwnProperty"); [by left|by right].
Qed.

Lemma proto_free_own_key (obj : value) (key : string) :
  free_of ["__proto__"] obj = true → has_own obj key = true → key ≠ "__proto__".
Proof.
  intros Hfree Hown. destruct obj as [| | | |s|elems|ps]; try done.
  - destruct (index_key_name key _ Hown) as [->|Hd]; [done|]. by intros ->.
  - destruct (index_key_name key _ Hown) as [->|Hd]; [done|]. by intros ->.
  - change (owns (VObject ps) key = true) in Hown. intros ->.
    rewrite (free_of_owns ["__proto__"] (VObject ps) "__proto__") in Hown;
      [done|by left|done].
Qed.

Lemma depth_get (obj : value) (key : string) :
  depth (get obj key) < depth obj ∨ depth (get obj key) = 0.
Proof.
  destruct obj as [| | | | s|elems|ps]; cbn [get]; auto.
  - destruct (String.eqb key "length"); [auto|].
    destruct (index_of_key key (String.length s)) as [i|]; cbn; [|auto].
    destruct (string_nth i s); cbn; auto.
  - destruct (String.eqb key "length"); [auto|].
    destruct (index_of_key key (length elems)) as [i|]; cbn; [|auto].
    destruct (elems !! i) as [v|] eqn:Hi; cbn; [|auto].
    left. by apply (depth_elem _ i).
  - destruct (lookup_prop key ps) as [v|] eqn:Hl; cbn; [|auto].
    left. by apply (depth_lookup key).
Qed.

Lemma merge_key_settled recurse (D : nat) (obj : value) (acc : merging)
    (key : string) :
  answering D recurse → 0 < depth obj → depth obj ≤ D →
  free_of ["__proto__"] obj = true →
  settled D acc → settled D (merge_key recurse obj acc key).
Proof.
  intros Hrec Hpos Hobj Hfree [->|(result & -> & Hdepth & Hresult)]; [by left|].
  unfold merge_key.
  destruct (hasOwnProperty_answer obj key) as [->| ->]; [by left|].
  destruct (has_own obj key) eqn:Hown; [|right; eauto].
  pose proof (proto_free_own_key obj key Hfree Hown) as Hkey.
  apply String.eqb_neq in Hkey as Hkey'. rewrite Hkey'.
  pose proof (free_of_get ["__proto__"] obj key Hfree) as Hin.
  assert (Hnot : key ∉ ["__proto__"]).
  { by intros [->|[]%elem_of_nil]%elem_of_cons. }
  destruct (is_document (get obj key)) eqn:Hdoc.
  - pose proof (depth_get_document _ _ Hdoc) as Hlt.
    pose proof (depth_accumulated result key D Hdepth ltac:(lia)) as Hacc.
    destruct (Hrec [or_else (get (VObject result) key) (VObject []); get obj key])
      as [->|(r & -> & Hr & Hfr)].
    + rewrite max_depth_pair. lia.
    + repeat constructor; [|done]. apply free_of_or_else; [|done].
      by apply free_of_get.
    + by left.
    + right. eexists. split; [done|]. split.
      * rewrite max_depth_pair in Hr.
        pose proof (depth_set_prop key (VObject r) result). lia.
      * by apply free_of_set_prop.
  - right. eexists. split; [done|]. split.
    + pose proof (depth_set_prop key (get obj key) result).
      destruct (depth_get obj key); lia.
    + by apply free_of_set_prop.
Qed.

Lemma merge_object_settled recurse (D : nat) (obj : value) (acc : merging) :
  answering D recurse → depth obj ≤ D → free_of ["__proto__"] obj = true →
  settled D acc → settled D (merge_object recurse acc obj).
Proof.
  intros Hrec Hobj Hfree Hacc. unfold merge_object.
  destruct (String.eqb (typeof obj) "object") eqn:Hty;
    [|by rewrite orb_true_r].
  destruct (negb (truthy obj)); cbn [orb negb]; [done|].
  destruct (enumerable_keys_depth obj Hty) as [->|Hpos]; [done|].
  revert acc Hacc. induction (enumerable_keys obj) as [|key keys IH];
    intros acc Hacc; [done|].
  cbn [fold_left]. apply IH. by apply merge_key_settled.
Qed.

Lemma merge_objects_settled recurse (D : nat) (objects : list value)
    (acc : merging) :
  answering D recurse → max_depth objects ≤ D →
  Forall (λ v, free_of ["__proto__"] v = true) objects →
  settled D acc → settled D (fold_left (merge_object recurse) objects acc).
Proof.
  intros Hrec Hdepth Hfree. revert acc Hdepth.
  induction Hfree as [|obj objects Hobj _ IH]; intros acc Hdepth Hacc; [done|].
  rewrite max_depth_cons in Hdepth. cbn [fold_left].
  apply IH; [lia|]. apply merge_object_settled; (done || lia).
Qed.

Lemma deepMerge_fuel_answers (n : nat) : answering n (deepMerge_fuel n).
Proof.
  induction n as [|n IH]; intros objects Hn Hfree; [lia|].
  cbn [deepMerge_fuel].
  assert (Hrec : answering (max_depth objects) (deepMerge_fuel n)).
  { intros os Hos. apply IH. lia. }
  destruct (merge_objects_settled (deepMerge_fuel n) (max_depth objects) objects
              (Some (Ok [])) Hrec ltac:(lia) Hfree)
    as [->|(r & -> & Hr & Hfr)].
  - right. exists []. split; [done|]. split; [rewrite depth_empty; lia|done].
  - by left.
  - right. eauto.
Qed.

(** [deepMerge] answers whenever no argument has a key
    ["__proto__"] at any level: it returns an object without such a key,
    or it throws a [TypeError], and this it does only when an argument has
    a key ["hasOwnProperty"] at some level. *)
Theorem deepMerge_answers (objects : list value) :
  Forall (λ v, free_of ["__proto__"] v = true) objects →
  (deepMerge objects = Some (Throw TypeError) ∨
   ∃ r, deepMerge objects = Some (Ok (VObject r)) ∧
        free_of ["__proto__"] (VObject r) = true) ∧
  (Forall (λ v, free_of ["hasOwnProperty"] v = true) objects →
   ∃ r, deepMerge objects = Some (Ok (VObject r))).
Proof.
  intros Hfree. split.
  - unfold deepMerge.
    destruct (deepMerge_fuel_answers (S (max_depth objects)) objects
                ltac:(lia) Hfree) as [->|(r & -> & _ & Hr)]; [by left|right; eauto].
  - intros Hshadow.
    assert (Hplain : Forall (λ v, plain v = true) objects).
    { clear -Hfree Hshadow. induction Hfree as [|v vs Hv _ IH]; [constructor|].
      apply Forall_cons in Hshadow as [Hs Hshadow]. constructor; [|by apply IH].
      by apply (free_of_app ["hasOwnProperty"] ["__proto__"]). }
    destruct (plain_deepMerge_keys objects) as (merged & Hmerged & _).
    exists merged. by rewrite (deepMerge_plain _ Hplain), Hmerged.
Qed.

(** ** The extensions of [String.prototype] *)

Lemma trimStart_blank (s : string) :
  trimStart s = "" ↔ Forall (λ c, is_whitespace c = true) (units s).
Proof.
  induction s as [|c s IH]; cbn [trimStart units]; [by split|].
  rewrite Forall_cons. destruct (is_whitespace c); [|by split; [|intros []]].
  rewrite IH. tauto.
Qed.

Lemma trimEnd_blank (s : string) :
  trimEnd s = "" ↔ Forall (λ c, is_whitespace c = true) (units s).
Proof.
  induction s as [|c s IH]; cbn [trimEnd units]; [by split|].
  rewrite Forall_cons, <- IH. destruct (is_whitespace c); cbn [andb].
  - destruct (String.eqb_spec (trimEnd s) "") as [->|Hne]; [tauto|].
    split; [done|]. by intros [_ ?].
  - split; [done|]. by intros [? _].
Qed.

(** What [trimStart] leaves begins with a unit that is not white space. *)
Lemma trimStart_head (s : string) (c : ascii) (rest : string) :
  trimStart s = String c rest → is_whitespace c = false.
Proof.
  induction s as [|d s IH]; cbn [trimStart]; [done|].
  destruct (is_whitespace d) eqn:Hd; [done|]. by intros [= <- _].
Qed.

Lemma trimEnd_head (s : string) (c : ascii) (rest : string) :
  is_whitespace c = false → ∃ rest', trimEnd (String c rest) = String c rest'.
Proof. intros Hc. cbn [trimEnd]. rewrite Hc. cbn. eauto. Qed.

Lemma trim_blank (s : string) :
  trim s = "" ↔ Forall (λ c, is_whitespace c = true) (units s).
Proof.
  unfold trim. rewrite <- trimStart_blank. split.
  - intros Hend. destruct (trimStart s) as [|c rest] eqn:Hs; [done|].
    destruct (trimEnd_head (String c rest) c rest (trimStart_head _ _ _ Hs))
      as (rest' & Hrest). congruence.
  - by intros ->.
Qed.

(** The first unit of [s.trim()] is the first unit of [s] that is not white
    space. *)
Lemma trim_first_unit (s : string) :
  first_unit (trim s) = first_unit (trimStart s).
Proof.
  unfold trim. destruct (trimStart s) as [|c rest] eqn:Hs; [done|].
  destruct (trimEnd_head (String c rest) c rest (trimStart_head _ _ _ Hs))
    as (rest' & ->). done.
Qed.

Lemma isNullOrWhiteSpace_trim (s : string) :
  isNullOrWhiteSpace s = true ↔ trim s = "".
Proof.
  unfold isNullOrWhiteSpace. rewrite Nat.eqb_eq. by destruct (trim s).
Qed.

Lemma isNullOrWhiteSpace_units (s : string) :
  isNullOrWhiteSpace s = true ↔ Forall (λ c, is_whitespace c = true) (units s).
Proof. by rewrite isNullOrWhiteSpace_trim, trim_blank. Qed.

(** [isNullOrWhiteSpace] answers true exactly for the strings made of white
    space only, the empty string among them, and [isNonEmpty] answers the
    opposite. *)
Theorem isNullOrWhiteSpace_blank (s : string) :
  (isNullOrWhiteSpace s = true ↔ Forall (λ c, is_whitespace c = true) (units s)) ∧
  isNonEmpty s = negb (isNullOrWhiteSpace s).
Proof.
  split.
  - by rewrite isNullOrWhiteSpace_trim, trim_blank.
  - unfold isNonEmpty, isNullOrWhiteSpace. by destruct (String.length (trim s)).
Qed.

Lemma split_comma_nonempty (s : string) : split_comma s ≠ [].
Proof. induction s as [|c s IH]; cbn; [done|]. by repeat case_match. Qed.

(** A string without a comma is its only field. *)
Lemma split_comma_single (s : string) :
  ","%char ∉ units s → split_comma s = [s].
Proof.
  induction s as [|c s IH]; [done|]. cbn [units split_comma].
  intros [Hc Hs]%not_elem_of_cons.
  destruct (Ascii.eqb_spec c ",") as [->|_]; [done|]. by rewrite (IH Hs).
Qed.

Lemma split_comma_comma (s : string) :
  ","%char ∈ units s → ∃ family given rest, split_comma s = family :: given :: rest.
Proof.
  induction s as [|c s IH]; cbn [units split_comma]; [by intros ?%elem_of_nil|].
  destruct (Ascii.eqb_spec c ",") as [->|Hne].
  - intros _. pose proof (split_comma_nonempty s).
    destruct (split_comma s) as [|given rest]; [done|]. eauto.
  - intros [?|Hin]%elem_of_cons; [done|].
    destruct (IH Hin) as (family & given & rest & ->). eauto.
Qed.

(** The units of the first field are units of the string. *)
Lemma split_comma_first (s family : string) (rest : list string) :
  split_comma s = family :: rest → units family ⊆ units s.
Proof.
  revert family rest. induction s as [|c s IH]; intros family rest; cbn [split_comma].
  - by intros [= <- <-].
  - destruct (Ascii.eqb c ",").
    + intros [= <- <-]. cbn. intros x ?%elem_of_nil. done.
    + pose proof (split_comma_nonempty s).
      destruct (split_comma s) as [|seg segs] eqn:Hs; [done|].
      intros [= <- <-]. cbn [units]. specialize (IH seg segs eq_refl).
      intros x [->|Hx]%elem_of_cons; [left|right; auto].
Qed.

Section Initials.
Context `{UpperCase}.

Lemma first_unit_blank (s : string) :
  first_unit (trim s) = None ↔ isNullOrWhiteSpace s = true.
Proof. rewrite isNullOrWhiteSpace_trim. by destruct (trim s). Qed.

(** [getInitial] throws, a [TypeError], exactly on the strings that are not
    blank and have a comma with nothing but white space before it and
    nothing but white space between it and the next comma or the end: both
    first units are [undefined], their sum is [NaN], and [NaN] has no
    [toUpperCase].  On every other string it returns a string. *)
Theorem getInitial_throws (s : string) :
  (getInitial s = Throw TypeError ↔
   isNullOrWhiteSpace s = false ∧
   ∃ family given rest,
     split_comma s = family :: given :: rest ∧
     isNullOrWhiteSpace family = true ∧ isNullOrWhiteSpace given = true) ∧
  (getInitial s = Throw TypeError ∨ ∃ initials, getInitial s = Ok initials).
Proof.
  unfold getInitial. destruct (isNullOrWhiteSpace s) eqn:Hs.
  { split; [|eauto]. split; [done|]. by intros [? _]. }
  destruct (split_comma s) as [|family [|given rest]] eqn:Hsplit.
  - split; [|eauto]. split; [done|]. by intros (_ & ? & ? & ? & ? & _).
  - assert (Hfam : first_unit (trim family) ≠ None).
    { rewrite first_unit_blank. intros Hfam.
      apply isNullOrWhiteSpace_units in Hfam.
      assert (isNullOrWhiteSpace s = true); [|congruence].
      apply isNullOrWhiteSpace_units.
      destruct (decide (","%char ∈ units s)) as [Hin|Hnin].
      - destruct (split_comma_comma s Hin) as (? & ? & ? & ?). congruence.
      - rewrite (split_comma_single s Hnin) in Hsplit. by simplify_eq. }
    destruct (first_unit (trim family)) as [c|]; [|done]. cbn.
    split; [|eauto]. split; [done|]. by intros (_ & ? & ? & ? & ? & _).
  - destruct (first_unit (trim family)) as [a|] eqn:Ha;
      destruct (first_unit (trim given)) as [b|] eqn:Hb; cbn.
    1-3: split; [|eauto]; split; [done|];
         intros (_ & f & g & r & [= <- <- <-] & Hf & Hg);
         apply first_unit_blank in Hf, Hg; congruence.
    split; [|auto]. split; [|done]. intros _. split; [done|].
    exists family, given, rest. by rewrite <- !first_unit_blank.
Qed.

(** For a name without a comma [getInitial] answers the capital of its
    first unit that is not white space, and a hyphen. *)
Theorem getInitial_single_name (s : string) (c : ascii) (rest : string) :
  ","%char ∉ units s → trimStart s = String c rest →
  getInitial s = Ok (upper_code_unit c +:+ "-").
Proof.
  intros Hcomma Hs. unfold getInitial.
  assert (first_unit (trim s) = Some c) as Hc by by rewrite trim_first_unit, Hs.
  destruct (isNullOrWhiteSpace s) eqn:Hblank.
  { apply first_unit_blank in Hblank. congruence. }
  rewrite (split_comma_single s Hcomma), Hc. cbn.
  by rewrite append_empty_r.
Qed.

(** For a name with a comma the answer is made of the first two fields
    only: the capitals of their first units that are not white space.  A
    field that is blank counts as the word [undefined], so that the
    answer for [",John"] is ["UNDEFINEDJ"]. *)
Theorem getInitial_two_fields (s family given : string) (rest : list string) :
  isNullOrWhiteSpace s = false →
  split_comma s = family :: given :: rest →
  (∀ a b, first_unit (trimStart family) = Some a →
          first_unit (trimStart given) = Some b →
          getInitial s = Ok (upper_code_unit a +:+ upper_code_unit b)) ∧
  (∀ b, first_unit (trimStart family) = None →
        first_unit (trimStart given) = Some b →
        getInitial s = Ok ("UNDEFINED" +:+ upper_code_unit b)) ∧
  (∀ a, first_unit (trimStart family) = Some a →
        first_unit (trimStart given) = None →
        getInitial s = Ok (upper_code_unit a +:+ "UNDEFINED")).
Proof.
  intros Hblank Hsplit. unfold getInitial. rewrite Hblank, Hsplit.
  rewrite !trim_first_unit. repeat split.
  - intros a b -> ->. cbn [add_units call_toUpperCase].
    change (String a "" +:+ String b "") with (String a (String b "")).
    cbn [toUpperCase]. by rewrite append_empty_r.
  - intros b -> ->. cbn [add_units call_toUpperCase].
    change ("undefined" +:+ String b "") with (String "u" (String "n" (String "d"
      (String "e" (String "f" (String "i" (String "n" (String "e" (String "d"
      (String b "")))))))))).
    cbn [toUpperCase]. by rewrite append_empty_r.
  - intros a -> ->. cbn [add_units call_toUpperCase].
    change (String a "" +:+ "undefined") with (String a "undefined").
    cbn [toUpperCase]. reflexivity.
Qed.
End Initials.

Section Capitalize.
Context `{UpperCase}.

(** White space is its own capital. *)
Lemma upper_code_unit_whitespace (c : ascii) :
  is_whitespace c = true → upper_code_unit c = String c "".
Proof.
  intros Hc. destruct c as [[] [] [] [] [] [] [] []];
    vm_compute in Hc; try discriminate Hc; reflexivity.
Qed.

Lemma capitalize_after_whitespace (b : bool) (c : ascii) (s : string) :
  is_whitespace c = true →
  capitalize_after b (String c s) = capitalize_after false (String c s).
Proof. intros Hc. cbn [capitalize_after]. by rewrite Hc, !andb_false_r. Qed.


Lemma capitalize_matches_two (start : bool) (c d : ascii) (s : string) :
  capitalize_matches start (String c (String d s)) =
  if start && negb (is_whitespace c)
  then toUpperCase (String c "") +:+ capitalize_matches false (String d s)
  else if is_whitespace c && negb (is_whitespace d)
       then toUpperCase (String c (String d "")) +:+ capitalize_matches false s
       else String c (capitalize_matches false (String d s)).
Proof. reflexivity. Qed.

Lemma capitalize_after_cons (b : bool) (c : ascii) (s : string) :
  capitalize_after b (String c s) =
  (if b && negb (is_whitespace c) then upper_code_unit c else String c "")
  +:+ capitalize_after (is_whitespace c) s.
Proof. reflexivity. Qed.

Lemma capitalize_matches_false (s : string) :
  capitalize_matches false s = capitalize_after false s
  ∧ ∀ c, capitalize_matches false (String c s) = capitalize_after false (String c s).
Proof.
  induction s as [|d s [IH1 IH2]].
  - split; [done|]. intros c. reflexivity.
  - split; [apply IH2|]. intros c.
    rewrite capitalize_matches_two, !capitalize_after_cons. cbn [andb].
    destruct (is_whitespace c) eqn:Hc; cbn [andb negb].
    + destruct (is_whitespace d) eqn:Hd; cbn [andb negb].
      * rewrite IH2, capitalize_after_cons, Hd. reflexivity.
      * rewrite IH1. cbn [toUpperCase].
        rewrite (upper_code_unit_whitespace c Hc).
        by rewrite append_empty_r, append_assoc.
    + rewrite IH2, capitalize_after_cons. reflexivity.
Qed.

Lemma capitalize_after_solid (s : string) :
  Forall (λ c, is_whitespace c = false) (units s) →
  capitalize_after false s = s.
Proof.
  induction s as [|c s IH]; [done|]. cbn [units capitalize_after andb].
  intros [Hc Hs]%Forall_cons. by rewrite Hc, (IH Hs).
Qed.

(** [capitalizeWords] replaces by its capital each unit that is not white
    space and is the first of the string or comes after a white-space
    unit, and leaves every other unit, the white space included, as it
    is. *)
Theorem capitalizeWords_by_position (s : string) :
  capitalizeWords s = capitalize_after true s.
Proof.
  unfold capitalizeWords. destruct s as [|c s]; [done|].
  destruct (is_whitespace c) eqn:Hc.
  - rewrite (capitalize_after_whitespace true c s Hc).
    rewrite <- (proj2 (capitalize_matches_false s) c).
    destruct s as [|d s]; [cbn; by rewrite Hc|].
    rewrite !capitalize_matches_two. by rewrite Hc.
  - rewrite capitalize_after_cons, Hc. cbn [andb negb].
    rewrite <- (proj1 (capitalize_matches_false s)).
    destruct s as [|d s]; [cbn; rewrite Hc; cbn; by rewrite !append_empty_r|].
    rewrite capitalize_matches_two, Hc. cbn [andb negb toUpperCase].
    by rewrite append_empty_r.
Qed.

Lemma capitalize_matches_solid (c : ascii) (s : string) :
  is_whitespace c = false →
  capitalize_matches true (String c s) =
  upper_code_unit c +:+ capitalize_matches false s.
Proof.
  intros Hc. destruct s as [|d s].
  - cbn. rewrite Hc. cbn. by rewrite !append_empty_r.
  - rewrite capitalize_matches_two, Hc. cbn [andb negb toUpperCase].
    by rewrite append_empty_r.
Qed.

(** On a string without white space [capitalizeWords] does what
    [capitalizeFirstLetter] does. *)
Theorem capitalizeWords_single_word (s : string) :
  Forall (λ c, is_whitespace c = false) (units s) →
  capitalizeWords s = capitalizeFirstLetter s.
Proof.
  intros Hs. unfold capitalizeWords.
  destruct s as [|c s]; [done|]. cbn [units] in Hs.
  apply Forall_cons in Hs as [Hc Hs].
  rewrite (capitalize_matches_solid c s Hc).
  rewrite (proj1 (capitalize_matches_false s)), (capitalize_after_solid s Hs).
  unfold capitalizeFirstLetter. cbn [charAt0 slice1 toUpperCase].
  by rewrite append_empty_r.
Qed.
End Capitalize.

(** *** [removeUnnecessarySpaces] *)

Lemma removeUnnecessarySpaces_clean (s : string) :
  removeUnnecessarySpaces s = restore_breaks (clean (mark_breaks s)).
Proof. reflexivity. Qed.

Lemma mark_breaks_break_free (s : string) : break_free (mark_breaks s).
Proof.
  induction s as [|c s IH]; [constructor|]. cbn [mark_breaks].
  constructor; [|done]. by destruct (is_break c) eqn:Hc.
Qed.

Lemma restore_mark_breaks (l : list marked) :
  break_free l → mark_breaks (restore_breaks l) = l.
Proof.
  induction 1 as [|[c|] l Hu _ IH]; cbn [restore_breaks mark_breaks]; [done| |].
  - by rewrite Hu, IH.
  - by rewrite IH.
Qed.

Lemma strip_break_free (l : list marked) :
  break_free l → break_free (strip_before_final_mark l).
Proof.
  induction 1 as [|u l Hu _ IH]; cbn [strip_before_final_mark]; [constructor|].
  destruct (_ && _); [by repeat constructor|by constructor].
Qed.

Lemma collapse_break_free (b : bool) (l : list marked) :
  break_free l → break_free (collapse_spaces b l).
Proof.
  intros Hl. revert b. induction Hl as [|u l Hu _ IH]; intros b;
    cbn [collapse_spaces]; [constructor|].
  destruct (marked_whitespace u); [destruct b|]; try apply IH;
    constructor; done || apply IH.
Qed.

Lemma trimStart_break_free (l : list marked) :
  break_free l → break_free (marked_trimStart l).
Proof.
  induction 1 as [|u l Hu Hl IH]; cbn [marked_trimStart]; [constructor|].
  destruct (marked_whitespace u); [done|by constructor].
Qed.

Lemma trimEnd_break_free (l : list marked) :
  break_free l → break_free (marked_trimEnd l).
Proof.
  induction 1 as [|u l Hu Hl IH]; cbn [marked_trimEnd]; [constructor|].
  destruct (_ && _); [constructor|by constructor].
Qed.

Lemma clean_break_free (l : list marked) : break_free l → break_free (clean l).
Proof.
  intros Hl. unfold clean.
  by apply trimEnd_break_free, trimStart_break_free, collapse_break_free,
    strip_break_free.
Qed.

(** **** Where the pattern of the second replacement matches *)

Lemma ends_space_mark_tail (u : marked) (l : list marked) :
  ends_space_mark (u :: l) = false → ends_space_mark l = false.
Proof.
  cbn [ends_space_mark]. destruct l as [|[c|] [|v l]]; try done.
Qed.

Lemma ends_space_mark_cons (u : marked) (l : list marked) :
  ends_space_mark l = false → (l = [Mark] → marked_whitespace u = false) →
  ends_space_mark (u :: l) = false.
Proof.
  intros Hl Hu. cbn [ends_space_mark].
  destruct l as [|[c|] [|v l]]; try done. by apply Hu.
Qed.

Lemma spaces_then_final_mark_ends (u : marked) (l : list marked) :
  marked_whitespace u = true → spaces_then_final_mark l = true →
  ends_space_mark (u :: l) = true.
Proof.
  revert u. induction l as [|v l IH]; intros u Hu; [done|].
  destruct l as [|w l].
  - destruct v as [c|]; [|done]. cbn. by rewrite andb_false_r.
  - intros Hl. cbn [spaces_then_final_mark] in Hl.
    assert (Hv : marked_whitespace v = true ∧ spaces_then_final_mark (w :: l) = true).
    { destruct v; [by apply andb_true_iff in Hl|done]. }
    destruct Hv as [Hv Hl']. specialize (IH v Hv Hl').
    destruct v; exact IH.
Qed.

Lemma strip_fixed (l : list marked) :
  ends_space_mark l = false → strip_before_final_mark l = l.
Proof.
  induction l as [|u l IH]; [done|]. intros Hl. cbn [strip_before_final_mark].
  destruct (marked_whitespace u && spaces_then_final_mark l) eqn:Hm.
  - apply andb_true_iff in Hm as [Hu Hm].
    by rewrite (spaces_then_final_mark_ends u l Hu Hm) in Hl.
  - by rewrite (IH (ends_space_mark_tail _ _ Hl)).
Qed.

Lemma strip_nil (l : list marked) : strip_before_final_mark l = [] → l = [].
Proof.
  destruct l as [|u l]; [done|]. cbn [strip_before_final_mark].
  by destruct (_ && _).
Qed.

Lemma strip_mark (l : list marked) :
  strip_before_final_mark l = [Mark] → spaces_then_final_mark l = true.
Proof.
  induction l as [|u l IH]; [done|]. cbn [strip_before_final_mark].
  destruct (marked_whitespace u && spaces_then_final_mark l) eqn:Hm.
  - intros _. apply andb_true_iff in Hm as [Hu Hm].
    cbn [spaces_then_final_mark]. rewrite Hu, Hm.
    destruct u as [c|]; [|done]. by destruct l.
  - intros [= -> Hl]. apply strip_nil in Hl as ->. done.
Qed.

Lemma strip_ends_space_mark (l : list marked) :
  ends_space_mark (strip_before_final_mark l) = false.
Proof.
  induction l as [|u l IH]; [done|]. cbn [strip_before_final_mark].
  destruct (marked_whitespace u && spaces_then_final_mark l) eqn:Hm; [done|].
  apply ends_space_mark_cons; [done|]. intros Hl.
  apply strip_mark in Hl. rewrite Hl, andb_true_r in Hm. done.
Qed.

Lemma collapse_true_mark (l : list marked) :
  collapse_spaces true l = [Mark] → spaces_then_final_mark l = true.
Proof.
  induction l as [|u l IH]; [done|]. cbn [collapse_spaces].
  destruct (marked_whitespace u) eqn:Hu.
  - intros Hl. specialize (IH Hl). cbn [spaces_then_final_mark].
    rewrite Hu, IH. destruct u as [c|]; [|done]. by destruct l.
  - intros [= -> Hl]. destruct l as [|v l]; [done|].
    cbn [collapse_spaces] in Hl. by destruct (marked_whitespace v).
Qed.

Lemma collapse_ends_space_mark (b : bool) (l : list marked) :
  ends_space_mark l = false → ends_space_mark (collapse_spaces b l) = false.
Proof.
  revert b. induction l as [|u l IH]; intros b Hl; [done|].
  pose proof (ends_space_mark_tail _ _ Hl) as Hl'.
  cbn [collapse_spaces]. destruct (marked_whitespace u) eqn:Hu.
  - destruct b; [by apply IH|].
    apply ends_space_mark_cons; [by apply IH|].
    intros Hm%collapse_true_mark.
    by rewrite (spaces_then_final_mark_ends u l Hu Hm) in Hl.
  - apply ends_space_mark_cons; [by apply IH|]. by rewrite Hu.
Qed.

Lemma trimStart_ends_space_mark (l : list marked) :
  ends_space_mark l = false → ends_space_mark (marked_trimStart l) = false.
Proof.
  induction l as [|u l IH]; [done|]. intros Hl. cbn [marked_trimStart].
  destruct (marked_whitespace u); [|done].
  apply IH. by apply (ends_space_mark_tail u).
Qed.

(** **** White space at the two ends *)

Lemma ends_white_tail (u v : marked) (l : list marked) :
  ends_white (u :: v :: l) = ends_white (v :: l).
Proof. reflexivity. Qed.

Lemma trimEnd_nil (l : list marked) :
  marked_trimEnd l = [] ↔ Forall (λ u, marked_whitespace u = true) l.
Proof.
  induction l as [|u l IH]; cbn [marked_trimEnd]; [by split|].
  rewrite Forall_cons, <- IH. destruct (marked_whitespace u); cbn [andb].
  - case_bool_decide as Ht; [tauto|]. split; [done|]. by intros [_ ?].
  - split; [done|]. by intros [? _].
Qed.

Lemma trimEnd_fixed (l : list marked) :
  ends_white l = false → marked_trimEnd l = l.
Proof.
  induction l as [|u l IH]; [done|]. destruct l as [|v l].
  - cbn. by intros ->.
  - rewrite ends_white_tail. intros Hl. specialize (IH Hl).
    cbn [marked_trimEnd] in IH |- *. rewrite IH.
    rewrite bool_decide_eq_false_2 by done. by rewrite andb_false_r.
Qed.

Lemma trimEnd_ends_white (l : list marked) : ends_white (marked_trimEnd l) = false.
Proof.
  induction l as [|u l IH]; [done|]. cbn [marked_trimEnd].
  destruct (marked_whitespace u) eqn:Hu; cbn [andb].
  - case_bool_decide as Ht; [done|].
    destruct (marked_trimEnd l) as [|v t]; [done|]. by rewrite ends_white_tail.
  - destruct (marked_trimEnd l) as [|v t]; [by cbn; rewrite Hu|].
    by rewrite ends_white_tail.
Qed.

Lemma strip_ends_white (l : list marked) :
  ends_white l = false → ends_white (strip_before_final_mark l) = false.
Proof.
  induction l as [|u l IH]; [done|]. cbn [strip_before_final_mark].
  destruct (_ && _); [done|]. destruct l as [|v l]; [done|].
  rewrite ends_white_tail. intros Hl. specialize (IH Hl).
  destruct (strip_before_final_mark (v :: l)) as [|w t] eqn:Hs;
    [by apply strip_nil in Hs|].
  by rewrite ends_white_tail.
Qed.

Lemma collapse_true_nil (l : list marked) :
  collapse_spaces true l = [] → Forall (λ u, marked_whitespace u = true) l.
Proof.
  induction l as [|u l IH]; [done|]. cbn [collapse_spaces].
  destruct (marked_whitespace u) eqn:Hu; [|done]. intros Hl. constructor; auto.
Qed.

Lemma ends_white_blank (l : list marked) :
  l ≠ [] → Forall (λ u, marked_whitespace u = true) l → ends_white l = true.
Proof.
  induction l as [|u l IH]; [done|]. intros _ [Hu Hl]%Forall_cons.
  destruct l as [|v l]; [done|]. rewrite ends_white_tail. by apply IH.
Qed.

Lemma collapse_ends_white (b : bool) (l : list marked) :
  ends_white l = false → ends_white (collapse_spaces b l) = false.
Proof.
  revert b. induction l as [|u l IH]; intros b; [done|].
  cbn [collapse_spaces]. intros Hl.
  assert (Htail : l ≠ [] → ends_white l = false).
  { destruct l; [done|]. by rewrite ends_white_tail in Hl. }
  destruct (marked_whitespace u) eqn:Hu.
  - assert (Hne : l ≠ []) by (intros ->; cbn in Hl; congruence).
    assert (Hc : collapse_spaces true l ≠ []).
    { intros Hnil%collapse_true_nil.
      rewrite (ends_white_blank l Hne Hnil) in Htail. by specialize (Htail Hne). }
    destruct b; [by apply IH, Htail|].
    destruct (collapse_spaces true l) as [|w t] eqn:Hct; [done|].
    rewrite ends_white_tail, <- Hct. by apply IH, Htail.
  - destruct l as [|v l]; [by cbn; rewrite Hu|].
    specialize (IH false (Htail ltac:(done))).
    destruct (collapse_spaces false (v :: l)) as [|w t]; [by cbn; rewrite Hu|].
    by rewrite ends_white_tail.
Qed.

Lemma trimStart_ends_white (l : list marked) :
  ends_white l = false → ends_white (marked_trimStart l) = false.
Proof.
  induction l as [|u l IH]; [done|]. intros Hl. cbn [marked_trimStart].
  destruct (marked_whitespace u) eqn:Hu; [|done].
  destruct l as [|v l]; [done|]. apply IH. by rewrite ends_white_tail in Hl.
Qed.

Lemma trimStart_begins_solid (l : list marked) : begins_solid (marked_trimStart l) = true.
Proof.
  induction l as [|u l IH]; [done|]. cbn [marked_trimStart].
  destruct (marked_whitespace u) eqn:Hu; [done|]. cbn. by rewrite Hu.
Qed.

Lemma trimStart_fixed (l : list marked) :
  begins_solid l = true → marked_trimStart l = l.
Proof.
  destruct l as [|u l]; [done|]. cbn. by destruct (marked_whitespace u).
Qed.

Lemma trimEnd_begins_solid (l : list marked) :
  begins_solid l = true → begins_solid (marked_trimEnd l) = true.
Proof.
  destruct l as [|u l]; [done|]. cbn [begins_solid marked_trimEnd].
  destruct (marked_whitespace u) eqn:Hu; [done|]. cbn. by rewrite Hu.
Qed.

(** **** Single spaces *)

Lemma spaced_weaken (b : bool) (l : list marked) : spaced b l → spaced false l.
Proof.
  destruct l as [|u l]; [done|]. cbn. destruct (marked_whitespace u); [|done].
  by intros (-> & _ & ?).
Qed.

Lemma collapse_spaced (b : bool) (l : list marked) :
  spaced b (collapse_spaces b l).
Proof.
  revert b. induction l as [|u l IH]; intros b; [done|]. cbn [collapse_spaces].
  destruct (marked_whitespace u) eqn:Hu.
  - destruct b; [apply IH|]. cbn. split; [done|]. split; [done|]. apply IH.
  - cbn. rewrite Hu.
    destruct b; [|apply IH]. apply IH.
Qed.

Lemma collapse_fixed (b : bool) (l : list marked) :
  spaced b l → collapse_spaces b l = l.
Proof.
  revert b. induction l as [|u l IH]; intros b; [done|].
  cbn [spaced collapse_spaces]. destruct (marked_whitespace u).
  - intros (-> & -> & Hl). by rewrite (IH true Hl).
  - intros Hl. by rewrite (IH false Hl).
Qed.

Lemma trimStart_spaced (l : list marked) :
  spaced false l → spaced false (marked_trimStart l).
Proof.
  induction l as [|u l IH]; [done|]. cbn [spaced marked_trimStart].
  destruct (marked_whitespace u) eqn:Hu.
  - intros (_ & _ & Hl). by apply IH, (spaced_weaken true).
  - intros Hl. cbn. by rewrite Hu.
Qed.

Lemma trimEnd_spaced (b : bool) (l : list marked) :
  spaced b l → spaced b (marked_trimEnd l).
Proof.
  revert b. induction l as [|u l IH]; intros b; [done|].
  cbn [spaced marked_trimEnd]. destruct (marked_whitespace u) eqn:Hu; cbn [andb].
  - intros (-> & -> & Hl). case_bool_decide; [done|].
    cbn. split; [done|]. split; [done|]. by apply IH.
  - intros Hl. cbn. rewrite Hu. by apply IH.
Qed.

(** **** What [clean] returns, and when it changes nothing *)

Lemma clean_shape (l : list marked) :
  spaced false (clean l) ∧ begins_solid (clean l) = true
  ∧ ends_white (clean l) = false.
Proof.
  unfold clean. split; [|split].
  - apply trimEnd_spaced, trimStart_spaced, collapse_spaced.
  - apply trimEnd_begins_solid, trimStart_begins_solid.
  - apply trimEnd_ends_white.
Qed.

Lemma clean_clean (l : list marked) :
  ends_white l = false → clean (clean l) = clean l.
Proof.
  intros Hl.
  set (y := marked_trimStart (collapse_spaces false (strip_before_final_mark l))).
  assert (Hy : clean l = y).
  { unfold clean. apply trimEnd_fixed.
    by apply trimStart_ends_white, collapse_ends_white, strip_ends_white. }
  rewrite Hy. unfold clean.
  rewrite (strip_fixed y).
  2:{ apply trimStart_ends_space_mark, collapse_ends_space_mark,
        strip_ends_space_mark. }
  rewrite (collapse_fixed false y)
    by apply trimStart_spaced, collapse_spaced.
  rewrite (trimStart_fixed y) by apply trimStart_begins_solid.
  apply trimEnd_fixed.
  by apply trimStart_ends_white, collapse_ends_white, strip_ends_white.
Qed.

Lemma mark_breaks_ends_white (s : string) :
  (∀ c, last_unit s = Some c → is_whitespace c = true → is_break c = true) →
  ends_white (mark_breaks s) = false.
Proof.
  induction s as [|c s IH]; [done|]. intros Hlast. destruct s as [|d s].
  - cbn. destruct (is_break c) eqn:Hc; [done|]. cbn.
    destruct (is_whitespace c) eqn:Hw; [|done].
    specialize (Hlast c eq_refl Hw). congruence.
  - change (mark_breaks (String c (String d s)))
      with ((if is_break c then Mark else Unit c) :: mark_breaks (String d s)).
    cbn [mark_breaks]. rewrite ends_white_tail. apply IH. done.
Qed.

(** A second application of [removeUnnecessarySpaces] changes nothing when
    the string does not end with a white-space unit other than a line
    break; a third one never changes anything.  One application is not
    always enough: the space before a final line break goes only if no
    white space follows the line break, so that ["a \n "] gives ["a \n"],
    which gives ["a\n"]. *)
Theorem removeUnnecessarySpaces_settles :
  (∀ s,
     (∀ c, last_unit s = Some c → is_whitespace c = true → is_break c = true) →
     removeUnnecessarySpaces (removeUnnecessarySpaces s) = removeUnnecessarySpaces s) ∧
  (∀ s,
     removeUnnecessarySpaces (removeUnnecessarySpaces (removeUnnecessarySpaces s))
     = removeUnnecessarySpaces (removeUnnecessarySpaces s)) ∧
  removeUnnecessarySpaces (String "a" (String " " (String "010" " ")))
    = String "a" (String " " (String "010" "")) ∧
  removeUnnecessarySpaces (String "a" (String " " (String "010" "")))
    = String "a" (String "010" "").
Proof.
  assert (Htwice : ∀ s, removeUnnecessarySpaces (removeUnnecessarySpaces s)
                        = restore_breaks (clean (clean (mark_breaks s)))).
  { intros s. rewrite !removeUnnecessarySpaces_clean.
    by rewrite restore_mark_breaks
      by apply clean_break_free, mark_breaks_break_free. }
  split; [|split; [|split; reflexivity]].
  - intros s Hlast. rewrite Htwice, removeUnnecessarySpaces_clean.
    by rewrite clean_clean by by apply mark_breaks_ends_white.
  - intros s. rewrite (removeUnnecessarySpaces_clean (removeUnnecessarySpaces _)).
    rewrite !Htwice.
    rewrite restore_mark_breaks
      by apply clean_break_free, clean_break_free, mark_breaks_break_free.
    by rewrite (clean_clean (clean _)) by apply clean_shape.
Qed.

(** **** The shape of what is returned *)

Lemma spaced_whitespace (b : bool) (l : list marked) :
  spaced b l → Forall (λ u, marked_whitespace u = true → u = Unit " ") l.
Proof.
  revert b. induction l as [|u l IH]; intros b; [constructor|].
  cbn [spaced]. destruct (marked_whitespace u) eqn:Hu.
  - intros (-> & _ & Hl). constructor; [done|]. by apply (IH true).
  - intros Hl. constructor; [congruence|]. by apply (IH false).
Qed.

Lemma restore_units_whitespace (b : bool) (l : list marked) :
  spaced b l →
  Forall (λ c, is_whitespace c = true → c = " "%char ∨ c = "010"%char)
    (units (restore_breaks l)).
Proof.
  intros Hl%spaced_whitespace.
  induction Hl as [|[c|] l Hu _ IH]; cbn [restore_breaks units];
    constructor; try done.
  - intros Hc. left. by injection (Hu Hc).
  - by right.
Qed.

Lemma restore_adjacent_free (b : bool) (l : list marked) :
  spaced b l → adjacent_free " " " " (restore_breaks l).
Proof.
  revert b. induction l as [|u l IH]; intros b Hl; [done|].
  assert (Htail : adjacent_free " " " " (restore_breaks l)).
  { cbn [spaced] in Hl. destruct (marked_whitespace u);
      [destruct Hl as (_ & _ & Hl)|]; eauto. }
  destruct u as [c|]; cbn [restore_breaks adjacent_free]; (split; [|done]).
  - destruct l as [|[d|] l]; cbn [restore_breaks]; [done| |by intros [_ ?]].
    intros [-> ->]. cbn in Hl. by destruct Hl as (_ & _ & _ & ? & _).
  - destruct l as [|[d|] l]; cbn [restore_breaks]; [done|by intros [? _]..].
Qed.

Lemma restore_first_unit (l : list marked) :
  begins_solid l = true → first_unit (restore_breaks l) ≠ Some " "%char.
Proof.
  destruct l as [|[c|] l]; cbn; [done| |done].
  intros Hc [= ->]. done.
Qed.

Lemma restore_last_unit (l : list marked) :
  ends_white l = false → last_unit (restore_breaks l) ≠ Some " "%char.
Proof.
  induction l as [|u l IH]; [done|]. destruct l as [|v l].
  - destruct u as [c|]; cbn; [|done]. intros Hc [= ->]. done.
  - rewrite ends_white_tail. intros Hl. specialize (IH Hl).
    destruct u, v; exact IH.
Qed.

(** In what [removeUnnecessarySpaces] returns the only white space is the
    space and the line feed, no space comes after another, and neither the
    first unit nor the last is a space. *)
Theorem removeUnnecessarySpaces_tidy (s : string) :
  Forall (λ c, is_whitespace c = true → c = " "%char ∨ c = "010"%char)
    (units (removeUnnecessarySpaces s)) ∧
  adjacent_free " " " " (removeUnnecessarySpaces s) ∧
  first_unit (removeUnnecessarySpaces s) ≠ Some " "%char ∧
  last_unit (removeUnnecessarySpaces s) ≠ Some " "%char.
Proof.
  rewrite removeUnnecessarySpaces_clean.
  destruct (clean_shape (mark_breaks s)) as (Hspaced & Hfirst & Hlast).
  split; [by apply (restore_units_whitespace false)|].
  split; [by apply (restore_adjacent_free false)|].
  split; [by apply restore_first_unit|by apply restore_last_unit].
Qed.

(** **** What is kept *)

Lemma essence_whitespace (u : marked) (l : list marked) :
  marked_whitespace u = true → essence (u :: l) = essence l.
Proof. intros Hu. unfold essence. cbn. by rewrite Hu. Qed.

Lemma essence_solid (u : marked) (l : list marked) :
  marked_whitespace u = false → essence (u :: l) = u :: essence l.
Proof. intros Hu. unfold essence. cbn. by rewrite Hu. Qed.

Lemma essence_final_mark (l : list marked) :
  spaces_then_final_mark l = true → essence l = [Mark].
Proof.
  induction l as [|u l IH]; [done|]. destruct l as [|v l].
  - destruct u as [c|]; [cbn; by rewrite andb_false_r|done].
  - intros Hl.
    assert (Hu : marked_whitespace u = true ∧ spaces_then_final_mark (v :: l) = true).
    { destruct u; [by apply andb_true_iff in Hl|done]. }
    destruct Hu as [Hu Hl']. rewrite (essence_whitespace u _ Hu). by apply IH.
Qed.

Lemma strip_essence (l : list marked) :
  essence (strip_before_final_mark l) = essence l.
Proof.
  induction l as [|u l IH]; [done|]. cbn [strip_before_final_mark].
  destruct (marked_whitespace u && spaces_then_final_mark l) eqn:Hm.
  - apply andb_true_iff in Hm as [Hu Hm].
    by rewrite (essence_whitespace u l Hu), (essence_final_mark l Hm).
  - destruct (marked_whitespace u) eqn:Hu.
    + by rewrite !essence_whitespace.
    + by rewrite !essence_solid, IH.
Qed.

Lemma collapse_essence (b : bool) (l : list marked) :
  essence (collapse_spaces b l) = essence l.
Proof.
  revert b. induction l as [|u l IH]; intros b; [done|]. cbn [collapse_spaces].
  destruct (marked_whitespace u) eqn:Hu.
  - rewrite (essence_whitespace u l Hu). destruct b; [apply IH|].
    rewrite essence_whitespace by done. apply IH.
  - by rewrite !essence_solid, IH.
Qed.

Lemma trimStart_essence (l : list marked) :
  essence (marked_trimStart l) = essence l.
Proof.
  induction l as [|u l IH]; [done|]. cbn [marked_trimStart].
  destruct (marked_whitespace u) eqn:Hu; [|done].
  by rewrite (essence_whitespace u l Hu).
Qed.

Lemma trimEnd_essence (l : list marked) :
  essence (marked_trimEnd l) = essence l.
Proof.
  induction l as [|u l IH]; [done|]. cbn [marked_trimEnd].
  destruct (marked_whitespace u) eqn:Hu; cbn [andb].
  - rewrite (essence_whitespace u l Hu). case_bool_decide as Ht.
    + by rewrite <- IH, Ht.
    + by rewrite essence_whitespace.
  - by rewrite !essence_solid, IH.
Qed.

Lemma clean_essence (l : list marked) : essence (clean l) = essence l.
Proof.
  unfold clean.
  by rewrite trimEnd_essence, trimStart_essence, collapse_essence, strip_essence.
Qed.

Lemma mark_breaks_essence (s : string) :
  essence (mark_breaks s) =
  map (λ c, if is_break c then Mark else Unit c)
    (List.filter (λ c, negb (is_whitespace c) || is_break c) (units s)).
Proof.
  induction s as [|c s IH]; [done|]. cbn [mark_breaks units List.filter].
  destruct (is_break c) eqn:Hc.
  - rewrite orb_true_r. cbn [map]. rewrite Hc.
    by rewrite essence_solid, IH.
  - rewrite orb_false_r. destruct (is_whitespace c) eqn:Hw; cbn [negb].
    + by rewrite essence_whitespace.
    + cbn [map]. rewrite Hc. by rewrite essence_solid, IH.
Qed.

Lemma restore_essence (b : bool) (l : list marked) :
  spaced b l →
  List.filter (λ c, negb (Ascii.eqb c " ")) (units (restore_breaks l)) =
  map (λ u, match u with Unit c => c | Mark => "010"%char end) (essence l).
Proof.
  revert b. induction l as [|u l IH]; intros b; [done|]. cbn [spaced].
  destruct (marked_whitespace u) eqn:Hu.
  - intros (-> & _ & Hl). rewrite essence_whitespace by done.
    cbn [restore_breaks units List.filter]. by apply (IH true).
  - intros Hl. rewrite essence_solid by done. cbn [map].
    rewrite <- (IH false Hl).
    destruct u as [c|]; cbn [restore_breaks units List.filter]; [|done].
    destruct (Ascii.eqb_spec c " ") as [->|_]; done.
Qed.

Lemma mark_breaks_units (s : string) :
  mark_breaks s = mark_breaks_marked (map Unit (units s)).
Proof.
  induction s as [|c s IH]; [done|]. cbn [mark_breaks units map mark_breaks_marked].
  by rewrite IH.
Qed.

Lemma mark_breaks_marked_essence (l : list marked) :
  essence (mark_breaks_marked l) =
  mark_breaks_marked
    (List.filter (λ u, match u with
                       | Unit c => negb (is_whitespace c) || is_break c
                       | Mark => true
                       end) l).
Proof.
  induction l as [|u l IH]; [done|].
  change (mark_breaks_marked (u :: l))
    with (match u with
          | Unit c => if is_break c then Mark else Unit c
          | Mark => Mark
          end :: mark_breaks_marked l).
  cbn [List.filter]. destruct u as [c|].
  - destruct (is_break c) eqn:Hc.
    + rewrite orb_true_r. rewrite essence_solid by done. rewrite IH.
      cbn [mark_breaks_marked map]. by rewrite Hc.
    + rewrite orb_false_r. destruct (is_whitespace c) eqn:Hw; cbn [negb].
      * by rewrite essence_whitespace.
      * rewrite essence_solid by done. rewrite IH.
        cbn [mark_breaks_marked map]. by rewrite Hc.
  - rewrite essence_solid by done. by rewrite IH.
Qed.

(** [removeUnnecessarySpaces] keeps the units that are not white space, in
    their order, and every line break in its place among them, a carriage
    return and a line feed each becoming a line feed (the two of a pair
    become two); the rest of the white space goes or becomes a space.  A
    placeholder U+240D that the string holds already is taken for a line
    break: it becomes a line feed as well.  The first statement is that of
    a string of units below 256; the second that of a string which holds
    the placeholder too, of which the first is the case without one. *)
Theorem removeUnnecessarySpaces_content :
  (∀ s : string,
     List.filter (λ c, negb (Ascii.eqb c " ")) (units (removeUnnecessarySpaces s)) =
     map (λ c, if is_break c then "010"%char else c)
       (List.filter (λ c, negb (is_whitespace c) || is_break c) (units s))) ∧
  (∀ l : list marked,
     List.filter (λ c, negb (Ascii.eqb c " "))
       (units (removeUnnecessarySpaces_marked l)) =
     map (λ u, match u with
               | Unit c => if is_break c then "010"%char else c
               | Mark => "010"%char
               end)
       (List.filter (λ u, match u with
                          | Unit c => negb (is_whitespace c) || is_break c
                          | Mark => true
                          end) l)) ∧
  (∀ s : string,
     removeUnnecessarySpaces s = removeUnnecessarySpaces_marked (map Unit (units s))) ∧
  removeUnnecessarySpaces_marked [Unit "a"; Mark; Unit " "; Unit "b"]
    = String "a" (String "010" " b").
Proof.
  split; [|split; [|split]].
  - intros s. rewrite removeUnnecessarySpaces_clean.
    destruct (clean_shape (mark_breaks s)) as (Hspaced & _ & _).
    rewrite (restore_essence false _ Hspaced), clean_essence, mark_breaks_essence.
    rewrite map_map. apply map_ext. intros c. by destruct (is_break c).
  - intros l. change (removeUnnecessarySpaces_marked l)
      with (restore_breaks (clean (mark_breaks_marked l))).
    destruct (clean_shape (mark_breaks_marked l)) as (Hspaced & _ & _).
    rewrite (restore_essence false _ Hspaced), clean_essence,
      mark_breaks_marked_essence.
    unfold mark_breaks_marked. rewrite map_map. apply map_ext.
    intros [c|]; [|done]. by destruct (is_break c).
  - intros s. unfold removeUnnecessarySpaces, removeUnnecessarySpaces_marked.
    by rewrite mark_breaks_units.
  - vm_compute. reflexivity.
Qed.

(** * Further properties of the code *)

(** ** [format] and [ln] *)

Lemma split_dot_nonempty (s : string) : split_dot s ≠ [].
Proof. induction s as [|c s IH]; cbn; [done|]. by repeat case_match. Qed.

(** The first segment of a key is what comes before its first dot. *)
Lemma split_dot_first (a rest : string) :
  "."%char ∉ units a →
  (rest = "" ∨ ∃ r, rest = String "." r) →
  hd "" (split_dot (a +:+ rest)) = a.
Proof.
  intros Ha Hrest. induction a as [|c a IH].
  - destruct Hrest as [->|[r ->]]; reflexivity.
  - cbn [units] in Ha. apply not_elem_of_cons in Ha as [Hc Ha].
    rewrite append_cons. cbn [split_dot].
    destruct (Ascii.eqb_spec c ".") as [->|_]; [done|].
    specialize (IH Ha). pose proof (split_dot_nonempty (a +:+ rest)) as Hne.
    destruct (split_dot (a +:+ rest)) as [|seg segs]; [done|].
    cbn in *. by rewrite IH.
Qed.

Lemma split_dot_join (first : string) (rest : list string) :
  Forall (λ seg, "."%char ∉ units seg) (first :: rest) →
  split_dot (join "." (first :: rest)) = first :: rest.
Proof.
  revert first. induction rest as [|second rest IH]; intros first Hall.
  - apply Forall_cons in Hall as [Hf _]. cbn [join].
    induction first as [|c first IHf]; [done|].
    cbn [units] in Hf. apply not_elem_of_cons in Hf as [Hc Hf].
    cbn [split_dot]. destruct (Ascii.eqb_spec c ".") as [->|_]; [done|].
    by rewrite (IHf Hf).
  - apply Forall_cons in Hall as [Hf Hall]. specialize (IH second Hall).
    change (join "." (first :: second :: rest))
      with (first +:+ "." +:+ join "." (second :: rest)).
    induction first as [|c first IHf].
    + change ("" +:+ "." +:+ join "." (second :: rest))
        with (String "." (join "." (second :: rest))).
      cbn [split_dot]. change (Ascii.eqb "." ".") with true. cbv iota.
      by rewrite IH.
    + cbn [units] in Hf. apply not_elem_of_cons in Hf as [Hc Hf].
      rewrite append_cons. cbn [split_dot].
      destruct (Ascii.eqb_spec c ".") as [->|_]; [done|].
      by rewrite (IHf Hf).
Qed.

Lemma trimStart_whitespace (s : string) :
  Forall (λ c, is_whitespace c = true) (units s) → trimStart s = "".
Proof.
  induction s as [|c s IH]; [done|]. cbn [units trimStart].
  intros Hall. apply Forall_cons in Hall as [-> Hall]. auto.
Qed.

Lemma whitespace_not_dot (s : string) :
  Forall (λ c, is_whitespace c = true) (units s) → "."%char ∉ units s.
Proof.
  intros Hall Hin. rewrite Forall_forall in Hall. by specialize (Hall _ Hin).
Qed.

Lemma scan_opening_free (s : string) :
  opening_free s → scan 0 s = map Lit (units s).
Proof.
  unfold opening_free. induction s as [|c s IH]; [done|]. intros [Hc Hs].
  cbn [units map]. rewrite <- (IH Hs). cbn [scan].
  replace (match_placeholder (String c s)) with (@None string); [done|].
  unfold match_placeholder.
  destruct s as [|d s]; [by repeat case_match|].
  destruct (decide (c = "{"%char)) as [->|Hne].
  - destruct (decide (d = "{"%char)) as [->|Hne']; [by destruct Hc|].
    destruct d as [[] [] [] [] [] [] [] []]; done.
  - destruct c as [[] [] [] [] [] [] [] []]; done.
Qed.

Section MoreLookupProperties.
Context `{NumberToString} `{Inherited}.

Lemma replace_pieces_literal (namedArgs : value) (cs : list ascii)
    (args : list value) (s : string) :
  units s = cs → replace_pieces namedArgs (map Lit cs) args = Ok s.
Proof.
  revert s. induction cs as [|c cs IH]; intros [|d s] Hs; cbn in *; try done.
  injection Hs as -> Hs. by rewrite (IH s Hs).
Qed.

(** A template in which no two opening braces come in a row has no
    placeholder: [format] returns it as it is, whatever the arguments. *)
Theorem format_without_placeholder (template : string) (args : list value) :
  opening_free template → format template args = Ok template.
Proof.
  intros Hfree. unfold format. rewrite (scan_opening_free _ Hfree).
  by apply replace_pieces_literal.
Qed.

(** A key that is empty or blank before its first dot resolves to
    ["unknown"], whatever the document holds and even with a [defaultTxt]:
    the empty key, a key of white space, a key that begins with a dot.
    (The last argument is one on which the test of [defaultTxt] returns:
    not [null], and no object with a property [hasOwnProperty].) *)
Theorem ln_blank_first_segment data loadingResource
    (blank rest : string) (args : list value) :
  last_argument_tested args →
  suppressed data loadingResource args = false →
  Forall (λ c, is_whitespace c = true) (units blank) →
  (rest = "" ∨ ∃ r, rest = String "." r) →
  ln data loadingResource (blank +:+ rest) args = Ok (VString "unknown").
Proof.
  intros Hlast Hsup Hblank Hrest.
  rewrite (ln_unfold _ _ _ _ Hlast), Hsup. cbv zeta.
  rewrite (split_dot_first blank rest (whitespace_not_dot _ Hblank) Hrest).
  by rewrite (trimStart_whitespace _ Hblank).
Qed.

(** When the document does not own the first segment of the key, [ln]
    answers at once: the [defaultTxt] formatted with the arguments when it
    is truthy, and otherwise the key exactly as it was passed, placeholders
    and white space included, not formatted.  (When a later segment is
    missing the key is formatted.)  This is the answer for every key with a
    first segment when the document is empty, as after a failed load. *)
Theorem ln_first_segment_missing data loadingResource
    (key : string) (args : list value) :
  last_argument_tested args →
  suppressed data loadingResource args = false →
  trimEnd (trimStart (hd "" (split_dot key))) ≠ "" →
  opt_hasOwnProperty data (trimEnd (trimStart (hd "" (split_dot key)))) = Ok false →
  ln data loadingResource key args =
    if truthy (default_text args)
    then bind (to_string (default_text args)) (λ text,
         bind (format text args) (λ formatted, Ok (VString formatted)))
    else Ok (VString key).
Proof.
  intros Hlast Hsup Hne Hown.
  rewrite (ln_unfold _ _ _ _ Hlast), Hsup. cbv zeta.
  apply String.eqb_neq in Hne. by rewrite Hne, Hown.
Qed.

Lemma object_dispatches_key (ps : props) (k : string) (x : value) :
  owns (VObject ps) "hasOwnProperty" = false → lookup_prop k ps = Some x →
  opt_hasOwnProperty (VObject ps) k = Ok true.
Proof.
  intros Hfree Hk. rewrite opt_hasOwnProperty_inherited by done.
  cbn. rewrite Hk. by rewrite bool_decide_eq_true_2 by eauto.
Qed.

Lemma object_owns_key (ps : props) (k : string) (x : value) :
  free_of ["hasOwnProperty"] (VObject ps) = true → lookup_prop k ps = Some x →
  opt_hasOwnProperty (VObject ps) k = Ok true.
Proof.
  intros Hfree. apply object_dispatches_key.
  apply (free_of_owns ["hasOwnProperty"]); [by left|done].
Qed.

Lemma object_get_key (ps : props) (k : string) (x : value) :
  lookup_prop k ps = Some x → opt_get (VObject ps) k = x.
Proof. intros Hk. unfold opt_get. cbn. by rewrite Hk. Qed.

Lemma descend_lookup_path (v : value) (path : list string) (w : value) :
  free_of ["hasOwnProperty"] v = true →
  lookup_path v path = Some w → descend v path = Ok w.
Proof.
  revert v. induction path as [|k path IH]; intros v Hv; cbn [lookup_path descend].
  - by intros [= ->].
  - destruct v as [| | | | | |ps]; try done.
    destruct (lookup_prop k ps) as [x|] eqn:Hk; cbn [mbind option_bind]; [|done].
    intros Hw. rewrite (object_owns_key ps k x Hv Hk). cbn [bind negb].
    rewrite (object_get_key ps k x Hk).
    apply IH; [|done]. pose proof (free_of_get _ _ k Hv) as Hx.
    cbn in Hx. by rewrite Hk in Hx.
Qed.

(** Round trip through a document: the value held under the nested keys
    [first], ..., is what [ln] finds for these keys joined by dots, provided
    no key contains a dot, [first] is not empty and has no white space at
    either end, and no document has a key ["hasOwnProperty"].  A string
    found is formatted with the arguments; a value of another type (a
    number, an array, a document) is returned as it is. *)
Theorem ln_resolves_path data loadingResource
    (first : string) (rest : list string) (args : list value) (v : value) :
  last_argument_tested args →
  suppressed data loadingResource args = false →
  free_of ["hasOwnProperty"] data = true →
  Forall (λ seg, "."%char ∉ units seg) (first :: rest) →
  trimEnd (trimStart first) = first → first ≠ "" →
  lookup_path data (first :: rest) = Some v →
  ln data loadingResource (join "." (first :: rest)) args =
    match v with
    | VString s => bind (format s args) (λ formatted, Ok (VString formatted))
    | _ => Ok v
    end.
Proof.
  intros Hlast Hsup Hdata Hdots Htrim Hne Hpath.
  rewrite (ln_unfold _ _ _ _ Hlast), Hsup. cbv zeta.
  rewrite (split_dot_join _ _ Hdots). cbn [hd tl]. rewrite Htrim.
  apply String.eqb_neq in Hne. rewrite Hne.
  cbn [lookup_path] in Hpath. destruct data as [| | | | | |ps]; try done.
  destruct (lookup_prop first ps) as [x|] eqn:Hk; cbn in Hpath; [|done].
  rewrite (object_owns_key ps first x Hdata Hk). cbn [bind negb].
  rewrite (object_get_key ps first x Hk).
  assert (Hx : free_of ["hasOwnProperty"] x = true).
  { pose proof (free_of_get _ _ first Hdata) as Hx. cbn in Hx. by rewrite Hk in Hx. }
  rewrite (descend_lookup_path x rest v Hx Hpath).
  cbn [bind]. unfold format_found. destruct v; try done.
Qed.
End MoreLookupProperties.

(** ** The poll of the hot reload *)


(** ** Loading the translations *)

Lemma apply_effects_app (st : hook_state) (first second : list effect) :
  apply_effects st (first ++ second) = apply_effects (apply_effects st first) second.
Proof. apply fold_left_app. Qed.

(** The calls of [fetch] leave the state as it is. *)
Lemma apply_requests translationsUrl language (files : list string)
    (st : hook_state) :
  apply_effects st (requests translationsUrl files language) = st.
Proof. revert st. induction files as [|file files IH]; intros st; [done|apply IH]. Qed.

(** The state after a load that has fetched. *)
Lemma apply_load translationsUrl language (files : list string)
    (st : hook_state) (final : list effect) :
  apply_effects st
    (SetLoadingResource true :: requests translationsUrl files language ++ final)
  = apply_effects {| state_data := state_data st; state_loadingResource := true |}
      final.
Proof.
  change (SetLoadingResource true :: requests translationsUrl files language ++ final)
    with ([SetLoadingResource true] ++ requests translationsUrl files language ++ final).
  by rewrite !apply_effects_app, apply_requests.
Qed.

(** The empty object that [loadTranslations] puts first changes nothing. *)
Lemma deepMerge_empty_first (objects : list value) :
  deepMerge (VObject [] :: objects) = deepMerge objects.
Proof. done. Qed.

(** An object with a key ["hasOwnProperty"] ends the merge: the test of
    its first key calls what is no function. *)
Lemma deepMerge_shadowed_throws (before after : list value) (file : props) :
  Forall (λ v, plain v = true) before →
  has_own (VObject file) "hasOwnProperty" = true →
  deepMerge (before ++ VObject file :: after) = Some (Throw TypeError).
Proof.
  intros Hbefore Hfile. unfold deepMerge.
  set (n := max_depth (before ++ VObject file :: after)).
  assert (Hn : max_depth before < S n).
  { subst n. clear. induction before as [|obj before IH]; [cbn; lia|].
    change ((obj :: before) ++ VObject file :: after)
      with (obj :: (before ++ VObject file :: after)).
    rewrite !max_depth_cons. lia. }
  destruct (plain_deepMerge_fuel_enough (S n) before Hn) as (r & Hr & _).
  cbn [plain_deepMerge_fuel] in Hr.
  destruct (fold_left _ before (Some [])) as [r'|] eqn:Hfold; [|done].
  cbn [deepMerge_fuel]. rewrite fold_left_app.
  destruct (merge_objects_plain (deepMerge_fuel n) (plain_deepMerge_fuel n)
              (λ os Hos, proj1 (deepMerge_fuel_plain n os Hos))
              (λ os v Hos, proj2 (deepMerge_fuel_plain n os Hos) v)
              before [] Hbefore eq_refl) as [-> _].
  rewrite Hfold. cbn [returned fmap option_fmap option_map fold_left].
  replace (merge_object (deepMerge_fuel n) (Some (Ok r')) (VObject file))
    with (Some (Throw TypeError) : merging); [by rewrite merge_objects_halt|].
  unfold merge_object. cbn [truthy typeof negb orb String.eqb Ascii.eqb Bool.eqb].
  cbn [has_own] in Hfile. destruct file as [|[k v] file]; [done|].
  cbn [enumerable_keys map fst fold_left]. rewrite merge_keys_halt.
  - unfold merge_key, hasOwnProperty. cbn [is_nullish owns]. by rewrite Hfile.
  - unfold merge_key, hasOwnProperty. cbn [is_nullish owns]. by rewrite Hfile.
Qed.

(** A load all of whose files have come. *)
Lemma loadTranslations_fetched translationsUrl managedLanguages resourceFiles
    language fetch (results : list value) :
  language_key language ∈ managedLanguages →
  Forall2 (λ file json, file_promise translationsUrl language fetch file = Some json)
    resourceFiles results →
  loadTranslations translationsUrl managedLanguages resourceFiles language fetch =
    match deepMerge results with
    | Some (Ok mergedData) =>
        Some (SetLoadingResource true :: requests translationsUrl resourceFiles language
              ++ [SetData mergedData; SetLoadingResource false])
    | Some (Throw _) =>
        Some (SetLoadingResource true :: requests translationsUrl resourceFiles language
              ++ caught)
    | None => None
    end.
Proof.
  intros Hlang Hall. unfold loadTranslations.
  rewrite bool_decide_eq_true_2 by done. cbn [negb].
  by rewrite (mapM_Some_2 _ resourceFiles results Hall), deepMerge_empty_first.
Qed.

Lemma lookup_prop_key (k : string) (v : value) (ps : props) :
  lookup_prop k ps = Some v → k ∈ map fst ps.
Proof.
  intros Hk. destruct (decide (k ∈ map fst ps)) as [|Hn]; [done|].
  apply lookup_prop_None in Hn. congruence.
Qed.

Section LoadProperties.
Context `{NumberToString} `{Inherited}.
Variable translationsUrl : string.
Variable managedLanguages : list string.
Variable resourceFiles : list string.
Variable language : language_state.
Variable fetch : string → fetched.

Local Abbreviation load :=
  (loadTranslations translationsUrl managedLanguages resourceFiles language fetch).
Local Abbreviation promise := (file_promise translationsUrl language fetch).
Local Abbreviation fetches := (requests translationsUrl resourceFiles language).

(** A load that brings no document.  When the language is not among the
    managed ones the load warns and fetches nothing, and the document in
    place, that of the language before, stays.  When it is, and one
    resource file cannot be had (the request fails, the status is not ok,
    or the body is not JSON), every file is requested and the document
    becomes the empty one, whatever the other files hold; a lookup without
    [defaultTxt], whose last argument is neither [null] nor an object with
    a property [hasOwnProperty], then answers its key.  Either way the
    loading flag is down at the end. *)
Theorem loadTranslations_without_document (st : hook_state) :
  (language_key language ∉ managedLanguages →
   load = Some [SetLoadingResource true; ConsoleWarn; SetLoadingResource false] ∧
   apply_effects st [SetLoadingResource true; ConsoleWarn; SetLoadingResource false] =
     {| state_data := state_data st; state_loadingResource := false |}) ∧
  (language_key language ∈ managedLanguages →
   (∃ file, file ∈ resourceFiles ∧ promise file = None) →
   load = Some (SetLoadingResource true :: fetches
                ++ [ConsoleError; SetData (VObject []); SetLoadingResource false]) ∧
   apply_effects st (SetLoadingResource true :: fetches
                ++ [ConsoleError; SetData (VObject []); SetLoadingResource false]) =
     {| state_data := VObject []; state_loadingResource := false |} ∧
   ∀ loadingResource key args,
     last_argument_tested args → carries_defaultTxt args = false →
     trimEnd (trimStart (hd "" (split_dot key))) ≠ "" →
     ln (VObject []) loadingResource key args = Ok (VString key)).
Proof.
  split.
  - intros Hlang. unfold loadTranslations.
    by rewrite bool_decide_eq_false_2 by done.
  - intros Hlang (file & Hfile & Hnone). split; [|split].
    + unfold loadTranslations. rewrite bool_decide_eq_true_2 by done. cbn [negb].
      rewrite (mapM_None_2 promise resourceFiles); [done|].
      apply Exists_exists. eauto.
    + by rewrite apply_load.
    + intros loadingResource key args Hlast Hcarry Hkey.
      rewrite (ln_unfold _ _ _ _ Hlast). unfold suppressed, default_text, fallback.
      rewrite Hcarry. cbn [andb orb truthy negb]. cbv zeta.
      apply String.eqb_neq in Hkey. by rewrite Hkey.
Qed.

(** A load that brings the documents of all its resource files requests
    each of them, in the order of the files; when [deepMerge] returns, it
    sets the document to the merge; when [deepMerge] throws, as it does
    when a file has a key ["hasOwnProperty"], the [catch] clause sets the
    empty document; either way it lowers the loading flag last.
    [deepMerge] returns when the files are plain, and with one plain file
    whose document has unique keys the document set is that one. *)
Theorem loadTranslations_merges (st : hook_state) (results : list value) :
  language_key language ∈ managedLanguages →
  Forall2 (λ file json, promise file = Some json) resourceFiles results →
  (∀ merged, deepMerge results = Some (Ok merged) →
     load = Some (SetLoadingResource true :: fetches
                  ++ [SetData merged; SetLoadingResource false]) ∧
     apply_effects st (SetLoadingResource true :: fetches
                       ++ [SetData merged; SetLoadingResource false]) =
       {| state_data := merged; state_loadingResource := false |}) ∧
  (∀ e, deepMerge results = Some (Throw e) →
     load = Some (SetLoadingResource true :: fetches
                  ++ [ConsoleError; SetData (VObject []); SetLoadingResource false]) ∧
     apply_effects st (SetLoadingResource true :: fetches
                  ++ [ConsoleError; SetData (VObject []); SetLoadingResource false]) =
       {| state_data := VObject []; state_loadingResource := false |}) ∧
  (∀ before after file,
     results = before ++ VObject file :: after →
     Forall (λ v, plain v = true) before →
     has_own (VObject file) "hasOwnProperty" = true →
     deepMerge results = Some (Throw TypeError)) ∧
  (Forall (λ v, plain v = true) results →
     ∃ merged, deepMerge results = Some (Ok (VObject merged))) ∧
  (∀ d, results = [d] → is_document d = true → unique_keys d → plain d = true →
        deepMerge results = Some (Ok d)).
Proof.
  intros Hlang Hall.
  pose proof (loadTranslations_fetched _ _ _ _ _ results Hlang Hall) as Hload.
  split; [|split; [|split; [|split]]].
  - intros merged Hmerged. rewrite Hload, Hmerged. split; [done|]. by rewrite apply_load.
  - intros e He. rewrite Hload, He. split; [done|]. by rewrite apply_load.
  - intros before after file -> Hbefore Hfile.
    by apply deepMerge_shadowed_throws.
  - intros Hplain. destruct (plain_deepMerge_keys results) as (merged & Hmerged & _).
    exists merged. by rewrite (deepMerge_plain _ Hplain), Hmerged.
  - intros d -> Hdoc Hu Hplain.
    destruct (plain_deepMerge_left_identity d Hdoc Hu) as (Hd & _).
    rewrite deepMerge_plain by (by repeat constructor). by rewrite Hd.
Qed.

(** A later file overrides an earlier one.  After a load that brings all
    its files, plain documents, a key without a dot, not empty and without
    white space at its ends, resolves to the text that the last file
    having the key at its top level holds there, formatted with the
    arguments, whatever the files before it hold at that key. *)
Theorem loadTranslations_later_file_wins (st : hook_state)
    (before after : list value) (file : props) (k text : string)
    (args : list value) :
  language_key language ∈ managedLanguages →
  Forall2 (λ name json, promise name = Some json)
    resourceFiles (before ++ VObject file :: after) →
  Forall (λ v, plain v = true) (before ++ VObject file :: after) →
  lookup_prop k file = Some (VString text) →
  Forall (λ later, mergeable later = true → k ∉ enumerable_keys later) after →
  "."%char ∉ units k → trimEnd (trimStart k) = k → k ≠ "" →
  last_argument_tested args → carries_defaultTxt args = false →
  ∃ effects,
    load = Some effects ∧
    state_loadingResource (apply_effects st effects) = false ∧
    ∀ loadingResource,
      ln (state_data (apply_effects st effects)) loadingResource k args
      = bind (format text args) (λ formatted, Ok (VString formatted)).
Proof.
  intros Hlang Hall Hplain Hk Hafter Hdot Htrim Hne Hlast Hcarry.
  assert (Hin : k ∈ enumerable_keys (VObject file)) by exact (lookup_prop_key _ _ _ Hk).
  destruct (plain_deepMerge_last_wins before after (VObject file) k eq_refl Hin)
    as (merged & Hmerged & Hget); [cbn; by rewrite Hk|done|].
  pose proof (deepMerge_plain_result _ _ Hplain Hmerged) as Hresult.
  pose proof (loadTranslations_fetched _ _ _ _ _ _ Hlang Hall) as Hload.
  rewrite (deepMerge_plain _ Hplain), Hmerged in Hload. cbn in Hload.
  eexists. split; [exact Hload|]. rewrite apply_load. split; [done|].
  intros loadingResource. cbn [apply_effects fold_left apply_effect state_data].
  rewrite (ln_unfold _ _ _ _ Hlast). unfold suppressed. rewrite Hcarry.
  cbn [andb orb truthy negb]. cbv zeta.
  pose proof (split_dot_join k [] ltac:(by repeat constructor)) as Hsplit.
  cbn [join] in Hsplit. rewrite Hsplit. cbn [hd tl].
  rewrite Htrim. apply String.eqb_neq in Hne. rewrite Hne.
  unfold get in Hget. rewrite Hk in Hget.
  destruct (lookup_prop k merged) as [found|] eqn:Hfound; cbn in Hget;
    [subst found|done].
  assert (Hfree : owns (VObject merged) "hasOwnProperty" = false).
  { apply (free_of_owns ["hasOwnProperty"; "__proto__"]); [by left|done]. }
  rewrite (object_dispatches_key merged k (VString text) Hfree Hfound).
  cbn [bind negb descend]. by rewrite (object_get_key merged k (VString text) Hfound).
Qed.
End LoadProperties.

(** ** The loading flag that [ln] holds *)

Section Suppression.
Context `{NumberToString} `{Inherited}.

(** A render after calls that do not set the document keeps the closure. *)
Lemma render_keeps_ln (e : engine) (effects : list effect) key args :
  existsb sets_data effects = false →
  state_data (apply_effects (engine_state e) effects) = state_data (engine_state e) ∧
  engine_ln (render e effects) key args = engine_ln e key args.
Proof.
  intros Hnone. unfold engine_ln, render. cbn [ln_loadingResource engine_state].
  rewrite Hnone.
  assert (Hdata : state_data (apply_effects (engine_state e) effects)
                  = state_data (engine_state e)).
  { unfold apply_effects. generalize (engine_state e) as st.
    induction effects as [|effect effects IH]; intros st; [done|].
    cbn [existsb] in Hnone. apply orb_false_elim in Hnone as [Heffect Hrest].
    cbn [fold_left]. rewrite (IH Hrest). by destruct effect. }
  by rewrite Hdata.
Qed.

(** C9 (the failing inputs, evaluated).  With no document and loading in
    progress, a lookup whose last argument is [null], or an object with a
    property [hasOwnProperty] of its own, throws instead of answering the
    empty string.  For every other argument list [ln] suppresses as
    specified on the [loadingResource] it holds: with an override, the
    empty string when there is no document or loading is in progress;
    without one, the empty string when there is no document and loading is
    in progress.  The flag it holds is that of the render that made the
    closure, [useCallback] having [data] for its one dependency: it is the
    flag of the engine in the first render and in a render that follows a
    [setData], and a render that follows [setLoadingResource] alone keeps
    the closure.  So after a load has set a document [d] and lowered the
    flag in one render, a further load raises the flag of the engine while
    [ln] goes on answering from [d], override or not; and where the two
    calls of the load are rendered one after the other, [ln] keeps the
    raised flag of the first of the two renders although the engine has
    lowered it. *)
Theorem ln_loading_suppression :
  (∀ key pre, ln VUndefined true key (pre ++ [VNull]) = Throw TypeError) ∧
  (∀ key pre bag, owns bag "hasOwnProperty" = true →
     ln VUndefined true key (pre ++ [bag]) = Throw TypeError) ∧
  (∀ data loadingResource key args,
     last_argument_tested args →
     (carries_defaultTxt args = true →
      truthy data = false ∨ loadingResource = true →
      ln data loadingResource key args = Ok (VString "")) ∧
     (carries_defaultTxt args = false →
      truthy data = false → loadingResource = true →
      ln data loadingResource key args = Ok (VString ""))) ∧
  (∀ key args, engine_ln first_render key args = ln VUndefined true key args) ∧
  (∀ e effects key args,
     existsb sets_data effects = true →
     engine_ln (render e effects) key args =
       ln (state_data (engine_state (render e effects)))
          (state_loadingResource (engine_state (render e effects))) key args) ∧
  (∀ e flag key args,
     state_loadingResource (engine_state (render e [SetLoadingResource flag])) = flag ∧
     state_data (engine_state (render e [SetLoadingResource flag]))
       = state_data (engine_state e) ∧
     engine_ln (render e [SetLoadingResource flag]) key args = engine_ln e key args) ∧
  (∀ d key args,
     let loaded := render first_render [SetData d; SetLoadingResource false] in
     let reloading := render loaded [SetLoadingResource true] in
     state_loadingResource (engine_state reloading) = true ∧
     engine_ln reloading key args = ln d false key args) ∧
  (∀ d key args,
     let loaded := render (render first_render [SetData d])
                     [SetLoadingResource false] in
     state_loadingResource (engine_state loaded) = false ∧
     engine_ln loaded key args = ln d true key args) ∧
  (let loaded := render first_render
                   [SetData (VObject [("title", VString "Titre")]);
                    SetLoadingResource false] in
   let reloading := render loaded [SetLoadingResource true] in
   state_loadingResource (engine_state reloading) = true ∧
   engine_ln reloading "title" [VObject [("defaultTxt", VString "Title")]]
     = Ok (VString "Titre") ∧
   engine_ln reloading "missing" [VObject [("defaultTxt", VString "Title")]]
     = Ok (VString "Title")).
Proof.
  split; [|split; [|split; [|split; [|split; [|split; [|split; [|split]]]]]]].
  - intros key pre. unfold ln. by rewrite length_snoc_pos, last_snoc.
  - intros key pre bag Hbag. unfold ln.
    rewrite length_snoc_pos, last_snoc. destruct bag; try done.
    cbn [typeof String.eqb andb]. unfold hasOwnProperty. cbn [is_nullish].
    by rewrite Hbag.
  - intros data loadingResource key args Hlast.
    rewrite (ln_unfold _ _ _ _ Hlast). unfold suppressed. split.
    + intros -> [-> | ->]; cbn; [done|]. by destruct (truthy data).
    + by intros -> -> ->.
  - done.
  - intros e effects key args Hsets. unfold engine_ln, render.
    cbn [ln_loadingResource engine_state]. by rewrite Hsets.
  - intros e flag key args. split; [done|]. split; [done|].
    by apply render_keeps_ln.
  - intros d key args. cbv zeta. split; [done|]. done.
  - intros d key args. cbv zeta. split; [done|]. done.
  - cbv zeta. split; [done|]. split; vm_compute; reflexivity.
Qed.
End Suppression.

(** * Closed instances

    Numbers are printed by [integral_number_to_string], and the members an
    object inherits are those of [v8_object_member]. *)

(** ** The claims *)

(** C2, counterexample: the only argument is a mapping, and the indexed
    token is substituted with it; with one positional argument before it,
    the second indexed token is. *)
Lemma format_substitutes_the_bag :
  format "{{}}" [VObject [("name", VString "test")]] = Ok "[object Object]" ∧
  format "{{}} {{}}" [VString "a"; VObject [("name", VString "x")]]
    = Ok "a [object Object]".
Proof. split; reflexivity. Qed.

Lemma format_bag_stays_positional_witness :
  format "{{}} {{}} {{name}} {{other}}" ([VString "a"] ++ [VObject [("other", VString "x")]])
    = Ok "a [object Object] {{name}} x" ∧
  format (indexed_tokens 2) ([VString "a"] ++ [VObject [("other", VString "x")]])
    = Ok "a[object Object]" ∧
  format (placeholder_text "name") ([VString "a"] ++ [VObject [("other", VString "x")]])
    = Ok "{{name}}".
Proof.
  destruct (format_bag_stays_positional "{{}} {{}} {{name}} {{other}}"
              [VString "a"] [("other", VString "x")]) as (H1 & H2 & H3).
  { repeat constructor; discriminate. }
  split; [exact H1|]. split.
  - apply (H2 ["a"]). by repeat constructor.
  - apply H3; [by repeat split|discriminate|reflexivity].
Defined.



Lemma strict_store_graded : graded strict_level 1 strict_store.
Proof.
  unfold graded, strict_store. intros l c Hl.
  repeat (apply lookup_insert_Some in Hl as [[<- <-]|[? Hl]];
          [split; [cbn; lia|];
           intros l' Hin; cbn in Hin;
           repeat (apply elem_of_cons in Hin as [Hin|Hin]; [by simplify_eq|]);
           by apply elem_of_nil in Hin|]).
  done.
Qed.

Lemma strict_store_free : store_free_of ["hasOwnProperty"] strict_store.
Proof.
  intros l c name Hl ->%list_elem_of_singleton. unfold strict_store in Hl.
  repeat (apply lookup_insert_Some in Hl as [[<- <-]|[? Hl]]; [reflexivity|]).
  done.
Qed.

Lemma tags_store_plain : plain_store tags_store.
Proof.
  intros l c name Hl Hname. unfold tags_store in Hl.
  repeat (apply lookup_insert_Some in Hl as [[<- <-]|[? Hl]];
          [repeat (apply elem_of_cons in Hname as [->|Hname]; [reflexivity|]);
           by apply elem_of_nil in Hname|]).
  done.
Qed.



(** ** The testable properties of the specification, evaluated *)

Lemma example_format_mixed (total : number) :
  format "Order {{}} for {{customerName}} - Total: ${{total}}"
    [VString "#12345";
     VObject [("customerName", VString "Alice"); ("total", VNumber total)]]
  = Ok ("Order #12345 for Alice - Total: $" +:+ number_to_string total).
Proof. rewrite <- (append_empty_r (number_to_string total)). reflexivity. Qed.

Lemma example_format_no_token :
  format "Hello World" [VString "test"] = Ok "Hello World" ∧
  format "" [VString "test"] = Ok "" ∧
  format "{{}} {{}}" [VString "a"; VString "b"; VString "c"] = Ok "a b" ∧
  format "Value: {{}}" [VNull] = Ok "Value: null" ∧
  format "Hello {{name}}!" [VObject [("other", VString "x")]] = Ok "Hello {{name}}!".
Proof. repeat split; reflexivity. Qed.

(** A named token reads what the bag inherits, and a bag with a property
    [toString] cannot be converted. *)
Lemma example_format_inherited :
  format "{{constructor}}" [VString "a"; VObject [("other", VString "x")]]
    = Ok "function Object() { [native code] }" ∧
  format "{{}} {{}}" [VString "a"; VObject [("toString", VString "x")]]
    = Throw TypeError.
Proof. split; reflexivity. Qed.

Lemma example_resolve :
  ln (VObject [("app", VObject [("title", VString "My App")])]) false "app.title" []
    = Ok (VString "My App") ∧
  ln (VObject [("app", VObject [("title", VString "My App")])]) false "app.missing" []
    = Ok (VString "app.missing") ∧
  ln (VObject [("app", VObject [("title", VString "My App")])]) false " .x" []
    = Ok (VString "unknown") ∧
  ln (VObject [("app", VObject [("title", VString "My App")])]) false "app" []
    = Ok (VObject [("title", VString "My App")]).
Proof. repeat split; reflexivity. Qed.

Lemma example_missing_key :
  ln (VObject []) false "missing.key" [VObject [("defaultTxt", VString "Fallback")]]
    = Ok (VString "Fallback") ∧
  ln (VObject []) false "missing.key" [] = Ok (VString "missing.key") ∧
  ln VUndefined true "anything" [] = Ok (VString "").
Proof. repeat split; reflexivity. Qed.

(** An argument, or a document, with a property [hasOwnProperty]. *)
Lemma example_shadowed_lookup :
  ln (VObject [("app", VObject [("title", VString "My App")])]) false "app.title"
     [VObject [("hasOwnProperty", n_ 1)]] = Throw TypeError ∧
  ln (VObject [("app", VString "x"); ("hasOwnProperty", n_ 1)]) false "app" []
    = Throw TypeError ∧
  ln (VObject [("app", VObject [("title", VString "T"); ("hasOwnProperty", n_ 1)])])
     false "app.title" [] = Ok (VString "app.title").
Proof. repeat split; reflexivity. Qed.

Lemma example_plural_forms :
  plural_form "en" (number_of_Z 0) = Ok "plural" ∧
  plural_form "en" (number_of_Z 1) = Ok "singular" ∧
  plural_form "en" (number_of_Z 5) = Ok "plural" ∧
  plural_form "fr" (number_of_Z 0) = Ok "singular" ∧
  plural_form "fr" (number_of_Z 1) = Ok "singular" ∧
  plural_form "fr" (number_of_Z 2) = Ok "plural" ∧
  plural_form "fr" (NFin (1 # 2)) = Ok "singular" ∧
  plural_form "xx" (number_of_Z 1) = Ok "singular" ∧
  plural_form "xx" (number_of_Z 2) = Ok "plural" ∧
  plural_form "constructor" (number_of_Z 1) = Ok "1" ∧
  plural_form "valueOf" (number_of_Z 1) = Throw TypeError.
Proof. repeat split; reflexivity. Qed.

Lemma example_plural_lookup :
  lnPlural messages_document {| language_key := "en" |} false
    "messages.notification" (number_of_Z 1) []
    = Ok (VString "You have 1 new message") ∧
  lnPlural messages_document {| language_key := "en" |} false
    "messages.notification" (number_of_Z 5) []
    = Ok (VString "You have 5 new messages") ∧
  lnPlural messages_document {| language_key := "constructor" |} false
    "messages.notification" (number_of_Z 1) []
    = Ok (VString "messages.notification.1") ∧
  lnPlural messages_document {| language_key := "__proto__" |} false
    "messages.notification" (number_of_Z 1) []
    = Throw TypeError.
Proof. repeat split; reflexivity. Qed.

Lemma example_deepMerge :
  deepMerge [VObject [("a", n_ 1); ("b", n_ 2)]; VObject [("b", n_ 3); ("c", n_ 4)]]
    = Some (Ok (VObject [("a", n_ 1); ("b", n_ 3); ("c", n_ 4)])) ∧
  deepMerge [VObject [("items", VArray [n_ 1; n_ 2; n_ 3])];
             VObject [("items", VArray [n_ 4; n_ 5])]]
    = Some (Ok (VObject [("items", VArray [n_ 4; n_ 5])])) ∧
  deepMerge [VObject [("a", n_ 1)]; VNull; VUndefined; VObject [("b", n_ 2)]]
    = Some (Ok (VObject [("a", n_ 1); ("b", n_ 2)])) ∧
  deepMerge [VObject [("app", VObject [("title", VString "App"); ("version", VString "1.0")])];
             VObject [("app", VObject [("version", VString "2.0"); ("author", VString "John")])]]
    = Some (Ok (VObject [("app", VObject [("title", VString "App"); ("version", VString "2.0");
                                          ("author", VString "John")])])).
Proof. repeat split; reflexivity. Qed.

(** A key ["__proto__"] that holds an object changes the prototype of the
    result: the call has no answer in the embedding. *)
Lemma example_deepMerge_prototype :
  deepMerge [VObject [("__proto__", VObject [("x", n_ 1)])]] = None ∧
  deepMerge [VObject [("__proto__", VNull)]] = None ∧
  deepMerge [VObject [("__proto__", n_ 1)]] = Some (Ok (VObject [])).
Proof. repeat split; reflexivity. Qed.

(** [strictMerge({a:1,b:2}, {b:3,c:4})] leaves the object passed equal to
    [{a:1,b:3}] and returns it; the nested example of the documentation. *)
Lemma example_strictDeepMerge :
  (let '(ss, h) :=
     store_values [VObject [("a", n_ 1); ("b", n_ 2)];
                   VObject [("b", n_ 3); ("c", n_ 4)]] ∅ in
   match ss with
   | SRef t :: rest =>
       match strictDeepMerge_st 2 t rest h with
       | Some (Ok r, h') => v ← read_value 2 h' r; Some (SRef t, r, v)
       | _ => None
       end
   | _ => None
   end) = Some (SRef 0, SRef 0, VObject [("a", n_ 1); ("b", n_ 3)]) ∧
  (snd <$> strictDeepMerge_st 2 1 [SRef 3] strict_store)
    ≫= (λ h', read_value 2 h' (SRef 1))
  = Some (VObject [("a", n_ 2); ("n", VObject [("x", n_ 5)])]).
Proof. split; reflexivity. Qed.

(** ** The further properties *)

Lemma format_without_placeholder_witness :
  format "Total: {5} items { {x} }" [VString "x"; VObject [("a", VString "y")]]
  = Ok "Total: {5} items { {x} }".
Proof.
  apply (format_without_placeholder "Total: {5} items { {x} }").
  cbn. repeat split; intros [? ?]; discriminate.
Defined.

Lemma ln_blank_first_segment_witness :
  ln (VObject [("app", VString "x")]) false "  .title"
     [VObject [("defaultTxt", VString "d")]]
  = Ok (VString "unknown").
Proof.
  apply (ln_blank_first_segment (VObject [("app", VString "x")]) false
           "  " ".title" [VObject [("defaultTxt", VString "d")]]).
  - split; [discriminate|reflexivity].
  - reflexivity.
  - by repeat constructor.
  - right. by eexists.
Defined.

Lemma ln_first_segment_missing_witness :
  ln (VObject [("app", VString "x")]) false "missing.{{}}" [VString "a"]
  = Ok (VString "missing.{{}}").
Proof.
  apply (ln_first_segment_missing (VObject [("app", VString "x")]) false
           "missing.{{}}" [VString "a"]).
  - split; [discriminate|reflexivity].
  - reflexivity.
  - discriminate.
  - reflexivity.
Defined.

Lemma ln_resolves_path_witness :
  ln (VObject [("app", VObject [("title", VString "Hello {{}}"); ("max", n_ 3)])])
     false "app.title" [VString "Bob"]
  = Ok (VString "Hello Bob").
Proof.
  apply (ln_resolves_path
           (VObject [("app", VObject [("title", VString "Hello {{}}"); ("max", n_ 3)])])
           false "app" ["title"] [VString "Bob"] (VString "Hello {{}}")).
  - split; [discriminate|reflexivity].
  - reflexivity.
  - reflexivity.
  - repeat constructor; by apply (bool_decide_unpack _).
  - reflexivity.
  - discriminate.
  - reflexivity.
Defined.

Lemma deepMerge_keys_witness :
  ∃ result,
    deepMerge [VObject [("a", n_ 1)]; VNull; VArray [VString "x"]]
      = Some (Ok (VObject result)) ∧
    NoDup (map fst result) ∧
    ∀ k, has_own (VObject result) k = true ↔
         ∃ obj, obj ∈ [VObject [("a", n_ 1)]; VNull; VArray [VString "x"]]
                ∧ mergeable obj = true ∧ k ∈ enumerable_keys obj.
Proof.
  apply (deepMerge_keys [VObject [("a", n_ 1)]; VNull; VArray [VString "x"]]).
  by repeat constructor.
Defined.

Lemma deepMerge_last_wins_witness :
  ∃ result,
    deepMerge ([VObject [("items", VArray [n_ 1]); ("a", n_ 1)]]
               ++ VObject [("items", VArray [n_ 4; n_ 5])]
               :: [VObject [("b", n_ 2)]; VNull])
    = Some (Ok (VObject result)) ∧
    get (VObject result) "items" = VArray [n_ 4; n_ 5].
Proof.
  apply (deepMerge_last_wins [VObject [("items", VArray [n_ 1]); ("a", n_ 1)]]
           [VObject [("b", n_ 2)]; VNull]
           (VObject [("items", VArray [n_ 4; n_ 5])]) "items").
  - by repeat constructor.
  - reflexivity.
  - by apply (bool_decide_unpack _).
  - reflexivity.
  - repeat constructor; intros _; by apply (bool_decide_unpack _).
Defined.

Lemma deepMerge_incremental_witness :
  ∃ r, deepMerge [VObject [("a", n_ 1)]; VObject [("b", VObject [("x", n_ 1)])]]
         = Some (Ok r) ∧
       deepMerge (r :: [VObject [("b", VObject [("y", n_ 2)])]])
         = deepMerge ([VObject [("a", n_ 1)]; VObject [("b", VObject [("x", n_ 1)])]]
                      ++ [VObject [("b", VObject [("y", n_ 2)])]]) ∧
       deepMerge [r] = Some (Ok r).
Proof.
  apply (deepMerge_incremental
           [VObject [("a", n_ 1)]; VObject [("b", VObject [("x", n_ 1)])]]
           [VObject [("b", VObject [("y", n_ 2)])]]).
  by repeat constructor.
Defined.

Lemma deepMerge_idempotent_witness :
  deepMerge [VObject [("app", VObject [("title", VString "A")]); ("n", VArray [n_ 1])];
             VObject [("app", VObject [("title", VString "A")]); ("n", VArray [n_ 1])]]
  = Some (Ok (VObject [("app", VObject [("title", VString "A")]); ("n", VArray [n_ 1])])).
Proof.
  apply (deepMerge_idempotent
           (VObject [("app", VObject [("title", VString "A")]); ("n", VArray [n_ 1])])).
  - reflexivity.
  - cbn. repeat split; by apply (bool_decide_unpack _).
  - reflexivity.
Defined.

Lemma deepMerge_key_by_key_witness :
  ∃ result,
    deepMerge [VObject [("app", VObject [("title", VString "A")])];
               VObject [("user", n_ 1)];
               VObject [("app", VObject [("version", VString "1")])]]
    = Some (Ok (VObject result)) ∧
    Ok <$> lookup_prop "app" result =
      deepMerge [VObject [("title", VString "A")];
                 VObject [("version", VString "1")]].
Proof.
  apply (deepMerge_key_by_key
           [VObject [("app", VObject [("title", VString "A")])];
            VObject [("user", n_ 1)];
            VObject [("app", VObject [("version", VString "1")])]] "app").
  - by repeat constructor.
  - repeat constructor; try by apply (bool_decide_unpack _).
    all: cbn; done.
Defined.

Lemma deepMerge_answers_witness :
  (deepMerge [VObject [("a", VObject [("hasOwnProperty", n_ 1)])]]
     = Some (Throw TypeError) ∨
   ∃ r, deepMerge [VObject [("a", VObject [("hasOwnProperty", n_ 1)])]]
          = Some (Ok (VObject r)) ∧
        free_of ["__proto__"] (VObject r) = true) ∧
  (Forall (λ v, free_of ["hasOwnProperty"] v = true)
     [VObject [("a", VObject [("hasOwnProperty", n_ 1)])]] →
   ∃ r, deepMerge [VObject [("a", VObject [("hasOwnProperty", n_ 1)])]]
          = Some (Ok (VObject r))).
Proof.
  apply (deepMerge_answers [VObject [("a", VObject [("hasOwnProperty", n_ 1)])]]).
  by repeat constructor.
Defined.

Lemma getInitial_single_name_witness : getInitial "  john" = Ok "J-".
Proof.
  apply (getInitial_single_name "  john" "j" "ohn").
  - by apply (bool_decide_unpack _).
  - reflexivity.
Defined.

Lemma getInitial_two_fields_witness :
  getInitial "Doe, john,x" = Ok "DJ" ∧ getInitial " ,John" = Ok "UNDEFINEDJ".
Proof.
  split.
  - destruct (getInitial_two_fields "Doe, john,x" "Doe" " john" ["x"] eq_refl eq_refl)
      as (Hboth & _ & _).
    apply (Hboth "D"%char "j"%char); reflexivity.
  - destruct (getInitial_two_fields " ,John" " " "John" [] eq_refl eq_refl)
      as (_ & Hgiven & _).
    apply (Hgiven "J"%char); reflexivity.
Defined.

Lemma capitalizeWords_single_word_witness :
  capitalizeWords "hello" = capitalizeFirstLetter "hello".
Proof.
  apply (capitalizeWords_single_word "hello"). by repeat constructor.
Defined.
Lemma loadTranslations_merges_witness :
  (∀ merged,
     deepMerge [VObject [("app", VObject [("title", VString "App")]);
                         ("login", VString "Sign in")];
                VObject [("app", VObject [("version", VString "2")]);
                         ("login", VString "Log in, {{}}")]] = Some (Ok merged) →
     loadTranslations "/locales" ["en"; "fr"] ["common.json"; "auth.json"]
       {| language_key := "en" |} example_fetch
     = Some (SetLoadingResource true
             :: requests "/locales" ["common.json"; "auth.json"]
                  {| language_key := "en" |}
             ++ [SetData merged; SetLoadingResource false]) ∧
     apply_effects {| state_data := VUndefined; state_loadingResource := true |}
       (SetLoadingResource true
        :: requests "/locales" ["common.json"; "auth.json"]
             {| language_key := "en" |}
        ++ [SetData merged; SetLoadingResource false])
     = {| state_data := merged; state_loadingResource := false |}) ∧
  ∃ merged,
    deepMerge [VObject [("app", VObject [("title", VString "App")]);
                        ("login", VString "Sign in")];
               VObject [("app", VObject [("version", VString "2")]);
                        ("login", VString "Log in, {{}}")]]
    = Some (Ok (VObject merged)).
Proof.
  destruct (loadTranslations_merges "/locales" ["en"; "fr"]
              ["common.json"; "auth.json"] {| language_key := "en" |} example_fetch
              {| state_data := VUndefined; state_loadingResource := true |}
              [VObject [("app", VObject [("title", VString "App")]);
                        ("login", VString "Sign in")];
               VObject [("app", VObject [("version", VString "2")]);
                        ("login", VString "Log in, {{}}")]])
    as (Hreturns & _ & _ & Hplain & _).
  - by apply (bool_decide_unpack _).
  - by repeat constructor.
  - split; [exact Hreturns|]. apply Hplain. by repeat constructor.
Defined.

Lemma loadTranslations_later_file_wins_witness :
  ∃ effects,
    loadTranslations "/locales" ["en"; "fr"] ["common.json"; "auth.json"]
      {| language_key := "en" |} example_fetch = Some effects ∧
    state_loadingResource
      (apply_effects {| state_data := VUndefined; state_loadingResource := true |}
         effects) = false ∧
    ∀ loadingResource,
      ln (state_data
            (apply_effects
               {| state_data := VUndefined; state_loadingResource := true |}
               effects))
         loadingResource "login" [VString "Ann"]
      = bind (format "Log in, {{}}" [VString "Ann"])
          (λ formatted, Ok (VString formatted)).
Proof.
  apply (loadTranslations_later_file_wins "/locales" ["en"; "fr"]
           ["common.json"; "auth.json"] {| language_key := "en" |} example_fetch
           {| state_data := VUndefined; state_loadingResource := true |}
           [VObject [("app", VObject [("title", VString "App")]);
                     ("login", VString "Sign in")]]
           []
           [("app", VObject [("version", VString "2")]);
            ("login", VString "Log in, {{}}")]
           "login" "Log in, {{}}" [VString "Ann"]).
  - by apply (bool_decide_unpack _).
  - by repeat constructor.
  - by repeat constructor.
  - reflexivity.
  - constructor.
  - by apply (bool_decide_unpack _).
  - reflexivity.
  - discriminate.
  - split; [discriminate|reflexivity].
  - reflexivity.
Defined.

(** The load of the two files, run: the requests, the document and the
    lookup; and the load of a file with a key ["hasOwnProperty"], which
    ends in the [catch] clause. *)
Lemma example_loadTranslations :
  loadTranslations "/locales" ["en"; "fr"] ["common.json"; "auth.json"]
    {| language_key := "en" |} example_fetch
  = Some [SetLoadingResource true;
          Fetch "/locales/en/common.json"; Fetch "/locales/en/auth.json";
          SetData (VObject [("app", VObject [("title", VString "App");
                                             ("version", VString "2")]);
                            ("login", VString "Log in, {{}}")]);
          SetLoadingResource false] ∧
  loadTranslations "/locales" ["en"; "fr"] ["common.json"; "auth.json"]
    {| language_key := "de" |} example_fetch
  = Some [SetLoadingResource true; ConsoleWarn; SetLoadingResource false] ∧
  loadTranslations "/locales" ["en"; "fr"] ["common.json"; "auth.json"]
    {| language_key := "fr" |} example_fetch
  = Some [SetLoadingResource true;
          Fetch "/locales/fr/common.json"; Fetch "/locales/fr/auth.json";
          ConsoleError; SetData (VObject []); SetLoadingResource false] ∧
  loadTranslations "/locales" ["en"] ["common.json"] {| language_key := "en" |}
    (λ _, Responded true (Some shadowing_document) None)
  = Some [SetLoadingResource true; Fetch "/locales/en/common.json";
          ConsoleError; SetData (VObject []); SetLoadingResource false].
Proof. repeat split; reflexivity. Qed.

Lemma strictDeepMerge_nothing_shared_witness :
  strictDeepMerge_st 1 0 [SNull; SNumber (number_of_Z 5); SRef 3] strict_store
  = Some (Ok (SRef 0), strict_store).
Proof.
  apply (strictDeepMerge_nothing_shared 0 strict_store 0
           (CObject [("x", SNumber (number_of_Z 1))])).
  - exact strict_store_free.
  - reflexivity.
  - repeat constructor; try done.
    intros l [= <-]. eexists. split; [reflexivity|].
    intros k ->%list_elem_of_singleton. reflexivity.
Defined.


(** A target, or a source, with a property [hasOwnProperty]: the call
    throws at the first key, and nothing has been written. *)
Lemma example_strictDeepMerge_shadowed :
  strictDeepMerge_st 2 0 [SRef 1]
    (<[0 := CObject [("a", SNumber (number_of_Z 1))]]>
     (<[1 := CObject [("hasOwnProperty", SNumber (number_of_Z 1))]]> ∅))
  = Some (Throw TypeError,
          <[0 := CObject [("a", SNumber (number_of_Z 1))]]>
          (<[1 := CObject [("hasOwnProperty", SNumber (number_of_Z 1))]]> ∅)).
Proof. reflexivity. Qed.

Lemma deepMerge_st_shares_witness :
  ∃ r h' rc,
    deepMerge_st (S (max_depth tags_values)) ([SRef 1] ++ SRef 3 :: [SRef 4])
      tags_store = Some (Ok r, h') ∧
    tags_store !! r = None ∧ tags_store ⊆ h' ∧
    h' !! r = Some rc ∧
    cell_get rc "tags" = cell_get (CObject [("tags", SRef 2)]) "tags".
Proof.
  apply (deepMerge_st_shares tags_store [SRef 1] [SRef 4] 3
           (CObject [("tags", SRef 2)]) tags_values "tags").
  - exact tags_store_plain.
  - assert (Hnumber : ∀ n, reifies tags_store (SNumber n) (VNumber n))
      by apply reifies_number.
    repeat apply List.Forall2_cons; try apply List.Forall2_nil.
    + apply (reifies_object tags_store 1 [("tags", SRef 0)]); [reflexivity|].
      repeat apply List.Forall2_cons; try apply List.Forall2_nil.
      split; [reflexivity|].
      apply (reifies_array tags_store 0 [SNumber (number_of_Z 1)]); [reflexivity|].
      repeat apply List.Forall2_cons; try apply List.Forall2_nil; apply Hnumber.
    + apply (reifies_object tags_store 3 [("tags", SRef 2)]); [reflexivity|].
      repeat apply List.Forall2_cons; try apply List.Forall2_nil.
      split; [reflexivity|].
      apply (reifies_array tags_store 2
               [SNumber (number_of_Z 2); SNumber (number_of_Z 3)]); [reflexivity|].
      repeat apply List.Forall2_cons; try apply List.Forall2_nil; apply Hnumber.
    + apply (reifies_object tags_store 4 [("title", SString "x")]); [reflexivity|].
      repeat apply List.Forall2_cons; try apply List.Forall2_nil.
      split; [reflexivity|]. apply reifies_string.
  - reflexivity.
  - by apply (bool_decide_unpack _).
  - reflexivity.
  - apply List.Forall_cons; [|apply List.Forall_nil].
    intros l c [= <-] [= <-]. by apply (bool_decide_unpack _).
Defined.
